(** * The Splash codec: shared engine, encoder driver and decoder driver

    A shallow embedding of [splash.h] (context, [splash_init],
    [updateLines]), [splashenc.c] ([splash_encode]) and [splashdec.c]
    ([splash_decode]).

    - C [int] / [uint32_t] / [uint8_t] values are integers of [Z]; the
      conversions the C code performs between them are written out
      ([s32], [u32], [u8]).
    - array indices and the picture dimensions are [nat];
    - the rulers and the canvas are lists updated by index;
    - the packet buffer is a byte memory [nat -> Z] addressed from
      [ctx->data], read and written through a running offset, as the C
      code does through [pData];
    - [float] is IEEE-754 binary32 and [double] binary64, both taken from
      the Standard Library's executable specification [SpecFloat];
    - [av_assert0] failures and canvas accesses outside the allocation
      are outcomes of their own ([Abort], [OutOfBounds]). *)

From Stdlib Require Import ZArith Bool List Lia.
From Stdlib Require Import SpecFloat.
From stdpp Require Import base tactics option list functions relations.

Local Open Scope Z_scope.

(** ** Machine integers *)

Module CInt.

Definition u8 (z : Z) : Z := z mod 256.
Definition u32 (z : Z) : Z := z mod 2 ^ 32.
Definition s32 (z : Z) : Z := (z + 2 ^ 31) mod 2 ^ 32 - 2 ^ 31.

Definition INT_MIN : Z := - 2 ^ 31.
Definition INT_MAX : Z := 2 ^ 31 - 1.

Definition in_int (z : Z) : bool := (INT_MIN <=? z) && (z <=? INT_MAX).

(** [FFABS] of libavutil/common.h. *)
Definition FFABS (z : Z) : Z := if z >=? 0 then z else - z.

End CInt.
Export CInt.

(** ** Floating point: binary32 and binary64 *)

Module F32.
Definition prec : Z := 24.
Definition emax : Z := 128.
Definition of_int (z : Z) : spec_float := binary_normalize prec emax z 0 false.
Definition add := SFadd prec emax.
Definition mul := SFmul prec emax.
Definition div := SFdiv prec emax.
(** conversion [double -> float] *)
Definition of_double (d : spec_float) : spec_float :=
    match d with
    | S754_finite s m e => binary_round prec emax s m e
    | _ => d
    end.
End F32.

Module F64.
Definition prec : Z := 53.
Definition emax : Z := 1024.
Definition of_int (z : Z) : spec_float := binary_normalize prec emax z 0 false.
Definition sub := SFsub prec emax.
Definition div := SFdiv prec emax.
Definition sqrt := SFsqrt prec emax.
(** conversion [float -> double], exact *)
Definition of_float (f : spec_float) : spec_float :=
    match f with
    | S754_finite s m e => binary_round prec emax s m e
    | _ => f
    end.
End F64.

(** C's [round]: to the nearest integer, halfway cases away from zero.
    [None] for an infinity or a NaN. *)
Definition c_round (d : spec_float) : option Z :=
  match d with
  | S754_zero _ => Some 0
  | S754_finite s m e =>
      let a := if 0 <=? e then Z.pos m * 2 ^ e
               else (Z.pos m + 2 ^ (- e - 1)) / 2 ^ (- e) in
      Some (if s then - a else a)
  | _ => None
  end.

(** Conversion of the value of [round] to [uint32_t].  Outside
    [0 .. 2^32-1] the conversion is undefined in C; the model wraps a
    finite value and takes 0 for an infinity or a NaN. *)
Definition round_u32 (d : spec_float) : Z :=
  match c_round d with
  | Some z => u32 z
  | None => 0
  end.

(** [(int)(n - round(d))], the subtraction being one of doubles.  Outside
    the range of [int] the conversion is undefined in C; the model takes
    [INT_MIN] there. *)
Definition sub_round_int (n : Z) (d : spec_float) : Z :=
  match c_round d with
  | Some z => if in_int (n - z) then n - z else INT_MIN
  | None => INT_MIN
  end.

(** [(int) round(d)], with the same convention. *)
Definition round_int (d : spec_float) : Z :=
  match c_round d with
  | Some z => if in_int z then z else INT_MIN
  | None => INT_MIN
  end.

(** ** Outcomes of a call *)

(** [Abort]: an [av_assert0] failed.  [OutOfBounds]: the canvas was
    accessed outside its allocation.  [OutOfFuel]: a driver loop was cut
    by the bound the model puts on it (see [loop_fuel]). *)
Inductive result (A : Type) : Type :=
| Ok (a : A)
| Abort
| OutOfBounds
| OutOfFuel.
Arguments Ok {A} a.
Arguments Abort {A}.
Arguments OutOfBounds {A}.
Arguments OutOfFuel {A}.

#[global] Instance result_ret : MRet result := fun A a => Ok a.
#[global] Instance result_bind : MBind result := fun A B f m =>
  match m with
  | Ok a => f a
  | Abort => Abort
  | OutOfBounds => OutOfBounds
  | OutOfFuel => OutOfFuel
  end.

(** A [for] loop whose body may stop the program. *)
Fixpoint forM {A S : Type} (body : S -> A -> result S) (l : list A) (s : S)
  : result S :=
  match l with
  | [] => Ok s
  | a :: l' => s' ← body s a; forM body l' s'
  end.

(** The indices of [for (k = lo; k <= hi; k++)]. *)
Definition range (lo hi : nat) : list nat := seq lo (S hi - lo).

(** ** The context (splash.h) *)

Definition HEADER_LENGTH : nat := 12.
Definition HEADER_OFS_VERSION : nat := 9.
Definition HEADER_OFS_RADIUS : nat := 10.
Definition HEADER_OFS_COMPRESS : nat := 11.

Record SplashContext : Type := {
  radius : Z;              (* pixel/brush radius *)
  ppf : spec_float;        (* pixels per frame *)
  ppk : spec_float;        (* pixels per key frame *)
  xError : list Z;         (* total error along the x-axis *)
  yError : list Z;         (* total error along the y-axis *)
  pixels : list Z;         (* pixel data, 4 bytes a pixel *)
  data : nat -> Z;         (* data buffer *)
  pos : nat;               (* position within data buffer *)
  size : Z;                (* size data buffer *)
  numPixels : Z
}.

(** The picture of the host, [pic->data[0]] and [pic->linesize[0]]. *)
Record AVFrame : Type := {
  frame_data : list Z;
  linesize : nat
}.

(** [&pic->data[0][j * pic->linesize[0]] + i * 4], channel [c]. *)
Definition pic_at (pic : AVFrame) (i j c : nat) : Z :=
  frame_data pic !!! (j * linesize pic + i * 4 + c)%nat.

(** *** [splash_init]

    [raw] is the content of the block [av_malloc] returns for the canvas,
    which is not initialised.  The loop runs [width * height] times and
    advances the write pointer by three bytes a turn. *)
Definition init_pixels (width height : nat) (raw : list Z) : list Z :=
  foldl (fun px ji => <[(3 * ji + 2)%nat := 127]>
                       (<[(3 * ji + 1)%nat := 127]>
                        (<[(3 * ji)%nat := 127]> px)))
        raw (seq 0 (width * height)).

Definition splash_init (width height : nat) (r : Z) (f k : spec_float)
    (rawx rawy raw : list Z) : SplashContext :=
  {| radius := r; ppf := f; ppk := k;
     xError := rawx; yError := rawy;
     pixels := init_pixels width height raw;
     data := fun _ => 0; pos := 0; size := 0; numPixels := 0 |}.

(** ** The engine: [updateLines] *)

(** Which tabstop has the worst error: the scan
    [for (i = 1; i < n; i++) if (err[i] > worst) ...] from
    [worst = err[0]].  [worst] is an [int], the entries are [uint32_t],
    the comparison is unsigned. *)
Definition worst_step (err : list Z) (w : nat * Z) (i : nat) : nat * Z :=
  if err !!! i >? u32 (snd w) then (i, s32 (err !!! i)) else w.

Definition worst (err : list Z) (n : nat) : nat * Z :=
  foldl (worst_step err) (0%nat, s32 (err !!! 0%nat)) (seq 1 (n - 1)).

(** Range of splash, downwards: [for (r = 1; r < radius; r++)
    { if (lo == 0 || err[lo - 1] == 0) break; --lo; }].  [n] counts the
    turns left. *)
Fixpoint expand_down (err : list Z) (n : nat) (lo : nat) : nat :=
  match n with
  | O => lo
  | S n' =>
      if (lo =? 0)%nat || (err !!! (lo - 1)%nat =? 0) then lo
      else expand_down err n' (lo - 1)
  end.

(** Upwards: [{ if (hi >= len - 1 || err[hi + 1] == 0) break; ++hi; }]. *)
Fixpoint expand_up (err : list Z) (len : nat) (n : nat) (hi : nat) : nat :=
  match n with
  | O => hi
  | S n' =>
      if (Z.of_nat len - 1 <=? Z.of_nat hi) || (err !!! (hi + 1)%nat =? 0)
      then hi
      else expand_up err len n' (hi + 1)
  end.

Definition turns (radius : Z) : nat := Z.to_nat (radius - 1).

Definition range_min (err : list Z) (radius : Z) (c : nat) : nat :=
  expand_down err (turns radius) c.
Definition range_max (err : list Z) (len : nat) (radius : Z) (c : nat) : nat :=
  expand_up err len (turns radius) c.

(** Apply changes to the ruler so X and Y are now balanced. *)
Definition scale (radius : Z) (c : nat) (v : Z) (ii : nat) : Z :=
  let alpha := F32.div (F32.of_int (FFABS (Z.of_nat ii - Z.of_nat c)))
                       (F32.of_int radius) in
  round_u32 (F64.of_float (F32.mul (F32.of_int v) alpha)).

Definition rebalance_step (radius : Z) (c : nat) (err : list Z) (ii : nat)
  : list Z :=
  let err1 := <[ii := scale radius c (err !!! ii) ii]> err in
  if negb (c =? ii)%nat && (err1 !!! ii =? 0) then <[ii := 1]> err1 else err1.

Definition rebalance (radius : Z) (c lo hi : nat) (err : list Z) : list Z :=
  <[c := 0]> (foldl (rebalance_step radius c) err (range lo hi)).

(** The state the scan for cross points threads: the canvas, the data
    buffer, the offset of [pData] in it and [numPixels]. *)
Record scan : Type := {
  s_pixels : list Z;
  s_data : nat -> Z;
  s_p : nat;
  s_num : Z
}.

(** Read pixel: from the picture when encoding (and emit it), from the
    data buffer when decoding. *)
Definition read_pixel (encodeDecode : bool) (pic : AVFrame) (i j : nat)
    (st : scan) : (Z * Z * Z) * scan :=
  let p := s_p st in
  if encodeDecode then
    let srcR := pic_at pic i j 0 in
    let srcG := pic_at pic i j 1 in
    let srcB := pic_at pic i j 2 in
    ((srcR, srcG, srcB),
     {| s_pixels := s_pixels st;
        s_data := <[(p + 2)%nat := u8 srcB]>
                    (<[(p + 1)%nat := u8 srcG]>
                       (<[p := u8 srcR]> (s_data st)));
        s_p := (p + 3)%nat;
        s_num := s_num st + 1 |})
  else
    ((s_data st p, s_data st (p + 1)%nat, s_data st (p + 2)%nat),
     {| s_pixels := s_pixels st; s_data := s_data st;
        s_p := (p + 3)%nat; s_num := s_num st |}).

(** [1 - sqrt((ii-i)*(ii-i) + (jj-j)*(jj-j)) / radius], computed in
    [double] and stored in a [float]. *)
Definition fill_alpha (radius : Z) (i j ii jj : nat) : spec_float :=
  let di := Z.of_nat ii - Z.of_nat i in
  let dj := Z.of_nat jj - Z.of_nat j in
  F32.of_double
    (F64.sub (F64.of_int 1)
       (F64.div (F64.sqrt (F64.of_int (s32 (di * di + dj * dj))))
                (F64.of_int radius))).

(** [256 - round(256 * xyerr)] for the pixel [(ii, jj)]. *)
Definition pixel_alpha (maxError : Z) (xE yE : list Z) (ii jj : nat) : Z :=
  let xerr := F32.div (F32.of_int (xE !!! ii)) (F32.of_int maxError) in
  let yerr := F32.div (F32.of_int (yE !!! jj)) (F32.of_int maxError) in
  let xyerr := F32.div (F32.add xerr yerr) (F32.of_int 2) in
  sub_round_int 256 (F64.of_float (F32.mul (F32.of_int 256) xyerr)).

Definition blend (src old alpha : Z) : Z :=
  Z.shiftr (s32 (src * alpha + old * (256 - alpha))) 8.

Definition load (px : list Z) (k : nat) : result Z :=
  match px !! k with
  | Some v => Ok v
  | None => OutOfBounds
  end.

Definition store (px : list Z) (k : nat) (v : Z) : result (list Z) :=
  if (k <? length px)%nat then Ok (<[k := u8 v]> px) else OutOfBounds.

(** The body of the weighted flood-fill of one cross point [(i, j)], at
    the pixel [(ii, jj)].  The plain [assert (alpha < 256)] of the source
    is compiled out ([NDEBUG]); [av_assert0] is not. *)
Definition fill_pixel (width : nat) (radius maxError : Z) (xE yE : list Z)
    (i j : nat) (src : Z * Z * Z) (px : list Z) (c : nat * nat)
  : result (list Z) :=
  let '(ii, jj) := c in
  let '(srcR, srcG, srcB) := src in
  if SFltb (F32.of_int 0) (fill_alpha radius i j ii jj) then
    let alpha := pixel_alpha maxError xE yE ii jj in
    let k := ((jj * width + ii) * 4)%nat in
    oldR ← load px k;
    oldG ← load px (k + 1)%nat;
    oldB ← load px (k + 2)%nat;
    let newR := blend srcR oldR alpha in
    let newG := blend srcG oldG alpha in
    let newB := blend srcB oldB alpha in
    if (i =? ii)%nat && (j =? jj)%nat && negb (alpha =? 256) then Abort
    else
      px1 ← store px k newR;
      px2 ← store px1 (k + 1)%nat newG;
      store px2 (k + 2)%nat newB
  else Ok px.

(** The pixels a fill visits, in the order of the two nested loops.
    Column-major: [for jj { for ii }]; row-major: [for ii { for jj }]. *)
Definition fill_coords_col (minI maxI minJ maxJ : nat) : list (nat * nat) :=
  jj ← range minJ maxJ; ii ← range minI maxI; [(ii, jj)].
Definition fill_coords_row (minI maxI minJ maxJ : nat) : list (nat * nat) :=
  ii ← range minI maxI; jj ← range minJ maxJ; [(ii, jj)].

Definition with_pixels (st : scan) (px : list Z) : scan :=
  {| s_pixels := px; s_data := s_data st; s_p := s_p st; s_num := s_num st |}.

(** One turn of the scan of the pivot column [i]: row [j]. *)
Definition cross_col (width height : nat) (pic : AVFrame) (radius : Z)
    (encodeDecode : bool) (xE yE : list Z) (maxError : Z)
    (i minI maxI : nat) (st : scan) (j : nat) : result scan :=
  if yE !!! j =? 0 then
    let '(src, st1) := read_pixel encodeDecode pic i j st in
    let minJ := range_min yE radius j in
    let maxJ := range_max yE height radius j in
    px ← forM (fill_pixel width radius maxError xE yE i j src)
              (fill_coords_col minI maxI minJ maxJ) (s_pixels st1);
    Ok (with_pixels st1 px)
  else Ok st.

(** One turn of the scan of the pivot row [j]: column [i]. *)
Definition cross_row (width height : nat) (pic : AVFrame) (radius : Z)
    (encodeDecode : bool) (xE yE : list Z) (maxError : Z)
    (j minJ maxJ : nat) (st : scan) (i : nat) : result scan :=
  if xE !!! i =? 0 then
    let '(src, st1) := read_pixel encodeDecode pic i j st in
    let minI := range_min xE radius i in
    let maxI := range_max xE width radius i in
    px ← forM (fill_pixel width radius maxError xE yE i j src)
              (fill_coords_row minI maxI minJ maxJ) (s_pixels st1);
    Ok (with_pixels st1 px)
  else Ok st.

Definition scan_of (ctx : SplashContext) : scan :=
  {| s_pixels := pixels ctx; s_data := data ctx;
     s_p := pos ctx; s_num := numPixels ctx |}.

Definition commit (ctx : SplashContext) (xE yE : list Z) (st : scan)
  : SplashContext :=
  {| radius := radius ctx; ppf := ppf ctx; ppk := ppk ctx;
     xError := xE; yError := yE;
     pixels := s_pixels st; data := s_data st; pos := s_p st;
     size := size ctx; numPixels := s_num st |}.

(** The branch [worstXerr > worstYerr]: the pivot is the column [i]. *)
Definition column_major (width height : nat) (pic : AVFrame) (radius : Z)
    (encodeDecode : bool) (ctx : SplashContext) (i : nat)
  : result SplashContext :=
  let minI := range_min (xError ctx) radius i in
  let maxI := range_max (xError ctx) width radius i in
  let maxError := s32 (xError ctx !!! i) in
  let xE := rebalance radius i minI maxI (xError ctx) in
  st ← forM (cross_col width height pic radius encodeDecode xE (yError ctx)
               maxError i minI maxI)
            (seq 0 height) (scan_of ctx);
  Ok (commit ctx xE (yError ctx) st).

(** The other branch: the pivot is the row [j]. *)
Definition row_major (width height : nat) (pic : AVFrame) (radius : Z)
    (encodeDecode : bool) (ctx : SplashContext) (j : nat)
  : result SplashContext :=
  let minJ := range_min (yError ctx) radius j in
  let maxJ := range_max (yError ctx) height radius j in
  let maxError := s32 (yError ctx !!! j) in
  let yE := rebalance radius j minJ maxJ (yError ctx) in
  st ← forM (cross_row width height pic radius encodeDecode (xError ctx) yE
               maxError j minJ maxJ)
            (seq 0 width) (scan_of ctx);
  Ok (commit ctx (xError ctx) yE st).

(** [updateLines]: the context after the call and the returned flag
    ([true] for 1, [false] for 0).  [encodeDecode] is [true] to encode. *)
Definition updateLines (width height : nat) (pic : AVFrame) (radius : Z)
    (encodeDecode : bool) (ctx : SplashContext)
  : result (SplashContext * bool) :=
  let '(worstXi, worstXerr) := worst (xError ctx) width in
  let '(worstYj, worstYerr) := worst (yError ctx) height in
  if s32 (worstXerr + worstYerr) =? 0 then Ok (ctx, false)
  else if worstXerr >? worstYerr then
    ctx' ← column_major width height pic radius encodeDecode ctx worstXi;
    Ok (ctx', true)
  else
    ctx' ← row_major width height pic radius encodeDecode ctx worstYj;
    Ok (ctx', true).

(** ** The encoder driver: [splash_encode] *)

Record AVPacket : Type := {
  pkt_data : nat -> Z;
  pkt_size : Z
}.

(** [err += FFABS(pixels[k + c] - rgb[c])] for the three channels of the
    pixel [(i, j)]; [err] is an [int]. *)
Definition add_pixel_error (width : nat) (pic : AVFrame) (px : list Z)
    (i j : nat) (err : Z) : Z :=
  let k := ((j * width + i) * 4)%nat in
  let e0 := s32 (err + FFABS (px !!! k - pic_at pic i j 0)) in
  let e1 := s32 (e0 + FFABS (px !!! (k + 1)%nat - pic_at pic i j 1)) in
  s32 (e1 + FFABS (px !!! (k + 2)%nat - pic_at pic i j 2)).

(** keep within limits *)
Definition clamp_error (err : Z) : Z :=
  if err >? 0xffffff then 0xffffff else err.

Definition column_error (width height : nat) (pic : AVFrame) (px : list Z)
    (i : nat) : Z :=
  clamp_error
    (foldl (fun err j => add_pixel_error width pic px i j err) 0
           (seq 0 height)).

Definition row_error (width : nat) (pic : AVFrame) (px : list Z)
    (j : nat) : Z :=
  clamp_error
    (foldl (fun err i => add_pixel_error width pic px i j err) 0
           (seq 0 width)).

(** [*pData++ = err; *pData++ = err >> 8; *pData++ = err >> 16;] *)
Definition put_error (err : Z) (d : nat -> Z) (p : nat) : nat -> Z :=
  <[(p + 2)%nat := u8 (Z.shiftr err 16)]>
    (<[(p + 1)%nat := u8 (Z.shiftr err 8)]>
       (<[p := u8 err]> d)).

(** The state of the two loops that create and output the rulers: the
    ruler being filled, the data buffer and the offset of [pData]. *)
Definition emit_step (error_of : nat -> Z) (s : list Z * (nat -> Z) * nat)
    (k : nat) : list Z * (nat -> Z) * nat :=
  let '(ruler, d, p) := s in
  let err := error_of k in
  (<[k := u32 err]> ruler, put_error err d p, (p + 3)%nat).

(** The bound the model puts on the number of turns of a driver loop.
    Every turn but the last clears one more entry of a ruler
    (see [turns_within_fuel]). *)
Definition loop_fuel (width height : nat) : nat := S (S (width + height)).

(** [do { if (!updateLines(avctx, pic, ctx->radius, 1)) break; }
     while (ctx->numPixels < maxPixels);] *)
Fixpoint encode_loop (fuel : nat) (width height : nat) (pic : AVFrame)
    (maxPixels : Z) (ctx : SplashContext) : result SplashContext :=
  match fuel with
  | O => OutOfFuel
  | S fuel' =>
      '(ctx', more) ← updateLines width height pic (radius ctx) true ctx;
      if more : bool then
        if numPixels ctx' <? maxPixels
        then encode_loop fuel' width height pic maxPixels ctx'
        else Ok ctx'
      else Ok ctx' 
  end.

(** number of pixels for this frame *)
Definition maxPixels_of (width height : nat) (frame_number : Z)
    (ctx : SplashContext) : Z :=
  let wh := F32.of_int (s32 (Z.of_nat width * Z.of_nat height)) in
  if frame_number =? 0
  then round_int (F64.of_float (F32.div wh (ppk ctx)))
  else round_int (F64.of_float (F32.div wh (ppf ctx))).

Definition header_byte (r : Z) (k : nat) : Z :=
  nth k [12; 0; 0; 115; 112; 108; 97; 115; 104; 1; u8 r; 0] 0.

(** [splash_encode].  [alloc] is what [ff_alloc_packet2] gives: an error
    code, or the fresh buffer of the packet, of which [pkt_data] is the
    content and [pkt_size] the worst-case size asked for.  [ctx->data]
    points [HEADER_LENGTH] bytes into the packet.  The result is the
    returned code, the packet when [*got_packet] is set, and the context.
    The final comparison of the canvas with the picture ([ppf == 1]) only
    logs and is left out. *)
Definition splash_encode (width height : nat) (frame_number : Z)
    (pic : AVFrame) (alloc : Z + AVPacket) (ctx : SplashContext)
  : result (Z * option AVPacket * SplashContext) :=
  match alloc with
  | inl ret => Ok (ret, None, ctx)
  | inr pkt =>
      let d0 := fun k => pkt_data pkt (HEADER_LENGTH + k)%nat in
      let '(xE, d1, p1) :=
        foldl (emit_step (column_error width height pic (pixels ctx)))
              (xError ctx, d0, 0%nat) (seq 0 width) in
      let '(yE, d2, p2) :=
        foldl (emit_step (row_error width pic (pixels ctx)))
              (yError ctx, d1, p1) (seq 0 height) in
      let ctx1 :=
        {| radius := radius ctx; ppf := ppf ctx; ppk := ppk ctx;
           xError := xE; yError := yE; pixels := pixels ctx;
           data := d2; pos := p2;
           size := pkt_size pkt - Z.of_nat HEADER_LENGTH;
           numPixels := 0 |} in
      let maxPixels := maxPixels_of width height frame_number ctx1 in
      ctx2 ← encode_loop (loop_fuel width height) width height pic
                maxPixels ctx1;
      Ok (0,
          Some {| pkt_data := fun k =>
                    if (k <? HEADER_LENGTH)%nat then header_byte (radius ctx) k
                    else data ctx2 (k - HEADER_LENGTH)%nat;
                  pkt_size := Z.of_nat (HEADER_LENGTH + pos ctx2) |},
          ctx2)
  end.

(** ** The decoder driver: [splash_decode] *)

(** [err = *pData++; err |= *pData++ << 8; err |= *pData++ << 16;] *)
Definition get_error (d : nat -> Z) (p : nat) : Z :=
  Z.lor (Z.lor (d p) (Z.shiftl (d (p + 1)%nat) 8))
        (Z.shiftl (d (p + 2)%nat) 16).

Definition load_step (d : nat -> Z) (s : list Z * nat) (k : nat)
  : list Z * nat :=
  let '(ruler, p) := s in
  (<[k := u32 (get_error d p)]> ruler, (p + 3)%nat).

(** [do { if (!updateLines(avctx, pic, radius, 0)) break; }
     while (ctx->pos < ctx->size);] *)
Fixpoint decode_loop (fuel : nat) (width height : nat) (pic : AVFrame)
    (r : Z) (ctx : SplashContext) : result SplashContext :=
  match fuel with
  | O => OutOfFuel
  | S fuel' =>
      '(ctx', more) ← updateLines width height pic r false ctx;
      if more : bool then
        if Z.of_nat (pos ctx') <? size ctx'
        then decode_loop fuel' width height pic r ctx'
        else Ok ctx'
      else Ok ctx' 
  end.

(** Copy decoded pixels to frame: the pixel [(i, j)], with 255 for the
    fourth byte. *)
Definition copy_pixel (width : nat) (ls : nat) (px : list Z)
    (out : list Z) (c : nat * nat) : list Z :=
  let '(i, j) := c in
  let k := ((j * width + i) * 4)%nat in
  let o := (j * ls + i * 4)%nat in
  <[(o + 3)%nat := 255]>
    (<[(o + 2)%nat := px !!! (k + 2)%nat]>
       (<[(o + 1)%nat := px !!! (k + 1)%nat]>
          (<[o := px !!! k]> out))).

Definition export_pixels (width height : nat) (px : list Z) (pic : AVFrame)
  : AVFrame :=
  {| frame_data :=
       foldl (copy_pixel width (linesize pic) px) (frame_data pic)
             (j ← seq 0 height; i ← seq 0 width; [(i, j)]);
     linesize := linesize pic |}.

(** [splash_decode].  [get_buffer] is what [ff_get_buffer] gives: an
    error code or the frame to fill.  [pkt_data] is the memory at
    [avpkt->data]: the bytes of the packet and whatever follows them, for
    the code reads on without looking at [avpkt->size].  What a read
    behind the buffer of the packet does in C is not represented: the
    statements on arbitrary packets keep every read below
    [avpkt->size] ([holds_reads]) and show that the outcome does not
    depend on the memory behind it.  The result is the returned code,
    the frame when [*got_frame] is set, and the context.  The warning
    for an incomplete scan line only logs. *)
Definition splash_decode (width height : nat) (get_buffer : Z + AVFrame)
    (avpkt : AVPacket) (ctx : SplashContext)
  : result (Z * option AVFrame * SplashContext) :=
  match get_buffer with
  | inl ret => Ok (ret, None, ctx)
  | inr pic =>
      let m := pkt_data avpkt in
      let hdrLength :=
        Z.lor (Z.lor (m 0%nat) (Z.shiftl (m 1%nat) 8))
              (Z.shiftl (m 2%nat) 16) in
      let r := m HEADER_OFS_RADIUS in
      let d := fun k => m (Z.to_nat hdrLength + k)%nat in
      let '(xE, p1) := foldl (load_step d) (xError ctx, 0%nat) (seq 0 width) in
      let '(yE, p2) := foldl (load_step d) (yError ctx, p1) (seq 0 height) in
      let ctx1 :=
        {| radius := radius ctx; ppf := ppf ctx; ppk := ppk ctx;
           xError := xE; yError := yE; pixels := pixels ctx;
           data := d; pos := p2;
           size := pkt_size avpkt - Z.of_nat HEADER_LENGTH;
           numPixels := numPixels ctx |} in
      ctx2 ← decode_loop (loop_fuel width height) width height pic r ctx1;
      Ok (pkt_size avpkt,
          Some (export_pixels width height (pixels ctx2) pic),
          ctx2)
  end.

(** ** Vocabulary of the statements *)

(** *** Rounding *)

(** What a rounding has to add to the mantissa at most. *)
Definition loc_bit (l : location) : Z :=
  match l with loc_Exact => 0 | _ => 1 end.

Definition inexact (l : location) : Prop := l <> loc_Exact.

(** The record reached after [k] right shifts of the mantissa [m]: the
    quotient, and a round or sticky bit only if something was lost. *)
Definition shr_inv (m : Z) (lost : Prop) (k : Z) (r : shr_record) : Prop :=
  shr_m r = m / 2 ^ k /\
  (orb (shr_r r) (shr_s r) = true -> lost \/ m mod 2 ^ k <> 0).

(** A float that is non-negative and at most the integer [B]. *)
Definition fle (prec emax : Z) (f : spec_float) (B : Z) : Prop :=
  match f with
  | S754_zero false => 0 <= B
  | S754_finite false m e =>
      emin prec emax <= e <= 0 /\ Z.pos m <= B * 2 ^ (- e)
  | _ => False
  end.

(** A float that is the integer [z]. *)
Definition fis (prec emax : Z) (f : spec_float) (z : Z) : Prop :=
  match f with
  | S754_zero false => z = 0
  | S754_finite false m e =>
      emin prec emax <= e <= 0 /\ Z.pos m = z * 2 ^ (- e)
  | _ => False
  end.

(** The record reached after [k >= 1] right shifts of an exact mantissa
    [m]: the quotient, the last bit shifted out and whether a bit
    shifted out before it was set. *)
Definition shr_bits (m k : Z) (r : shr_record) : Prop :=
  shr_m r = m / 2 ^ k /\
  shr_r r = Z.odd (m / 2 ^ (k - 1)) /\
  shr_s r = negb (m mod 2 ^ (k - 1) =? 0).

(** Round to nearest, ties to even: what to add to the quotient [q] for
    the remainder [rem], [half] being half the divisor. *)
Definition rne_up (q rem half : Z) : Z :=
  if (half <? rem) || ((rem =? half) && Z.odd q) then 1 else 0.

(** The integer [z] rounded to [prec] binary digits. *)
Definition rne (prec z : Z) : Z :=
  let n := Zdigits2 z - prec in
  if n <=? 0 then z
  else (z / 2 ^ n + rne_up (z / 2 ^ n) (z mod 2 ^ n) (2 ^ (n - 1))) * 2 ^ n.

(** A float that is the integer [V], whatever the sign of its exponent. *)
Definition fint (f : spec_float) (V : Z) : Prop :=
  match f with
  | S754_zero false => V = 0
  | S754_finite false m e =>
      Z.pos m * 2 ^ Z.max e 0 = V * 2 ^ Z.max (- e) 0
  | _ => False
  end.

(** *** Well-formed contexts *)

(** The element domain of a ruler: 24 bits. *)
Definition ruler_ok (err : list Z) : Prop :=
  Forall (fun v => 0 <= v < 2 ^ 24) err.

Definition bytes_ok (l : list Z) : Prop :=
  Forall (fun v => 0 <= v < 256) l.

(** The context of a [width] x [height] codec: the three arrays as
    [splash_init] allocates them, ruler entries of 24 bits, bytes in the
    canvas. *)
Record ctx_ok (width height : nat) (ctx : SplashContext) : Prop := {
  ok_xlen : length (xError ctx) = width;
  ok_ylen : length (yError ctx) = height;
  ok_pxlen : length (pixels ctx) = (width * height * 4)%nat;
  ok_x : ruler_ok (xError ctx);
  ok_y : ruler_ok (yError ctx);
  ok_px : bytes_ok (pixels ctx)
}.

(** The rescaled entry, forced to 1 off the pivot. *)
Definition forced (c ii : nat) (v : Z) : Z :=
  if negb (c =? ii)%nat && (v =? 0) then 1 else v.

(** The offset of the pixel [(ii, jj)] in the canvas. *)
Definition pix (width : nat) (c : nat * nat) : nat :=
  ((c.2 * width + c.1) * 4)%nat.

(** The bytes of a pixel: offsets [k], [k + 1] and [k + 2]. *)
Definition in_pixel (k k' : nat) : Prop := (k <= k' < k + 3)%nat.

(** *** The scan for cross points, for either axis *)

(** The cross point [c]: read the pixel, then fill [coords] from it. *)
Definition cross_at (width : nat) (pic : AVFrame) (radius : Z)
    (encodeDecode : bool) (xE yE : list Z) (maxError : Z)
    (c : nat * nat) (coords : list (nat * nat)) (st : scan) : result scan :=
  let '(src, st1) := read_pixel encodeDecode pic c.1 c.2 st in
  px ← forM (fill_pixel width radius maxError xE yE c.1 c.2 src)
            coords (s_pixels st1);
  Ok (with_pixels st1 px).

(** The scan of the perpendicular lines [l]: the line [t] is exact when
    [test t], crosses the pivot at [pt t] and is filled over [cs t]. *)
Definition scan_lines (width : nat) (pic : AVFrame) (radius : Z)
    (encodeDecode : bool) (xE yE : list Z) (maxError : Z)
    (test : nat -> bool) (pt : nat -> nat * nat)
    (cs : nat -> list (nat * nat)) (l : list nat) (st : scan) : result scan :=
  forM (fun st t =>
          if test t
          then cross_at width pic radius encodeDecode xE yE maxError
                        (pt t) (cs t) st
          else Ok st) l st.

(** The number of cross points among the lines [l]. *)
Definition crossings (test : nat -> bool) (l : list nat) : nat :=
  length (filter (fun t => test t = true) l).

(** A pixel of the picture. *)
Definition in_canvas (width height : nat) (c : nat * nat) : Prop :=
  (c.1 < width)%nat /\ (c.2 < height)%nat.

(** *** The pivot of an iteration *)

Inductive pivot : Type :=
| Nothing
| Column (i : nat)
| Row (j : nat).

(** The choice [updateLines] makes before it changes anything. *)
Definition select (width height : nat) (ctx : SplashContext) : pivot :=
  let '(worstXi, worstXerr) := worst (xError ctx) width in
  let '(worstYj, worstYerr) := worst (yError ctx) height in
  if s32 (worstXerr + worstYerr) =? 0 then Nothing
  else if worstXerr >? worstYerr then Column worstXi else Row worstYj.

(** The number of lines of a ruler that are not exact yet. *)
Definition inexact_lines (err : list Z) : nat :=
  length (filter (fun v => v <> 0) err).

(** What an iteration leaves alone in the context. *)
Definition same_config (ctx ctx' : SplashContext) : Prop :=
  radius ctx' = radius ctx /\ ppf ctx' = ppf ctx /\ ppk ctx' = ppk ctx /\
  size ctx' = size ctx.

(** The effect of a scan with [n] cross points on everything but the
    content of the canvas. *)
Definition scan_frame (enc : bool) (n : nat) (st st' : scan) : Prop :=
  length (s_pixels st') = length (s_pixels st) /\
  (bytes_ok (s_pixels st) -> bytes_ok (s_pixels st')) /\
  s_p st' = (s_p st + 3 * n)%nat /\
  s_num st' = (s_num st + if enc then Z.of_nat n else 0) /\
  (forall k, (k < s_p st)%nat \/ (s_p st' <= k)%nat -> s_data st' k = s_data st k) /\
  (enc = false -> s_data st' = s_data st).

(** [ctx'] is what one call of the engine that did some work leaves of
    [ctx], for some picture, radius and mode. *)
Definition iteration (width height : nat) (ctx ctx' : SplashContext) : Prop :=
  exists pic r enc,
    r <= INT_MAX /\ updateLines width height pic r enc ctx = Ok (ctx', true).

(** Both rulers are exact everywhere. *)
Definition all_exact (width height : nat) (ctx : SplashContext) : Prop :=
  (forall k, (k < width)%nat -> xError ctx !!! k = 0) /\
  (forall k, (k < height)%nat -> yError ctx !!! k = 0).

(** No line is exact yet across the pivot. *)
Definition no_cross_point (width height : nat) (ctx : SplashContext) : Prop :=
  match select width height ctx with
  | Nothing => True
  | Column _ => forall j, (j < height)%nat -> yError ctx !!! j <> 0
  | Row _ => forall i, (i < width)%nat -> xError ctx !!! i <> 0
  end.

(** The entry of the pivot in its ruler after the iteration. *)
Definition pivot_entry (p : pivot) (ctx' : SplashContext) : Z :=
  match p with
  | Nothing => 0
  | Column i => xError ctx' !!! i
  | Row j => yError ctx' !!! j
  end.

(** *** A context to run the statements on

    Three columns and two rows; the middle column and the top row are
    exact already, so the next pivot, the last column, has one cross
    point. *)
Definition demo_ctx : SplashContext :=
  {| radius := 2; ppf := F32.of_int 1; ppk := F32.of_int 2;
     xError := [40; 0; 90]; yError := [0; 70];
     pixels := [127; 127; 127; 0; 10; 20; 30; 0; 127; 127; 127; 0;
                127; 127; 127; 0; 127; 127; 127; 0; 127; 127; 127; 0];
     data := fun _ => 0; pos := 0; size := 0; numPixels := 0 |}.

Definition demo_pic : AVFrame :=
  {| frame_data := [127; 127; 127; 0; 10; 20; 30; 0; 200; 100; 50; 0;
                    127; 127; 127; 0; 60; 70; 80; 0; 90; 91; 92; 0];
     linesize := 12 |}.

(** The context after one encoding iteration on [demo_ctx]. *)
Definition demo_next : SplashContext :=
  match updateLines 3 2 demo_pic 2 true demo_ctx with
  | Ok (ctx', _) => ctx'
  | _ => demo_ctx
  end.

(** No entry of either ruler has grown from [ctx] to [ctx'], and the
    exact lines of [ctx] are exact in [ctx']. *)
Definition rulers_shrink (ctx ctx' : SplashContext) : Prop :=
  (forall k, xError ctx' !!! k <= xError ctx !!! k) /\
  (forall k, yError ctx' !!! k <= yError ctx !!! k) /\
  (forall k, xError ctx !!! k = 0 -> xError ctx' !!! k = 0) /\
  (forall k, yError ctx !!! k = 0 -> yError ctx' !!! k = 0).

(** The pivot is exact in [ctx'], and the other lines of its range are
    not if they were not in [ctx]. *)
Definition pivot_exact (width height : nat) (r : Z)
    (ctx ctx' : SplashContext) : Prop :=
  match select width height ctx with
  | Nothing => False
  | Column i =>
      xError ctx' !!! i = 0 /\
      forall ii, (range_min (xError ctx) r i <= ii
                  <= range_max (xError ctx) width r i)%nat ->
                 ii <> i -> xError ctx !!! ii <> 0 -> 1 <= xError ctx' !!! ii
  | Row j =>
      yError ctx' !!! j = 0 /\
      forall jj, (range_min (yError ctx) r j <= jj
                  <= range_max (yError ctx) height r j)%nat ->
                 jj <> j -> yError ctx !!! jj <> 0 -> 1 <= yError ctx' !!! jj
  end.

(** *** The fills of an iteration *)

(** The exact lines among the first [n] of a ruler. *)
Definition exact_lines (err : list Z) (n : nat) : list nat :=
  filter (fun t => (err !!! t =? 0) = true) (seq 0 n).

(** The cross points of the iteration on [ctx], in the order of the
    scan, each with the pixels its fill visits. *)
Definition cross_points (width height : nat) (r : Z) (ctx : SplashContext)
  : list ((nat * nat) * list (nat * nat)) :=
  match select width height ctx with
  | Nothing => []
  | Column i =>
      let minI := range_min (xError ctx) r i in
      let maxI := range_max (xError ctx) width r i in
      (fun j => ((i, j),
                 fill_coords_col minI maxI (range_min (yError ctx) r j)
                                 (range_max (yError ctx) height r j)))
        <$> exact_lines (yError ctx) height
  | Row j =>
      let minJ := range_min (yError ctx) r j in
      let maxJ := range_max (yError ctx) height r j in
      (fun i => ((i, j),
                 fill_coords_row (range_min (xError ctx) r i)
                                 (range_max (xError ctx) width r i) minJ maxJ))
        <$> exact_lines (xError ctx) width
  end.

(** The rulers and [maxError] the fills of the iteration read. *)
Definition fill_rulers (width height : nat) (r : Z) (ctx : SplashContext)
  : list Z * list Z * Z :=
  match select width height ctx with
  | Nothing => (xError ctx, yError ctx, 0)
  | Column i =>
      (rebalance r i (range_min (xError ctx) r i)
                 (range_max (xError ctx) width r i) (xError ctx),
       yError ctx, s32 (xError ctx !!! i))
  | Row j =>
      (xError ctx,
       rebalance r j (range_min (yError ctx) r j)
                 (range_max (yError ctx) height r j) (yError ctx),
       s32 (yError ctx !!! j))
  end.

(** The weight the iteration blends the pixel [c] with. *)
Definition fill_weight (width height : nat) (r : Z) (ctx : SplashContext)
    (c : nat * nat) : Z :=
  let '(xE, yE, maxError) := fill_rulers width height r ctx in
  pixel_alpha maxError xE yE c.1 c.2.

(** The scan of an iteration, over its cross points. *)
Definition scan_cross_points (width height : nat) (pic : AVFrame) (r : Z)
    (enc : bool) (ctx : SplashContext) : result scan :=
  let '(xE, yE, maxError) := fill_rulers width height r ctx in
  forM (fun st p => cross_at width pic r enc xE yE maxError p.1 p.2 st)
       (cross_points width height r ctx) (scan_of ctx).

(** *** Concrete runs *)

(** A picture or a canvas of [n] pixels of one colour, the fourth byte
    of each pixel being [pad]. *)
Definition solid (rgb : Z * Z * Z) (pad : Z) (n : nat) : list Z :=
  concat (repeat [rgb.1.1; rgb.1.2; rgb.2; pad] n).

Definition gray : Z * Z * Z := (127, 127, 127).

(** A packet buffer as [ff_alloc_packet2] hands it out for a
    [width] x [height] codec, zeroed here. *)
Definition fresh_packet (width height : nat) : AVPacket :=
  {| pkt_data := fun _ => 0;
     pkt_size := Z.of_nat ((HEADER_LENGTH + width + height + width * height) * 3) |}.

(** The packet, the final context and the bytes of the packet of an
    encoding that succeeded. *)
Definition encoded_packet (r : result (Z * option AVPacket * SplashContext))
  : AVPacket :=
  match r with
  | Ok (_, Some pkt, _) => pkt
  | _ => {| pkt_data := fun _ => 0; pkt_size := 0 |}
  end.

Definition final_context {A : Type} (ctx : SplashContext)
    (r : result (Z * option A * SplashContext)) : SplashContext :=
  match r with
  | Ok (_, _, ctx') => ctx'
  | _ => ctx
  end.

Definition packet_bytes (pkt : AVPacket) : list Z :=
  pkt_data pkt <$> seq 0 (Z.to_nat (pkt_size pkt)).

Definition decoded_frame (r : result (Z * option AVFrame * SplashContext))
  : list Z :=
  match r with
  | Ok (_, Some pic, _) => frame_data pic
  | _ => []
  end.

(** The context of an 8 x 8 codec with radius 5 whose canvas is mid gray
    all over, and the uniform gray picture. *)
Definition gray_ctx : SplashContext :=
  {| radius := 5; ppf := F32.of_int 1; ppk := F32.of_int 2;
     xError := repeat 0 8; yError := repeat 0 8;
     pixels := solid gray 0 64;
     data := fun _ => 0; pos := 0; size := 0; numPixels := 0 |}.

Definition gray_pic : AVFrame :=
  {| frame_data := solid gray 0 64; linesize := 32 |}.

(** The same codec as [splash_init] really opens it, on a heap that
    happened to be zero. *)
Definition opened_ctx : SplashContext :=
  splash_init 8 8 5 (F32.of_int 1) (F32.of_int 2)
              (repeat 0 8) (repeat 0 8) (repeat 0 256).

(** What the specification calls a malformed packet for a
    [width] x [height] codec. *)
Definition malformed (width height : nat) (pkt : AVPacket) : Prop :=
  let m := pkt_data pkt in
  (m <$> seq 3 6) <> [115; 112; 108; 97; 115; 104] \/
  m HEADER_OFS_VERSION > 1 \/
  Z.lor (Z.lor (m 0%nat) (Z.shiftl (m 1%nat) 8)) (Z.shiftl (m 2%nat) 16) <> 12 \/
  pkt_size pkt < 12 + 3 * Z.of_nat width + 3 * Z.of_nat height.

(** The decoder rejects the packet: a negative code and no frame. *)
Definition rejected (r : result (Z * option AVFrame * SplashContext)) : Prop :=
  exists ret ctx', r = Ok (ret, None, ctx') /\ ret < 0.

(** A packet for a 1 x 1 codec with a wrong magic and version 9,
    otherwise the packet of the pixel (10, 20, 30). *)
Definition bad_packet : AVPacket :=
  {| pkt_data := fun k =>
       nth k [12; 0; 0; 88; 88; 88; 88; 88; 88; 9; 1; 0;
              65; 1; 0; 65; 1; 0; 10; 20; 30] 0;
     pkt_size := 21 |}.

Definition pixel_ctx : SplashContext :=
  {| radius := 1; ppf := F32.of_int 1; ppk := F32.of_int 1;
     xError := [0]; yError := [0]; pixels := solid gray 0 1;
     data := fun _ => 0; pos := 0; size := 0; numPixels := 0 |}.

(** Two pixels in a row, a radius that does not fit the byte of the
    header, and half the pixels a key frame. *)
Definition wide_ctx : SplashContext :=
  {| radius := 257; ppf := F32.of_int 1; ppk := F32.of_int 2;
     xError := [0; 0]; yError := [0]; pixels := solid gray 0 2;
     data := fun _ => 0; pos := 0; size := 0; numPixels := 0 |}.

Definition wide_pic : AVFrame :=
  {| frame_data := [255; 255; 255; 0; 127; 127; 126; 0]; linesize := 8 |}.

Definition empty_frame (n : nat) (ls : nat) : AVFrame :=
  {| frame_data := repeat 0 n; linesize := ls |}.

(** The encoder's context [ce] and the decoder's [cd] hold the same
    rulers, the same canvas and the same cursor in the data buffer. *)
Definition in_step (ce cd : SplashContext) : Prop :=
  xError cd = xError ce /\ yError cd = yError ce /\
  pixels cd = pixels ce /\ pos cd = pos ce.

(** The lines still to make exact. *)
Definition todo (ctx : SplashContext) : nat :=
  (inexact_lines (xError ctx) + inexact_lines (yError ctx))%nat.

(** The fills of a list of cross points: each is in the picture and has
    weight 256 at its centre. *)
Definition fills_ok (width height : nat) (xE yE : list Z) (maxError : Z)
    (l : list ((nat * nat) * list (nat * nat))) : Prop :=
  forall p, p ∈ l ->
    Forall (in_canvas width height) p.2 /\
    pixel_alpha maxError xE yE p.1.1 p.1.2 = 256.

(** The samples an iteration reads are bytes: those of the picture when
    encoding, those of the data buffer when decoding. *)
Definition samples_ok (pic : AVFrame) (enc : bool) (st : scan) : Prop :=
  if enc then bytes_ok (frame_data pic) else forall k, 0 <= s_data st k < 256.

(** *** Further vocabulary: the engine, the drivers and whole frames *)

(** The number of exact lines across the pivot: the cross points of the
    iteration. *)
Definition perpendicular_exact (width height : nat) (ctx : SplashContext) : nat :=
  match select width height ctx with
  | Nothing => 0
  | Column _ => length (exact_lines (yError ctx) height)
  | Row _ => length (exact_lines (xError ctx) width)
  end.

(** What an iteration does to the ruler [err] of its pivot [c], giving
    [err']: the pivot becomes exact, no other line of the ruler becomes
    exact or stops being exact, and an entry that changes lies in the
    range of the pivot, less than the radius away from it. *)
Definition ruler_step_at (r : Z) (len c : nat) (err err' : list Z) : Prop :=
  err !!! c <> 0 /\ err' !!! c = 0 /\
  forall k, (k < len)%nat -> k <> c ->
    (err' !!! k = 0 <-> err !!! k = 0) /\
    (err' !!! k <> err !!! k ->
       (range_min err r c <= k <= range_max err len r c)%nat /\
       Z.abs (Z.of_nat k - Z.of_nat c) <= Z.max (r - 1) 0).

(** The pixel [c] lies in the fill of a cross point of the iteration on
    [ctx]: in the range of the pivot, and in the range of an exact line
    across it. *)
Definition in_fill (width height : nat) (r : Z) (ctx : SplashContext)
    (c : nat * nat) : Prop :=
  match select width height ctx with
  | Nothing => False
  | Column i =>
      (range_min (xError ctx) r i <= c.1
       <= range_max (xError ctx) width r i)%nat /\
      exists j, (j < height)%nat /\ yError ctx !!! j = 0 /\
        (range_min (yError ctx) r j <= c.2
         <= range_max (yError ctx) height r j)%nat
  | Row j =>
      (range_min (yError ctx) r j <= c.2
       <= range_max (yError ctx) height r j)%nat /\
      exists i, (i < width)%nat /\ xError ctx !!! i = 0 /\
        (range_min (xError ctx) r i <= c.1
         <= range_max (xError ctx) width r i)%nat
  end.

(** The decoder's context for the first iteration on [demo_ctx]: the
    data buffer holds what the encoder emitted. *)
Definition demo_dec : SplashContext :=
  {| radius := 2; ppf := F32.of_int 1; ppk := F32.of_int 2;
     xError := xError demo_ctx; yError := yError demo_ctx;
     pixels := pixels demo_ctx;
     data := data demo_next; pos := 0; size := 3; numPixels := 0 |}.

Definition demo_ruler : list Z := [5; 0; 7; 9; 3; 4; 0].

(** The three channels of the pixel [c] of the canvas [px] are those of
    the picture. *)
Definition matches (width : nat) (pic : AVFrame) (px : list Z)
    (c : nat * nat) : Prop :=
  forall k, (k < 3)%nat -> px !!! (pix width c + k)%nat = pic_at pic c.1 c.2 k.

(** The pixels both of whose lines are exact, counted. *)
Definition exact_pairs (width height : nat) (ctx : SplashContext) : nat :=
  (length (exact_lines (xError ctx) width)
   * length (exact_lines (yError ctx) height))%nat.

(** The pixels on two exact lines hold the picture. *)
Definition canvas_exact (width height : nat) (pic : AVFrame)
    (ctx : SplashContext) : Prop :=
  forall c, in_canvas width height c ->
    xError ctx !!! c.1 = 0 -> yError ctx !!! c.2 = 0 ->
    matches width pic (pixels ctx) c.

(** The packet [splash_encode] returns: the header, then the data buffer
    of the final context up to its cursor. *)
Definition packet_of (r : Z) (ctx : SplashContext) : AVPacket :=
  {| pkt_data := fun k =>
       if (k <? HEADER_LENGTH)%nat then header_byte r k
       else data ctx (k - HEADER_LENGTH)%nat;
     pkt_size := Z.of_nat (HEADER_LENGTH + pos ctx) |}.

(** A 1 x 1 picture of mid gray. *)
Definition gray_pixel : AVFrame := {| frame_data := solid gray 0 1; linesize := 4 |}.


(** ** Packets and the reads of the decoder *)

(** The header length a packet declares. *)
Definition declared_header (avpkt : AVPacket) : nat :=
  let m := pkt_data avpkt in
  Z.to_nat (Z.lor (Z.lor (m 0%nat) (Z.shiftl (m 1%nat) 8))
                  (Z.shiftl (m 2%nat) 16)).

(** The packet holds what the decoder of a [width] x [height] picture
    can read from it: the 12 bytes of the header and, from the header
    length it declares, the rulers and a sample for every pixel. *)
Definition holds_reads (width height : nat) (avpkt : AVPacket) : Prop :=
  Z.of_nat HEADER_LENGTH <= pkt_size avpkt /\
  Z.of_nat (declared_header avpkt + 3 * (width + height) + 3 * (width * height))
  <= pkt_size avpkt.

(** The bytes of the packet are bytes; nothing is said of the memory
    after them. *)
Definition packet_bytes_ok (avpkt : AVPacket) : Prop :=
  forall k, Z.of_nat k < pkt_size avpkt -> 0 <= pkt_data avpkt k < 256.

(** Two packets of one size with the same bytes: they may differ in the
    memory that follows them. *)
Definition same_packet (a1 a2 : AVPacket) : Prop :=
  pkt_size a2 = pkt_size a1 /\
  forall k, Z.of_nat k < pkt_size a1 -> pkt_data a2 k = pkt_data a1 k.

(** Two packets of one size that differ at most in the magic and the
    version, bytes 3 to 9, and in the memory that follows them. *)
Definition same_but_magic (a1 a2 : AVPacket) : Prop :=
  pkt_size a2 = pkt_size a1 /\
  forall k, Z.of_nat k < pkt_size a1 -> ~ (3 <= k <= 9)%nat ->
            pkt_data a2 k = pkt_data a1 k.


(** * Properties *)

(** ** Rounding in [SpecFloat] *)

Lemma iter_pos_nat {A} (f : A -> A) (p : positive) (x : A) :
  SpecFloat.iter_pos f p x = Nat.iter (Pos.to_nat p) f x.
Proof.
  revert x. induction p as [p IH | p IH |]; intros x; cbn [SpecFloat.iter_pos].
  - rewrite !IH, Pos2Nat.inj_xI.
    replace (S (2 * Pos.to_nat p))%nat with (Pos.to_nat p + S (Pos.to_nat p))%nat by lia.
    rewrite Nat.iter_add, Nat.iter_succ_r. reflexivity.
  - rewrite !IH, Pos2Nat.inj_xO.
    replace (2 * Pos.to_nat p)%nat with (Pos.to_nat p + Pos.to_nat p)%nat by lia.
    rewrite Nat.iter_add. reflexivity.
  - reflexivity.
Qed.

Lemma digits2_pos_size p : digits2_pos p = Pos.size p.
Proof. induction p; simpl; congruence. Qed.

Lemma Zdigits2_bounds (m : positive) :
  2 ^ (Zdigits2 (Z.pos m) - 1) <= Z.pos m < 2 ^ Zdigits2 (Z.pos m).
Proof.
  cbn [Zdigits2].
  induction m as [m IH | m IH |]; cbn [digits2_pos].
  - rewrite Pos2Z.inj_succ. replace (Z.succ (Z.pos (digits2_pos m)) - 1) with (Z.succ (Z.pos (digits2_pos m) - 1)) by lia.
    rewrite !Z.pow_succ_r by lia. lia.
  - rewrite Pos2Z.inj_succ. replace (Z.succ (Z.pos (digits2_pos m)) - 1) with (Z.succ (Z.pos (digits2_pos m) - 1)) by lia.
    rewrite !Z.pow_succ_r by lia. lia.
  - simpl. lia.
Qed.

Lemma shr_1_inv m inexact k r :
  0 <= m -> 0 <= k -> shr_inv m inexact k r -> shr_inv m inexact (k + 1) (shr_1 r).
Proof.
  intros Hm Hk [Hq Hi]. destruct r as [q b s]. cbn [shr_m shr_r shr_s] in *.
  assert (Hpow : 2 ^ (k + 1) = 2 ^ k * 2) by (rewrite Z.pow_add_r by lia; reflexivity).
  assert (Hpos : 0 < 2 ^ k) by (apply Z.pow_pos_nonneg; lia).
  assert (Hdiv : m / 2 ^ (k + 1) = q / 2).
  { rewrite Hpow, <- Z.div_div by lia. congruence. }
  assert (Hodd : q mod 2 <> 0 -> m mod 2 ^ (k + 1) <> 0).
  { intros Ho Hz. apply Ho. subst q. 
    rewrite Hpow in Hz. rewrite Z.rem_mul_r in Hz by lia.
    pose proof (Z.mod_pos_bound m (2^k) Hpos). pose proof (Z.mod_pos_bound (m / 2^k) 2 ltac:(lia)). nia. }
  assert (Hlow : m mod 2 ^ k <> 0 -> m mod 2 ^ (k + 1) <> 0).
  { intros Ho Hz. apply Ho. rewrite Hpow in Hz. rewrite Z.rem_mul_r in Hz by lia. 
    pose proof (Z.mod_pos_bound m (2^k) Hpos). pose proof (Z.mod_pos_bound (m / 2^k) 2 ltac:(lia)). nia. }
  assert (Hq0 : 0 <= q) by (subst q; apply Z.div_pos; lia).
  unfold shr_inv.
  destruct q as [| [p | p |] | p]; cbn [shr_1 shr_m shr_r shr_s]; try lia.
  - split; [rewrite Hdiv; reflexivity|]. rewrite orb_false_l. intros Hs. destruct (Hi Hs); auto.
  - split; [rewrite Hdiv, Pos2Z.inj_xI; apply Z.div_unique with 1; lia |].
    intros _. right. apply Hodd. rewrite Pos2Z.inj_xI. rewrite Z.add_comm, Z.mul_comm, Z.mod_add by lia. discriminate.
  - split; [rewrite Hdiv, Pos2Z.inj_xO; apply Z.div_unique with 0; lia |].
    rewrite orb_false_l. intros Hs. destruct (Hi Hs); auto.
  - split; [rewrite Hdiv; reflexivity |].
    intros _. right. apply Hodd. discriminate.
Qed.

Lemma shr_iter_inv m inexact r n :
  0 <= m -> shr_inv m inexact 0 r ->
  shr_inv m inexact (Z.of_nat n) (Nat.iter n shr_1 r).
Proof.
  intros Hm H0. induction n.
  - exact H0.
  - rewrite Nat2Z.inj_succ. cbn [Nat.iter]. unfold Z.succ. apply shr_1_inv; auto. lia.
Qed.

Lemma shr_record_of_loc_inv m l : 0 <= m -> shr_inv m (inexact l) 0 (shr_record_of_loc m l).
Proof.
  intros Hm. split.
  - rewrite Z.pow_0_r, Z.div_1_r. destruct l as [|[]]; reflexivity.
  - intros H. left. destruct l as [|[]]; cbn in H; try discriminate; intros ?; discriminate.
Qed.

(* amount shr really shifts by *)
Lemma shr_spec m l e n :
  0 <= m ->
  let '(r, e') := shr (shr_record_of_loc m l) e n in
  e' = e + Z.max n 0 /\ shr_inv m (inexact l) (Z.max n 0) r.
Proof.
  intros Hm. destruct n as [| p | p]; cbn [shr].
  - split; [lia|]. apply shr_record_of_loc_inv; auto.
  - split; [lia|]. rewrite iter_pos_nat. replace (Z.max (Z.pos p) 0) with (Z.of_nat (Pos.to_nat p)) by lia.
    apply shr_iter_inv; auto. apply shr_record_of_loc_inv; auto.
  - split; [lia|]. apply shr_record_of_loc_inv; auto.
Qed.

Lemma round_nearest_even_bounds r :
  shr_m r <= round_nearest_even (shr_m r) (loc_of_shr_record r) <= shr_m r + 1 /\
  (round_nearest_even (shr_m r) (loc_of_shr_record r) <> shr_m r ->
   orb (shr_r r) (shr_s r) = true).
Proof.
  destruct r as [q [|] [|]]; cbn; try destruct (Z.even q); split; try lia; auto; intros; congruence.
Qed.

Lemma Zdigits2_le m k : 0 <= m -> 0 <= k -> m < 2 ^ k -> Zdigits2 m <= k.
Proof.
  intros Hm Hk Hlt. destruct m as [| p | p]; [simpl; lia | | lia].
  pose proof (Zdigits2_bounds p) as [Hlo _].
  destruct (Z_le_gt_dec (Zdigits2 (Z.pos p)) k) as [|Hgt]; [assumption|].
  exfalso. assert (2 ^ k <= 2 ^ (Zdigits2 (Z.pos p) - 1)) by (apply Z.pow_le_mono_r; lia). lia.
Qed.

Lemma Zdigits2_nonneg m : 0 <= Zdigits2 m.
Proof. destruct m; simpl; lia. Qed.

Section Rounding.
Variables prec emax : Z.
Hypothesis Hprec : 1 < prec.
Hypothesis Hemax : prec <= emax.

Local Abbreviation fle := (fle prec emax).

Lemma emin_neg : emin prec emax <= 0.
Proof. unfold emin. lia. Qed.

Lemma fexp_ge_emin x : emin prec emax <= fexp prec emax x.
Proof. unfold fexp. lia. Qed.

(* one shr_fexp step keeps an upper bound *)
Lemma shr_fexp_bound m e l B :
  0 <= m -> e <= 0 -> 0 <= B < 2 ^ prec ->
  m + loc_bit l <= B * 2 ^ (- e) ->
  let '(r, e') := shr_fexp prec emax m e l in
  e <= e' <= 0 /\ fexp prec emax (Zdigits2 m + e) <= e' /\ 0 <= shr_m r /\
  round_nearest_even (shr_m r) (loc_of_shr_record r) <= B * 2 ^ (- e') /\
  shr_m r <= round_nearest_even (shr_m r) (loc_of_shr_record r).
Proof.
  intros Hm He HB Hle. unfold shr_fexp.
  set (n := fexp prec emax (Zdigits2 m + e) - e).
  pose proof (shr_spec m l e n Hm) as Hs.
  destruct (shr (shr_record_of_loc m l) e n) as [r e'].
  destruct Hs as [He' [Hq Hi]].
  assert (Hpe : 0 < 2 ^ (- e)) by (apply Z.pow_pos_nonneg; lia).
  assert (HmB : m < 2 ^ (prec - e)).
  { replace (prec - e) with (prec + - e) by lia. rewrite Z.pow_add_r by lia.
    assert (0 <= loc_bit l) by (destruct l; simpl; lia). nia. }
  assert (Hd : Zdigits2 m <= prec - e) by (apply Zdigits2_le; lia).
  assert (Hn : n <= - e).
  { unfold n, fexp. pose proof emin_neg. lia. }
  set (k := Z.max n 0) in *.
  assert (Hk : 0 <= k <= - e) by lia.
  assert (Hsplit : 2 ^ (- e) = 2 ^ (- e') * 2 ^ k).
  { rewrite <- Z.pow_add_r by lia. f_equal. lia. }
  assert (Hpk : 0 < 2 ^ k) by (apply Z.pow_pos_nonneg; lia).
  assert (Hpe' : 0 < 2 ^ (- e')) by (apply Z.pow_pos_nonneg; lia).
  pose proof (round_nearest_even_bounds r) as [[Hr1 Hr2] Hr3].
  assert (Hq0 : 0 <= shr_m r) by (rewrite Hq; apply Z.div_pos; lia).
  split; [lia|]. split; [unfold n in *; lia|]. split; [assumption|]. split; [|lia].
  pose proof (Z.div_mod m (2 ^ k) ltac:(lia)) as Hdm.
  pose proof (Z.mod_pos_bound m (2 ^ k) Hpk) as Hmb.
  rewrite <- Hq in Hdm.
  destruct (Z.eq_dec (round_nearest_even (shr_m r) (loc_of_shr_record r)) (shr_m r)) as [Heq | Hne].
  - rewrite Heq. rewrite Hsplit in Hle.
    assert (0 <= loc_bit l) by (destruct l; simpl; lia). nia.
  - specialize (Hr3 Hne). destruct (Hi Hr3) as [Hin | Hrem].
    + assert (loc_bit l = 1) by (destruct l; [exfalso; apply Hin; reflexivity | reflexivity]).
      rewrite Hsplit in Hle. nia.
    + rewrite Hsplit in Hle.
      assert (0 <= loc_bit l) by (destruct l; simpl; lia). nia.
Qed.

Lemma binary_round_aux_fle m e l B :
  0 <= m -> e <= 0 -> 0 <= B < 2 ^ prec ->
  m + loc_bit l <= B * 2 ^ (- e) ->
  fle (binary_round_aux prec emax false m e l) B.
Proof.
  intros Hm He HB Hle. unfold binary_round_aux.
  pose proof (shr_fexp_bound m e l B Hm He HB Hle) as H1.
  destruct (shr_fexp prec emax m e l) as [r1 e1].
  destruct H1 as (He1 & Hf1 & Hq1 & Hb1 & Hmono1).
  set (m1 := round_nearest_even (shr_m r1) (loc_of_shr_record r1)) in *.
  assert (Hm1 : 0 <= m1) by lia.
  pose proof (shr_fexp_bound m1 e1 loc_Exact B Hm1 ltac:(lia) HB ltac:(simpl; lia)) as H2.
  destruct (shr_fexp prec emax m1 e1 loc_Exact) as [r2 e2].
  destruct H2 as (He2 & Hf2 & Hq2 & Hb2 & Hmono2).
  destruct (shr_m r2) as [| p | p] eqn:Hr2; [simpl; lia | | lia].
  assert (Hle2 : (e2 <=? emax - prec) = true) by (apply Z.leb_le; lia).
  rewrite Hle2. simpl. split; [|lia].
  pose proof (fexp_ge_emin (Zdigits2 m1 + e1)). lia.
Qed.

End Rounding.

Lemma pos_iter_xO m d : Z.pos (Pos.iter xO m d) = Z.pos m * 2 ^ Z.pos d.
Proof.
  induction d as [|d IH] using Pos.peano_ind.
  - simpl. lia.
  - rewrite Pos.iter_succ, Pos2Z.inj_xO, IH, Pos2Z.inj_succ, Z.pow_succ_r by lia. lia.
Qed.

Lemma shl_align_spec mx ex ex' :
  let '(mz, ez) := shl_align mx ex ex' in
  ez = Z.min ex ex' /\ Z.pos mz = Z.pos mx * 2 ^ (ex - ez).
Proof.
  unfold shl_align. destruct (ex' - ex) as [| d | d] eqn:Hd.
  - split; [lia|]. rewrite Z.sub_diag. simpl. lia.
  - split; [lia|]. rewrite Z.sub_diag. simpl. lia.
  - split; [lia|]. rewrite pos_iter_xO. f_equal. f_equal. lia.
Qed.

Lemma Zdigits2_unique m d : 2 ^ (d - 1) <= m < 2 ^ d -> 0 < m -> Zdigits2 m = d.
Proof.
  intros [Hlo Hhi] Hm. destruct m as [| p | p]; try lia.
  pose proof (Zdigits2_bounds p) as [Hlo' Hhi'].
  pose proof (Zdigits2_nonneg (Z.pos p)).
  assert (Hd : 0 <= d).
  { destruct (Z_lt_le_dec d 0); [|lia]. rewrite Z.pow_neg_r in Hhi by lia. lia. }
  destruct (Z.lt_trichotomy (Zdigits2 (Z.pos p)) d) as [Hlt | [Heq | Hgt]]; [|assumption|].
  - assert (2 ^ Zdigits2 (Z.pos p) <= 2 ^ (d - 1)) by (apply Z.pow_le_mono_r; lia). lia.
  - assert (2 ^ d <= 2 ^ (Zdigits2 (Z.pos p) - 1)) by (apply Z.pow_le_mono_r; lia). lia.
Qed.

Lemma Zdigits2_shift (m : positive) k :
  0 <= k -> Zdigits2 (Z.pos m * 2 ^ k) = Zdigits2 (Z.pos m) + k.
Proof.
  intros Hk. pose proof (Zdigits2_bounds m) as [Hlo Hhi].
  assert (0 < 2 ^ k) by (apply Z.pow_pos_nonneg; lia).
  assert (Hd : 1 <= Zdigits2 (Z.pos m)) by (simpl; lia).
  apply Zdigits2_unique; [|lia].
  replace (Zdigits2 (Z.pos m) + k - 1) with ((Zdigits2 (Z.pos m) - 1) + k) by lia.
  rewrite !Z.pow_add_r by lia. nia.
Qed.

Lemma new_location_bit n k : loc_bit (new_location n k) = if k =? 0 then 0 else 1.
Proof.
  unfold new_location, new_location_even, new_location_odd.
  destruct (Z.even n), (k =? 0); reflexivity.
Qed.

Section Ops.
Variables prec emax : Z.
Hypothesis Hprec : 1 < prec.
Hypothesis Hemax : prec <= emax.

Local Abbreviation fle := (fle prec emax).
Local Abbreviation fis := (fis prec emax).
Local Abbreviation emin := (emin prec emax).
Local Abbreviation fexp := (fexp prec emax).

Lemma fle_mono f B B' : fle f B -> B <= B' -> fle f B'.
Proof.
  destruct f as [[|] | | | [|] m e]; simpl; try tauto; try lia.
  intros [He Hm] HB. split; [assumption|].
  assert (0 < 2 ^ (- e)) by (apply Z.pow_pos_nonneg; lia). nia.
Qed.

Lemma fis_fle f z : fis f z -> fle f z.
Proof.
  destruct f as [[|] | | | [|] m e]; simpl; try tauto; try lia.
Qed.

Lemma fis_nonneg f z : fis f z -> 0 <= z.
Proof.
  destruct f as [[|] | | | [|] m e]; simpl; try tauto; try lia.
  all: intros [He Hm]; assert (0 < 2 ^ (- e)) by (apply Z.pow_pos_nonneg; lia); nia.
Qed.

Lemma fle_nonneg f B : fle f B -> 0 <= B.
Proof.
  destruct f as [[|] | | | [|] m e]; simpl; try tauto; try lia.
  all: intros [He Hm]; assert (0 < 2 ^ (- e)) by (apply Z.pow_pos_nonneg; lia); nia.
Qed.

Lemma binary_round_fle m e B :
  e <= 0 -> 0 <= B < 2 ^ prec -> Z.pos m <= B * 2 ^ (- e) ->
  fle (binary_round prec emax false m e) B.
Proof.
  intros He HB Hm. unfold binary_round.
  pose proof (shl_align_spec m e (fexp (Z.pos (digits2_pos m) + e))) as Hs.
  destruct (shl_align m e (fexp (Z.pos (digits2_pos m) + e))) as [mz ez].
  destruct Hs as [Hez Hmz].
  apply binary_round_aux_fle; try assumption; try lia.
  simpl loc_bit. rewrite Hmz, Z.add_0_r.
  replace (- ez) with (- e + (e - ez)) by lia.
  rewrite Z.pow_add_r by lia.
  assert (0 < 2 ^ (e - ez)) by (apply Z.pow_pos_nonneg; lia). nia.
Qed.

Lemma binary_normalize_fle z B :
  0 <= z <= B -> B < 2 ^ prec ->
  fle (binary_normalize prec emax z 0 false) B.
Proof.
  intros Hz HB. destruct z as [| p | p]; [simpl; lia | | lia].
  simpl binary_normalize. apply binary_round_fle; simpl; lia.
Qed.

(** Already canonical: nothing is rounded. *)
Lemma binary_round_aux_exact (m : positive) e :
  Zdigits2 (Z.pos m) = prec -> emin <= e <= emax - prec ->
  binary_round_aux prec emax false (Z.pos m) e loc_Exact = S754_finite false m e.
Proof.
  intros Hd He. unfold binary_round_aux, shr_fexp.
  assert (Hn : fexp (Zdigits2 (Z.pos m) + e) - e = 0).
  { rewrite Hd. unfold SpecFloat.fexp. lia. }
  rewrite Hn. cbn [shr shr_record_of_loc shr_m loc_of_shr_record round_nearest_even].
  rewrite Hn. cbn [shr shr_record_of_loc shr_m].
  replace (e <=? emax - prec) with true by (symmetry; apply Z.leb_le; lia).
  reflexivity.
Qed.

Lemma binary_normalize_fis z :
  0 <= z < 2 ^ prec ->
  fis (binary_normalize prec emax z 0 false) z.
Proof.
  intros Hz. destruct z as [| p | p]; [reflexivity | | lia].
  cbn [binary_normalize]. unfold binary_round.
  pose proof (shl_align_spec p 0 (fexp (Z.pos (digits2_pos p) + 0))) as Hs.
  destruct (shl_align p 0 (fexp (Z.pos (digits2_pos p) + 0))) as [mz ez].
  destruct Hs as [Hez Hmz].
  assert (Hd : Zdigits2 (Z.pos p) <= prec) by (apply Zdigits2_le; lia).
  assert (Hd1 : 1 <= Zdigits2 (Z.pos p)) by (simpl; lia).
  change (Z.pos (digits2_pos p)) with (Zdigits2 (Z.pos p)) in *.
  assert (Hf : fexp (Zdigits2 (Z.pos p) + 0) = Zdigits2 (Z.pos p) - prec).
  { unfold SpecFloat.fexp, SpecFloat.emin. lia. }
  rewrite Hf in Hez. 
  assert (Hez' : ez = Zdigits2 (Z.pos p) - prec) by lia.
  rewrite binary_round_aux_exact.
  - simpl. split; [unfold SpecFloat.emin; lia|]. rewrite Hmz. replace (0 - ez) with (- ez) by lia. reflexivity.
  - rewrite Hmz, Zdigits2_shift by lia. lia.
  - unfold SpecFloat.emin. lia.
Qed.

Lemma SFmul_fle x y Bx By :
  fle x Bx -> fle y By -> Bx * By < 2 ^ prec ->
  fle (SFmul prec emax x y) (Bx * By).
Proof.
  intros Hx Hy HB.
  pose proof (fle_nonneg _ _ Hx). pose proof (fle_nonneg _ _ Hy).
  destruct x as [[|] | | | [|] mx ex]; simpl in Hx; try tauto;
  destruct y as [[|] | | | [|] my ey]; simpl in Hy; try tauto; 
  cbn [SFmul xorb]; try (simpl; nia).
  destruct Hx as [Hex Hmx], Hy as [Hey Hmy].
  apply binary_round_aux_fle; try assumption; try lia.
  simpl loc_bit. replace (- (ex + ey)) with (- ex + - ey) by lia.
  rewrite Z.pow_add_r by lia. rewrite Pos2Z.inj_mul.
  assert (0 < 2 ^ (- ex)) by (apply Z.pow_pos_nonneg; lia).
  assert (0 < 2 ^ (- ey)) by (apply Z.pow_pos_nonneg; lia).
  nia.
Qed.

Lemma SFadd_fle x y Bx By :
  fle x Bx -> fle y By -> Bx + By < 2 ^ prec ->
  fle (SFadd prec emax x y) (Bx + By).
Proof.
  intros Hx Hy HB.
  pose proof (fle_nonneg _ _ Hx). pose proof (fle_nonneg _ _ Hy).
  destruct x as [[|] | | | [|] mx ex] eqn:Ex; simpl in Hx; try tauto;
  destruct y as [[|] | | | [|] my ey] eqn:Ey; simpl in Hy; try tauto;
  cbn [SFadd]; try (simpl; lia);
  try (apply fle_mono with By; [exact Hy | lia]);
  try (apply fle_mono with Bx; [exact Hx | lia]).
  - destruct Hx as [Hex Hmx], Hy as [Hey Hmy]. cbn [cond_Zopp].
    pose proof (shl_align_spec mx ex (Z.min ex ey)) as Hsx.
    pose proof (shl_align_spec my ey (Z.min ex ey)) as Hsy.
    destruct (shl_align mx ex (Z.min ex ey)) as [ax ez1].
    destruct (shl_align my ey (Z.min ex ey)) as [ay ez2].
    destruct Hsx as [Hez1 Hax], Hsy as [Hez2 Hay]. cbn [fst].
    change (Z.pos ax + Z.pos ay) with (Z.pos (ax + ay)). cbn [binary_normalize].
    apply binary_round_fle; try lia.
    rewrite Pos2Z.inj_add, Hax, Hay.
    set (ez := Z.min ex ey) in *.
    replace ez1 with ez by lia. replace ez2 with ez by lia.
    assert (Hpx : 2 ^ (- ez) = 2 ^ (- ex) * 2 ^ (ex - ez)).
    { rewrite <- Z.pow_add_r by lia. f_equal. lia. }
    assert (Hpy : 2 ^ (- ez) = 2 ^ (- ey) * 2 ^ (ey - ez)).
    { rewrite <- Z.pow_add_r by lia. f_equal. lia. }
    assert (0 < 2 ^ (ex - ez)) by (apply Z.pow_pos_nonneg; lia).
    assert (0 < 2 ^ (ey - ez)) by (apply Z.pow_pos_nonneg; lia).
    rewrite Z.mul_add_distr_r. 
    assert (Z.pos mx * 2 ^ (ex - ez) <= Bx * 2 ^ (- ez)) by (rewrite Hpx; nia).
    assert (Z.pos my * 2 ^ (ey - ez) <= By * 2 ^ (- ez)) by (rewrite Hpy; nia).
    lia.
Qed.

End Ops.

Section Div.
Variables prec emax : Z.
Hypothesis Hprec : 1 < prec.
Hypothesis Hemax : prec <= emax.

Local Abbreviation fle := (fle prec emax).
Local Abbreviation fis := (fis prec emax).
Local Abbreviation emin := (emin prec emax).
Local Abbreviation fexp := (fexp prec emax).

Lemma SFdiv_zero y c : fis y c -> 0 < c ->
  SFdiv prec emax (S754_zero false) y = S754_zero false.
Proof.
  destruct y as [[|] | | | [|] m e]; simpl; try tauto; try lia.
Qed.

Lemma SFdiv_fle x y B c :
  fle x (B * c) -> fis y c -> 0 < c -> 0 <= B < 2 ^ prec ->
  fle (SFdiv prec emax x y) B.
Proof.
  intros Hx Hy Hc HB.
  destruct y as [[|] | | | [|] my ey]; simpl in Hy; try tauto; try lia.
  destruct x as [[|] | | | [|] mx ex]; simpl in Hx; try tauto; try (simpl; lia).
  destruct Hx as [Hex Hmx], Hy as [Hey Hmy].
  cbn [SFdiv xorb]. unfold SFdiv_core_binary.
  set (d1 := Zdigits2 (Z.pos mx)). set (d2 := Zdigits2 (Z.pos my)).
  set (e' := Z.min (fexp (d1 + ex - (d2 + ey))) (ex - ey)).
  set (s := ex - ey - e').
  assert (Hs : 0 <= s) by (unfold s, e'; lia).
  set (m' := match s with Z.pos _ => Z.shiftl (Z.pos mx) s | 0 => Z.pos mx | Z.neg _ => 0 end).
  assert (Hm' : m' = Z.pos mx * 2 ^ s).
  { unfold m'. destruct s as [| p | p] eqn:Es; [simpl; lia | | lia].
    rewrite Z.shiftl_mul_pow2 by lia. reflexivity. }
  pose proof (Z.div_eucl_eq m' (Z.pos my) ltac:(lia)) as Heq.
  pose proof (Z.mod_pos_bound m' (Z.pos my) ltac:(lia)) as Hrb.
  unfold Z.modulo in Hrb.
  destruct (Z.div_eucl m' (Z.pos my)) as [q r].
  (* digits *)
  pose proof (Zdigits2_bounds mx) as [Hlox Hhix]. fold d1 in Hlox, Hhix.
  pose proof (Zdigits2_bounds my) as [Hloy Hhiy]. fold d2 in Hloy, Hhiy.
  assert (Hd1 : 1 <= d1) by (unfold d1; simpl; lia).
  assert (Hd2 : 1 <= d2) by (unfold d2; simpl; lia).
  assert (Hpex : 0 < 2 ^ (- ex)) by (apply Z.pow_pos_nonneg; lia).
  assert (Hpey : 0 < 2 ^ (- ey)) by (apply Z.pow_pos_nonneg; lia).
  assert (Hdd : d1 + ex - (d2 + ey) <= prec).
  { destruct (Z_le_gt_dec (d1 + ex - (d2 + ey)) prec) as [|Hgt]; [assumption|exfalso].
    (* 2^(d1-1) <= mx <= B c 2^-ex,  c 2^-ey = my < 2^d2 *)
    assert (H1 : 2 ^ (d1 - 1) * 2 ^ (- ey) < 2 ^ prec * 2 ^ d2 * 2 ^ (- ex)).
    { assert (Z.pos mx * 2 ^ (- ey) <= B * Z.pos my * 2 ^ (- ex)) by (rewrite Hmy; nia).
      assert (0 < 2 ^ d2) by (apply Z.pow_pos_nonneg; lia).
      assert (0 < 2 ^ prec) by (apply Z.pow_pos_nonneg; lia).
      assert (B * Z.pos my * 2 ^ (- ex) < 2 ^ prec * 2 ^ d2 * 2 ^ (- ex)).
      { apply Z.mul_lt_mono_pos_r; [lia|]. nia. }
      nia. }
    rewrite <- !Z.pow_add_r in H1 by lia.
    apply Z.pow_lt_mono_r_iff in H1; lia. }
  assert (He' : e' <= 0).
  { unfold e', SpecFloat.fexp. pose proof (emin_neg prec emax Hprec Hemax). lia. }
  assert (Hq : 0 <= q) by nia.
  apply binary_round_aux_fle; try assumption.
  rewrite new_location_bit.
  assert (Hpe' : 0 < 2 ^ (- e')) by (apply Z.pow_pos_nonneg; lia).
  assert (Hkey : m' <= B * 2 ^ (- e') * Z.pos my).
  { rewrite Hm', Hmy.
    assert (Hp : 2 ^ (- ex) * 2 ^ s = 2 ^ (- e') * 2 ^ (- ey)).
    { rewrite <- !Z.pow_add_r by lia. f_equal. unfold s. lia. }
    assert (0 < 2 ^ s) by (apply Z.pow_pos_nonneg; lia).
    assert (Z.pos mx * 2 ^ s <= B * c * 2 ^ (- ex) * 2 ^ s) by nia.
    replace (B * c * 2 ^ (- ex) * 2 ^ s) with (B * c * (2 ^ (- ex) * 2 ^ s)) in H0 by ring.
    rewrite Hp in H0. lia. }
  destruct (Z.eqb_spec r 0); nia.
Qed.

End Div.


(** ** Integers rounded to floats *)

(** One right shift of a record, field by field. *)
Lemma shr_1_m q b s : 0 <= q -> shr_m (shr_1 {| shr_m := q; shr_r := b; shr_s := s |}) = q / 2.
Proof.
  intros Hq. destruct q as [| [p | p |] | p]; cbn [shr_1 shr_m]; try lia.
  - reflexivity.
  - rewrite Pos2Z.inj_xI. apply Z.div_unique with 1; lia.
  - rewrite Pos2Z.inj_xO. apply Z.div_unique with 0; lia.
  - reflexivity.
Qed.

Lemma shr_1_r q b s : 0 <= q -> shr_r (shr_1 {| shr_m := q; shr_r := b; shr_s := s |}) = Z.odd q.
Proof. intros Hq. destruct q as [| [p | p |] | p]; cbn [shr_1 shr_r]; try lia; reflexivity. Qed.

Lemma shr_1_s q b s : 0 <= q -> shr_s (shr_1 {| shr_m := q; shr_r := b; shr_s := s |}) = b || s.
Proof. intros Hq. destruct q as [| [p | p |] | p]; cbn [shr_1 shr_s]; try lia; reflexivity. Qed.

Lemma odd_mod2 q : Z.odd q = negb (q mod 2 =? 0).
Proof.
  rewrite Zmod_odd. destruct (Z.odd q); reflexivity.
Qed.

(** The reading of the record by its bits survives one more shift. *)
Lemma shr_1_bits m k r :
  0 <= m -> 1 <= k -> shr_bits m k r -> shr_bits m (k + 1) (shr_1 r).
Proof.
  intros Hm Hk (Hq & Hr & Hs). destruct r as [q b s]. cbn [shr_m shr_r shr_s] in *.
  assert (Hpk : 0 < 2 ^ k) by (apply Z.pow_pos_nonneg; lia).
  assert (Hpk1 : 0 < 2 ^ (k - 1)) by (apply Z.pow_pos_nonneg; lia).
  assert (Hq0 : 0 <= q) by (subst q; apply Z.div_pos; lia).
  assert (Hpow : 2 ^ (k + 1) = 2 ^ k * 2) by (rewrite Z.pow_add_r by lia; reflexivity).
  assert (Hpow' : 2 ^ k = 2 ^ (k - 1) * 2).
  { replace k with (k - 1 + 1) at 1 by lia. rewrite Z.pow_add_r by lia. reflexivity. }
  unfold shr_bits. rewrite shr_1_m, shr_1_r, shr_1_s by assumption.
  replace (k + 1 - 1) with k by lia.
  split; [|split].
  - rewrite Hpow, <- Z.div_div by lia. congruence.
  - congruence.
  - subst b s. rewrite odd_mod2. rewrite Hpow' at 1. rewrite Z.rem_mul_r by lia.
    pose proof (Z.mod_pos_bound m (2 ^ (k - 1)) Hpk1).
    pose proof (Z.mod_pos_bound (m / 2 ^ (k - 1)) 2 ltac:(lia)).
    destruct (Z.eqb_spec ((m / 2 ^ (k - 1)) mod 2) 0) as [E1 | E1];
      destruct (Z.eqb_spec (m mod 2 ^ (k - 1)) 0) as [E2 | E2];
      destruct (Z.eqb_spec (m mod 2 ^ (k - 1) + 2 ^ (k - 1) * ((m / 2 ^ (k - 1)) mod 2)) 0)
        as [E3 | E3]; cbn; try reflexivity; exfalso; nia.
Qed.

(** The first shift of an exact mantissa. *)
Lemma shr_bits_1 m : 0 <= m ->
  shr_bits m 1 (shr_1 {| shr_m := m; shr_r := false; shr_s := false |}).
Proof.
  intros Hm. unfold shr_bits. rewrite shr_1_m, shr_1_r, shr_1_s by assumption.
  change (2 ^ (1 - 1)) with 1. change (2 ^ 1) with 2.
  rewrite Z.div_1_r, Z.mod_1_r. auto.
Qed.

(** Hence [n] shifts of an exact mantissa. *)
Lemma shr_iter_bits m n :
  0 <= m ->
  shr_bits m (Z.of_nat (S n))
    (Nat.iter (S n) shr_1 {| shr_m := m; shr_r := false; shr_s := false |}).
Proof.
  intros Hm. induction n as [|n IH].
  - apply shr_bits_1. assumption.
  - rewrite (Nat2Z.inj_succ (S n)). unfold Z.succ.
    change (Nat.iter (S (S n)) shr_1 ?x) with (shr_1 (Nat.iter (S n) shr_1 x)).
    apply shr_1_bits; [assumption | lia | exact IH].
Qed.

(** Shifting an exact mantissa by [n >= 1]. *)
Lemma shr_exact_bits m e n :
  0 <= m -> 1 <= n ->
  let '(r, e') := shr (shr_record_of_loc m loc_Exact) e n in
  e' = e + n /\ shr_bits m n r.
Proof.
  intros Hm Hn. destruct n as [| p | p]; try lia. cbn [shr shr_record_of_loc].
  split; [reflexivity|]. rewrite iter_pos_nat.
  destruct (Pos2Nat.is_succ p) as [k Hk]. rewrite Hk.
  replace (Z.pos p) with (Z.of_nat (S k)) by lia.
  apply shr_iter_bits. assumption.
Qed.

(** Rounding the shifted mantissa to nearest even, from its bits. *)
Lemma round_bits m n r :
  0 <= m -> 1 <= n -> shr_bits m n r ->
  round_nearest_even (shr_m r) (loc_of_shr_record r) =
  m / 2 ^ n + rne_up (m / 2 ^ n) (m mod 2 ^ n) (2 ^ (n - 1)).
Proof.
  intros Hm Hn (Hq & Hr & Hs). destruct r as [q b s]. cbn [shr_m shr_r shr_s] in *.
  assert (Hp1 : 0 < 2 ^ (n - 1)) by (apply Z.pow_pos_nonneg; lia).
  assert (Hpow : 2 ^ n = 2 ^ (n - 1) * 2).
  { replace n with (n - 1 + 1) at 1 by lia. rewrite Z.pow_add_r by lia. reflexivity. }
  assert (Hrem : m mod 2 ^ n = m mod 2 ^ (n - 1) + 2 ^ (n - 1) * ((m / 2 ^ (n - 1)) mod 2)).
  { rewrite Hpow at 1. apply Z.rem_mul_r; lia. }
  pose proof (Z.mod_pos_bound m (2 ^ (n - 1)) Hp1) as Hlow.
  pose proof (Z.mod_pos_bound (m / 2 ^ (n - 1)) 2 ltac:(lia)) as Hbit.
  rewrite odd_mod2 in Hr. rewrite <- Hq. unfold rne_up. rewrite Hrem.
  set (low := m mod 2 ^ (n - 1)) in *. set (bit := (m / 2 ^ (n - 1)) mod 2) in *.
  set (half := 2 ^ (n - 1)) in *.
  subst b s.
  destruct (Z.eqb_spec bit 0) as [Eb | Eb]; destruct (Z.eqb_spec low 0) as [El | El];
    cbn [negb loc_of_shr_record round_nearest_even].
  - replace (half <? low + half * bit) with false by (symmetry; apply Z.ltb_ge; nia).
    replace (low + half * bit =? half) with false by (symmetry; apply Z.eqb_neq; nia).
    cbn. lia.
  - replace (half <? low + half * bit) with false by (symmetry; apply Z.ltb_ge; nia).
    replace (low + half * bit =? half) with false by (symmetry; apply Z.eqb_neq; nia).
    cbn. lia.
  - replace (half <? low + half * bit) with false by (symmetry; apply Z.ltb_ge; nia).
    replace (low + half * bit =? half) with true by (symmetry; apply Z.eqb_eq; nia).
    cbn [orb andb]. rewrite <- Z.negb_even. destruct (Z.even q); cbn; lia.
  - replace (half <? low + half * bit) with true by (symmetry; apply Z.ltb_lt; nia).
    cbn. lia.
Qed.

Lemma rne_up_bounds q rem half : 0 <= rne_up q rem half <= 1.
Proof. unfold rne_up. destruct (_ || _); lia. Qed.

(** A larger remainder is not rounded down when a smaller one is
    rounded up. *)
Lemma rne_up_mono q rem rem' half :
  rem <= rem' -> rne_up q rem half <= rne_up q rem' half.
Proof.
  intros H. unfold rne_up.
  destruct (Z.ltb_spec half rem), (Z.ltb_spec half rem'),
    (Z.eqb_spec rem half), (Z.eqb_spec rem' half), (Z.odd q); cbn; lia.
Qed.

(** The number of binary digits grows with the integer. *)
Lemma Zdigits2_mono z z' : 0 <= z <= z' -> Zdigits2 z <= Zdigits2 z'.
Proof.
  intros [H0 Hle]. destruct z as [| p | p]; [apply Zdigits2_nonneg | | lia].
  destruct z' as [| p' | p']; try lia.
  pose proof (Zdigits2_bounds p) as [Hlo _]. pose proof (Zdigits2_bounds p') as [_ Hhi].
  destruct (Z_le_gt_dec (Zdigits2 (Z.pos p)) (Zdigits2 (Z.pos p'))); [assumption|].
  exfalso.
  assert (2 ^ Zdigits2 (Z.pos p') <= 2 ^ (Zdigits2 (Z.pos p) - 1)).
  { apply Z.pow_le_mono_r; [lia|]. lia. }
  lia.
Qed.

Section Rne.
Variable prec : Z.
Hypothesis Hprec : 1 < prec.

(** An integer of at most [prec] digits is its own rounding. *)
Lemma rne_small z : Zdigits2 z <= prec -> rne prec z = z.
Proof.
  intros H. unfold rne. destruct (Z.leb_spec (Zdigits2 z - prec) 0); [reflexivity | lia].
Qed.

(** Bounds of a rounded integer with more than [prec] digits. *)
Lemma rne_big z :
  0 < z -> prec < Zdigits2 z ->
  let n := Zdigits2 z - prec in
  let q := z / 2 ^ n in
  2 ^ (prec - 1) <= q < 2 ^ prec /\
  rne prec z = (q + rne_up q (z mod 2 ^ n) (2 ^ (n - 1))) * 2 ^ n /\
  q * 2 ^ n <= rne prec z <= (q + 1) * 2 ^ n /\
  2 ^ (Zdigits2 z - 1) <= rne prec z <= 2 ^ Zdigits2 z.
Proof.
  intros Hz Hd. cbv zeta.
  set (n := Zdigits2 z - prec). set (q := z / 2 ^ n).
  destruct z as [| p | p]; try lia.
  pose proof (Zdigits2_bounds p) as [Hlo Hhi].
  assert (Hn : 0 < n) by (unfold n; lia).
  assert (Hpn : 0 < 2 ^ n) by (apply Z.pow_pos_nonneg; lia).
  assert (HD : 2 ^ Zdigits2 (Z.pos p) = 2 ^ prec * 2 ^ n).
  { rewrite <- Z.pow_add_r by lia. f_equal. unfold n. lia. }
  assert (HD1 : 2 ^ (Zdigits2 (Z.pos p) - 1) = 2 ^ (prec - 1) * 2 ^ n).
  { rewrite <- Z.pow_add_r by lia. f_equal. unfold n. lia. }
  assert (Hq : 2 ^ (prec - 1) <= q < 2 ^ prec).
  { unfold q. split.
    - apply Z.div_le_lower_bound; [lia|]. lia.
    - apply Z.div_lt_upper_bound; [lia|]. lia. }
  pose proof (rne_up_bounds q (Z.pos p mod 2 ^ n) (2 ^ (n - 1))) as Hup.
  assert (Hr : rne prec (Z.pos p)
               = (q + rne_up q (Z.pos p mod 2 ^ n) (2 ^ (n - 1))) * 2 ^ n).
  { unfold rne. fold n. destruct (Z.leb_spec n 0); [lia | reflexivity]. }
  split; [assumption|]. split; [assumption|]. rewrite Hr. split; [nia|].
  rewrite HD, HD1. nia.
Qed.

(** Rounding to [prec] digits is monotone. *)
Lemma rne_mono z z' : 0 <= z <= z' -> rne prec z <= rne prec z'.
Proof.
  intros [H0 Hle].
  destruct (Z.eq_dec z 0) as [-> | Hz0].
  { rewrite rne_small by (simpl; lia).
    destruct (Z_le_gt_dec (Zdigits2 z') prec).
    - rewrite rne_small by assumption. assumption.
    - pose proof (rne_big z' ltac:(destruct z'; simpl in *; lia) ltac:(lia)) as H.
      cbv zeta in H. destruct H as (_ & _ & _ & Hb & _).
      assert (0 < 2 ^ (Zdigits2 z' - 1)) by (apply Z.pow_pos_nonneg; lia). lia. }
  assert (Hz : 0 < z) by lia. assert (Hz' : 0 < z') by lia.
  pose proof (Zdigits2_mono z z' ltac:(lia)) as Hdm.
  destruct z as [| p | p]; try lia. destruct z' as [| p' | p']; try lia.
  pose proof (Zdigits2_bounds p) as [Hlo Hhi].
  pose proof (Zdigits2_bounds p') as [Hlo' Hhi'].
  destruct (Z_le_gt_dec (Zdigits2 (Z.pos p')) prec) as [Hs' | Hb'].
  { rewrite !rne_small by lia. assumption. }
  destruct (Z_le_gt_dec (Zdigits2 (Z.pos p)) prec) as [Hs | Hb].
  { rewrite (rne_small (Z.pos p)) by lia.
    pose proof (rne_big (Z.pos p') Hz' ltac:(lia)) as H. cbv zeta in H.
    destruct H as (_ & _ & _ & Hb1 & _).
    assert (2 ^ Zdigits2 (Z.pos p) <= 2 ^ (Zdigits2 (Z.pos p') - 1))
      by (apply Z.pow_le_mono_r; lia).
    lia. }
  pose proof (rne_big (Z.pos p) Hz ltac:(lia)) as H. cbv zeta in H.
  pose proof (rne_big (Z.pos p') Hz' ltac:(lia)) as H'. cbv zeta in H'.
  destruct H as (Hq & Hr & Hqb & Hdb), H' as (Hq' & Hr' & Hqb' & Hdb').
  destruct (Z.eq_dec (Zdigits2 (Z.pos p)) (Zdigits2 (Z.pos p'))) as [Heq | Hne].
  - rewrite <- Heq in *.
    set (n := Zdigits2 (Z.pos p) - prec) in *.
    assert (Hpn : 0 < 2 ^ n) by (apply Z.pow_pos_nonneg; unfold n; lia).
    assert (Hqq : Z.pos p / 2 ^ n <= Z.pos p' / 2 ^ n) by (apply Z.div_le_mono; lia).
    destruct (Z.eq_dec (Z.pos p / 2 ^ n) (Z.pos p' / 2 ^ n)) as [Eq | Nq].
    + rewrite Hr, Hr', <- Eq.
      apply Z.mul_le_mono_nonneg_r; [lia|]. apply Z.add_le_mono_l.
      apply rne_up_mono.
      pose proof (Z.div_mod (Z.pos p) (2 ^ n) ltac:(lia)).
      pose proof (Z.div_mod (Z.pos p') (2 ^ n) ltac:(lia)).
      rewrite <- Eq in *. lia.
    + nia.
  - assert (2 ^ Zdigits2 (Z.pos p) <= 2 ^ (Zdigits2 (Z.pos p') - 1))
      by (apply Z.pow_le_mono_r; lia).
    lia.
Qed.

End Rne.

Section Big.
Variables prec emax : Z.
Hypothesis Hprec : 1 < prec.
Hypothesis Hemax : prec <= emax.

Local Abbreviation fle := (fle prec emax).
Local Abbreviation fis := (fis prec emax).
Local Abbreviation emin := (emin prec emax).
Local Abbreviation fexp := (fexp prec emax).

(** An exact float of a non-positive exponent is an integer float. *)
Lemma fis_fint f z : fis f z -> fint f z.
Proof.
  destruct f as [[|] | | | [|] m e]; simpl; try tauto.
  intros [He Hm]. replace (Z.max e 0) with 0 by lia. replace (Z.max (- e) 0) with (- e) by lia.
  change (2 ^ 0) with 1. lia.
Qed.

(** The conversion of an integer with more than [prec] digits rounds it
    to nearest even. *)
Lemma binary_normalize_big z :
  0 < z -> prec < Zdigits2 z < emax ->
  fint (binary_normalize prec emax z 0 false) (rne prec z).
Proof.
  intros Hz Hd.
  pose proof (rne_big prec Hprec z Hz ltac:(lia)) as Hb. cbv zeta in Hb.
  destruct Hb as (Hq & Hr & _ & _).
  destruct z as [| p | p]; try lia.
  cbn [binary_normalize]. unfold binary_round.
  change (Z.pos (digits2_pos p)) with (Zdigits2 (Z.pos p)).
  set (D := Zdigits2 (Z.pos p)) in *. set (n := D - prec) in *.
  assert (Hf : fexp (D + 0) = n).
  { unfold SpecFloat.fexp, SpecFloat.emin, n. lia. }
  rewrite Hf. unfold shl_align.
  destruct (n - 0) as [| k | k] eqn:En; try (unfold n in En; lia).
  unfold binary_round_aux, shr_fexp. fold D. rewrite Hf. replace (n - 0) with n by lia.
  pose proof (shr_exact_bits (Z.pos p) 0 n ltac:(lia) ltac:(unfold n; lia)) as Hs.
  destruct (shr (shr_record_of_loc (Z.pos p) loc_Exact) 0 n) as [r1 e1].
  destruct Hs as [He1 Hbits]. replace (0 + n) with n in He1 by lia. subst e1.
  rewrite (round_bits (Z.pos p) n r1 ltac:(lia) ltac:(unfold n; lia) Hbits).
  set (q := Z.pos p / 2 ^ n) in *.
  pose proof (rne_up_bounds q (Z.pos p mod 2 ^ n) (2 ^ (n - 1))) as Hup.
  set (mr := q + rne_up q (Z.pos p mod 2 ^ n) (2 ^ (n - 1))) in *.
  assert (Hp1 : 0 < 2 ^ (prec - 1)) by (apply Z.pow_pos_nonneg; lia).
  assert (Hpp : 2 ^ prec = 2 * 2 ^ (prec - 1)).
  { rewrite <- Z.pow_succ_r by lia. f_equal. lia. }
  assert (Hpn : 0 < 2 ^ n) by (apply Z.pow_pos_nonneg; unfold n; lia).
  destruct (Z_lt_le_dec mr (2 ^ prec)) as [Hlt | Hge].
  - assert (Hdm : Zdigits2 mr = prec) by (apply Zdigits2_unique; lia).
    rewrite Hdm.
    assert (Hn2 : fexp (prec + n) - n = 0).
    { unfold SpecFloat.fexp, SpecFloat.emin, n. lia. }
    rewrite Hn2. cbn [shr shr_record_of_loc shr_m].
    destruct mr as [| pm | pm] eqn:Em; try lia.
    replace (n <=? emax - prec) with true by (symmetry; apply Z.leb_le; unfold n; lia).
    cbn [fint]. replace (Z.max n 0) with n by (unfold n; lia).
    replace (Z.max (- n) 0) with 0 by (unfold n; lia).
    change (2 ^ 0) with 1. rewrite Hr. lia.
  - assert (Emr : mr = 2 ^ prec) by lia.
    assert (Hdm : Zdigits2 mr = prec + 1).
    { apply Zdigits2_unique; [|lia]. rewrite Emr. replace (prec + 1 - 1) with prec by lia.
      split; [lia|]. rewrite Z.pow_add_r by lia. lia. }
    rewrite Hdm.
    assert (Hn2 : fexp (prec + 1 + n) - n = 1).
    { unfold SpecFloat.fexp, SpecFloat.emin, n. lia. }
    rewrite Hn2.
    pose proof (shr_spec mr loc_Exact n 1 ltac:(lia)) as Hs2.
    destruct (shr (shr_record_of_loc mr loc_Exact) n 1) as [r2 e2].
    destruct Hs2 as [He2 [Hm2 _]]. change (Z.max 1 0) with 1 in *.
    change (2 ^ 1) with 2 in Hm2.
    assert (Hm2' : shr_m r2 = 2 ^ (prec - 1)).
    { rewrite Hm2, Emr, Hpp. rewrite Z.mul_comm. apply Z.div_mul. lia. }
    rewrite Hm2'. destruct (2 ^ (prec - 1)) as [| pm | pm] eqn:Epm; try lia.
    replace (e2 <=? emax - prec) with true by (symmetry; apply Z.leb_le; unfold n in *; lia).
    cbn [fint]. replace (Z.max e2 0) with e2 by (unfold n in *; lia).
    replace (Z.max (- e2) 0) with 0 by (unfold n in *; lia).
    change (2 ^ 0) with 1. rewrite Hr. subst e2. rewrite Z.pow_add_r by (unfold n; lia).
    fold mr. rewrite Emr, Hpp. change (2 ^ 1) with 2. lia.
Qed.

(** The conversion of any non-negative integer that does not overflow. *)
Lemma binary_normalize_fint z :
  0 <= z -> Zdigits2 z < emax ->
  fint (binary_normalize prec emax z 0 false) (rne prec z).
Proof.
  intros Hz Hd. destruct (Z_le_gt_dec (Zdigits2 z) prec) as [Hs | Hb].
  - rewrite rne_small by assumption. apply fis_fint. apply binary_normalize_fis; auto.
    split; [assumption|].
    destruct z as [| p | p]; try lia; try (apply Z.pow_pos_nonneg; lia).
    pose proof (Zdigits2_bounds p) as [_ Hhi].
    assert (2 ^ Zdigits2 (Z.pos p) <= 2 ^ prec) by (apply Z.pow_le_mono_r; lia). lia.
  - apply binary_normalize_big; [|lia]. destruct z; simpl in *; lia.
Qed.

(** The quotient of two integers in floating point is at most one when
    the dividend is at most the divisor. *)
Lemma SFdiv_fint_le x y Vx Vy :
  fint x Vx -> fint y Vy -> 0 <= Vx <= Vy -> 0 < Vy ->
  fle (SFdiv prec emax x y) 1.
Proof.
  intros Hx Hy HV HVy.
  destruct y as [[|] | | | [|] my ey]; simpl in Hy; try tauto; try lia.
  destruct x as [[|] | | | [|] mx ex]; simpl in Hx; try tauto; try (simpl; lia).
  cbn [SFdiv xorb]. unfold SFdiv_core_binary.
  set (a1 := Z.max ex 0) in *. set (b1 := Z.max (- ex) 0) in *.
  set (a2 := Z.max ey 0) in *. set (b2 := Z.max (- ey) 0) in *.
  assert (Ha1 : 0 <= a1) by (unfold a1; lia). assert (Hb1 : 0 <= b1) by (unfold b1; lia).
  assert (Ha2 : 0 <= a2) by (unfold a2; lia). assert (Hb2 : 0 <= b2) by (unfold b2; lia).
  assert (Hex : ex = a1 - b1) by (unfold a1, b1; lia).
  assert (Hey : ey = a2 - b2) by (unfold a2, b2; lia).
  assert (Pa1 : 0 < 2 ^ a1) by (apply Z.pow_pos_nonneg; lia).
  assert (Pb1 : 0 < 2 ^ b1) by (apply Z.pow_pos_nonneg; lia).
  assert (Pa2 : 0 < 2 ^ a2) by (apply Z.pow_pos_nonneg; lia).
  assert (Pb2 : 0 < 2 ^ b2) by (apply Z.pow_pos_nonneg; lia).
  (* (star): mx 2^(a1+b2) <= my 2^(a2+b1) *)
  assert (Hstar : Z.pos mx * 2 ^ (a1 + b2) <= Z.pos my * 2 ^ (a2 + b1)).
  { rewrite !Z.pow_add_r by lia.
    replace (Z.pos mx * (2 ^ a1 * 2 ^ b2)) with (Z.pos mx * 2 ^ a1 * 2 ^ b2) by ring.
    replace (Z.pos my * (2 ^ a2 * 2 ^ b1)) with (Z.pos my * 2 ^ a2 * 2 ^ b1) by ring.
    rewrite Hx, Hy. nia. }
  set (d1 := Zdigits2 (Z.pos mx)). set (d2 := Zdigits2 (Z.pos my)).
  pose proof (Zdigits2_bounds mx) as [Hlox Hhix]. fold d1 in Hlox, Hhix.
  pose proof (Zdigits2_bounds my) as [Hloy Hhiy]. fold d2 in Hloy, Hhiy.
  assert (Hd1 : 1 <= d1) by (unfold d1; simpl; lia).
  assert (Hd2 : 1 <= d2) by (unfold d2; simpl; lia).
  assert (Hdd : d1 + ex - (d2 + ey) <= 0).
  { destruct (Z_le_gt_dec (d1 + ex - (d2 + ey)) 0) as [|Hgt]; [assumption|exfalso].
    assert (H1 : 2 ^ (d1 - 1 + (a1 + b2)) < 2 ^ (d2 + (a2 + b1))).
    { rewrite (Z.pow_add_r 2 (d1 - 1)), (Z.pow_add_r 2 d2) by lia.
      assert (0 < 2 ^ (a1 + b2)) by (apply Z.pow_pos_nonneg; lia).
      assert (0 < 2 ^ (a2 + b1)) by (apply Z.pow_pos_nonneg; lia).
      nia. }
    apply Z.pow_lt_mono_r_iff in H1; lia. }
  set (e' := Z.min (fexp (d1 + ex - (d2 + ey))) (ex - ey)).
  set (s := ex - ey - e').
  assert (Hs : 0 <= s) by (unfold s, e'; lia).
  assert (He' : e' <= 0).
  { unfold e', SpecFloat.fexp. pose proof (emin_neg prec emax Hprec Hemax). lia. }
  set (m' := match s with Z.pos _ => Z.shiftl (Z.pos mx) s | 0 => Z.pos mx | Z.neg _ => 0 end).
  assert (Hm' : m' = Z.pos mx * 2 ^ s).
  { unfold m'. destruct s as [| p | p] eqn:Es; [simpl; lia | | lia].
    rewrite Z.shiftl_mul_pow2 by lia. reflexivity. }
  pose proof (Z.div_eucl_eq m' (Z.pos my) ltac:(lia)) as Heq.
  pose proof (Z.mod_pos_bound m' (Z.pos my) ltac:(lia)) as Hrb.
  unfold Z.modulo in Hrb.
  destruct (Z.div_eucl m' (Z.pos my)) as [q r].
  assert (Hq : 0 <= q) by nia.
  apply binary_round_aux_fle; try assumption.
  { split; [lia|]. apply Z.pow_gt_1; lia. }
  rewrite new_location_bit.
  assert (Hpe' : 0 < 2 ^ (- e')) by (apply Z.pow_pos_nonneg; lia).
  assert (Hkey : m' <= 2 ^ (- e') * Z.pos my).
  { assert (PK : 0 < 2 ^ (a2 + b1)) by (apply Z.pow_pos_nonneg; lia).
    apply (Z.mul_le_mono_pos_r _ _ (2 ^ (a2 + b1)) PK).
    rewrite Hm'.
    replace (Z.pos mx * 2 ^ s * 2 ^ (a2 + b1)) with (Z.pos mx * 2 ^ (a1 + b2) * 2 ^ (- e')).
    - replace (2 ^ (- e') * Z.pos my * 2 ^ (a2 + b1))
        with (Z.pos my * 2 ^ (a2 + b1) * 2 ^ (- e')) by ring.
      apply Z.mul_le_mono_nonneg_r; lia.
    - rewrite <- !Z.mul_assoc, <- !Z.pow_add_r by lia. f_equal. f_equal. unfold s. lia. }
  destruct (Z.eqb_spec r 0); nia.
Qed.

End Big.
(** ** The float expressions of the engine *)

Lemma c_round_fle prec emax f B :
  fle prec emax f B -> exists z, c_round f = Some z /\ 0 <= z <= B.
Proof.
  destruct f as [[|] | | | [|] m e]; cbn [fle c_round]; try tauto.
  - intros HB. exists 0. split; [reflexivity | lia].
  - intros [He Hm]. eexists. split; [reflexivity|].
    destruct (Z.leb_spec 0 e) as [H0 | H0].
    + assert (e = 0) by lia. subst e. change (2 ^ (- 0)) with 1 in Hm. change (2 ^ 0) with 1. lia.
    + assert (Hp : 2 ^ (- e) = 2 * 2 ^ (- e - 1)).
      { rewrite <- Z.pow_succ_r by lia. f_equal. lia. }
      assert (0 < 2 ^ (- e - 1)) by (apply Z.pow_pos_nonneg; lia).
      split.
      * apply Z.div_pos; lia.
      * apply Z.lt_succ_r. apply Z.div_lt_upper_bound; [lia|]. nia.
Qed.

Lemma F32_ok : 1 < F32.prec /\ F32.prec <= F32.emax.
Proof. unfold F32.prec, F32.emax. lia. Qed.
Lemma F64_ok : 1 < F64.prec /\ F64.prec <= F64.emax.
Proof. unfold F64.prec, F64.emax. lia. Qed.

Lemma F64_of_float_fle f B :
  fle F32.prec F32.emax f B -> B < 2 ^ 32 ->
  fle F64.prec F64.emax (F64.of_float f) B.
Proof.
  intros Hf HB. pose proof (fle_nonneg _ _ _ _ Hf) as H0.
  destruct f as [[|] | | | [|] m e]; simpl in Hf; try tauto.
  destruct Hf as [He Hm]. cbn [F64.of_float].
    apply binary_round_fle; try apply F64_ok; try lia.
    unfold F64.prec. change (2 ^ 53) with 9007199254740992. lia.
Qed.

Lemma u32_small z : 0 <= z < 2 ^ 32 -> u32 z = z.
Proof. intros. unfold u32. apply Z.mod_small. lia. Qed.

Lemma s32_small z : - 2 ^ 31 <= z < 2 ^ 31 -> s32 z = z.
Proof. intros. unfold s32. rewrite Z.mod_small; lia. Qed.

Lemma round_u32_fle f B :
  fle F32.prec F32.emax f B -> B < 2 ^ 32 ->
  0 <= round_u32 (F64.of_float f) <= B.
Proof.
  intros Hf HB. pose proof (F64_of_float_fle f B Hf HB) as H64.
  destruct (c_round_fle _ _ _ _ H64) as (z & Hz & Hr).
  unfold round_u32. rewrite Hz. rewrite u32_small; lia.
Qed.

Lemma F32_of_int_fis z : 0 <= z < 2 ^ 24 -> fis F32.prec F32.emax (F32.of_int z) z.
Proof. intros. apply binary_normalize_fis; try apply F32_ok. exact H. Qed.

Lemma F32_of_int_fle z B : 0 <= z <= B -> B < 2 ^ 24 ->
  fle F32.prec F32.emax (F32.of_int z) B.
Proof. intros. apply binary_normalize_fle; try apply F32_ok; assumption. Qed.

Lemma F32_of_int_fint z :
  0 <= z <= INT_MAX -> fint (F32.of_int z) (rne F32.prec z).
Proof.
  intros Hz. unfold INT_MAX in Hz.
  apply binary_normalize_fint; try apply F32_ok; [lia|].
  assert (Zdigits2 z <= 31) by (apply Zdigits2_le; lia).
  unfold F32.emax. lia.
Qed.

Lemma rne_pos prec z : 1 < prec -> 0 < z -> 0 < rne prec z.
Proof.
  intros Hp Hz. destruct (Z_le_gt_dec (Zdigits2 z) prec) as [Hs | Hb].
  - rewrite rne_small by assumption. assumption.
  - pose proof (rne_big prec Hp z Hz ltac:(lia)) as H. cbv zeta in H.
    destruct H as (_ & _ & _ & Hlo & _).
    assert (0 < 2 ^ (Zdigits2 z - 1)) by (apply Z.pow_pos_nonneg; lia). lia.
Qed.

(** The factor of the rebalance is at most one, so a scaled entry is at
    most the entry. *)
Lemma scale_bounds radius c v ii :
  0 <= v < 2 ^ 24 -> 0 < radius <= INT_MAX ->
  FFABS (Z.of_nat ii - Z.of_nat c) <= radius ->
  0 <= scale radius c v ii <= v.
Proof.
  intros Hv Hr Hd. unfold scale.
  set (d := FFABS (Z.of_nat ii - Z.of_nat c)) in *.
  assert (Hd0 : 0 <= d) by (unfold d, FFABS; destruct (Z.geb_spec (Z.of_nat ii - Z.of_nat c) 0); lia).
  assert (Hp : 1 < F32.prec) by apply F32_ok.
  assert (Ha : fle F32.prec F32.emax (F32.div (F32.of_int d) (F32.of_int radius)) 1).
  { apply SFdiv_fint_le with (rne F32.prec d) (rne F32.prec radius); try apply F32_ok.
    - apply F32_of_int_fint. lia.
    - apply F32_of_int_fint. lia.
    - split; [|apply rne_mono; [assumption | lia]].
      destruct (Z.eq_dec d 0) as [-> | Hne]; [reflexivity|].
      pose proof (rne_pos F32.prec d Hp ltac:(lia)). lia.
    - apply rne_pos; [assumption | lia]. }
  apply round_u32_fle; [|lia].
  replace v with (v * 1) at 2 by lia.
  apply SFmul_fle; try apply F32_ok; try assumption;
    try (change (2 ^ F32.prec) with 16777216; lia).
  apply F32_of_int_fle; lia.
Qed.

(** The weight of a fill is between 0 and 256. *)
Lemma pixel_alpha_bounds maxError xE yE ii jj :
  0 < maxError < 2 ^ 24 ->
  0 <= xE !!! ii <= maxError -> 0 <= yE !!! jj <= maxError ->
  0 <= pixel_alpha maxError xE yE ii jj <= 256.
Proof.
  intros Hm Hx Hy. unfold pixel_alpha.
  assert (Hq : forall v, 0 <= v <= maxError ->
     fle F32.prec F32.emax (F32.div (F32.of_int v) (F32.of_int maxError)) 1).
  { intros v Hv. apply SFdiv_fle with maxError; try apply F32_ok; try lia;
      try (change (2 ^ F32.prec) with 16777216; lia).
    - apply F32_of_int_fle; lia.
    - apply F32_of_int_fis; lia. }
  pose proof (Hq _ Hx) as Hxe. pose proof (Hq _ Hy) as Hye.
  set (xerr := F32.div (F32.of_int (xE !!! ii)) (F32.of_int maxError)) in *.
  set (yerr := F32.div (F32.of_int (yE !!! jj)) (F32.of_int maxError)) in *.
  assert (Hs : fle F32.prec F32.emax (F32.add xerr yerr) (1 + 1)).
  { apply SFadd_fle; try apply F32_ok; try assumption;
      try (change (2 ^ F32.prec) with 16777216; lia). }
  assert (Hh : fle F32.prec F32.emax (F32.div (F32.add xerr yerr) (F32.of_int 2)) 1).
  { apply SFdiv_fle with 2; try apply F32_ok; try lia;
      try (change (2 ^ F32.prec) with 16777216; lia).
    - exact Hs.
    - apply F32_of_int_fis; lia. }
  assert (Hp : fle F32.prec F32.emax
                 (F32.mul (F32.of_int 256) (F32.div (F32.add xerr yerr) (F32.of_int 2))) (256 * 1)).
  { apply SFmul_fle; try apply F32_ok; try assumption;
      try (change (2 ^ F32.prec) with 16777216; lia).
    apply F32_of_int_fle; lia. }
  pose proof (F64_of_float_fle _ _ Hp ltac:(lia)) as H64.
  destruct (c_round_fle _ _ _ _ H64) as (z & Hz & Hr).
  unfold sub_round_int. rewrite Hz.
  assert (Hin : in_int (256 - z) = true).
  { unfold in_int, INT_MIN, INT_MAX. apply andb_true_intro. split; apply Z.leb_le; lia. }
  rewrite Hin. lia.
Qed.

(** Where both rulers are exact the weight is 256. *)
Lemma pixel_alpha_exact maxError xE yE ii jj :
  0 < maxError < 2 ^ 24 -> xE !!! ii = 0 -> yE !!! jj = 0 ->
  pixel_alpha maxError xE yE ii jj = 256.
Proof.
  intros Hm Hx Hy. unfold pixel_alpha. rewrite Hx, Hy.
  change (F32.of_int 0) with (S754_zero false).
  unfold F32.div. rewrite (SFdiv_zero F32.prec F32.emax _ maxError); [| apply F32_of_int_fis; lia | lia].
  reflexivity.
Qed.

(** The centre of a fill is always filled. *)
Lemma fill_alpha_centre radius i j :
  0 < radius < 2 ^ 53 ->
  SFltb (F32.of_int 0) (fill_alpha radius i j i j) = true.
Proof.
  intros Hr. unfold fill_alpha. rewrite !Z.sub_diag. 
  change (F64.sqrt (F64.of_int (s32 (0 * 0 + 0 * 0)))) with (S754_zero false).
  unfold F64.div. rewrite (SFdiv_zero F64.prec F64.emax _ radius); [| | lia].
  - reflexivity.
  - apply binary_normalize_fis; try apply F64_ok.
    change (2 ^ F64.prec) with (2 ^ 53). lia.
Qed.
(** ** Rulers *)

Lemma ruler_ok_lookup err k : ruler_ok err -> 0 <= err !!! k < 2 ^ 24.
Proof.
  intros H. rewrite list_lookup_total_alt.
  destruct (err !! k) as [v|] eqn:E; simpl.
  - exact (Forall_lookup_1 _ _ _ _ H E).
  - change (@inhabitant Z _) with 1. lia.
Qed.

Lemma ruler_ok_s32 err k : ruler_ok err -> s32 (err !!! k) = err !!! k.
Proof. intros H. pose proof (ruler_ok_lookup err k H). apply s32_small. lia. Qed.

Lemma ruler_ok_insert err k v : ruler_ok err -> 0 <= v < 2 ^ 24 -> ruler_ok (<[k := v]> err).
Proof. intros H Hv. apply Forall_insert; assumption. Qed.

(** *** Which tabstop is the worst *)

Lemma worst_prefix err m :
  ruler_ok err ->
  let w := foldl (worst_step err) (0%nat, s32 (err !!! 0%nat)) (seq 1 m) in
  (w.1 <= m)%nat /\ w.2 = err !!! w.1 /\
  (forall k, (k <= m)%nat -> err !!! k <= w.2) /\
  (forall k, (k < w.1)%nat -> err !!! k < w.2).
Proof.
  intros Hok. induction m as [|m IH].
  - cbn [seq foldl fst snd]. rewrite ruler_ok_s32 by assumption.
    split; [lia|]. split; [reflexivity|]. split.
    + intros k Hk. replace k with 0%nat by lia. lia.
    + intros k Hk. lia.
  - rewrite seq_S, foldl_app. cbn [foldl].
    set (w := foldl (worst_step err) (0%nat, s32 (err !!! 0%nat)) (seq 1 m)) in *.
    cbv zeta in IH. destruct IH as (Hi & Hv & Hmax & Hfirst).
    pose proof (ruler_ok_lookup err w.1 Hok) as Hw.
    pose proof (ruler_ok_lookup err (1 + m)%nat Hok) as Hn.
    unfold worst_step. rewrite Hv, u32_small by lia.
    destruct (Z.gtb_spec (err !!! (1 + m)%nat) (err !!! w.1)) as [Hgt | Hle];
      cbn [fst snd].
    + rewrite ruler_ok_s32 by assumption.
      split; [lia|]. split; [reflexivity|]. split.
      * intros k Hk. destruct (decide (k = S m)) as [-> | Hne]; [simpl; lia|].
        specialize (Hmax k ltac:(lia)). lia.
      * intros k Hk. specialize (Hmax k ltac:(lia)). lia.
    + split; [lia|]. split; [assumption|]. split.
      * intros k Hk. destruct (decide (k = S m)) as [-> | Hne]; [simpl in *; lia|].
        apply Hmax. lia.
      * assumption.
Qed.

Lemma worst_spec err n :
  ruler_ok err -> (0 < n)%nat ->
  ((worst err n).1 < n)%nat /\ (worst err n).2 = err !!! (worst err n).1 /\
  (forall k, (k < n)%nat -> err !!! k <= (worst err n).2) /\
  (forall k, (k < (worst err n).1)%nat -> err !!! k < (worst err n).2).
Proof.
  intros Hok Hn. unfold worst.
  pose proof (worst_prefix err (n - 1) Hok) as H. cbv zeta in H.
  destruct H as (Hi & Hv & Hmax & Hfirst).
  split; [lia|]. split; [assumption|]. split; [|assumption].
  intros k Hk. apply Hmax. lia.
Qed.

(** *** The range of a splash *)

Lemma expand_down_spec err n lo :
  let r := expand_down err n lo in
  (r <= lo)%nat /\ (lo - r <= n)%nat /\
  (forall k, (r <= k < lo)%nat -> err !!! k <> 0).
Proof.
  revert lo. induction n as [|n IH]; intros lo; cbn [expand_down].
  - cbv zeta. split; [lia|]. split; [lia|]. intros k Hk. lia.
  - destruct (Nat.eqb_spec lo 0) as [-> | Hlo]; cbn [orb].
    + cbv zeta. split; [lia|]. split; [lia|]. intros k Hk. lia.
    + destruct (Z.eqb_spec (err !!! (lo - 1)%nat) 0) as [Hz | Hnz].
      * cbv zeta. split; [lia|]. split; [lia|]. intros k Hk. lia.
      * specialize (IH (lo - 1)%nat). cbv zeta in IH. destruct IH as (H1 & H2 & H3).
        cbv zeta. split; [lia|]. split; [lia|]. intros k Hk.
        destruct (decide (k = (lo - 1)%nat)) as [-> | Hne]; [assumption|].
        apply H3. lia.
Qed.

Lemma expand_up_spec err len n hi :
  let r := expand_up err len n hi in
  (hi <= r)%nat /\ (r - hi <= n)%nat /\ ((hi < len)%nat -> (r < len)%nat) /\
  (forall k, (hi < k <= r)%nat -> err !!! k <> 0).
Proof.
  revert hi. induction n as [|n IH]; intros hi; cbn [expand_up].
  - cbv zeta. split; [lia|]. split; [lia|]. split; [lia|]. intros k Hk. lia.
  - destruct (Z.leb_spec (Z.of_nat len - 1) (Z.of_nat hi)) as [Hge | Hlt]; cbn [orb].
    + cbv zeta. split; [lia|]. split; [lia|]. split; [lia|]. intros k Hk. lia.
    + destruct (Z.eqb_spec (err !!! (hi + 1)%nat) 0) as [Hz | Hnz].
      * cbv zeta. split; [lia|]. split; [lia|]. split; [lia|]. intros k Hk. lia.
      * specialize (IH (hi + 1)%nat). cbv zeta in IH. destruct IH as (H1 & H2 & H3 & H4).
        cbv zeta. split; [lia|]. split; [lia|]. split; [lia|]. intros k Hk.
        destruct (decide (k = (hi + 1)%nat)) as [-> | Hne]; [assumption|].
        apply H4. lia.
Qed.

(** The pivot range: within the ruler, around the pivot, less than
    [radius] away from it, and free of exact lines but for the pivot. *)
Lemma range_spec err len radius c :
  (c < len)%nat ->
  let lo := range_min err radius c in
  let hi := range_max err len radius c in
  (lo <= c <= hi)%nat /\ (hi < len)%nat /\
  (forall k, (lo <= k <= hi)%nat -> Z.of_nat (k - c) + Z.of_nat (c - k) <= Z.max (radius - 1) 0) /\
  (forall k, (lo <= k <= hi)%nat -> k <> c -> err !!! k <> 0).
Proof.
  intros Hc. unfold range_min, range_max, turns.
  pose proof (expand_down_spec err (Z.to_nat (radius - 1)) c) as Hd.
  pose proof (expand_up_spec err len (Z.to_nat (radius - 1)) c) as Hu.
  cbv zeta in *. destruct Hd as (D1 & D2 & D3), Hu as (U1 & U2 & U3 & U4).
  split; [lia|]. split; [auto|]. split.
  - intros k Hk. lia.
  - intros k Hk Hne. destruct (decide (k < c)%nat); [apply D3 | apply U4]; lia.
Qed.
(** *** Rebalancing the pivot ruler *)

Lemma elem_of_range lo hi k : k ∈ range lo hi <-> (lo <= k <= hi)%nat.
Proof. unfold range. rewrite elem_of_seq. lia. Qed.

Lemma NoDup_range lo hi : NoDup (range lo hi).
Proof. apply NoDup_seq. Qed.

Lemma rebalance_step_length radius c err ii :
  length (rebalance_step radius c err ii) = length err.
Proof.
  unfold rebalance_step.
  destruct (negb (c =? ii)%nat && _); rewrite ?length_insert; reflexivity.
Qed.

Lemma rebalance_step_lookup radius c err ii k :
  rebalance_step radius c err ii !!! k =
  if decide (k = ii /\ (ii < length err)%nat)
  then forced c ii (scale radius c (err !!! ii) ii)
  else err !!! k.
Proof.
  unfold rebalance_step, forced.
  destruct (decide (k = ii /\ (ii < length err)%nat)) as [[-> Hlt] | Hno].
  - rewrite list_lookup_total_insert_eq by assumption.
    destruct (negb (c =? ii)%nat && _).
    + rewrite list_lookup_total_insert_eq by (rewrite length_insert; assumption). reflexivity.
    + rewrite list_lookup_total_insert_eq by assumption. reflexivity.
  - destruct (decide (k = ii)) as [-> | Hne].
    + assert (Hge : (length err <= ii)%nat) by lia.
      rewrite !(list_insert_ge err ii) by assumption.
      destruct (negb (c =? ii)%nat && _); rewrite ?(list_insert_ge err ii) by assumption; reflexivity.
    + destruct (negb (c =? ii)%nat && _);
        rewrite ?list_lookup_total_insert_ne by congruence; reflexivity.
Qed.

Lemma rebalance_fold_length radius c l err :
  length (foldl (rebalance_step radius c) err l) = length err.
Proof.
  revert err. induction l as [|ii l IH]; intros err; cbn [foldl]; [reflexivity|].
  rewrite IH. apply rebalance_step_length.
Qed.

Lemma rebalance_fold_lookup radius c l err k :
  NoDup l ->
  foldl (rebalance_step radius c) err l !!! k =
  if decide (k ∈ l /\ (k < length err)%nat)
  then forced c k (scale radius c (err !!! k) k)
  else err !!! k.
Proof.
  revert err. induction l as [|ii l IH]; intros err Hnd; cbn [foldl].
  - destruct (decide _) as [[H _] | _]; [inversion H | reflexivity].
  - apply list.NoDup_cons in Hnd as [Hni Hnd].
    rewrite IH by assumption. rewrite rebalance_step_length.
    rewrite !rebalance_step_lookup.
    destruct (decide (k ∈ l /\ (k < length err)%nat)) as [[Hin Hlt] | Hno].
    + assert (k <> ii) by (intros ->; contradiction).
      destruct (decide (k = ii /\ _)) as [[? _] | _]; [contradiction|].
      destruct (decide (k ∈ ii :: l /\ _)) as [_ | Hn]; [reflexivity|].
      exfalso. apply Hn. split; [right; assumption | assumption].
    + destruct (decide (k = ii /\ (ii < length err)%nat)) as [[-> Hlt] | Hno2].
      * destruct (decide (ii ∈ ii :: l /\ _)) as [_ | Hn]; [reflexivity|].
        exfalso. apply Hn. split; [left | assumption].
      * destruct (decide (k ∈ ii :: l /\ _)) as [[Hin Hlt] | _]; [|reflexivity].
        exfalso. apply elem_of_cons in Hin as [-> | Hin]; [apply Hno2 | apply Hno]; auto.
Qed.

Lemma rebalance_length radius c lo hi err :
  length (rebalance radius c lo hi err) = length err.
Proof. unfold rebalance. rewrite length_insert. apply rebalance_fold_length. Qed.

(** The ruler after the rebalance, entry by entry. *)
Lemma rebalance_lookup radius c lo hi err k :
  (c < length err)%nat ->
  rebalance radius c lo hi err !!! k =
  if decide (k = c) then 0
  else if decide ((lo <= k <= hi)%nat /\ (k < length err)%nat)
       then forced c k (scale radius c (err !!! k) k)
       else err !!! k.
Proof.
  intros Hc. unfold rebalance.
  destruct (decide (k = c)) as [-> | Hne].
  - rewrite list_lookup_total_insert_eq; [reflexivity|].
    rewrite rebalance_fold_length. assumption.
  - rewrite list_lookup_total_insert_ne by congruence.
    rewrite rebalance_fold_lookup by apply NoDup_range.
    destruct (decide (k ∈ range lo hi /\ _)) as [[Hin Hlt] | Hno];
      destruct (decide ((lo <= k <= hi)%nat /\ _)) as [[Hin' Hlt'] | Hno']; try reflexivity.
    + exfalso. apply Hno'. split; [apply elem_of_range|]; assumption.
    + exfalso. apply Hno. split; [apply elem_of_range|]; assumption.
Qed.

Lemma FFABS_dist (ii c : nat) :
  FFABS (Z.of_nat ii - Z.of_nat c) = Z.of_nat (ii - c) + Z.of_nat (c - ii).
Proof. unfold FFABS. destruct (Z.geb_spec (Z.of_nat ii - Z.of_nat c) 0); lia. Qed.

(** A rebalanced entry: the pivot is exact, the entries of the range are
    not and none has grown, the others are as they were. *)
Lemma rebalance_entry radius c err len k :
  ruler_ok err -> length err = len -> (c < len)%nat ->
  radius <= INT_MAX ->
  let lo := range_min err radius c in
  let hi := range_max err len radius c in
  let v := rebalance radius c lo hi err !!! k in
  0 <= v <= err !!! k /\
  (k = c -> v = 0) /\
  ((lo <= k <= hi)%nat -> k <> c -> v <> 0) /\
  (~ (lo <= k <= hi)%nat -> v = err !!! k) /\
  (err !!! k = 0 -> v = 0).
Proof.
  intros Hok Hlen Hc Hr. cbv zeta.
  pose proof (range_spec err len radius c Hc) as Hrs. cbv zeta in Hrs.
  destruct Hrs as (Hin & Hhi & Hdist & Hnz).
  pose proof (ruler_ok_lookup err k Hok) as Hk.
  rewrite rebalance_lookup by lia.
  destruct (decide (k = c)) as [-> | Hne].
  { split; [lia|]. split; [reflexivity|]. split; [congruence|]. split; [lia|]. intros; reflexivity. }
  destruct (decide ((_ <= k <= _)%nat /\ _)) as [[Hkr Hkl] | Hno].
  - specialize (Hnz k Hkr Hne). specialize (Hdist k Hkr).
    assert (Hrad : 1 < radius) by (destruct (decide (k < c)%nat); lia).
    pose proof (scale_bounds radius c (err !!! k) k Hk ltac:(lia)
                  ltac:(rewrite FFABS_dist; lia)) as Hs.
    unfold forced. replace (c =? k)%nat with false by (symmetry; apply Nat.eqb_neq; congruence).
    cbn [negb andb].
    destruct (Z.eqb_spec (scale radius c (err !!! k) k) 0) as [Hz | Hnz'].
    + split; [lia|]. split; [congruence|]. split; [lia|]. split; [tauto|]. congruence.
    + split; [lia|]. split; [congruence|]. split; [auto|]. split; [tauto|]. congruence.
  - split; [lia|]. split; [congruence|]. split.
    + intros Hkr. exfalso. apply Hno. split; [assumption | lia].
    + split; intros; reflexivity || auto.
Qed.

Lemma rebalance_ok radius c err len :
  ruler_ok err -> length err = len -> (c < len)%nat ->
  radius <= INT_MAX ->
  ruler_ok (rebalance radius c (range_min err radius c)
                      (range_max err len radius c) err).
Proof.
  intros Hok Hlen Hc Hr.
  apply Forall_lookup_2. intros k v Hkv.
  pose proof (rebalance_entry radius c err len k Hok Hlen Hc Hr) as He.
  cbv zeta in He. destruct He as (Hb & _).
  rewrite (list_lookup_total_correct _ _ _ Hkv) in Hb.
  pose proof (ruler_ok_lookup err k Hok). lia.
Qed.
(** ** The weighted flood-fill *)

Lemma u8_range v : 0 <= u8 v < 256.
Proof. unfold u8. apply Z.mod_pos_bound. lia. Qed.

Lemma u8_small v : 0 <= v < 256 -> u8 v = v.
Proof. intros. unfold u8. apply Z.mod_small. assumption. Qed.

Lemma bytes_ok_insert px k v : bytes_ok px -> bytes_ok (<[k := u8 v]> px).
Proof. intros H. apply Forall_insert; [assumption | apply u8_range]. Qed.

Lemma bytes_ok_lookup px k : bytes_ok px -> 0 <= px !!! k < 256.
Proof.
  intros H. rewrite list_lookup_total_alt.
  destruct (px !! k) as [v|] eqn:E; simpl.
  - exact (Forall_lookup_1 _ _ _ _ H E).
  - change (@inhabitant Z _) with 1. lia.
Qed.

Lemma load_in px k : (k < length px)%nat -> load px k = Ok (px !!! k).
Proof.
  intros H. unfold load. destruct (lookup_lt_is_Some_2 px k H) as [v Hv].
  rewrite Hv. f_equal. symmetry. apply list_lookup_total_correct. assumption.
Qed.

Lemma store_in px k v : (k < length px)%nat -> store px k v = Ok (<[k := u8 v]> px).
Proof.
  intros H. unfold store. replace (k <? length px)%nat with true; [reflexivity|].
  symmetry. apply Nat.ltb_lt. assumption.
Qed.

Lemma pix_bound width height ii jj :
  (ii < width)%nat -> (jj < height)%nat ->
  (pix width (ii, jj) + 3 < width * height * 4)%nat.
Proof. intros Hi Hj. unfold pix. cbn [fst snd]. nia. Qed.

Lemma pix_inj width c1 c2 :
  (c1.1 < width)%nat -> (c2.1 < width)%nat ->
  forall k', in_pixel (pix width c1) k' -> in_pixel (pix width c2) k' -> c1 = c2.
Proof.
  destruct c1 as [i1 j1], c2 as [i2 j2]. unfold pix, in_pixel. cbn [fst snd].
  intros H1 H2 k' Hk1 Hk2.
  assert (j1 * width + i1 = j2 * width + i2)%nat as Heq by lia.
  assert (j1 = j2) by nia. subst j2. f_equal. lia.
Qed.

(** One pixel of a fill: it stops on the failed assertion only, at the
    centre and when the weight there is not 256; otherwise it writes the
    three bytes of its pixel and nothing else. *)
Lemma fill_pixel_cases width height radius maxError xE yE i j src px ii jj :
  (ii < width)%nat -> (jj < height)%nat ->
  length px = (width * height * 4)%nat ->
  let alpha := pixel_alpha maxError xE yE ii jj in
  let k := pix width (ii, jj) in
  (fill_pixel width radius maxError xE yE i j src px (ii, jj) = Abort /\
   (i, j) = (ii, jj) /\ alpha <> 256) \/
  (exists px',
     fill_pixel width radius maxError xE yE i j src px (ii, jj) = Ok px' /\
     length px' = length px /\
     (bytes_ok px -> bytes_ok px') /\
     (forall k', ~ in_pixel k k' -> px' !!! k' = px !!! k') /\
     (SFltb (F32.of_int 0) (fill_alpha radius i j ii jj) = true ->
      px' !!! k = u8 (blend src.1.1 (px !!! k) alpha) /\
      px' !!! (k + 1)%nat = u8 (blend src.1.2 (px !!! (k + 1)%nat) alpha) /\
      px' !!! (k + 2)%nat = u8 (blend src.2 (px !!! (k + 2)%nat) alpha))).
Proof.
  intros Hi Hj Hlen. cbv zeta.
  pose proof (pix_bound width height ii jj Hi Hj) as Hk.
  destruct src as [[srcR srcG] srcB]. unfold fill_pixel.
  change ((jj * width + ii) * 4)%nat with (pix width (ii, jj)).
  set (k := pix width (ii, jj)) in *.
  set (alpha := pixel_alpha maxError xE yE ii jj).
  destruct (SFltb (F32.of_int 0) (fill_alpha radius i j ii jj)) eqn:Hfa.
  2:{ right. exists px. split; [reflexivity|]. split; [reflexivity|]. split; [auto|].
      split; [reflexivity|]. discriminate. }
  rewrite !load_in by lia. cbn [mbind result_bind].
  destruct ((i =? ii)%nat && (j =? jj)%nat && negb (alpha =? 256)) eqn:Hab.
  - left. split; [reflexivity|].
    apply andb_true_iff in Hab as [Hab Ha]. apply andb_true_iff in Hab as [H1 H2].
    apply Nat.eqb_eq in H1, H2. apply negb_true_iff, Z.eqb_neq in Ha. subst. auto.
  - right. rewrite store_in by lia. cbn [mbind result_bind].
    rewrite store_in by (rewrite length_insert; lia). cbn [mbind result_bind].
    rewrite store_in by (rewrite !length_insert; lia).
    eexists. split; [reflexivity|]. split; [rewrite !length_insert; reflexivity|].
    split; [intros Hb; repeat apply bytes_ok_insert; assumption|].
    split.
    + intros k' Hk'. unfold in_pixel in Hk'.
      rewrite !list_lookup_total_insert_ne by lia. reflexivity.
    + intros _. cbn [fst snd]. split; [|split].
      * rewrite !list_lookup_total_insert_ne by lia.
        rewrite list_lookup_total_insert_eq by lia. reflexivity.
      * rewrite list_lookup_total_insert_ne by lia.
        rewrite list_lookup_total_insert_eq by (rewrite length_insert; lia). reflexivity.
      * rewrite list_lookup_total_insert_eq by (rewrite !length_insert; lia). reflexivity.
Qed.

(** A canvas access of a fill never leaves the canvas. *)
Lemma fill_pixel_in_bounds width height radius maxError xE yE i j src px c :
  (c.1 < width)%nat -> (c.2 < height)%nat ->
  length px = (width * height * 4)%nat ->
  fill_pixel width radius maxError xE yE i j src px c <> OutOfBounds /\
  fill_pixel width radius maxError xE yE i j src px c <> OutOfFuel.
Proof.
  destruct c as [ii jj]. cbn [fst snd]. intros Hi Hj Hlen.
  destruct (fill_pixel_cases width height radius maxError xE yE i j src px ii jj Hi Hj Hlen)
    as [[-> _] | (px' & -> & _)]; split; discriminate.
Qed.

Lemma forM_app {A S} (body : S -> A -> result S) l1 l2 s :
  forM body (l1 ++ l2) s = s' ← forM body l1 s; forM body l2 s'.
Proof.
  revert s. induction l1 as [|a l1 IH]; intros s; cbn [forM app].
  - reflexivity.
  - destruct (body s a); cbn [mbind result_bind]; auto.
Qed.

(** A whole fill, when the weight at its centre is 256. *)
Lemma fill_ok width height radius maxError xE yE i j src coords px :
  Forall (fun c => (c.1 < width)%nat /\ (c.2 < height)%nat) coords ->
  length px = (width * height * 4)%nat ->
  pixel_alpha maxError xE yE i j = 256 ->
  exists px',
    forM (fill_pixel width radius maxError xE yE i j src) coords px = Ok px' /\
    length px' = length px /\
    (bytes_ok px -> bytes_ok px') /\
    (forall k', (forall c, c ∈ coords -> ~ in_pixel (pix width c) k') ->
                px' !!! k' = px !!! k').
Proof.
  intros Hc Hlen Ha. revert px Hlen.
  induction Hc as [|[ii jj] coords [Hi Hj] Hc IH]; intros px Hlen; cbn [forM].
  - exists px. repeat split; auto.
  - cbn [fst snd] in *.
    destruct (fill_pixel_cases width height radius maxError xE yE i j src px ii jj Hi Hj Hlen)
      as [(_ & Heq & Hne) | (px1 & -> & Hl1 & Hb1 & Hf1 & _)].
    { exfalso. inversion Heq; subst. contradiction. }
    cbn [mbind result_bind].
    destruct (IH px1 ltac:(lia)) as (px' & -> & Hl' & Hb' & Hf').
    exists px'. split; [reflexivity|]. split; [lia|]. split; [auto|].
    intros k' Hk'. rewrite Hf'.
    + apply Hf1. apply Hk'. left.
    + intros c Hin. apply Hk'. right. assumption.
Qed.

(** A fill stops on the failed assertion or ends: it stays in the canvas. *)
Lemma fill_in_bounds width height radius maxError xE yE i j src coords px :
  Forall (fun c => (c.1 < width)%nat /\ (c.2 < height)%nat) coords ->
  length px = (width * height * 4)%nat ->
  forM (fill_pixel width radius maxError xE yE i j src) coords px = Abort \/
  exists px', forM (fill_pixel width radius maxError xE yE i j src) coords px = Ok px' /\
              length px' = length px.
Proof.
  intros Hc. revert px.
  induction Hc as [|[ii jj] coords [Hi Hj] Hc IH]; intros px Hlen; cbn [forM].
  - right. exists px. auto.
  - cbn [fst snd] in *.
    destruct (fill_pixel_cases width height radius maxError xE yE i j src px ii jj Hi Hj Hlen)
      as [(-> & _) | (px1 & -> & Hl1 & _)]; [left; reflexivity|].
    cbn [mbind result_bind].
    destruct (IH px1 ltac:(lia)) as [-> | (px' & -> & Hl')]; [left; reflexivity|].
    right. exists px'. split; [reflexivity | lia].
Qed.
(** ** The scan for cross points *)

Lemma forM_ext {A S} (f g : S -> A -> result S) l s :
  (forall s a, a ∈ l -> f s a = g s a) -> forM f l s = forM g l s.
Proof.
  revert s. induction l as [|a l IH]; intros s H; cbn [forM]; [reflexivity|].
  rewrite H by left. destruct (g s a); cbn [mbind result_bind]; auto.
  apply IH. intros s' a' Hin. apply H. right. assumption.
Qed.

Lemma column_scan_lines width height pic radius enc xE yE maxError i minI maxI l st :
  forM (cross_col width height pic radius enc xE yE maxError i minI maxI) l st =
  scan_lines width pic radius enc xE yE maxError
    (fun j => yE !!! j =? 0) (fun j => (i, j))
    (fun j => fill_coords_col minI maxI (range_min yE radius j)
                              (range_max yE height radius j)) l st.
Proof.
  unfold scan_lines. apply forM_ext. intros s j _. unfold cross_col, cross_at.
  destruct (yE !!! j =? 0); reflexivity.
Qed.

Lemma row_scan_lines width height pic radius enc xE yE maxError j minJ maxJ l st :
  forM (cross_row width height pic radius enc xE yE maxError j minJ maxJ) l st =
  scan_lines width pic radius enc xE yE maxError
    (fun i => xE !!! i =? 0) (fun i => (i, j))
    (fun i => fill_coords_row (range_min xE radius i)
                              (range_max xE width radius i) minJ maxJ) l st.
Proof.
  unfold scan_lines. apply forM_ext. intros s i _. unfold cross_row, cross_at.
  destruct (xE !!! i =? 0); reflexivity.
Qed.

Lemma crossings_cons test t l :
  crossings test (t :: l) = ((if test t then 1 else 0) + crossings test l)%nat.
Proof.
  unfold crossings. rewrite filter_cons. destruct (test t); cbn.
  - destruct (decide (true = true)); [reflexivity | congruence].
  - destruct (decide (false = true)); [congruence | reflexivity].
Qed.

Section Scan.
Variables (width height : nat) (pic : AVFrame) (radius : Z) (enc : bool).
Variables (xE yE : list Z) (maxError : Z).
Variables (test : nat -> bool) (pt : nat -> nat * nat).
Variable cs : nat -> list (nat * nat).

Local Abbreviation scan_l :=
  (scan_lines width pic radius enc xE yE maxError test pt cs).
Local Abbreviation cross :=
  (cross_at width pic radius enc xE yE maxError).

Lemma read_pixel_effect c st :
  let r := read_pixel enc pic c.1 c.2 st in
  s_pixels r.2 = s_pixels st /\ s_p r.2 = (s_p st + 3)%nat /\
  s_num r.2 = (s_num st + if enc then 1 else 0) /\
  (forall k, (k < s_p st)%nat \/ (s_p st + 3 <= k)%nat -> s_data r.2 k = s_data st k) /\
  (enc = false -> s_data r.2 = s_data st) /\
  (0 <= pic_at pic c.1 c.2 0 < 256 /\ 0 <= pic_at pic c.1 c.2 1 < 256 /\
   0 <= pic_at pic c.1 c.2 2 < 256 \/ enc = false ->
   r.1 = (s_data r.2 (s_p st), s_data r.2 (s_p st + 1)%nat, s_data r.2 (s_p st + 2)%nat)).
Proof.
  cbv zeta. unfold read_pixel. destruct enc; cbn [fst snd s_pixels s_p s_num s_data].
  - split; [reflexivity|]. split; [reflexivity|]. split; [reflexivity|]. split; [|split].
    + intros k Hk. rewrite !fn_lookup_insert_ne by lia. reflexivity.
    + discriminate.
    + intros [(H0 & H1 & H2) | ?]; [|discriminate].
      rewrite !u8_small by assumption.
      f_equal; [f_equal|]; repeat (rewrite fn_lookup_insert_ne by lia);
        rewrite fn_lookup_insert; reflexivity.
  - split; [reflexivity|]. split; [reflexivity|]. split; [lia|]. 
    split; [reflexivity|]. split; reflexivity.
Qed.

Local Abbreviation scan_frame := (scan_frame enc).

Lemma scan_frame_trans n1 n2 st1 st2 st3 :
  scan_frame n1 st1 st2 -> scan_frame n2 st2 st3 -> scan_frame (n1 + n2) st1 st3.
Proof.
  intros (L1 & B1 & P1 & N1 & D1 & E1) (L2 & B2 & P2 & N2 & D2 & E2).
  split; [lia|]. split; [auto|]. split; [lia|]. split; [destruct enc; lia|]. split.
  - intros k Hk. rewrite D2 by lia. apply D1. lia.
  - intros He. rewrite E2, E1 by assumption. reflexivity.
Qed.

Lemma scan_frame_refl st : scan_frame 0 st st.
Proof.
  split; [reflexivity|]. split; [auto|]. split; [lia|]. split; [destruct enc; lia|].
  split; reflexivity.
Qed.

Lemma cross_ok c coords st :
  Forall (in_canvas width height) coords ->
  length (s_pixels st) = (width * height * 4)%nat ->
  pixel_alpha maxError xE yE c.1 c.2 = 256 ->
  exists st', cross c coords st = Ok st' /\ scan_frame 1 st st' /\
    (forall k', (forall c', c' ∈ coords -> ~ in_pixel (pix width c') k') ->
                s_pixels st' !!! k' = s_pixels st !!! k').
Proof.
  intros Hc Hlen Ha. unfold cross_at.
  pose proof (read_pixel_effect c st) as Hr. cbv zeta in Hr.
  destruct (read_pixel enc pic c.1 c.2 st) as [src st1]. cbn [fst snd] in Hr.
  destruct Hr as (Rpx & Rp & Rn & Rd & Re & _).
  destruct (fill_ok width height radius maxError xE yE c.1 c.2 src coords (s_pixels st1))
    as (px' & -> & Hl & Hb & Hf); try assumption; try congruence.
  cbn [mbind result_bind]. eexists. split; [reflexivity|]. split.
  - unfold scan_frame, with_pixels; cbn [s_pixels s_data s_p s_num].
    split; [congruence|]. split; [rewrite <- Rpx; assumption|]. split; [lia|].
    split; [destruct enc; lia|]. split; [|assumption].
    intros k Hk. apply Rd. lia.
  - cbn [with_pixels s_pixels]. intros k' Hk'. rewrite Hf by assumption. congruence.
Qed.

Lemma scan_lines_ok l st :
  (forall t, t ∈ l -> test t = true ->
     Forall (in_canvas width height) (cs t) /\
     pixel_alpha maxError xE yE (pt t).1 (pt t).2 = 256) ->
  length (s_pixels st) = (width * height * 4)%nat ->
  exists st', scan_l l st = Ok st' /\ scan_frame (crossings test l) st st' /\
    (forall k', (forall t c', t ∈ l -> test t = true -> c' ∈ cs t ->
                              ~ in_pixel (pix width c') k') ->
                s_pixels st' !!! k' = s_pixels st !!! k').
Proof.
  revert st. induction l as [|t l IH]; intros st H Hlen.
  - exists st. split; [reflexivity|]. split; [apply scan_frame_refl | reflexivity].
  - unfold scan_lines. cbn [forM]. rewrite crossings_cons.
    destruct (test t) eqn:Ht.
    + destruct (H t ltac:(left) Ht) as [Hc Ha].
      destruct (cross_ok (pt t) (cs t) st Hc Hlen Ha) as (st1 & -> & Hf1 & Hp1).
      cbn [mbind result_bind].
      destruct (IH st1) as (st' & Hs & Hf' & Hp').
      { intros t' Hin. apply H. right. assumption. }
      { destruct Hf1 as (L & _). lia. }
      unfold scan_lines in Hs. rewrite Hs.
      exists st'. split; [reflexivity|]. split; [apply (scan_frame_trans 1 _ _ _ _ Hf1 Hf')|].
      intros k' Hk'. rewrite Hp'.
      * apply Hp1. intros c' Hin. apply (Hk' t c'); auto. left.
      * intros t' c' Hin. apply Hk'. right. assumption.
    + cbn [mbind result_bind].
      destruct (IH st) as (st' & Hs & Hf' & Hp').
      { intros t' Hin. apply H. right. assumption. }
      { assumption. }
      unfold scan_lines in Hs. rewrite Hs.
      exists st'. split; [reflexivity|]. split; [exact Hf'|].
      intros k' Hk'. apply Hp'. intros t' c' Hin. apply Hk'. right. assumption.
Qed.

(** Without a cross point the scan changes nothing. *)
Lemma scan_lines_none l st :
  (forall t, t ∈ l -> test t = false) -> scan_l l st = Ok st.
Proof.
  intros H. unfold scan_lines. induction l as [|t l IH]; cbn [forM]; [reflexivity|].
  rewrite (H t) by left. cbn [mbind result_bind]. apply IH.
  intros t' Hin. apply H. right. assumption.
Qed.

Lemma cross_in_bounds c coords st :
  Forall (in_canvas width height) coords ->
  length (s_pixels st) = (width * height * 4)%nat ->
  cross c coords st = Abort \/
  exists st', cross c coords st = Ok st' /\ length (s_pixels st') = length (s_pixels st).
Proof.
  intros Hc Hlen. unfold cross_at.
  pose proof (read_pixel_effect c st) as Hr. cbv zeta in Hr.
  destruct (read_pixel enc pic c.1 c.2 st) as [src st1]. cbn [fst snd] in Hr.
  destruct Hr as (Rpx & _).
  destruct (fill_in_bounds width height radius maxError xE yE c.1 c.2 src
              coords (s_pixels st1)) as [-> | (px' & -> & Hl)];
    [assumption | congruence | left; reflexivity |].
  right. eexists. split; [reflexivity|]. cbn [with_pixels s_pixels]. congruence.
Qed.

(** Whatever the weights, a scan stays in the canvas. *)
Lemma scan_lines_in_bounds l st :
  (forall t, t ∈ l -> test t = true -> Forall (in_canvas width height) (cs t)) ->
  length (s_pixels st) = (width * height * 4)%nat ->
  scan_l l st = Abort \/
  exists st', scan_l l st = Ok st' /\ length (s_pixels st') = length (s_pixels st).
Proof.
  revert st. induction l as [|t l IH]; intros st H Hlen.
  - right. exists st. split; reflexivity.
  - unfold scan_lines. cbn [forM].
    assert (Hrest : forall t', t' ∈ l -> test t' = true -> Forall (in_canvas width height) (cs t')).
    { intros t' Hin. apply H. right. assumption. }
    destruct (test t) eqn:Ht.
    + destruct (cross_in_bounds (pt t) (cs t) st) as [-> | (st1 & -> & Hl)];
        [apply H; [left | assumption] | assumption | left; reflexivity |].
      cbn [mbind result_bind].
      destruct (IH st1 Hrest) as [Hs | (st' & Hs & Hl')].
      { congruence. }
      { left. exact Hs. }
      { right. exists st'. split; [exact Hs|]. congruence. }
    + cbn [mbind result_bind]. apply (IH st Hrest Hlen).
Qed.

End Scan.
(** ** One iteration of the engine *)

Lemma updateLines_select width height pic radius enc ctx :
  updateLines width height pic radius enc ctx =
  match select width height ctx with
  | Nothing => Ok (ctx, false)
  | Column i =>
      ctx' ← column_major width height pic radius enc ctx i; Ok (ctx', true)
  | Row j =>
      ctx' ← row_major width height pic radius enc ctx j; Ok (ctx', true)
  end.
Proof.
  unfold updateLines, select.
  destruct (worst (xError ctx) width) as [wi wx].
  destruct (worst (yError ctx) height) as [wj wy].
  destruct (s32 (wx + wy) =? 0); [reflexivity|].
  destruct (wx >? wy); reflexivity.
Qed.

(** What the choice of the pivot guarantees. *)
Lemma select_spec width height ctx :
  ctx_ok width height ctx -> (0 < width)%nat -> (0 < height)%nat ->
  match select width height ctx with
  | Nothing =>
      (forall k, (k < width)%nat -> xError ctx !!! k = 0) /\
      (forall k, (k < height)%nat -> yError ctx !!! k = 0)
  | Column i =>
      i = (worst (xError ctx) width).1 /\
      (i < width)%nat /\ 0 < xError ctx !!! i /\
      (forall k, (k < width)%nat -> xError ctx !!! k <= xError ctx !!! i) /\
      (forall k, (k < height)%nat -> yError ctx !!! k < xError ctx !!! i)
  | Row j =>
      j = (worst (yError ctx) height).1 /\
      (j < height)%nat /\ 0 < yError ctx !!! j /\
      (forall k, (k < height)%nat -> yError ctx !!! k <= yError ctx !!! j) /\
      (forall k, (k < width)%nat -> xError ctx !!! k <= yError ctx !!! j)
  end.
Proof.
  intros Hok Hw Hh. unfold select.
  pose proof (worst_spec _ width (ok_x _ _ _ Hok) Hw) as (Xi & Xv & Xmax & _).
  pose proof (worst_spec _ height (ok_y _ _ _ Hok) Hh) as (Yj & Yv & Ymax & _).
  destruct (worst (xError ctx) width) as [wi wx].
  destruct (worst (yError ctx) height) as [wj wy]. cbn [fst snd] in *.
  pose proof (ruler_ok_lookup _ wi (ok_x _ _ _ Hok)) as Hx.
  pose proof (ruler_ok_lookup _ wj (ok_y _ _ _ Hok)) as Hy.
  rewrite s32_small by lia.
  destruct (Z.eqb_spec (wx + wy) 0) as [Hz | Hnz].
  - split; intros k Hk.
    + specialize (Xmax k Hk). pose proof (ruler_ok_lookup _ k (ok_x _ _ _ Hok)). lia.
    + specialize (Ymax k Hk). pose proof (ruler_ok_lookup _ k (ok_y _ _ _ Hok)). lia.
  - destruct (Z.gtb_spec wx wy) as [Hgt | Hle]; subst wx wy.
    + split; [reflexivity|]. split; [assumption|]. split; [lia|]. split; [assumption|].
      intros k Hk. specialize (Ymax k Hk). lia.
    + split; [reflexivity|]. split; [assumption|]. split; [lia|]. split; [assumption|].
      intros k Hk. specialize (Xmax k Hk). lia.
Qed.

(** *** The pixels of a fill *)

Lemma elem_of_fill_coords_col minI maxI minJ maxJ c :
  c ∈ fill_coords_col minI maxI minJ maxJ <->
  (minI <= c.1 <= maxI)%nat /\ (minJ <= c.2 <= maxJ)%nat.
Proof.
  unfold fill_coords_col. rewrite list_elem_of_bind. split.
  - intros (jj & Hc & Hjj). apply list_elem_of_bind in Hc as (ii & Hc & Hii).
    apply list_elem_of_singleton in Hc as ->. cbn [fst snd].
    apply elem_of_range in Hjj, Hii. tauto.
  - intros [Hi Hj]. exists c.2. split; [|apply elem_of_range; assumption].
    apply list_elem_of_bind. exists c.1. split; [|apply elem_of_range; assumption].
    destruct c. apply list_elem_of_singleton. reflexivity.
Qed.

Lemma elem_of_fill_coords_row minI maxI minJ maxJ c :
  c ∈ fill_coords_row minI maxI minJ maxJ <->
  (minI <= c.1 <= maxI)%nat /\ (minJ <= c.2 <= maxJ)%nat.
Proof.
  unfold fill_coords_row. rewrite list_elem_of_bind. split.
  - intros (ii & Hc & Hii). apply list_elem_of_bind in Hc as (jj & Hc & Hjj).
    apply list_elem_of_singleton in Hc as ->. cbn [fst snd].
    apply elem_of_range in Hjj, Hii. tauto.
  - intros [Hi Hj]. exists c.1. split; [|apply elem_of_range; assumption].
    apply list_elem_of_bind. exists c.2. split; [|apply elem_of_range; assumption].
    destruct c. apply list_elem_of_singleton. reflexivity.
Qed.
(** *** The two branches *)

Lemma elem_of_seq_0 n k : k ∈ seq 0 n <-> (k < n)%nat.
Proof. rewrite elem_of_seq. lia. Qed.

(** The column-major branch ends, and this is the context it leaves. *)
Lemma column_major_spec width height pic r enc ctx i :
  ctx_ok width height ctx -> (i < width)%nat -> r <= INT_MAX ->
  0 < xError ctx !!! i ->
  (forall k, (k < width)%nat -> xError ctx !!! k <= xError ctx !!! i) ->
  (forall k, (k < height)%nat -> yError ctx !!! k <= xError ctx !!! i) ->
  let minI := range_min (xError ctx) r i in
  let maxI := range_max (xError ctx) width r i in
  let exact := fun j => yError ctx !!! j =? 0 in
  let cs := fun j => fill_coords_col minI maxI (range_min (yError ctx) r j)
                                     (range_max (yError ctx) height r j) in
  exists ctx',
    column_major width height pic r enc ctx i = Ok ctx' /\
    xError ctx' = rebalance r i minI maxI (xError ctx) /\
    yError ctx' = yError ctx /\
    same_config ctx ctx' /\ ctx_ok width height ctx' /\
    scan_frame enc (crossings exact (seq 0 height)) (scan_of ctx) (scan_of ctx') /\
    (forall k', (forall j c, (j < height)%nat -> exact j = true -> c ∈ cs j ->
                             ~ in_pixel (pix width c) k') ->
                pixels ctx' !!! k' = pixels ctx !!! k').
Proof.
  intros Hok Hi Hr Hpos Hxmax Hymax. cbv zeta.
  pose proof (range_spec (xError ctx) width r i Hi) as Hrs. cbv zeta in Hrs.
  destruct Hrs as (Hin & Hhi & _).
  set (minI := range_min (xError ctx) r i) in *.
  set (maxI := range_max (xError ctx) width r i) in *.
  pose proof (ruler_ok_lookup _ i (ok_x _ _ _ Hok)) as Hxi.
  unfold column_major. fold minI maxI. rewrite column_scan_lines.
  rewrite s32_small by lia.
  set (xE := rebalance r i minI maxI (xError ctx)).
  destruct (scan_lines_ok width height pic r enc xE (yError ctx) (xError ctx !!! i)
              (fun j => yError ctx !!! j =? 0) (fun j => (i, j))
              (fun j => fill_coords_col minI maxI (range_min (yError ctx) r j)
                                        (range_max (yError ctx) height r j))
              (seq 0 height) (scan_of ctx)) as (st & -> & Hf & Hp).
  { intros j Hj Hz. apply elem_of_seq_0 in Hj. apply Z.eqb_eq in Hz. split.
    - apply list.Forall_forall. intros c Hc. apply elem_of_fill_coords_col in Hc as [Hc1 Hc2].
      pose proof (range_spec (yError ctx) height r j Hj) as Hrj. cbv zeta in Hrj.
      destruct Hrj as (_ & Hhj & _). split; lia.
    - cbn [fst snd]. apply pixel_alpha_exact; [lia | | assumption].
      unfold xE. rewrite rebalance_lookup by (rewrite (ok_xlen _ _ _ Hok); lia).
      destruct (decide (i = i)); [reflexivity | congruence]. }
  { cbn [scan_of s_pixels]. apply (ok_pxlen _ _ _ Hok). }
  cbn [mbind result_bind]. eexists. split; [reflexivity|].
  cbn [commit xError yError pixels].
  split; [reflexivity|]. split; [reflexivity|]. split; [repeat split|].
  destruct Hf as (L & B & P & N & D & E). cbn [scan_of s_pixels s_data s_p s_num] in *.
  split; [|split].
  - constructor; cbn [commit xError yError pixels].
    + unfold xE. rewrite rebalance_length. apply (ok_xlen _ _ _ Hok).
    + apply (ok_ylen _ _ _ Hok).
    + rewrite L. apply (ok_pxlen _ _ _ Hok).
    + apply rebalance_ok; [apply (ok_x _ _ _ Hok) | apply (ok_xlen _ _ _ Hok) | lia | assumption].
    + apply (ok_y _ _ _ Hok).
    + apply B, (ok_px _ _ _ Hok).
  - unfold scan_frame. cbn [scan_of commit s_pixels s_data s_p s_num pixels data pos numPixels].
    repeat split; assumption.
  - intros k' Hk'. apply Hp. intros j c Hj Hz Hc. apply elem_of_seq_0 in Hj.
    apply (Hk' j c); assumption.
Qed.

(** The row-major branch ends, and this is the context it leaves. *)
Lemma row_major_spec width height pic r enc ctx j :
  ctx_ok width height ctx -> (j < height)%nat -> r <= INT_MAX ->
  0 < yError ctx !!! j ->
  (forall k, (k < height)%nat -> yError ctx !!! k <= yError ctx !!! j) ->
  (forall k, (k < width)%nat -> xError ctx !!! k <= yError ctx !!! j) ->
  let minJ := range_min (yError ctx) r j in
  let maxJ := range_max (yError ctx) height r j in
  let exact := fun i => xError ctx !!! i =? 0 in
  let cs := fun i => fill_coords_row (range_min (xError ctx) r i)
                                     (range_max (xError ctx) width r i) minJ maxJ in
  exists ctx',
    row_major width height pic r enc ctx j = Ok ctx' /\
    xError ctx' = xError ctx /\
    yError ctx' = rebalance r j minJ maxJ (yError ctx) /\
    same_config ctx ctx' /\ ctx_ok width height ctx' /\
    scan_frame enc (crossings exact (seq 0 width)) (scan_of ctx) (scan_of ctx') /\
    (forall k', (forall i c, (i < width)%nat -> exact i = true -> c ∈ cs i ->
                             ~ in_pixel (pix width c) k') ->
                pixels ctx' !!! k' = pixels ctx !!! k').
Proof.
  intros Hok Hj Hr Hpos Hymax Hxmax. cbv zeta.
  pose proof (range_spec (yError ctx) height r j Hj) as Hrs. cbv zeta in Hrs.
  destruct Hrs as (Hin & Hhi & _).
  set (minJ := range_min (yError ctx) r j) in *.
  set (maxJ := range_max (yError ctx) height r j) in *.
  pose proof (ruler_ok_lookup _ j (ok_y _ _ _ Hok)) as Hyj.
  unfold row_major. fold minJ maxJ. rewrite row_scan_lines.
  rewrite s32_small by lia.
  set (yE := rebalance r j minJ maxJ (yError ctx)).
  destruct (scan_lines_ok width height pic r enc (xError ctx) yE (yError ctx !!! j)
              (fun i => xError ctx !!! i =? 0) (fun i => (i, j))
              (fun i => fill_coords_row (range_min (xError ctx) r i)
                                        (range_max (xError ctx) width r i) minJ maxJ)
              (seq 0 width) (scan_of ctx)) as (st & -> & Hf & Hp).
  { intros i Hi Hz. apply elem_of_seq_0 in Hi. apply Z.eqb_eq in Hz. split.
    - apply list.Forall_forall. intros c Hc. apply elem_of_fill_coords_row in Hc as [Hc1 Hc2].
      pose proof (range_spec (xError ctx) width r i Hi) as Hri. cbv zeta in Hri.
      destruct Hri as (_ & Hhi' & _). split; lia.
    - cbn [fst snd]. apply pixel_alpha_exact; [lia | assumption |].
      unfold yE. rewrite rebalance_lookup by (rewrite (ok_ylen _ _ _ Hok); lia).
      destruct (decide (j = j)); [reflexivity | congruence]. }
  { cbn [scan_of s_pixels]. apply (ok_pxlen _ _ _ Hok). }
  cbn [mbind result_bind]. eexists. split; [reflexivity|].
  cbn [commit xError yError pixels].
  split; [reflexivity|]. split; [reflexivity|]. split; [repeat split|].
  destruct Hf as (L & B & P & N & D & E). cbn [scan_of s_pixels s_data s_p s_num] in *.
  split; [|split].
  - constructor; cbn [commit xError yError pixels].
    + apply (ok_xlen _ _ _ Hok).
    + unfold yE. rewrite rebalance_length. apply (ok_ylen _ _ _ Hok).
    + rewrite L. apply (ok_pxlen _ _ _ Hok).
    + apply (ok_x _ _ _ Hok).
    + apply rebalance_ok; [apply (ok_y _ _ _ Hok) | apply (ok_ylen _ _ _ Hok) | lia | assumption].
    + apply B, (ok_px _ _ _ Hok).
  - unfold scan_frame. cbn [scan_of commit s_pixels s_data s_p s_num pixels data pos numPixels].
    repeat split; assumption.
  - intros k' Hk'. apply Hp. intros i c Hi Hz Hc. apply elem_of_seq_0 in Hi.
    apply (Hk' i c); assumption.
Qed.
(** *** The iteration as a whole *)

(** The outcome of [updateLines] on a well-formed context, by the pivot
    it selects. *)
Lemma updateLines_spec width height pic r enc ctx :
  ctx_ok width height ctx -> (0 < width)%nat -> (0 < height)%nat ->
  r <= INT_MAX ->
  match select width height ctx with
  | Nothing => updateLines width height pic r enc ctx = Ok (ctx, false)
  | Column i =>
      exists ctx',
        updateLines width height pic r enc ctx = Ok (ctx', true) /\
        column_major width height pic r enc ctx i = Ok ctx'
  | Row j =>
      exists ctx',
        updateLines width height pic r enc ctx = Ok (ctx', true) /\
        row_major width height pic r enc ctx j = Ok ctx'
  end.
Proof.
  intros Hok Hw Hh Hr. rewrite updateLines_select.
  pose proof (select_spec width height ctx Hok Hw Hh) as Hs.
  destruct (select width height ctx) as [| i | j]; [reflexivity | |].
  - destruct Hs as (_ & Hi & Hpos & Hx & Hy).
    destruct (column_major_spec width height pic r enc ctx i Hok Hi Hr Hpos Hx)
      as (ctx' & Hc & _).
    { intros k Hk. specialize (Hy k Hk). lia. }
    exists ctx'. rewrite Hc. split; reflexivity.
  - destruct Hs as (_ & Hj & Hpos & Hy & Hx).
    destruct (row_major_spec width height pic r enc ctx j Hok Hj Hr Hpos Hy Hx)
      as (ctx' & Hc & _).
    exists ctx'. rewrite Hc. split; reflexivity.
Qed.

(** The context stays well formed. *)
Lemma updateLines_ok width height pic r enc ctx ctx' b :
  ctx_ok width height ctx -> (0 < width)%nat -> (0 < height)%nat ->
  r <= INT_MAX ->
  updateLines width height pic r enc ctx = Ok (ctx', b) ->
  ctx_ok width height ctx' /\ same_config ctx ctx'.
Proof.
  intros Hok Hw Hh Hr. rewrite updateLines_select.
  pose proof (select_spec width height ctx Hok Hw Hh) as Hs.
  destruct (select width height ctx) as [| i | j].
  - intros [= <- <-]. split; [assumption | repeat split].
  - destruct Hs as (_ & Hi & Hpos & Hx & Hy).
    destruct (column_major_spec width height pic r enc ctx i Hok Hi Hr Hpos Hx)
      as (c & -> & _ & _ & Hcfg & Hok' & _).
    { intros k Hk. specialize (Hy k Hk). lia. }
    cbn [mbind result_bind]. intros [= <- <-]. auto.
  - destruct Hs as (_ & Hj & Hpos & Hy & Hx).
    destruct (row_major_spec width height pic r enc ctx j Hok Hj Hr Hpos Hy Hx)
      as (c & -> & _ & _ & Hcfg & Hok' & _).
    cbn [mbind result_bind]. intros [= <- <-]. auto.
Qed.
(** ** The demonstration context *)

Lemma demo_ctx_ok : ctx_ok 3 2 demo_ctx.
Proof.
  constructor; try reflexivity; cbn [demo_ctx xError yError pixels];
    unfold ruler_ok, bytes_ok; repeat constructor; lia.
Defined.

Lemma demo_step : updateLines 3 2 demo_pic 2 true demo_ctx = Ok (demo_next, true).
Proof. vm_compute. reflexivity. Defined.

Lemma demo_select : select 3 2 demo_ctx = Column 2.
Proof. vm_compute. reflexivity. Defined.

(** ** Pivot selection (C7) *)

(** C7. The scan of a ruler stops at the first entry that is the
    maximum: no entry is larger than the one at the index found, and
    every entry before it is strictly smaller.  The iteration is
    column-major on that column exactly when the worst column error is
    strictly larger than the worst row error; otherwise, unless both are
    zero, it is row-major on the worst row: a tie selects the row. *)
Theorem pivot_selection width height pic r enc ctx :
  ctx_ok width height ctx -> (0 < width)%nat -> (0 < height)%nat ->
  let wx := worst (xError ctx) width in
  let wy := worst (yError ctx) height in
  ((wx.1 < width)%nat /\ wx.2 = xError ctx !!! wx.1 /\
   (forall k, (k < width)%nat -> xError ctx !!! k <= wx.2) /\
   (forall k, (k < wx.1)%nat -> xError ctx !!! k < wx.2)) /\
  ((wy.1 < height)%nat /\ wy.2 = yError ctx !!! wy.1 /\
   (forall k, (k < height)%nat -> yError ctx !!! k <= wy.2) /\
   (forall k, (k < wy.1)%nat -> yError ctx !!! k < wy.2)) /\
  (wx.2 > wy.2 ->
   updateLines width height pic r enc ctx =
   ctx' ← column_major width height pic r enc ctx wx.1; Ok (ctx', true)) /\
  (wx.2 <= wy.2 -> wx.2 + wy.2 <> 0 ->
   updateLines width height pic r enc ctx =
   ctx' ← row_major width height pic r enc ctx wy.1; Ok (ctx', true)) /\
  (wx.2 + wy.2 = 0 -> updateLines width height pic r enc ctx = Ok (ctx, false)).
Proof.
  intros Hok Hw Hh. cbv zeta.
  pose proof (worst_spec _ width (ok_x _ _ _ Hok) Hw) as HX.
  pose proof (worst_spec _ height (ok_y _ _ _ Hok) Hh) as HY.
  split; [exact HX|]. split; [exact HY|].
  destruct HX as (_ & Xv & _), HY as (_ & Yv & _).
  pose proof (ruler_ok_lookup _ (worst (xError ctx) width).1 (ok_x _ _ _ Hok)) as Hx.
  pose proof (ruler_ok_lookup _ (worst (yError ctx) height).1 (ok_y _ _ _ Hok)) as Hy.
  unfold updateLines.
  destruct (worst (xError ctx) width) as [wi wx].
  destruct (worst (yError ctx) height) as [wj wy]. cbn [fst snd] in *.
  rewrite s32_small by lia.
  split; [|split].
  - intros Hgt. destruct (Z.eqb_spec (wx + wy) 0); [lia|].
    destruct (Z.gtb_spec wx wy); [reflexivity | lia].
  - intros Hle Hnz. destruct (Z.eqb_spec (wx + wy) 0); [lia|].
    destruct (Z.gtb_spec wx wy); [lia | reflexivity].
  - intros Hz. destruct (Z.eqb_spec (wx + wy) 0); [reflexivity | lia].
Qed.

Lemma pivot_selection_witness :
  ctx_ok 3 2 demo_ctx /\ (0 < 3)%nat /\ (0 < 2)%nat /\
  (worst (xError demo_ctx) 3).2 > (worst (yError demo_ctx) 2).2 /\
  updateLines 3 2 demo_pic 2 true demo_ctx =
  ctx' ← column_major 3 2 demo_pic 2 true demo_ctx
           (worst (xError demo_ctx) 3).1; Ok (ctx', true).
Proof.
  assert (H1 : (0 < 3)%nat) by lia. assert (H2 : (0 < 2)%nat) by lia.
  assert (H3 : (worst (xError demo_ctx) 3).2 > (worst (yError demo_ctx) 2).2)
    by (vm_compute; reflexivity).
  split; [exact demo_ctx_ok|]. split; [exact H1|]. split; [exact H2|].
  split; [exact H3|].
  exact (proj1 (proj2 (proj2 (pivot_selection 3 2 demo_pic 2 true demo_ctx
                                 demo_ctx_ok H1 H2))) H3).
Defined.

(** ** Progress or termination (C8) *)

Lemma select_nothing_iff width height ctx :
  ctx_ok width height ctx -> (0 < width)%nat -> (0 < height)%nat ->
  select width height ctx = Nothing <-> all_exact width height ctx.
Proof.
  intros Hok Hw Hh.
  pose proof (select_spec width height ctx Hok Hw Hh) as Hs. split.
  - intros Hn. rewrite Hn in Hs. exact Hs.
  - intros [Hx Hy]. destruct (select width height ctx) as [| i | j]; [reflexivity | |].
    + destruct Hs as (_ & Hi & Hpos & _). rewrite (Hx i Hi) in Hpos. lia.
    + destruct Hs as (_ & Hj & Hpos & _). rewrite (Hy j Hj) in Hpos. lia.
Qed.

Lemma crossings_none test l :
  (forall t, t ∈ l -> test t = false) -> crossings test l = 0%nat.
Proof.
  intros H. induction l as [|t l IH]; [reflexivity|].
  rewrite crossings_cons, (H t) by left. rewrite IH; [reflexivity|].
  intros t' Hin. apply H. right. assumption.
Qed.

(** C8. The call returns false exactly when every entry of both rulers
    is zero, and then it returns the context it was given: canvas,
    rulers and stream cursor are untouched.  In every other case it ends
    and returns true, and the pivot's entry is zero afterwards; when no
    line is exact across the pivot it does so without touching the
    canvas, the data buffer, its cursor or the sample count. *)
Theorem updateLines_progress width height pic r enc ctx :
  ctx_ok width height ctx -> (0 < width)%nat -> (0 < height)%nat ->
  r <= INT_MAX ->
  (all_exact width height ctx ->
   updateLines width height pic r enc ctx = Ok (ctx, false)) /\
  (~ all_exact width height ctx ->
   exists ctx',
     updateLines width height pic r enc ctx = Ok (ctx', true) /\
     pivot_entry (select width height ctx) ctx' = 0 /\
     (no_cross_point width height ctx ->
      pixels ctx' = pixels ctx /\ data ctx' = data ctx /\
      pos ctx' = pos ctx /\ numPixels ctx' = numPixels ctx)) /\
  (forall ctx', updateLines width height pic r enc ctx = Ok (ctx', false) ->
                all_exact width height ctx /\ ctx' = ctx).
Proof.
  intros Hok Hw Hh Hr.
  pose proof (select_nothing_iff width height ctx Hok Hw Hh) as Hn.
  pose proof (updateLines_spec width height pic r enc ctx Hok Hw Hh Hr) as Hu.
  pose proof (select_spec width height ctx Hok Hw Hh) as Hs.
  split; [|split].
  - intros Ha. apply Hn in Ha. rewrite Ha in Hu. exact Hu.
  - intros Hna. unfold no_cross_point, pivot_entry.
    destruct (select width height ctx) as [| i | j] eqn:Hsel.
    + exfalso. apply Hna, Hn. reflexivity.
    + destruct Hu as (ctx' & Hu & Hc). exists ctx'. split; [exact Hu|].
      destruct Hs as (_ & Hi & _).
      unfold column_major in Hc. rewrite column_scan_lines in Hc.
      split.
      * destruct (scan_lines _ _ _ _ _ _ _ _ _ _ _ _) as [st | | |];
          cbn [mbind result_bind] in Hc; try discriminate.
        injection Hc as <-. cbn [commit xError].
        rewrite rebalance_lookup by (rewrite (ok_xlen _ _ _ Hok); lia).
        destruct (decide (i = i)); [reflexivity | congruence].
      * intros Hnc. rewrite scan_lines_none in Hc.
        -- cbn [mbind result_bind] in Hc. injection Hc as <-.
           cbn [commit scan_of pixels data pos numPixels s_pixels s_data s_p s_num].
           repeat split.
        -- intros j Hj. apply elem_of_seq_0 in Hj. apply Z.eqb_neq. auto.
    + destruct Hu as (ctx' & Hu & Hc). exists ctx'. split; [exact Hu|].
      destruct Hs as (_ & Hj & _).
      unfold row_major in Hc. rewrite row_scan_lines in Hc.
      split.
      * destruct (scan_lines _ _ _ _ _ _ _ _ _ _ _ _) as [st | | |];
          cbn [mbind result_bind] in Hc; try discriminate.
        injection Hc as <-. cbn [commit yError].
        rewrite rebalance_lookup by (rewrite (ok_ylen _ _ _ Hok); lia).
        destruct (decide (j = j)); [reflexivity | congruence].
      * intros Hnc. rewrite scan_lines_none in Hc.
        -- cbn [mbind result_bind] in Hc. injection Hc as <-.
           cbn [commit scan_of pixels data pos numPixels s_pixels s_data s_p s_num].
           repeat split.
        -- intros i Hi. apply elem_of_seq_0 in Hi. apply Z.eqb_neq. auto.
  - intros ctx' He.
    destruct (select width height ctx) as [| i | j] eqn:Hsel.
    + rewrite Hu in He. injection He as <-. split; [apply Hn; reflexivity | reflexivity].
    + destruct Hu as (c & Hu & _). rewrite Hu in He. discriminate.
    + destruct Hu as (c & Hu & _). rewrite Hu in He. discriminate.
Qed.

Lemma updateLines_progress_witness :
  ctx_ok 3 2 demo_ctx /\ (0 < 3)%nat /\ (0 < 2)%nat /\ 2 <= INT_MAX /\
  ~ all_exact 3 2 demo_ctx /\
  exists ctx', updateLines 3 2 demo_pic 2 true demo_ctx = Ok (ctx', true) /\
               pivot_entry (select 3 2 demo_ctx) ctx' = 0.
Proof.
  assert (H1 : (0 < 3)%nat) by lia. assert (H2 : (0 < 2)%nat) by lia.
  assert (H3 : 2 <= INT_MAX) by (unfold INT_MAX; lia).
  assert (H4 : ~ all_exact 3 2 demo_ctx).
  { intros [Hx _]. specialize (Hx 0%nat ltac:(lia)). discriminate Hx. }
  split; [exact demo_ctx_ok|]. split; [exact H1|]. split; [exact H2|].
  split; [exact H3|]. split; [exact H4|].
  destruct (proj1 (proj2 (updateLines_progress 3 2 demo_pic 2 true demo_ctx
                            demo_ctx_ok H1 H2 H3)) H4) as (ctx' & Hu & Hp & _).
  exists ctx'. split; assumption.
Defined.
(** ** Ruler monotonicity and pivot exactness (C5) *)

Lemma rulers_shrink_refl ctx : rulers_shrink ctx ctx.
Proof. repeat split; intros; lia || assumption. Qed.

Lemma rulers_shrink_trans c1 c2 c3 :
  rulers_shrink c1 c2 -> rulers_shrink c2 c3 -> rulers_shrink c1 c3.
Proof.
  intros (X1 & Y1 & ZX1 & ZY1) (X2 & Y2 & ZX2 & ZY2).
  split; [|split; [|split]]; intros k.
  - specialize (X1 k). specialize (X2 k). lia.
  - specialize (Y1 k). specialize (Y2 k). lia.
  - auto.
  - auto.
Qed.

(** One iteration. *)
Lemma ruler_step width height pic r enc ctx ctx' :
  ctx_ok width height ctx -> (0 < width)%nat -> (0 < height)%nat ->
  r <= INT_MAX ->
  updateLines width height pic r enc ctx = Ok (ctx', true) ->
  rulers_shrink ctx ctx' /\ pivot_exact width height r ctx ctx'.
Proof.
  intros Hok Hw Hh Hr He.
  pose proof (select_spec width height ctx Hok Hw Hh) as Hs.
  unfold pivot_exact. rewrite updateLines_select in He.
  destruct (select width height ctx) as [| i | j]; [discriminate | |].
  - destruct Hs as (_ & Hi & Hpos & Hx & Hy).
    destruct (column_major_spec width height pic r enc ctx i Hok Hi Hr Hpos Hx)
      as (c & Hc & HxE & HyE & _).
    { intros k Hk. specialize (Hy k Hk). lia. }
    rewrite Hc in He. cbn [mbind result_bind] in He. injection He as <-.
    assert (Hent := fun k => rebalance_entry r i (xError ctx) width k
                               (ok_x _ _ _ Hok) (ok_xlen _ _ _ Hok) Hi Hr).
    cbv zeta in Hent. rewrite <- HxE in Hent.
    split.
    + split; [|split; [|split]]; intros k; rewrite ?HyE; try lia; try tauto.
      * destruct (Hent k) as (Hb & _). lia.
      * destruct (Hent k) as (_ & _ & _ & _ & Hz). exact Hz.
    + split.
      * destruct (Hent i) as (_ & Hp & _). auto.
      * intros ii Hin Hne _. destruct (Hent ii) as (Hb & _ & Hnz & _).
        specialize (Hnz Hin Hne). lia.
  - destruct Hs as (_ & Hj & Hpos & Hy & Hx).
    destruct (row_major_spec width height pic r enc ctx j Hok Hj Hr Hpos Hy Hx)
      as (c & Hc & HxE & HyE & _).
    rewrite Hc in He. cbn [mbind result_bind] in He. injection He as <-.
    assert (Hent := fun k => rebalance_entry r j (yError ctx) height k
                               (ok_y _ _ _ Hok) (ok_ylen _ _ _ Hok) Hj Hr).
    cbv zeta in Hent. rewrite <- HyE in Hent.
    split.
    + split; [|split; [|split]]; intros k; rewrite ?HxE; try lia; try tauto.
      * destruct (Hent k) as (Hb & _). lia.
      * destruct (Hent k) as (_ & _ & _ & _ & Hz). exact Hz.
    + split.
      * destruct (Hent j) as (_ & Hp & _). auto.
      * intros jj Hin Hne _. destruct (Hent jj) as (Hb & _ & Hnz & _).
        specialize (Hnz Hin Hne). lia.
Qed.

(** Any number of iterations. *)
Lemma ruler_frame width height ctx ctx' :
  (0 < width)%nat -> (0 < height)%nat ->
  rtc (iteration width height) ctx ctx' ->
  ctx_ok width height ctx ->
  ctx_ok width height ctx' /\ rulers_shrink ctx ctx'.
Proof.
  intros Hw Hh Hrtc. induction Hrtc as [ctx | ctx c1 c2 Hit Hrtc IH]; intros Hok.
  - split; [assumption | apply rulers_shrink_refl].
  - destruct Hit as (pic & r & enc & Hr & He).
    destruct (updateLines_ok _ _ _ _ _ _ _ _ Hok Hw Hh Hr He) as [Hok1 _].
    destruct (ruler_step _ _ _ _ _ _ _ Hok Hw Hh Hr He) as [Hs1 _].
    destruct (IH Hok1) as [Hok2 Hs2].
    split; [assumption | exact (rulers_shrink_trans _ _ _ Hs1 Hs2)].
Qed.

(** C5. After an iteration every entry of both rulers is at most what it
    was and the exact lines are still exact; the pivot's entry is zero;
    the other entries of the pivot range that were not zero are at least
    1.  The same bounds hold after any number of further iterations: an
    entry never grows and a zero entry stays zero. *)
Theorem ruler_monotone width height pic r enc ctx ctx' :
  ctx_ok width height ctx -> (0 < width)%nat -> (0 < height)%nat ->
  r <= INT_MAX ->
  updateLines width height pic r enc ctx = Ok (ctx', true) ->
  rulers_shrink ctx ctx' /\
  pivot_exact width height r ctx ctx' /\
  (forall ctx'', rtc (iteration width height) ctx' ctx'' ->
                 rulers_shrink ctx ctx'').
Proof.
  intros Hok Hw Hh Hr He.
  destruct (ruler_step _ _ _ _ _ _ _ Hok Hw Hh Hr He) as [Hs Hp].
  split; [exact Hs|]. split; [exact Hp|].
  intros ctx'' Hrtc.
  destruct (updateLines_ok _ _ _ _ _ _ _ _ Hok Hw Hh Hr He) as [Hok1 _].
  destruct (ruler_frame _ _ _ _ Hw Hh Hrtc Hok1) as [_ Hs2].
  exact (rulers_shrink_trans _ _ _ Hs Hs2).
Qed.

Lemma ruler_monotone_witness :
  ctx_ok 3 2 demo_ctx /\ (0 < 3)%nat /\ (0 < 2)%nat /\ 2 <= INT_MAX /\
  updateLines 3 2 demo_pic 2 true demo_ctx = Ok (demo_next, true) /\
  rulers_shrink demo_ctx demo_next /\ pivot_exact 3 2 2 demo_ctx demo_next.
Proof.
  assert (H1 : (0 < 3)%nat) by lia. assert (H2 : (0 < 2)%nat) by lia.
  assert (H3 : 2 <= INT_MAX) by (unfold INT_MAX; lia).
  split; [exact demo_ctx_ok|]. split; [exact H1|]. split; [exact H2|].
  split; [exact H3|]. split; [exact demo_step|].
  destruct (ruler_monotone 3 2 demo_pic 2 true demo_ctx demo_next
              demo_ctx_ok H1 H2 H3 demo_step) as (Hs & Hp & _).
  split; assumption.
Defined.
(** ** The fills of an iteration *)

Lemma forM_filter {A S} (test : A -> bool) (f : S -> A -> result S) l s :
  forM (fun s a => if test a then f s a else Ok s) l s =
  forM f (filter (fun a => test a = true) l) s.
Proof.
  revert s. induction l as [|a l IH]; intros s; [reflexivity|].
  cbn [forM]. rewrite filter_cons. destruct (test a) eqn:Ht.
  - destruct (decide (true = true)); [|congruence]. cbn [forM].
    destruct (f s a); cbn [mbind result_bind]; auto.
  - destruct (decide (false = true)); [congruence|]. cbn [mbind result_bind]. apply IH.
Qed.

Lemma forM_fmap {A B S} (g : A -> B) (f : S -> B -> result S) l s :
  forM f (g <$> l) s = forM (fun s a => f s (g a)) l s.
Proof.
  revert s. induction l as [|a l IH]; intros s; [reflexivity|].
  cbn [forM fmap list_fmap]. destruct (f s (g a)); cbn [mbind result_bind]; auto.
Qed.

(** [updateLines] is the scan of the cross points of the iteration,
    with the rulers of the fills. *)
Lemma updateLines_cross_points width height pic r enc ctx :
  updateLines width height pic r enc ctx =
  match select width height ctx with
  | Nothing => Ok (ctx, false)
  | _ =>
      st ← scan_cross_points width height pic r enc ctx;
      Ok (commit ctx (fill_rulers width height r ctx).1.1
                     (fill_rulers width height r ctx).1.2 st, true)
  end.
Proof.
  rewrite updateLines_select. unfold scan_cross_points, cross_points, fill_rulers.
  destruct (select width height ctx) as [| i | j]; [reflexivity | |].
  - unfold column_major. rewrite column_scan_lines. unfold scan_lines.
    rewrite forM_filter. cbn [fst snd]. rewrite forM_fmap. cbn [fst snd].
    unfold exact_lines.
    destruct (forM _ _ _); reflexivity.
  - unfold row_major. rewrite row_scan_lines. unfold scan_lines.
    rewrite forM_filter. cbn [fst snd]. rewrite forM_fmap. cbn [fst snd].
    unfold exact_lines.
    destruct (forM _ _ _); reflexivity.
Qed.

Lemma worst_index err n : (0 < n)%nat -> ((worst err n).1 < n)%nat.
Proof.
  intros Hn. unfold worst.
  assert (H : forall m, ((foldl (worst_step err) (0%nat, s32 (err !!! 0%nat)) (seq 1 m)).1 <= m)%nat).
  { induction m as [|m IH]; [simpl; lia|].
    rewrite seq_S, foldl_app. cbn [foldl]. unfold worst_step at 1.
    destruct (_ >? _); cbn [fst]; lia. }
  specialize (H (n - 1)%nat). lia.
Qed.

Lemma select_index width height ctx :
  (0 < width)%nat -> (0 < height)%nat ->
  match select width height ctx with
  | Nothing => True
  | Column i => (i < width)%nat
  | Row j => (j < height)%nat
  end.
Proof.
  intros Hw Hh. unfold select.
  pose proof (worst_index (xError ctx) width Hw).
  pose proof (worst_index (yError ctx) height Hh).
  destruct (worst (xError ctx) width), (worst (yError ctx) height).
  destruct (_ =? _); [exact I|]. destruct (_ >? _); assumption.
Qed.

Lemma elem_of_exact_lines err n t :
  t ∈ exact_lines err n <-> (t < n)%nat /\ err !!! t = 0.
Proof.
  unfold exact_lines. rewrite list_elem_of_filter, elem_of_seq_0, Z.eqb_eq. tauto.
Qed.

(** The cross points lie on the pivot and on an exact line across it,
    and their fills stay in the picture. *)
Lemma cross_points_spec width height r ctx p cs :
  (0 < width)%nat -> (0 < height)%nat ->
  (p, cs) ∈ cross_points width height r ctx ->
  in_canvas width height p /\ Forall (in_canvas width height) cs /\
  match select width height ctx with
  | Nothing => False
  | Column i =>
      p.1 = i /\ yError ctx !!! p.2 = 0 /\
      cs = fill_coords_col (range_min (xError ctx) r i)
                           (range_max (xError ctx) width r i)
                           (range_min (yError ctx) r p.2)
                           (range_max (yError ctx) height r p.2)
  | Row j =>
      p.2 = j /\ xError ctx !!! p.1 = 0 /\
      cs = fill_coords_row (range_min (xError ctx) r p.1)
                           (range_max (xError ctx) width r p.1)
                           (range_min (yError ctx) r j)
                           (range_max (yError ctx) height r j)
  end.
Proof.
  intros Hw Hh. unfold cross_points.
  pose proof (select_index width height ctx Hw Hh) as Hsel.
  destruct (select width height ctx) as [| i | j].
  - intros H. inversion H.
  - cbv zeta. intros H. apply list_elem_of_fmap in H as (j & [= -> ->] & Hj).
    apply elem_of_exact_lines in Hj as [Hj Hz].
    pose proof (range_spec (xError ctx) width r i Hsel) as Hri.
    pose proof (range_spec (yError ctx) height r j Hj) as Hrj.
    cbv zeta in Hri, Hrj. destruct Hri as (_ & Hhi & _), Hrj as (_ & Hhj & _).
    split; [split; assumption|]. split; [|cbn [fst snd]; auto].
    apply list.Forall_forall. intros c Hc.
    apply elem_of_fill_coords_col in Hc as [Hc1 Hc2]. split; lia.
  - cbv zeta. intros H. apply list_elem_of_fmap in H as (i & [= -> ->] & Hi).
    apply elem_of_exact_lines in Hi as [Hi Hz].
    pose proof (range_spec (xError ctx) width r i Hi) as Hri.
    pose proof (range_spec (yError ctx) height r j Hsel) as Hrj.
    cbv zeta in Hri, Hrj. destruct Hri as (_ & Hhi & _), Hrj as (_ & Hhj & _).
    split; [split; assumption|]. split; [|cbn [fst snd]; auto].
    apply list.Forall_forall. intros c Hc.
    apply elem_of_fill_coords_row in Hc as [Hc1 Hc2]. split; lia.
Qed.

(** ** In-bounds canvas access (C10) *)

Lemma forM_cross_in_bounds width height pic r enc xE yE maxError l st :
  Forall (fun p => Forall (in_canvas width height) p.2) l ->
  length (s_pixels st) = (width * height * 4)%nat ->
  forM (fun st p => cross_at width pic r enc xE yE maxError p.1 p.2 st) l st = Abort \/
  exists st', forM (fun st p => cross_at width pic r enc xE yE maxError p.1 p.2 st) l st = Ok st'.
Proof.
  intros Hl. revert st. induction Hl as [|p l Hp Hl IH]; intros st Hlen; cbn [forM].
  - right. eexists. reflexivity.
  - destruct (cross_in_bounds width height pic r enc xE yE maxError p.1 p.2 st Hp Hlen)
      as [-> | (st1 & -> & Hl1)]; [left; reflexivity|].
    cbn [mbind result_bind]. apply IH. congruence.
Qed.

(** C10. In an iteration on a [width] x [height] context whose canvas has
    its [width * height * 4] bytes, every pixel [(ii, jj)] a fill visits
    has [ii < width] and [jj < height], so has every cross point, and
    the call never ends on an access outside the canvas: its outcome is
    never [OutOfBounds]. *)
Theorem fill_in_canvas width height pic r enc ctx :
  (0 < width)%nat -> (0 < height)%nat ->
  length (pixels ctx) = (width * height * 4)%nat ->
  (forall p cs, (p, cs) ∈ cross_points width height r ctx ->
     in_canvas width height p /\
     forall c, c ∈ cs ->
       in_canvas width height c /\
       (pix width c + 2 < length (pixels ctx))%nat) /\
  updateLines width height pic r enc ctx <> OutOfBounds.
Proof.
  intros Hw Hh Hlen. split.
  - intros p cs Hin.
    destruct (cross_points_spec width height r ctx p cs Hw Hh Hin) as (Hp & Hcs & _).
    split; [assumption|]. intros c Hc.
    rewrite list.Forall_forall in Hcs. specialize (Hcs c Hc). split; [assumption|].
    destruct c as [ii jj], Hcs as [Hi Hj]. cbn [fst snd] in *.
    pose proof (pix_bound width height ii jj Hi Hj). lia.
  - rewrite updateLines_cross_points.
    destruct (select width height ctx) eqn:Hsel; [discriminate | |];
      unfold scan_cross_points;
      destruct (fill_rulers width height r ctx) as [[xE yE] maxError];
      (destruct (forM_cross_in_bounds width height pic r enc xE yE maxError
                  (cross_points width height r ctx) (scan_of ctx))
        as [-> | (st' & ->)];
       [ apply list.Forall_forall; intros [p cs] Hin;
         apply (cross_points_spec width height r ctx p cs Hw Hh Hin)
       | exact Hlen | discriminate | discriminate ]).
Qed.

Lemma fill_in_canvas_witness :
  (0 < 3)%nat /\ (0 < 2)%nat /\
  length (pixels demo_ctx) = (3 * 2 * 4)%nat /\
  updateLines 3 2 demo_pic 2 true demo_ctx <> OutOfBounds.
Proof.
  assert (H1 : (0 < 3)%nat) by lia. assert (H2 : (0 < 2)%nat) by lia.
  assert (H3 : length (pixels demo_ctx) = (3 * 2 * 4)%nat) by reflexivity.
  split; [exact H1|]. split; [exact H2|]. split; [exact H3|].
  exact (proj2 (fill_in_canvas 3 2 demo_pic 2 true demo_ctx H1 H2 H3)).
Defined.
(** ** The range of the blend weight (C9) *)

Lemma blend_bounds src old alpha :
  0 <= src < 256 -> 0 <= old < 256 -> 0 <= alpha <= 256 ->
  0 <= blend src old alpha <= 255.
Proof.
  intros Hs Ho Ha. unfold blend.
  assert (0 <= src * alpha + old * (256 - alpha) <= 255 * 256) by nia.
  rewrite s32_small by lia. rewrite Z.shiftr_div_pow2 by lia.
  change (2 ^ 8) with 256. split.
  - apply Z.div_pos; lia.
  - apply Z.lt_succ_r. apply Z.div_lt_upper_bound; lia.
Qed.

Lemma blend_full src old : 0 <= src < 256 -> blend src old 256 = src.
Proof.
  intros Hs. unfold blend. replace (src * 256 + old * (256 - 256)) with (src * 256) by lia.
  rewrite s32_small by lia. rewrite Z.shiftr_div_pow2 by lia.
  change (2 ^ 8) with 256. apply Z.div_mul. lia.
Qed.

(** Every entry the fills read is at most [maxError], which is positive
    and has 24 bits. *)
Lemma fill_rulers_bounds width height r ctx :
  ctx_ok width height ctx -> (0 < width)%nat -> (0 < height)%nat ->
  r <= INT_MAX -> select width height ctx <> Nothing ->
  let '(xE, yE, maxError) := fill_rulers width height r ctx in
  0 < maxError < 2 ^ 24 /\
  (forall k, (k < width)%nat -> 0 <= xE !!! k <= maxError) /\
  (forall k, (k < height)%nat -> 0 <= yE !!! k <= maxError).
Proof.
  intros Hok Hw Hh Hr Hne. unfold fill_rulers.
  pose proof (select_spec width height ctx Hok Hw Hh) as Hs.
  destruct (select width height ctx) as [| i | j]; [congruence | |].
  - destruct Hs as (_ & Hi & Hpos & Hx & Hy).
    pose proof (ruler_ok_lookup _ i (ok_x _ _ _ Hok)) as Hxi.
    rewrite s32_small by lia. split; [lia|]. split.
    + intros k Hk.
      pose proof (rebalance_entry r i (xError ctx) width k
                    (ok_x _ _ _ Hok) (ok_xlen _ _ _ Hok) Hi Hr) as He.
      cbv zeta in He. destruct He as (Hb & _). specialize (Hx k Hk). lia.
    + intros k Hk. specialize (Hy k Hk).
      pose proof (ruler_ok_lookup _ k (ok_y _ _ _ Hok)). lia.
  - destruct Hs as (_ & Hj & Hpos & Hy & Hx).
    pose proof (ruler_ok_lookup _ j (ok_y _ _ _ Hok)) as Hyj.
    rewrite s32_small by lia. split; [lia|]. split.
    + intros k Hk. specialize (Hx k Hk).
      pose proof (ruler_ok_lookup _ k (ok_x _ _ _ Hok)). lia.
    + intros k Hk.
      pose proof (rebalance_entry r j (yError ctx) height k
                    (ok_y _ _ _ Hok) (ok_ylen _ _ _ Hok) Hj Hr) as He.
      cbv zeta in He. destruct He as (Hb & _). specialize (Hy k Hk). lia.
Qed.

(** C9. In every fill of an iteration the weight [alpha] of every pixel
    visited lies between 0 and 256, because the two ruler entries read
    are between 0 and [maxError]; and with such a weight the blend of two
    bytes is a byte again: storing it truncates nothing. *)
Theorem alpha_in_range width height r ctx :
  ctx_ok width height ctx -> (0 < width)%nat -> (0 < height)%nat ->
  r <= INT_MAX ->
  (forall p cs c, (p, cs) ∈ cross_points width height r ctx -> c ∈ cs ->
     0 <= fill_weight width height r ctx c <= 256) /\
  (forall src old alpha,
     0 <= src < 256 -> 0 <= old < 256 -> 0 <= alpha <= 256 ->
     0 <= blend src old alpha <= 255 /\ u8 (blend src old alpha) = blend src old alpha).
Proof.
  intros Hok Hw Hh Hr. split.
  - intros p cs c Hin Hc.
    destruct (cross_points_spec width height r ctx p cs Hw Hh Hin) as (_ & Hcs & Hsel).
    rewrite list.Forall_forall in Hcs. destruct (Hcs c Hc) as [Hc1 Hc2].
    assert (Hne : select width height ctx <> Nothing).
    { intros E. rewrite E in Hsel. exact Hsel. }
    pose proof (fill_rulers_bounds width height r ctx Hok Hw Hh Hr Hne) as Hb.
    unfold fill_weight.
    destruct (fill_rulers width height r ctx) as [[xE yE] maxError].
    destruct Hb as (Hm & Hx & Hy).
    apply pixel_alpha_bounds; auto.
  - intros src old alpha Hs Ho Ha.
    pose proof (blend_bounds src old alpha Hs Ho Ha). split; [assumption|].
    apply u8_small. lia.
Qed.

Lemma demo_cross_point :
  ((2, 0), [(2, 0); (2, 1)])%nat ∈ cross_points 3 2 2 demo_ctx.
Proof. vm_compute. left. Defined.

Lemma alpha_in_range_witness :
  ctx_ok 3 2 demo_ctx /\ (0 < 3)%nat /\ (0 < 2)%nat /\ 2 <= INT_MAX /\
  0 <= fill_weight 3 2 2 demo_ctx (2, 1)%nat <= 256.
Proof.
  assert (H1 : (0 < 3)%nat) by lia. assert (H2 : (0 < 2)%nat) by lia.
  assert (H3 : 2 <= INT_MAX) by (unfold INT_MAX; lia).
  split; [exact demo_ctx_ok|]. split; [exact H1|]. split; [exact H2|].
  split; [exact H3|].
  apply (proj1 (alpha_in_range 3 2 2 demo_ctx demo_ctx_ok H1 H2 H3)
               (2, 0)%nat [(2, 0); (2, 1)]%nat (2, 1)%nat demo_cross_point).
  right. left.
Defined.
(** ** Canvas initialisation (C3) *)

(** [splash_init] writes three bytes a pixel into a canvas of four bytes
    a pixel: the bytes from [3 * width * height] on are left as the
    allocator returned them. *)
Lemma init_pixels_beyond width height raw k :
  (3 * (width * height) <= k)%nat ->
  init_pixels width height raw !!! k = raw !!! k.
Proof.
  unfold init_pixels. generalize (width * height)%nat as n. intros n.
  induction n as [|n IH]; intros Hk; [reflexivity|].
  rewrite seq_S, foldl_app. cbn [foldl].
  rewrite !list_lookup_total_insert_ne by lia. apply IH. lia.
Qed.

(** C3, on the code: after [splash_init] of a 2 x 1 codec on a heap of
    zeros the blue channel of the second pixel is 0, not 0x7F, and so
    are the three channels of the last pixels of an 8 x 8 canvas. *)
Theorem init_pixels_stride :
  pixels (splash_init 2 1 5 (F32.of_int 1) (F32.of_int 2) [0; 0] [0]
                      (repeat 0 8))
  = [127; 127; 127; 127; 127; 127; 0; 0] /\
  pixels opened_ctx !!! pix 8 (7, 7)%nat = 0.
Proof. split; vm_compute; reflexivity. Qed.

(** ** The uniform gray scenario (C4) *)

(** C4, as stated: on the mid-gray canvas the packet of the uniform gray
    picture has 60 bytes, not 84. *)
Lemma uniform_gray_packet_size :
  pkt_size (encoded_packet
              (splash_encode 8 8 0 gray_pic (inr (fresh_packet 8 8)) gray_ctx))
  = 60 /\ 60 <> 84.
Proof. split; [vm_compute; reflexivity | lia]. Qed.

(** C4, amended.  8 x 8, radius 5, the canvas mid gray all over and the
    target uniform gray: the rulers the encoder computes are zero, the
    first call of the engine returns false, no sample is emitted, the
    packet is the 12 bytes of the header and 16 times 3 zero bytes, 60
    in all, and decoding it on a mid-gray canvas leaves that canvas as
    it is and exports it with 255 for every fourth byte. *)
Theorem uniform_gray_scenario :
  let e := splash_encode 8 8 0 gray_pic (inr (fresh_packet 8 8)) gray_ctx in
  let ctx1 := final_context gray_ctx e in
  let d := splash_decode 8 8 (inr (empty_frame 256 32)) (encoded_packet e) gray_ctx in
  xError ctx1 = repeat 0 8 /\ yError ctx1 = repeat 0 8 /\
  updateLines 8 8 gray_pic 5 true ctx1 = Ok (ctx1, false) /\
  numPixels ctx1 = 0 /\ pixels ctx1 = solid gray 0 64 /\
  packet_bytes (encoded_packet e) =
    [12; 0; 0; 115; 112; 108; 97; 115; 104; 1; 5; 0] ++ repeat 0 48 /\
  pkt_size (encoded_packet e) = 60 /\
  pixels (final_context gray_ctx d) = solid gray 0 64 /\
  decoded_frame d = solid gray 255 64.
Proof. cbv zeta. repeat split; vm_compute; reflexivity. Qed.

(** On the canvas [splash_init] really leaves, here on a heap of zeros,
    the rulers are not zero and samples are emitted. *)
Lemma uniform_gray_after_init :
  let e := splash_encode 8 8 0 gray_pic (inr (fresh_packet 8 8)) opened_ctx in
  packet_bytes (encoded_packet e) !! 12%nat = Some 250 /\
  numPixels (final_context opened_ctx e) = 32 /\
  pkt_size (encoded_packet e) = 156.
Proof. cbv zeta. repeat split; vm_compute; reflexivity. Qed.

(** ** Malformed packets (C2) *)

(** C2, as stated: a packet with a wrong magic and version 9 is decoded
    like any other; the call returns the size of the packet and the
    frame. *)
Lemma bad_packet_decoded :
  malformed 1 1 bad_packet /\
  ~ rejected (splash_decode 1 1 (inr (empty_frame 4 4)) bad_packet pixel_ctx) /\
  exists pic ctx',
    splash_decode 1 1 (inr (empty_frame 4 4)) bad_packet pixel_ctx
    = Ok (21, Some pic, ctx') /\ frame_data pic = [10; 20; 30; 255].
Proof.
  split; [|split].
  - left. vm_compute. discriminate.
  - intros (ret & ctx' & H & _). vm_compute in H. discriminate H.
  - eexists. eexists. split; [vm_compute; reflexivity | reflexivity].
Qed.
(** ** The driver loops end *)

Lemma inexact_lines_cons v l :
  inexact_lines (v :: l) = ((if (v =? 0)%Z then 0 else 1) + inexact_lines l)%nat.
Proof.
  unfold inexact_lines. rewrite filter_cons.
  destruct (Z.eqb_spec v 0) as [-> | Hne].
  - destruct (decide (0 <> 0)); [congruence | reflexivity].
  - destruct (decide (v <> 0)); [reflexivity | contradiction].
Qed.

Lemma inexact_lines_le l : (inexact_lines l <= length l)%nat.
Proof. unfold inexact_lines. apply length_filter. Qed.

Lemma inexact_lines_same (l1 l2 : list Z) :
  length l1 = length l2 ->
  (forall k, (k < length l1)%nat -> l2 !!! k = 0 <-> l1 !!! k = 0) ->
  inexact_lines l1 = inexact_lines l2.
Proof.
  revert l2. induction l1 as [|v1 l1 IH]; intros [|v2 l2] Hlen H; try discriminate.
  - reflexivity.
  - rewrite !inexact_lines_cons. cbn [length] in *.
    rewrite (IH l2) by (try lia; intros k Hk; apply (H (S k)); lia).
    specialize (H 0%nat ltac:(lia)). cbn in H.
    destruct (Z.eqb_spec v1 0), (Z.eqb_spec v2 0); try reflexivity; tauto.
Qed.

Lemma inexact_lines_pivot (l1 l2 : list Z) c :
  length l1 = length l2 -> (c < length l1)%nat ->
  l1 !!! c <> 0 -> l2 !!! c = 0 ->
  (forall k, (k < length l1)%nat -> k <> c -> l2 !!! k = 0 <-> l1 !!! k = 0) ->
  inexact_lines l1 = S (inexact_lines l2).
Proof.
  revert l2 c. induction l1 as [|v1 l1 IH]; intros [|v2 l2] c Hlen Hc H1 H2 H;
    try discriminate; cbn [length] in *; try lia.
  rewrite !inexact_lines_cons. destruct c as [|c].
  - cbn in H1, H2. subst v2.
    rewrite (inexact_lines_same l1 l2) by (try lia; intros k Hk; apply (H (S k)); lia).
    destruct (Z.eqb_spec v1 0); [contradiction | reflexivity].
  - rewrite (IH l2 c); try lia; try assumption.
    + specialize (H 0%nat ltac:(lia) ltac:(lia)). cbn in H.
      destruct (Z.eqb_spec v1 0), (Z.eqb_spec v2 0); try reflexivity; tauto.
    + intros k Hk Hne. apply (H (S k)); lia.
Qed.

Lemma inexact_lines_rebalance r c err len :
  ruler_ok err -> length err = len -> (c < len)%nat -> err !!! c <> 0 ->
  r <= INT_MAX ->
  inexact_lines err =
  S (inexact_lines (rebalance r c (range_min err r c) (range_max err len r c) err)).
Proof.
  intros Hok Hlen Hc Hpiv Hr.
  assert (Hent := fun k => rebalance_entry r c err len k Hok Hlen Hc Hr).
  cbv zeta in Hent.
  pose proof (range_spec err len r c Hc) as Hrs. cbv zeta in Hrs.
  destruct Hrs as (_ & _ & _ & Hnz).
  apply inexact_lines_pivot with c; try assumption.
  - rewrite rebalance_length. reflexivity.
  - lia.
  - destruct (Hent c) as (_ & Hz & _). auto.
  - intros k Hk Hne. destruct (Hent k) as (_ & _ & Hin & Hout & Hz).
    split; [|exact Hz].
    destruct (decide ((range_min err r c <= k <= range_max err len r c)%nat))
      as [Hr' | Hr'].
    + intros Hv. exfalso. exact (Hin Hr' Hne Hv).
    + rewrite (Hout Hr'). auto.
Qed.

(** An iteration that did some work makes one line exact. *)
Lemma iteration_todo width height pic r enc ctx ctx' :
  ctx_ok width height ctx -> (0 < width)%nat -> (0 < height)%nat ->
  r <= INT_MAX ->
  updateLines width height pic r enc ctx = Ok (ctx', true) ->
  todo ctx = S (todo ctx').
Proof.
  intros Hok Hw Hh Hr He.
  pose proof (select_spec width height ctx Hok Hw Hh) as Hs.
  rewrite updateLines_select in He. unfold todo.
  destruct (select width height ctx) as [| i | j]; [discriminate | |].
  - destruct Hs as (_ & Hi & Hpos & Hx & Hy).
    destruct (column_major_spec width height pic r enc ctx i Hok Hi Hr Hpos Hx)
      as (c & Hc & HxE & HyE & _).
    { intros k Hk. specialize (Hy k Hk). lia. }
    rewrite Hc in He. cbn [mbind result_bind] in He. injection He as <-.
    rewrite HxE, HyE.
    rewrite (inexact_lines_rebalance r i (xError ctx) width)
      by (try apply Hok; try assumption; lia). lia.
  - destruct Hs as (_ & Hj & Hpos & Hy & Hx).
    destruct (row_major_spec width height pic r enc ctx j Hok Hj Hr Hpos Hy Hx)
      as (c & Hc & HxE & HyE & _).
    rewrite Hc in He. cbn [mbind result_bind] in He. injection He as <-.
    rewrite HxE, HyE.
    rewrite (inexact_lines_rebalance r j (yError ctx) height)
      by (try apply Hok; try assumption; lia). lia.
Qed.

Lemma todo_le width height ctx :
  ctx_ok width height ctx -> (todo ctx <= width + height)%nat.
Proof.
  intros Hok. unfold todo.
  pose proof (inexact_lines_le (xError ctx)). pose proof (inexact_lines_le (yError ctx)).
  rewrite (ok_xlen _ _ _ Hok) in *. rewrite (ok_ylen _ _ _ Hok) in *. lia.
Qed.

(** Every call of the engine on a well-formed context ends. *)
Lemma updateLines_ends width height pic r enc ctx :
  ctx_ok width height ctx -> (0 < width)%nat -> (0 < height)%nat ->
  r <= INT_MAX ->
  exists ctx' b, updateLines width height pic r enc ctx = Ok (ctx', b).
Proof.
  intros Hok Hw Hh Hr.
  pose proof (updateLines_spec width height pic r enc ctx Hok Hw Hh Hr) as Hu.
  destruct (select width height ctx); [eauto | |];
    destruct Hu as (ctx' & Hu & _); eauto.
Qed.

(** The loop of the decoder ends within the fuel, on a well-formed
    context again, reached by iterations of the engine. *)
Lemma decode_loop_ends fuel width height pic r ctx :
  ctx_ok width height ctx -> (0 < width)%nat -> (0 < height)%nat ->
  r <= INT_MAX -> (todo ctx < fuel)%nat ->
  exists ctx', decode_loop fuel width height pic r ctx = Ok ctx' /\
               ctx_ok width height ctx' /\
               rtc (iteration width height) ctx ctx'.
Proof.
  intros Hok Hw Hh Hr. revert ctx Hok.
  induction fuel as [|fuel IH]; intros ctx Hok Hfuel; [lia|].
  cbn [decode_loop].
  destruct (updateLines_ends width height pic r false ctx Hok Hw Hh Hr) as (c & b & Hu).
  rewrite Hu. cbn [mbind result_bind].
  destruct (updateLines_ok _ _ _ _ _ _ _ _ Hok Hw Hh Hr Hu) as [Hok' _].
  destruct b.
  - pose proof (iteration_todo _ _ _ _ _ _ _ Hok Hw Hh Hr Hu) as Ht.
    assert (Hit : iteration width height ctx c) by (exists pic, r, false; auto).
    destruct (Z.of_nat (pos c) <? size c).
    + destruct (IH c Hok' ltac:(lia)) as (ctx' & -> & Hok'' & Hrtc).
      exists ctx'. split; [reflexivity|]. split; [assumption|].
      exact (rtc_l _ _ _ _ Hit Hrtc).
    + exists c. split; [reflexivity|]. split; [assumption|].
      apply rtc_once. assumption.
  - exists c. split; [reflexivity|]. split; [assumption|].
    rewrite updateLines_select in Hu.
    destruct (select width height ctx); cbn in Hu.
    + injection Hu as <-. apply rtc_refl.
    + destruct (column_major _ _ _ _ _ _ _); discriminate.
    + destruct (row_major _ _ _ _ _ _ _); discriminate.
Qed.

(** So does the loop of the encoder. *)
Lemma encode_loop_ends fuel width height pic maxPixels ctx :
  ctx_ok width height ctx -> (0 < width)%nat -> (0 < height)%nat ->
  radius ctx <= INT_MAX -> (todo ctx < fuel)%nat ->
  exists ctx', encode_loop fuel width height pic maxPixels ctx = Ok ctx' /\
               ctx_ok width height ctx' /\
               rtc (iteration width height) ctx ctx'.
Proof.
  intros Hok Hw Hh. revert ctx Hok.
  induction fuel as [|fuel IH]; intros ctx Hok Hr Hfuel; [lia|].
  cbn [encode_loop].
  destruct (updateLines_ends width height pic (radius ctx) true ctx Hok Hw Hh Hr)
    as (c & b & Hu).
  rewrite Hu. cbn [mbind result_bind].
  destruct (updateLines_ok _ _ _ _ _ _ _ _ Hok Hw Hh Hr Hu) as [Hok' (Hrad & _)].
  destruct b.
  - pose proof (iteration_todo _ _ _ _ _ _ _ Hok Hw Hh Hr Hu) as Ht.
    assert (Hit : iteration width height ctx c) by (exists pic, (radius ctx), true; auto).
    destruct (numPixels c <? maxPixels).
    + destruct (IH c Hok' ltac:(lia) ltac:(lia)) as (ctx' & -> & Hok'' & Hrtc).
      exists ctx'. split; [reflexivity|]. split; [assumption|].
      exact (rtc_l _ _ _ _ Hit Hrtc).
    + exists c. split; [reflexivity|]. split; [assumption|].
      apply rtc_once. assumption.
  - exists c. split; [reflexivity|]. split; [assumption|].
    rewrite updateLines_select in Hu.
    destruct (select width height ctx); cbn in Hu.
    + injection Hu as <-. apply rtc_refl.
    + destruct (column_major _ _ _ _ _ _ _); discriminate.
    + destruct (row_major _ _ _ _ _ _ _); discriminate.
Qed.
(** ** Rulers loaded from bytes *)

Lemma lor_le_add a b : 0 <= a -> 0 <= b -> 0 <= Z.lor a b <= a + b.
Proof.
  intros Ha Hb. pose proof (Z.add_lor_land a b).
  assert (0 <= Z.land a b) by (apply Z.land_nonneg; auto).
  assert (0 <= Z.lor a b) by (apply Z.lor_nonneg; auto). lia.
Qed.

Lemma get_error_range d p :
  (forall k, 0 <= d k < 256) -> 0 <= get_error d p < 2 ^ 24.
Proof.
  intros Hd. unfold get_error.
  pose proof (Hd p). pose proof (Hd (p + 1)%nat). pose proof (Hd (p + 2)%nat).
  rewrite !Z.shiftl_mul_pow2 by lia.
  change (2 ^ 8) with 256. change (2 ^ 16) with 65536.
  pose proof (lor_le_add (d p) (d (p + 1)%nat * 256) ltac:(lia) ltac:(lia)).
  pose proof (lor_le_add (Z.lor (d p) (d (p + 1)%nat * 256))
                (d (p + 2)%nat * 65536) ltac:(lia) ltac:(lia)).
  lia.
Qed.

(** Loading a ruler: [n] entries of three bytes, whatever was there. *)
Lemma load_ruler d n ruler p :
  (n <= length ruler)%nat ->
  let s := foldl (load_step d) (ruler, p) (seq 0 n) in
  length s.1 = length ruler /\ s.2 = (p + 3 * n)%nat /\
  (forall k, (k < n)%nat -> s.1 !!! k = u32 (get_error d (p + 3 * k)%nat)) /\
  (forall k, (n <= k)%nat -> s.1 !!! k = ruler !!! k).
Proof.
  induction n as [|n IH]; intros Hn; cbv zeta.
  - cbn [seq foldl fst snd]. split; [reflexivity|]. split; [lia|].
    split; [intros; lia | reflexivity].
  - rewrite seq_S, foldl_app. cbn [foldl].
    specialize (IH ltac:(lia)). cbv zeta in IH.
    destruct (foldl (load_step d) (ruler, p) (seq 0 n)) as [r1 p1].
    cbn [fst snd] in *. destruct IH as (L & P & Lo & Hi).
    cbn [load_step fst snd Nat.add]. split; [rewrite length_insert; assumption|].
    split; [lia|]. split.
    + intros k Hk. destruct (decide (k = n)) as [-> | Hne].
      * rewrite list_lookup_total_insert_eq by lia. subst p1. reflexivity.
      * rewrite list_lookup_total_insert_ne by congruence. apply Lo. lia.
    + intros k Hk. rewrite list_lookup_total_insert_ne by lia. apply Hi. lia.
Qed.

Lemma load_ruler_ok d n ruler p :
  (forall k, 0 <= d k < 256) -> length ruler = n ->
  ruler_ok (foldl (load_step d) (ruler, p) (seq 0 n)).1 /\
  length (foldl (load_step d) (ruler, p) (seq 0 n)).1 = n.
Proof.
  intros Hd Hlen. pose proof (load_ruler d n ruler p ltac:(lia)) as H.
  cbv zeta in H. destruct H as (L & _ & Lo & _). split; [|lia].
  apply Forall_lookup_2. intros k v Hkv.
  assert (Hk : (k < n)%nat) by (apply lookup_lt_Some in Hkv; lia).
  apply list_lookup_total_correct in Hkv. rewrite Lo in Hkv by assumption. subst v.
  pose proof (get_error_range d (p + 3 * k)%nat Hd). rewrite u32_small; lia.
Qed.

(** ** The centre of a fill (C6) *)

Lemma pic_at_byte pic i j c :
  bytes_ok (frame_data pic) -> 0 <= pic_at pic i j c < 256.
Proof. intros H. unfold pic_at. apply bytes_ok_lookup. assumption. Qed.

(** The bytes of different pixels of the picture are apart. *)
Lemma pix_apart width height c1 c2 k :
  in_canvas width height c1 -> in_canvas width height c2 -> c1 <> c2 ->
  (k < 3)%nat -> ~ in_pixel (pix width c2) (pix width c1 + k)%nat.
Proof.
  intros [H1 _] [H2 _] Hne Hk Hin. apply Hne.
  apply (pix_inj width c1 c2 H1 H2 (pix width c1 + k)%nat); [|assumption].
  unfold in_pixel. lia.
Qed.

(** After a fill the pixel at its centre is the sample. *)
Lemma fill_centre width height r maxError xE yE p src coords px :
  Forall (in_canvas width height) coords -> p ∈ coords ->
  length px = (width * height * 4)%nat ->
  pixel_alpha maxError xE yE p.1 p.2 = 256 -> 0 < r < 2 ^ 53 ->
  0 <= src.1.1 < 256 -> 0 <= src.1.2 < 256 -> 0 <= src.2 < 256 ->
  exists px',
    forM (fill_pixel width r maxError xE yE p.1 p.2 src) coords px = Ok px' /\
    px' !!! pix width p = src.1.1 /\
    px' !!! (pix width p + 1)%nat = src.1.2 /\
    px' !!! (pix width p + 2)%nat = src.2.
Proof.
  intros Hc Hin Hlen Ha Hr HsR HsG HsB.
  destruct (list_elem_of_split_r _ _ Hin) as (l1 & l2 & -> & Hni).
  apply Forall_app in Hc as [Hc1 Hc2]. apply Forall_cons in Hc2 as [Hp Hc2].
  rewrite forM_app.
  destruct (fill_ok width height r maxError xE yE p.1 p.2 src l1 px Hc1 Hlen Ha)
    as (px1 & -> & Hl1 & _).
  cbn [mbind result_bind forM].
  destruct p as [i j]. cbn [fst snd] in *. destruct Hp as [Hi Hj]. cbn [fst snd] in *.
  destruct (fill_pixel_cases width height r maxError xE yE i j src px1 i j Hi Hj
              ltac:(lia)) as [(_ & _ & Hne) | (px2 & -> & Hl2 & _ & _ & Hv)];
    [contradiction|].
  cbn [mbind result_bind].
  destruct (fill_ok width height r maxError xE yE i j src l2 px2 Hc2 ltac:(lia) Ha)
    as (px' & -> & _ & _ & Hf).
  specialize (Hv (fill_alpha_centre r i j Hr)). rewrite Ha in Hv.
  rewrite !blend_full, !u8_small in Hv by assumption.
  destruct Hv as (V0 & V1 & V2).
  assert (Hframe : forall k, (k < 3)%nat ->
            px' !!! (pix width (i, j) + k)%nat = px2 !!! (pix width (i, j) + k)%nat).
  { intros k Hk. apply Hf. intros c Hc.
    rewrite list.Forall_forall in Hc2.
    apply (pix_apart width height (i, j) c k); auto.
    - split; assumption.
    - intros <-. contradiction. }
  exists px'. split; [reflexivity|].
  pose proof (Hframe 0%nat ltac:(lia)) as F0. rewrite Nat.add_0_r in F0.
  rewrite F0, (Hframe 1%nat), (Hframe 2%nat) by lia. auto.
Qed.

Section Cross.
Variables (width height : nat) (pic : AVFrame) (r : Z) (enc : bool).
Variables (xE yE : list Z) (maxError : Z).

Local Abbreviation body :=
  (fun st (p : (nat * nat) * list (nat * nat)) =>
     cross_at width pic r enc xE yE maxError p.1 p.2 st).

Local Abbreviation fills_ok := (fills_ok width height xE yE maxError).
Local Abbreviation samples_ok := (samples_ok pic enc).

Lemma forM_cross_ok l st :
  fills_ok l -> length (s_pixels st) = (width * height * 4)%nat ->
  exists st', forM body l st = Ok st' /\ scan_frame enc (length l) st st' /\
    (forall k', (forall p c', p ∈ l -> c' ∈ p.2 -> ~ in_pixel (pix width c') k') ->
                s_pixels st' !!! k' = s_pixels st !!! k').
Proof.
  revert st. induction l as [|p l IH]; intros st H Hlen.
  - exists st. split; [reflexivity|]. split; [apply scan_frame_refl | reflexivity].
  - cbn [forM length]. destruct (H p ltac:(left)) as [Hc Ha].
    destruct (cross_ok width height pic r enc xE yE maxError p.1 p.2 st Hc Hlen Ha)
      as (st1 & -> & Hf1 & Hp1).
    cbn [mbind result_bind].
    destruct (IH st1) as (st' & -> & Hf' & Hp').
    { intros p' Hin. apply H. right. assumption. }
    { destruct Hf1 as (L & _). lia. }
    exists st'. split; [reflexivity|].
    split; [apply (scan_frame_trans enc 1 _ _ _ _ Hf1 Hf')|].
    intros k' Hk'. rewrite Hp'.
    + apply Hp1. intros c' Hin. apply (Hk' p c'); auto. left.
    + intros p' c' Hin. apply Hk'. right. assumption.
Qed.


Lemma cross_centre p cs st :
  Forall (in_canvas width height) cs -> p ∈ cs ->
  length (s_pixels st) = (width * height * 4)%nat ->
  pixel_alpha maxError xE yE p.1 p.2 = 256 -> 0 < r < 2 ^ 53 ->
  samples_ok st ->
  exists st',
    cross_at width pic r enc xE yE maxError p cs st = Ok st' /\
    forall c, (c < 3)%nat ->
      s_pixels st' !!! (pix width p + c)%nat = s_data st' (s_p st + c)%nat /\
      (enc = true -> s_data st' (s_p st + c)%nat = pic_at pic p.1 p.2 c).
Proof.
  intros Hc Hin Hlen Ha Hr Hs. unfold cross_at.
  pose proof (read_pixel_effect pic enc p st) as Hrd. cbv zeta in Hrd.
  assert (Hsrc : 0 <= (read_pixel enc pic p.1 p.2 st).1.1.1 < 256 /\
                           0 <= (read_pixel enc pic p.1 p.2 st).1.1.2 < 256 /\
                           0 <= (read_pixel enc pic p.1 p.2 st).1.2 < 256).
  { unfold read_pixel, samples_ok in *. destruct enc; cbn [fst snd].
    - repeat split; apply pic_at_byte; assumption.
    - repeat split; apply Hs. }
  assert (Henc : enc = true ->
            (read_pixel enc pic p.1 p.2 st).1 =
            (pic_at pic p.1 p.2 0, pic_at pic p.1 p.2 1, pic_at pic p.1 p.2 2)).
  { intros ->. reflexivity. }
  destruct (read_pixel enc pic p.1 p.2 st) as [src st1]. cbn [fst snd] in *.
  destruct Hrd as (Rpx & Rp & Rn & Rd & Re & Rs).
  destruct Hsrc as (S0 & S1 & S2).
  assert (Hsamp : src = (s_data st1 (s_p st), s_data st1 (s_p st + 1)%nat,
                         s_data st1 (s_p st + 2)%nat)).
  { apply Rs. unfold samples_ok in Hs. destruct enc; [left | right; reflexivity].
    repeat split; apply pic_at_byte; assumption. }
  destruct (fill_centre width height r maxError xE yE p src cs (s_pixels st1)
              Hc Hin ltac:(congruence) Ha Hr S0 S1 S2) as (px' & -> & V0 & V1 & V2).
  cbn [mbind result_bind]. eexists. split; [reflexivity|].
  cbn [with_pixels s_pixels s_data].
  intros c Hc3. rewrite Hsamp in V0, V1, V2. cbn [fst snd] in V0, V1, V2.
  destruct c as [|[|[|c]]]; try lia; rewrite ?Nat.add_0_r.
  - split; [assumption|]. intros E. specialize (Henc E). rewrite Hsamp in Henc.
    injection Henc as H0 H1 H2. assumption.
  - split; [assumption|]. intros E. specialize (Henc E). rewrite Hsamp in Henc.
    injection Henc as H0 H1 H2. assumption.
  - split; [assumption|]. intros E. specialize (Henc E). rewrite Hsamp in Henc.
    injection Henc as H0 H1 H2. assumption.
Qed.

(** After the scan the pixel at every cross point is the sample read
    there, the [n]-th of the iteration. *)
Lemma forM_cross_samples l st :
  fills_ok l -> length (s_pixels st) = (width * height * 4)%nat ->
  0 < r < 2 ^ 53 -> samples_ok st ->
  (forall p, p ∈ l -> p.1 ∈ p.2 /\ in_canvas width height p.1) ->
  (forall n m p p', l !! n = Some p -> l !! m = Some p' -> (n < m)%nat ->
                    p.1 ∉ p'.2) ->
  exists st', forM body l st = Ok st' /\
    forall n p, l !! n = Some p -> forall c, (c < 3)%nat ->
      s_pixels st' !!! (pix width p.1 + c)%nat = s_data st' (s_p st + 3 * n + c)%nat /\
      (enc = true -> s_data st' (s_p st + 3 * n + c)%nat = pic_at pic p.1.1 p.1.2 c).
Proof.
  revert st. induction l as [|p l IH]; intros st Hok Hlen Hr Hs Hcen Hapart.
  - exists st. split; [reflexivity|]. intros n p Hn. discriminate.
  - cbn [forM]. destruct (Hok p ltac:(left)) as [Hc Ha].
    destruct (Hcen p ltac:(left)) as [Hpin Hpc].
    destruct (cross_centre p.1 p.2 st Hc Hpin Hlen Ha Hr Hs) as (st1 & He1 & Hv1).
    destruct (cross_ok width height pic r enc xE yE maxError p.1 p.2 st Hc Hlen Ha)
      as (st1' & He1' & Hf1 & _).
    rewrite He1 in He1'. injection He1' as <-. rewrite He1. cbn [mbind result_bind].
    assert (Hok' : fills_ok l) by (intros p' Hin; apply Hok; right; assumption).
    assert (Hlen1 : length (s_pixels st1) = (width * height * 4)%nat)
      by (destruct Hf1 as (L & _); lia).
    assert (Hs1 : samples_ok st1).
    { unfold samples_ok in *. destruct enc; [assumption|].
      destruct Hf1 as (_ & _ & _ & _ & _ & E). rewrite E by reflexivity. assumption. }
    destruct (IH st1 Hok' Hlen1 Hr Hs1) as (st' & He' & Hv').
    { intros p' Hin. apply Hcen. right. assumption. }
    { intros n m q q' Hn Hm Hlt. apply (Hapart (S n) (S m) q q'); auto. lia. }
    destruct (forM_cross_ok l st1 Hok' Hlen1) as (st'' & He'' & Hf' & Hp').
    rewrite He' in He''. injection He'' as <-.
    exists st'. split; [assumption|].
    destruct Hf1 as (_ & _ & P1 & _ & _ & _).
    destruct Hf' as (_ & _ & P' & _ & D' & _).
    intros [|n] q Hn c Hc3.
    + cbn in Hn. injection Hn as <-.
      rewrite Hp'.
      * rewrite D' by lia. replace (s_p st + 3 * 0 + c)%nat with (s_p st + c)%nat by lia.
        apply Hv1. assumption.
      * intros p' c' Hin Hc'. apply list_elem_of_lookup in Hin as [m Hm].
        destruct (Hok' p' ltac:(apply list_elem_of_lookup; eauto)) as [Hcs' _].
        rewrite list.Forall_forall in Hcs'.
        apply (pix_apart width height p.1 c' c); auto.
        intros <-. apply (Hapart 0%nat (S m) p p'); auto. lia.
    + cbn in Hn. destruct (Hv' n q Hn c Hc3) as [V E].
      replace (s_p st + 3 * S n + c)%nat with (s_p st1 + 3 * n + c)%nat by lia.
      split; assumption.
Qed.

End Cross.
(** *** The cross points of an iteration *)

Lemma NoDup_exact_lines err n : NoDup (exact_lines err n).
Proof. unfold exact_lines. apply NoDup_filter, NoDup_seq. Qed.

Lemma cross_points_fills_ok width height r ctx :
  ctx_ok width height ctx -> (0 < width)%nat -> (0 < height)%nat ->
  r <= INT_MAX ->
  let '(xE, yE, maxError) := fill_rulers width height r ctx in
  fills_ok width height xE yE maxError (cross_points width height r ctx).
Proof.
  intros Hok Hw Hh Hr.
  pose proof (select_spec width height ctx Hok Hw Hh) as Hs.
  pose proof (fun p cs => cross_points_spec width height r ctx p cs Hw Hh) as Hcp.
  unfold fill_rulers. unfold fills_ok.
  destruct (select width height ctx) as [| i | j] eqn:Hsel.
  - intros p Hin. unfold cross_points in Hin. rewrite Hsel in Hin. inversion Hin.
  - destruct Hs as (_ & Hi & Hpos & _ & _).
    pose proof (ruler_ok_lookup _ i (ok_x _ _ _ Hok)) as Hxi.
    intros [p cs] Hin. destruct (Hcp p cs Hin) as (_ & Hcs & Hp1 & Hz & _).
    split; [assumption|]. cbn [fst snd].
    apply pixel_alpha_exact; [rewrite s32_small; lia | | assumption].
    rewrite Hp1, rebalance_lookup by (rewrite (ok_xlen _ _ _ Hok); lia).
    destruct (decide (i = i)); [reflexivity | congruence].
  - destruct Hs as (_ & Hj & Hpos & _ & _).
    pose proof (ruler_ok_lookup _ j (ok_y _ _ _ Hok)) as Hyj.
    intros [p cs] Hin. destruct (Hcp p cs Hin) as (_ & Hcs & Hp2 & Hz & _).
    split; [assumption|]. cbn [fst snd].
    apply pixel_alpha_exact; [rewrite s32_small; lia | assumption |].
    rewrite Hp2, rebalance_lookup by (rewrite (ok_ylen _ _ _ Hok); lia).
    destruct (decide (j = j)); [reflexivity | congruence].
Qed.

(** A cross point is a pixel of its own fill and of no other. *)
Lemma cross_points_apart width height r ctx :
  (0 < width)%nat -> (0 < height)%nat ->
  let l := cross_points width height r ctx in
  (forall p, p ∈ l -> p.1 ∈ p.2 /\ in_canvas width height p.1) /\
  (forall n m p p', l !! n = Some p -> l !! m = Some p' -> (n < m)%nat ->
                    p.1 ∉ p'.2).
Proof.
  intros Hw Hh. cbv zeta.
  pose proof (fun p cs => cross_points_spec width height r ctx p cs Hw Hh) as Hcp.
  pose proof (select_index width height ctx Hw Hh) as Hidx.
  split.
  - intros [p cs] Hin. destruct (Hcp p cs Hin) as (Hp & _ & Hsel).
    split; [|assumption]. cbn [fst snd].
    destruct (select width height ctx) as [| i | j]; [contradiction | |];
      destruct Hsel as (Hp1 & Hz & ->).
    + apply elem_of_fill_coords_col.
      pose proof (range_spec (xError ctx) width r i Hidx) as Hri.
      pose proof (range_spec (yError ctx) height r p.2 ltac:(apply Hp)) as Hrj.
      cbv zeta in Hri, Hrj. rewrite Hp1. lia.
    + apply elem_of_fill_coords_row.
      pose proof (range_spec (xError ctx) width r p.1 ltac:(apply Hp)) as Hri.
      pose proof (range_spec (yError ctx) height r j Hidx) as Hrj.
      cbv zeta in Hri, Hrj. rewrite Hp1. lia.
  - intros n m [p cs] [p' cs'] Hn Hm Hlt. cbn [fst snd].
    assert (Hin : (p, cs) ∈ cross_points width height r ctx)
      by (apply list_elem_of_lookup; eauto).
    assert (Hin' : (p', cs') ∈ cross_points width height r ctx)
      by (apply list_elem_of_lookup; eauto).
    destruct (Hcp p cs Hin) as (Hp & _ & Hsel).
    destruct (Hcp p' cs' Hin') as (Hp' & _ & Hsel').
    unfold cross_points in Hn, Hm.
    destruct (select width height ctx) as [| i | j]; [contradiction | |];
      cbv zeta in Hn, Hm;
      rewrite list_lookup_fmap in Hn, Hm;
      destruct (_ !! n) as [t|] eqn:En; [|discriminate | |discriminate];
      destruct (_ !! m) as [t'|] eqn:Em; try discriminate;
      cbn in Hn, Hm; injection Hn as <- _; injection Hm as <- _;
      assert (Hne : t <> t')
        by (intros <-; pose proof (NoDup_lookup _ _ _ _ (NoDup_exact_lines _ _) En Em); lia);
      destruct Hsel as (_ & Hz & _), Hsel' as (_ & _ & ->); cbn [fst snd] in *.
    + intros Hc. apply elem_of_fill_coords_col in Hc as [_ Hc]. cbn [fst snd] in Hc.
      pose proof (range_spec (yError ctx) height r t' ltac:(apply Hp')) as Hrj.
      cbv zeta in Hrj. destruct Hrj as (_ & _ & _ & Hnz).
      exact (Hnz t Hc Hne Hz).
    + intros Hc. apply elem_of_fill_coords_row in Hc as [Hc _]. cbn [fst snd] in Hc.
      pose proof (range_spec (xError ctx) width r t' ltac:(apply Hp')) as Hri.
      cbv zeta in Hri. destruct Hri as (_ & _ & _ & Hnz).
      exact (Hnz t Hc Hne Hz).
Qed.

(** C6. At every cross point of an iteration, the [n]-th in the order of
    the scan, the blend weight is 256, and after the iteration the three
    channels of the canvas there are the three bytes of the [n]-th sample
    of the iteration in the data buffer: the bytes the decoder read, the
    bytes the encoder emitted, which are those of the target picture at
    the cross point. *)
Theorem cross_point_identity width height pic r enc ctx ctx' :
  ctx_ok width height ctx -> (0 < width)%nat -> (0 < height)%nat ->
  0 < r <= INT_MAX -> samples_ok pic enc (scan_of ctx) ->
  updateLines width height pic r enc ctx = Ok (ctx', true) ->
  forall n p cs, cross_points width height r ctx !! n = Some (p, cs) ->
    fill_weight width height r ctx p = 256 /\
    forall c, (c < 3)%nat ->
      pixels ctx' !!! (pix width p + c)%nat = data ctx' (pos ctx + 3 * n + c)%nat /\
      (enc = true -> data ctx' (pos ctx + 3 * n + c)%nat = pic_at pic p.1 p.2 c).
Proof.
  intros Hok Hw Hh Hr Hs He n p cs Hn.
  pose proof (cross_points_fills_ok width height r ctx Hok Hw Hh ltac:(unfold INT_MAX in *; lia)) as Hf.
  pose proof (cross_points_apart width height r ctx Hw Hh) as Hap. cbv zeta in Hap.
  destruct Hap as [Hcen Hapart].
  rewrite updateLines_cross_points in He. unfold scan_cross_points, fill_weight in *.
  destruct (fill_rulers width height r ctx) as [[xE yE] maxError].
  split.
  - apply (Hf (p, cs)). apply list_elem_of_lookup. eauto.
  - destruct (forM_cross_samples width height pic r enc xE yE maxError
                (cross_points width height r ctx) (scan_of ctx) Hf
                (ok_pxlen _ _ _ Hok) ltac:(unfold INT_MAX in *; lia) Hs Hcen Hapart) as (st' & Hst & Hv).
    rewrite Hst in He. cbn [mbind result_bind] in He.
    destruct (select width height ctx); [discriminate | |];
      injection He as <-; cbn [commit pixels data];
      intros c Hc; exact (Hv n (p, cs) Hn c Hc).
Qed.

Lemma cross_point_identity_witness :
  ctx_ok 3 2 demo_ctx /\ (0 < 3)%nat /\ (0 < 2)%nat /\ 0 < 2 <= INT_MAX /\
  updateLines 3 2 demo_pic 2 true demo_ctx = Ok (demo_next, true) /\
  fill_weight 3 2 2 demo_ctx (2, 0)%nat = 256 /\
  pixels demo_next !!! pix 3 (2, 0)%nat = data demo_next 0%nat.
Proof.
  assert (H1 : (0 < 3)%nat) by lia. assert (H2 : (0 < 2)%nat) by lia.
  assert (H3 : 0 < 2 <= INT_MAX) by (unfold INT_MAX; lia).
  assert (Hs : samples_ok demo_pic true (scan_of demo_ctx)).
  { cbn. unfold bytes_ok. repeat constructor; lia. }
  assert (Hn : cross_points 3 2 2 demo_ctx !! 0%nat
               = Some ((2, 0), [(2, 0); (2, 1)])%nat) by (vm_compute; reflexivity).
  split; [exact demo_ctx_ok|]. split; [exact H1|]. split; [exact H2|].
  split; [exact H3|]. split; [exact demo_step|].
  destruct (cross_point_identity 3 2 demo_pic 2 true demo_ctx demo_next
              demo_ctx_ok H1 H2 H3 Hs demo_step 0%nat _ _ Hn) as [Ha Hv].
  split; [exact Ha|].
  exact (proj1 (Hv 0%nat ltac:(lia))).
Defined.
(** ** Encoder and decoder side by side

    The decoder repeats the iterations of the encoder: from the same
    canvas it loads the rulers the encoder emitted, selects the same
    pivots and reads at every cross point the sample the encoder wrote. *)

Section Sim.
Variables (width : nat) (pic pic' : AVFrame) (r : Z).
Variables (xE yE : list Z) (maxError : Z).

Lemma cross_at_frame enc p cs st st' :
  cross_at width pic r enc xE yE maxError p cs st = Ok st' ->
  s_p st' = (s_p st + 3)%nat /\
  (forall k, (k < s_p st)%nat \/ (s_p st + 3 <= k)%nat ->
             s_data st' k = s_data st k).
Proof.
  unfold cross_at. pose proof (read_pixel_effect pic enc p st) as Hr.
  cbv zeta in Hr. destruct (read_pixel enc pic p.1 p.2 st) as [src st1].
  cbn [fst snd] in Hr. destruct Hr as (_ & Rp & _ & Rd & _).
  destruct (forM _ cs (s_pixels st1)) as [px | | |]; cbn [mbind result_bind];
    try discriminate.
  intros [= <-]. cbn [with_pixels s_p s_data]. auto.
Qed.

Lemma forM_cross_frame enc l st st' :
  forM (fun st p => cross_at width pic r enc xE yE maxError p.1 p.2 st) l st
  = Ok st' ->
  s_p st' = (s_p st + 3 * length l)%nat /\
  (forall k, (k < s_p st)%nat \/ (s_p st' <= k)%nat ->
             s_data st' k = s_data st k) /\
  (l = [] -> st' = st).
Proof.
  revert st. induction l as [|p l IH]; intros st; cbn [forM length].
  - intros [= <-]. split; [lia|]. split; [reflexivity | reflexivity].
  - destruct (cross_at width pic r enc xE yE maxError p.1 p.2 st) as [st1 | | |] eqn:Hc;
      cbn [mbind result_bind]; try discriminate.
    intros Hl. apply cross_at_frame in Hc as [P1 D1].
    apply IH in Hl as (P2 & D2 & _).
    split; [lia|]. split; [|discriminate].
    intros k Hk. rewrite D2 by lia. apply D1. lia.
Qed.

(** One cross point, encoder and decoder side by side. *)
Lemma cross_at_sim p cs ste ste' std :
  bytes_ok (frame_data pic) ->
  cross_at width pic r true xE yE maxError p cs ste = Ok ste' ->
  s_pixels std = s_pixels ste -> s_p std = s_p ste ->
  (forall c, (c < 3)%nat ->
             s_data std (s_p ste + c)%nat = s_data ste' (s_p ste + c)%nat) ->
  exists std',
    cross_at width pic' r false xE yE maxError p cs std = Ok std' /\
    s_pixels std' = s_pixels ste' /\ s_p std' = s_p ste' /\
    s_data std' = s_data std.
Proof.
  intros Hb He Hpx Hp Hd. unfold cross_at in *.
  pose proof (read_pixel_effect pic true p ste) as Hr. cbv zeta in Hr.
  destruct (read_pixel true pic p.1 p.2 ste) as [src st1] eqn:Hrd.
  cbn [fst snd] in Hr. destruct Hr as (Rpx & Rp & _ & _ & _ & Rs).
  specialize (Rs ltac:(left; repeat split; apply pic_at_byte; assumption)).
  destruct (forM _ cs (s_pixels st1)) as [px | | |] eqn:Hf;
    cbn [mbind result_bind] in He; try discriminate.
  injection He as <-. cbn [with_pixels s_data s_p s_pixels] in *.
  unfold read_pixel. cbn [s_pixels s_data s_p s_num].
  rewrite Hp, Hpx.
  pose proof (Hd 0%nat ltac:(lia)) as D0. rewrite Nat.add_0_r in D0.
  rewrite D0, (Hd 1%nat), (Hd 2%nat) by lia. rewrite <- Rs, <- Rpx, Hf.
  cbn [mbind result_bind]. eexists. split; [reflexivity|].
  cbn [with_pixels s_pixels s_p s_data]. split; [reflexivity|]. split; [lia | reflexivity].
Qed.

Lemma forM_cross_sim l : forall ste ste' std,
  bytes_ok (frame_data pic) ->
  forM (fun st p => cross_at width pic r true xE yE maxError p.1 p.2 st) l ste
  = Ok ste' ->
  s_pixels std = s_pixels ste -> s_p std = s_p ste ->
  (forall k, (s_p ste <= k < s_p ste')%nat -> s_data std k = s_data ste' k) ->
  exists std',
    forM (fun st p => cross_at width pic' r false xE yE maxError p.1 p.2 st) l std
    = Ok std' /\
    s_pixels std' = s_pixels ste' /\ s_p std' = s_p ste' /\
    s_data std' = s_data std.
Proof.
  induction l as [|p l IH]; intros ste ste' std Hb; cbn [forM].
  - intros [= <-] Hpx Hp _. exists std. auto.
  - destruct (cross_at width pic r true xE yE maxError p.1 p.2 ste)
      as [st1 | | |] eqn:Hc; cbn [mbind result_bind]; try discriminate.
    intros Hl Hpx Hp Hd.
    pose proof (cross_at_frame _ _ _ _ _ Hc) as [P1 D1].
    pose proof (forM_cross_frame _ _ _ _ Hl) as (P2 & D2 & _).
    destruct (cross_at_sim p.1 p.2 ste st1 std Hb Hc Hpx Hp) as (sd1 & -> & Xpx & Xp & Xd).
    { intros c Hc3. rewrite Hd by lia. apply D2. lia. }
    cbn [mbind result_bind].
    destruct (IH st1 ste' sd1 Hb Hl Xpx Xp) as (sd' & -> & Ypx & Yp & Yd).
    { intros k Hk. rewrite Xd. apply Hd. lia. }
    exists sd'. split; [reflexivity|]. split; [assumption|]. split; [assumption|].
    congruence.
Qed.

End Sim.

Lemma select_in_step width height ce cd :
  in_step ce cd -> select width height cd = select width height ce.
Proof. intros (Hx & Hy & _). unfold select. rewrite Hx, Hy. reflexivity. Qed.

Lemma cross_points_in_step width height r ce cd :
  in_step ce cd -> cross_points width height r cd = cross_points width height r ce.
Proof.
  intros H. unfold cross_points. rewrite (select_in_step _ _ _ _ H).
  destruct H as (Hx & Hy & _). rewrite Hx, Hy. reflexivity.
Qed.

Lemma fill_rulers_in_step width height r ce cd :
  in_step ce cd -> fill_rulers width height r cd = fill_rulers width height r ce.
Proof.
  intros H. unfold fill_rulers. rewrite (select_in_step _ _ _ _ H).
  destruct H as (Hx & Hy & _). rewrite Hx, Hy. reflexivity.
Qed.

(** What a call of the engine leaves of the data buffer and, when it
    has no cross point, of the canvas. *)
Lemma updateLines_frame width height pic r enc c c' b :
  updateLines width height pic r enc c = Ok (c', b) ->
  (pos c <= pos c')%nat /\
  (forall k, (k < pos c)%nat \/ (pos c' <= k)%nat -> data c' k = data c k) /\
  (pos c' = pos c -> pixels c' = pixels c) /\
  radius c' = radius c /\ (b = false -> c' = c).
Proof.
  rewrite updateLines_cross_points. unfold scan_cross_points.
  destruct (fill_rulers width height r c) as [[xE yE] maxError].
  assert (forall st,
    forM (fun st p => cross_at width pic r enc xE yE maxError p.1 p.2 st)
         (cross_points width height r c) (scan_of c) = Ok st ->
    (pos c <= s_p st)%nat /\
    (forall k, (k < pos c)%nat \/ (s_p st <= k)%nat -> s_data st k = data c k) /\
    (s_p st = pos c -> s_pixels st = pixels c)) as Hst.
  { intros st Hf. apply forM_cross_frame in Hf as (P & D & E).
    cbn [scan_of s_p s_data] in *. split; [lia|]. split; [assumption|].
    intros Hp. rewrite E; [reflexivity|].
    destruct (cross_points width height r c); [reflexivity | cbn [length] in P; lia]. }
  destruct (select width height c).
  - intros [= <- <-]. split; [lia|]. split; [reflexivity|]. auto.
  - destruct (forM _ _ _) as [st | | |]; cbn [mbind result_bind]; try discriminate.
    intros [= <- <-]. cbn [commit pos data pixels radius].
    destruct (Hst st eq_refl) as (P & D & E).
    split; [assumption|]. split; [assumption|]. split; [assumption|].
    split; [reflexivity | discriminate].
  - destruct (forM _ _ _) as [st | | |]; cbn [mbind result_bind]; try discriminate.
    intros [= <- <-]. cbn [commit pos data pixels radius].
    destruct (Hst st eq_refl) as (P & D & E).
    split; [assumption|]. split; [assumption|]. split; [assumption|].
    split; [reflexivity | discriminate].
Qed.

(** One iteration, encoder and decoder side by side: from the same
    canvas, rulers and cursor, the decoder reading the bytes the encoder
    writes, both select the same pivot and leave the same canvas, rulers
    and cursor. *)
Lemma updateLines_sim width height pic pic' r ce cd ce' b :
  bytes_ok (frame_data pic) ->
  updateLines width height pic r true ce = Ok (ce', b) ->
  in_step ce cd ->
  (forall k, (pos ce <= k < pos ce')%nat -> data cd k = data ce' k) ->
  exists cd',
    updateLines width height pic' r false cd = Ok (cd', b) /\
    in_step ce' cd' /\ data cd' = data cd /\ size cd' = size cd.
Proof.
  intros Hb He Hs Hd. rewrite updateLines_cross_points in *.
  unfold scan_cross_points in *.
  rewrite (select_in_step _ _ _ _ Hs), (fill_rulers_in_step _ _ _ _ _ Hs),
    (cross_points_in_step _ _ _ _ _ Hs).
  destruct (fill_rulers width height r ce) as [[xE yE] maxError]. cbn [fst snd] in *.
  assert (forall st,
    forM (fun st p => cross_at width pic r true xE yE maxError p.1 p.2 st)
         (cross_points width height r ce) (scan_of ce) = Ok st ->
    (forall k, (pos ce <= k < s_p st)%nat -> data cd k = s_data st k) ->
    exists sd,
      forM (fun st p => cross_at width pic' r false xE yE maxError p.1 p.2 st)
           (cross_points width height r ce) (scan_of cd) = Ok sd /\
      s_pixels sd = s_pixels st /\ s_p sd = s_p st /\ s_data sd = data cd) as Hst.
  { intros st Hf Hk. destruct Hs as (_ & _ & Hpx & Hp).
    apply (forM_cross_sim width pic pic' r xE yE maxError _ _ _ (scan_of cd) Hb Hf);
      cbn [scan_of s_pixels s_p s_data]; auto. }
  destruct (select width height ce).
  - injection He as <- <-. exists cd. auto.
  - destruct (forM _ _ (scan_of ce)) as [st | | |]; cbn [mbind result_bind] in He;
      try discriminate.
    injection He as <- <-. cbn [commit pos data] in Hd.
    destruct (Hst st eq_refl Hd) as (sd & -> & Xpx & Xp & Xd).
    cbn [mbind result_bind]. eexists. split; [reflexivity|].
    unfold in_step. cbn [commit xError yError pixels pos data size]. auto.
  - destruct (forM _ _ (scan_of ce)) as [st | | |]; cbn [mbind result_bind] in He;
      try discriminate.
    injection He as <- <-. cbn [commit pos data] in Hd.
    destruct (Hst st eq_refl Hd) as (sd & -> & Xpx & Xp & Xd).
    cbn [mbind result_bind]. eexists. split; [reflexivity|].
    unfold in_step. cbn [commit xError yError pixels pos data size]. auto.
Qed.

(** The loop of the encoder only appends to the data buffer, and leaves
    the canvas as it is when it appends nothing. *)
Lemma encode_loop_frame fuel width height pic maxPixels : forall c cfin,
  encode_loop fuel width height pic maxPixels c = Ok cfin ->
  (pos c <= pos cfin)%nat /\
  (forall k, (k < pos c)%nat -> data cfin k = data c k) /\
  (pos cfin = pos c -> pixels cfin = pixels c).
Proof.
  induction fuel as [|fuel IH]; intros c cfin; cbn [encode_loop]; [discriminate|].
  destruct (updateLines width height pic (radius c) true c) as [[c' more] | | |] eqn:Hu;
    cbn [mbind result_bind]; try discriminate.
  apply updateLines_frame in Hu as (P & D & E & _ & _).
  assert (Hstop : Ok c' = Ok cfin ->
    (pos c <= pos cfin)%nat /\
    (forall k, (k < pos c)%nat -> data cfin k = data c k) /\
    (pos cfin = pos c -> pixels cfin = pixels c)).
  { intros [= <-]. auto. }
  destruct more; [|assumption].
  destruct (numPixels c' <? maxPixels); [|assumption].
  intros Hl. apply IH in Hl as (P' & D' & E').
  split; [lia|]. split.
  - intros k Hk. rewrite D' by lia. apply D. lia.
  - intros Hp. rewrite E' by lia. apply E. lia.
Qed.

(** The two loops side by side: the decoder, reading what the encoder
    wrote up to the end of the packet, ends on the canvas of the encoder. *)
Lemma loops_sim fuel width height pic pic' maxPixels : forall ce cd cfin,
  bytes_ok (frame_data pic) ->
  encode_loop fuel width height pic maxPixels ce = Ok cfin ->
  in_step ce cd ->
  (forall k, (pos ce <= k < pos cfin)%nat -> data cd k = data cfin k) ->
  size cd = Z.of_nat (pos cfin) ->
  exists cdfin,
    decode_loop fuel width height pic' (radius ce) cd = Ok cdfin /\
    pixels cdfin = pixels cfin.
Proof.
  induction fuel as [|fuel IH]; intros ce cd cfin Hb; cbn [encode_loop decode_loop];
    [discriminate|].
  destruct (updateLines width height pic (radius ce) true ce) as [[ce' more] | | |] eqn:Hu;
    cbn [mbind result_bind]; try discriminate.
  intros Hl Hs Hd Hsz.
  pose proof (updateLines_frame _ _ _ _ _ _ _ _ Hu) as (P & D & E & Hrad & _).
  assert (Hends : (pos ce' <= pos cfin)%nat /\
                  (forall k, (k < pos ce')%nat -> data cfin k = data ce' k) /\
                  (pos cfin = pos ce' -> pixels cfin = pixels ce')).
  { destruct more; [destruct (numPixels ce' <? maxPixels)|].
    - apply (encode_loop_frame _ _ _ _ _ _ _ Hl).
    - injection Hl as <-. auto.
    - injection Hl as <-. auto. }
  destruct Hends as (P' & D' & E').
  destruct (updateLines_sim width height pic pic' (radius ce) ce cd ce' more Hb Hu Hs)
    as (cd' & -> & Hs' & Xd & Xsz).
  { intros k Hk. rewrite Hd by lia. apply D'. lia. }
  cbn [mbind result_bind].
  pose proof Hs' as (_ & _ & Hpx' & Hp').
  destruct more.
  - destruct (numPixels ce' <? maxPixels) eqn:Hn.
    + destruct (Z.ltb_spec (Z.of_nat (pos cd')) (size cd')) as [Hlt | Hge].
      * rewrite <- Hrad. apply (IH ce' cd' cfin Hb Hl Hs').
        -- intros k Hk. rewrite Xd. apply Hd. lia.
        -- congruence.
      * exists cd'. split; [reflexivity|]. rewrite Hpx'. symmetry. apply E'. lia.
    + injection Hl as <-.
      destruct (Z.ltb_spec (Z.of_nat (pos cd')) (size cd')) as [Hlt | Hge]; [lia|].
      exists cd'. auto.
  - injection Hl as <-. exists cd'. auto.
Qed.

(** ** The rulers in the packet *)

Lemma put_error_frame err d p k :
  (k < p)%nat \/ (p + 3 <= k)%nat -> put_error err d p k = d k.
Proof. intros Hk. unfold put_error. rewrite !fn_lookup_insert_ne by lia. reflexivity. Qed.

Lemma get_error_ext d d' p :
  (forall c, (c < 3)%nat -> d' (p + c)%nat = d (p + c)%nat) ->
  get_error d' p = get_error d p.
Proof.
  intros H. unfold get_error.
  pose proof (H 0%nat ltac:(lia)) as H0. rewrite Nat.add_0_r in H0.
  rewrite H0, (H 1%nat), (H 2%nat) by lia. reflexivity.
Qed.

(** The three bytes of an error of 24 bits, read back. *)
Lemma get_put_error err d p :
  0 <= err < 2 ^ 24 -> get_error (put_error err d p) p = err.
Proof.
  intros He. unfold get_error, put_error.
  rewrite fn_lookup_insert_ne, fn_lookup_insert_ne, fn_lookup_insert by lia.
  rewrite fn_lookup_insert_ne, fn_lookup_insert by lia.
  rewrite fn_lookup_insert.
  unfold u8. change 256 with (2 ^ 8).
  apply Z.bits_inj'. intros n Hn.
  rewrite !Z.lor_spec, !Z.shiftl_spec by assumption.
  rewrite !Z.testbit_mod_pow2 by lia.
  assert (Hhi : 24 <= n -> Z.testbit err n = false).
  { intros H. rewrite <- (Z.mod_small err (2 ^ 24)) by assumption.
    rewrite Z.testbit_mod_pow2 by lia.
    destruct (Z.ltb_spec n 24); [lia | reflexivity]. }
  destruct (Z.ltb_spec n 8), (Z.ltb_spec (n - 8) 8), (Z.ltb_spec (n - 16) 8);
    try lia; cbn [andb orb];
    repeat match goal with
    | |- context [Z.testbit (Z.shiftr err ?k) ?m] =>
        first [ rewrite (Z.shiftr_spec err k m) by lia
              | rewrite (Z.testbit_neg_r (Z.shiftr err k) m) by lia ]
    end;
    rewrite ?orb_false_r, ?orb_false_l;
    try (f_equal; lia).
  symmetry. apply Hhi. lia.
Qed.

(** Creating and emitting a ruler: [n] entries of three bytes. *)
Lemma emit_ruler err n ruler d p :
  (n <= length ruler)%nat ->
  let s := foldl (emit_step err) (ruler, d, p) (seq 0 n) in
  length s.1.1 = length ruler /\ s.2 = (p + 3 * n)%nat /\
  (forall k, (k < n)%nat -> s.1.1 !!! k = u32 (err k)) /\
  (forall k, (k < p)%nat \/ (p + 3 * n <= k)%nat -> s.1.2 k = d k) /\
  (forall k, (k < n)%nat -> 0 <= err k < 2 ^ 24 ->
             get_error s.1.2 (p + 3 * k)%nat = err k).
Proof.
  induction n as [|n IH]; intros Hn; cbv zeta.
  - cbn [seq foldl fst snd]. split; [reflexivity|]. split; [lia|].
    split; [intros; lia|]. split; [reflexivity | intros; lia].
  - rewrite seq_S, foldl_app. cbn [foldl].
    specialize (IH ltac:(lia)). cbv zeta in IH.
    destruct (foldl (emit_step err) (ruler, d, p) (seq 0 n)) as [[r1 d1] p1].
    cbn [fst snd] in *. destruct IH as (L & P & Lo & Fr & Rd).
    cbn [emit_step fst snd Nat.add]. split; [rewrite length_insert; assumption|].
    split; [lia|]. split; [|split].
    + intros k Hk. destruct (decide (k = n)) as [-> | Hne].
      * rewrite list_lookup_total_insert_eq by lia. reflexivity.
      * rewrite list_lookup_total_insert_ne by congruence. apply Lo. lia.
    + intros k Hk. rewrite put_error_frame by lia. apply Fr. lia.
    + intros k Hk He. destruct (decide (k = n)) as [-> | Hne].
      * subst p1. apply get_put_error. assumption.
      * rewrite <- (Rd k) by (assumption || lia). apply get_error_ext.
        intros c Hc. apply put_error_frame. lia.
Qed.

(** The sums of the encoder do not leave [int] on a picture of a
    sensible size, and the clamp keeps them in 24 bits. *)
Lemma add_pixel_error_bounds width pic px i j err :
  bytes_ok px -> bytes_ok (frame_data pic) ->
  0 <= err -> err + 765 <= INT_MAX ->
  err <= add_pixel_error width pic px i j err <= err + 765.
Proof.
  intros Hpx Hpic H0 H1. unfold INT_MAX in H1. unfold add_pixel_error.
  set (k := ((j * width + i) * 4)%nat).
  pose proof (bytes_ok_lookup px k Hpx). pose proof (bytes_ok_lookup px (k + 1) Hpx).
  pose proof (bytes_ok_lookup px (k + 2) Hpx).
  pose proof (pic_at_byte pic i j 0 Hpic). pose proof (pic_at_byte pic i j 1 Hpic).
  pose proof (pic_at_byte pic i j 2 Hpic).
  assert (Hab : forall a b, 0 <= a < 256 -> 0 <= b < 256 -> 0 <= FFABS (a - b) <= 255).
  { intros a b Ha Hb0. unfold FFABS. destruct (Z.geb_spec (a - b) 0); lia. }
  pose proof (Hab (px !!! k) (pic_at pic i j 0)).
  pose proof (Hab (px !!! (k + 1)%nat) (pic_at pic i j 1)).
  pose proof (Hab (px !!! (k + 2)%nat) (pic_at pic i j 2)).
  rewrite (s32_small (err + FFABS (px !!! k - pic_at pic i j 0))) by lia.
  rewrite (s32_small (err + _ + FFABS (px !!! (k + 1)%nat - pic_at pic i j 1))) by lia.
  rewrite s32_small by lia. lia.
Qed.

Lemma sum_error_bounds (f : Z -> nat -> Z) n :
  (forall err k, 0 <= err -> err + 765 <= INT_MAX -> err <= f err k <= err + 765) ->
  765 * Z.of_nat n <= INT_MAX ->
  0 <= foldl f 0 (seq 0 n) <= 765 * Z.of_nat n.
Proof.
  intros Hf. induction n as [|n IH]; intros Hn; [cbn; lia|].
  rewrite seq_S, foldl_app. cbn [foldl Nat.add].
  specialize (IH ltac:(lia)).
  pose proof (Hf (foldl f 0 (seq 0 n)) n ltac:(lia) ltac:(lia)). lia.
Qed.

Lemma clamp_error_bounds err : 0 <= err -> 0 <= clamp_error err < 2 ^ 24.
Proof. intros H. unfold clamp_error. destruct (Z.gtb_spec err 0xffffff); lia. Qed.

Lemma column_error_bounds width height pic px i :
  bytes_ok px -> bytes_ok (frame_data pic) -> 765 * Z.of_nat height <= INT_MAX ->
  0 <= column_error width height pic px i < 2 ^ 24.
Proof.
  intros Hpx Hpic Hh. unfold column_error. apply clamp_error_bounds.
  apply (sum_error_bounds (fun err j => add_pixel_error width pic px i j err));
    [|assumption].
  intros err k H0 H1. apply add_pixel_error_bounds; assumption.
Qed.

Lemma row_error_bounds width pic px j :
  bytes_ok px -> bytes_ok (frame_data pic) -> 765 * Z.of_nat width <= INT_MAX ->
  0 <= row_error width pic px j < 2 ^ 24.
Proof.
  intros Hpx Hpic Hw. unfold row_error. apply clamp_error_bounds.
  apply (sum_error_bounds (fun err i => add_pixel_error width pic px i j err));
    [|assumption].
  intros err k H0 H1. apply add_pixel_error_bounds; assumption.
Qed.

(** ** The exported frame *)

Lemma frame_offset_inj ls width i j c i' j' c' :
  (4 * width <= ls)%nat -> (i < width)%nat -> (i' < width)%nat ->
  (c < 4)%nat -> (c' < 4)%nat ->
  (j * ls + i * 4 + c = j' * ls + i' * 4 + c')%nat ->
  i = i' /\ j = j' /\ c = c'.
Proof.
  intros Hls Hi Hi' Hc Hc' He.
  assert (j = j') as ->.
  { destruct (lt_eq_lt_dec j j') as [[H | H] | H]; [|assumption|]; exfalso; nia. }
  lia.
Qed.

Lemma copy_pixels_at width height px ls l : forall out,
  (4 * width <= ls)%nat -> (height * ls <= length out)%nat ->
  Forall (in_canvas width height) l ->
  length (foldl (copy_pixel width ls px) out l) = length out /\
  forall i j c, (i < width)%nat -> (j < height)%nat -> (c < 3)%nat ->
    (i, j) ∈ l ->
    foldl (copy_pixel width ls px) out l !!! (j * ls + i * 4 + c)%nat
    = px !!! (pix width (i, j) + c)%nat.
Proof.
  intros out Hls Hlen. induction l as [|x l IH] using rev_ind; intros Hin.
  - split; [reflexivity|]. intros i j c _ _ _ H. inversion H.
  - apply Forall_app in Hin as [Hl Hx]. apply Forall_cons in Hx as [[Hxi Hxj] _].
    destruct (IH Hl) as [L IHv]. clear IH.
    rewrite foldl_app. cbn [foldl]. destruct x as [i' j']. cbn [fst snd] in *.
    set (acc := foldl (copy_pixel width ls px) out l) in *.
    unfold copy_pixel. split; [rewrite !length_insert; assumption|].
    intros i j c Hi Hj Hc Hel.
    assert (Hb : forall a b d, (a < width)%nat -> (b < height)%nat -> (d < 4)%nat ->
                   (b * ls + a * 4 + d < length acc)%nat).
    { intros a b d Ha Hb0 Hd. rewrite L. nia. }
    destruct (decide ((i, j) = (i', j'))) as [[= <- <-] | Hne].
    + unfold pix. cbn [fst snd].
      assert (c = 0 \/ c = 1 \/ c = 2)%nat as [-> | [-> | ->]] by lia.
      * rewrite !Nat.add_0_r.
        rewrite !list_lookup_total_insert_ne by lia.
        rewrite list_lookup_total_insert_eq; [reflexivity|].
        specialize (Hb i j 0%nat Hi Hj ltac:(lia)). lia.
      * rewrite !list_lookup_total_insert_ne by lia.
        rewrite list_lookup_total_insert_eq; [reflexivity|].
        rewrite !length_insert. apply Hb; (assumption || lia).
      * rewrite !list_lookup_total_insert_ne by lia.
        rewrite list_lookup_total_insert_eq; [reflexivity|].
        rewrite !length_insert. apply Hb; (assumption || lia).
    + assert (Hd : forall c', (c' < 4)%nat ->
                (j' * ls + i' * 4 + c' <> j * ls + i * 4 + c)%nat).
      { intros c' Hc' He.
        destruct (frame_offset_inj ls width i' j' c' i j c) as (-> & -> & _);
          try assumption; try lia. congruence. }
      pose proof (Hd 0%nat ltac:(lia)). pose proof (Hd 1%nat ltac:(lia)).
      pose proof (Hd 2%nat ltac:(lia)). pose proof (Hd 3%nat ltac:(lia)).
      rewrite !list_lookup_total_insert_ne by lia.
      apply IHv; try assumption.
      apply elem_of_app in Hel as [Hel | Hel]; [assumption|].
      apply list_elem_of_singleton in Hel. congruence.
Qed.

(** The frame the decoder fills: its three channels are those of the
    canvas. *)
Lemma export_pixels_at width height px out i j c :
  (4 * width <= linesize out)%nat ->
  (height * linesize out <= length (frame_data out))%nat ->
  (i < width)%nat -> (j < height)%nat -> (c < 3)%nat ->
  pic_at (export_pixels width height px out) i j c
  = px !!! (pix width (i, j) + c)%nat.
Proof.
  intros Hls Hlen Hi Hj Hc. unfold pic_at, export_pixels. cbn [frame_data linesize].
  apply (copy_pixels_at width height px (linesize out)); try assumption.
  - apply list.Forall_forall. intros [a b] Hab.
    apply list_elem_of_bind in Hab as (b' & Hab & Hb).
    apply list_elem_of_bind in Hab as (a' & Hab & Ha).
    apply list_elem_of_singleton in Hab. injection Hab as -> ->.
    apply elem_of_seq in Ha, Hb. split; cbn [fst snd]; lia.
  - apply list_elem_of_bind. exists j. split; [|apply elem_of_seq; lia].
    apply list_elem_of_bind. exists i. split; [|apply elem_of_seq; lia].
    apply list_elem_of_singleton. reflexivity.
Qed.

Lemma list_eq_total (l1 l2 : list Z) :
  length l1 = length l2 ->
  (forall k, (k < length l1)%nat -> l1 !!! k = l2 !!! k) -> l1 = l2.
Proof.
  intros L H. apply list_eq. intros k.
  destruct (decide (k < length l1)%nat) as [Hk | Hk].
  - rewrite !list_lookup_lookup_total_lt by lia. f_equal. auto.
  - rewrite !lookup_ge_None_2 by lia. reflexivity.
Qed.

Lemma emitted_ruler_ok err n ruler :
  length ruler = n -> (forall k, (k < n)%nat -> ruler !!! k = u32 (err k)) ->
  (forall k, 0 <= err k < 2 ^ 24) -> ruler_ok ruler.
Proof.
  intros L V B. apply Forall_lookup_2. intros k v Hkv.
  assert (Hk : (k < n)%nat) by (apply lookup_lt_Some in Hkv; lia).
  apply list_lookup_total_correct in Hkv. rewrite V in Hkv by assumption. subst v.
  pose proof (B k). rewrite u32_small; lia.
Qed.

(** X1. The round trip.  For a radius that fits the byte of the header, a
    picture of bytes and dimensions whose sums of errors stay within
    [int], the encoder produces a packet, the decoder on the same canvas
    accepts it and ends on the canvas of the encoder, and the three
    channels of every pixel of the frame it fills are those of that
    canvas. *)
Theorem round_trip width height frame_number pic pkt out ce cd :
  ctx_ok width height ce -> (0 < width)%nat -> (0 < height)%nat ->
  0 <= radius ce < 256 ->
  bytes_ok (frame_data pic) ->
  765 * Z.of_nat width <= INT_MAX -> 765 * Z.of_nat height <= INT_MAX ->
  pixels cd = pixels ce ->
  length (xError cd) = width -> length (yError cd) = height ->
  exists pkt' ce' cd',
    splash_encode width height frame_number pic (inr pkt) ce
      = Ok (0, Some pkt', ce') /\
    splash_decode width height (inr out) pkt' cd
      = Ok (pkt_size pkt', Some (export_pixels width height (pixels cd') out), cd') /\
    pixels cd' = pixels ce' /\
    ((4 * width <= linesize out)%nat ->
     (height * linesize out <= length (frame_data out))%nat ->
     forall i j c, (i < width)%nat -> (j < height)%nat -> (c < 3)%nat ->
       pic_at (export_pixels width height (pixels cd') out) i j c
       = pixels ce' !!! (pix width (i, j) + c)%nat).
Proof.
  intros Hok Hw Hh Hr Hpic Ow Oh Hpx Lx Ly.
  pose proof (column_error_bounds width height pic (pixels ce)) as BX.
  pose proof (row_error_bounds width pic (pixels ce)) as BY.
  pose proof (ok_px _ _ _ Hok) as Hbytes.
  unfold splash_encode.
  set (d0 := fun k => pkt_data pkt (HEADER_LENGTH + k)%nat).
  pose proof (emit_ruler (column_error width height pic (pixels ce)) width
                (xError ce) d0 0%nat ltac:(rewrite (ok_xlen _ _ _ Hok); lia)) as EX.
  cbv zeta in EX.
  destruct (foldl (emit_step (column_error width height pic (pixels ce)))
              (xError ce, d0, 0%nat) (seq 0 width)) as [[xE d1] p1].
  cbn [fst snd] in EX. destruct EX as (XL & XP & XV & XF & XG).
  pose proof (emit_ruler (row_error width pic (pixels ce)) height
                (yError ce) d1 p1 ltac:(rewrite (ok_ylen _ _ _ Hok); lia)) as EY.
  cbv zeta in EY.
  destruct (foldl (emit_step (row_error width pic (pixels ce)))
              (yError ce, d1, p1) (seq 0 height)) as [[yE d2] p2].
  cbn [fst snd] in EY. destruct EY as (YL & YP & YV & YF & YG).
  rewrite (ok_xlen _ _ _ Hok) in XL. rewrite (ok_ylen _ _ _ Hok) in YL.
  set (ce1 := {| radius := radius ce; ppf := ppf ce; ppk := ppk ce;
                 xError := xE; yError := yE; pixels := pixels ce;
                 data := d2; pos := p2;
                 size := pkt_size pkt - Z.of_nat HEADER_LENGTH;
                 numPixels := 0 |}).
  assert (Hok1 : ctx_ok width height ce1).
  { constructor; cbn [ce1 xError yError pixels]; try assumption.
    - apply (ok_pxlen _ _ _ Hok).
    - apply (emitted_ruler_ok _ width _ XL XV). intros k. apply BX; assumption.
    - apply (emitted_ruler_ok _ height _ YL YV). intros k. apply BY; assumption. }
  destruct (encode_loop_ends (loop_fuel width height) width height pic
              (maxPixels_of width height frame_number ce1) ce1 Hok1 Hw Hh)
    as (ce2 & Hl & _).
  { cbn [ce1 radius]. unfold INT_MAX. lia. }
  { pose proof (todo_le width height ce1 Hok1). unfold loop_fuel. lia. }
  rewrite Hl. cbn [mbind result_bind].
  set (pkt' := {| pkt_data := fun k =>
                    if (k <? HEADER_LENGTH)%nat then header_byte (radius ce) k
                    else data ce2 (k - HEADER_LENGTH)%nat;
                  pkt_size := Z.of_nat (HEADER_LENGTH + pos ce2) |}).
  pose proof (encode_loop_frame _ _ _ _ _ _ _ Hl) as (_ & Dfin & _).
  cbn [ce1 pos data] in Dfin.
  assert (Hhdr : Z.lor (Z.lor (pkt_data pkt' 0%nat) (Z.shiftl (pkt_data pkt' 1%nat) 8))
                       (Z.shiftl (pkt_data pkt' 2%nat) 16) = 12) by reflexivity.
  assert (Hrad : pkt_data pkt' HEADER_OFS_RADIUS = radius ce).
  { change (pkt_data pkt' HEADER_OFS_RADIUS) with (u8 (radius ce)).
    apply u8_small. assumption. }
  set (d := fun k => pkt_data pkt' (12 + k)%nat).
  assert (Hd : forall k, d k = data ce2 k).
  { intros k. unfold d, pkt'. cbn [pkt_data]. unfold HEADER_LENGTH.
    destruct (Nat.ltb_spec (12 + k) 12); [lia|]. f_equal. lia. }
  assert (Hdec : exists cd',
    splash_decode width height (inr out) pkt' cd
    = Ok (pkt_size pkt', Some (export_pixels width height (pixels cd') out), cd') /\
    pixels cd' = pixels ce2).
  { cbv beta iota zeta delta [splash_decode]. rewrite Hhdr, Hrad.
    change (Z.to_nat 12) with 12%nat. fold d.
    pose proof (load_ruler d width (xError cd) 0%nat ltac:(lia)) as LX.
    cbv zeta in LX.
    destruct (foldl (load_step d) (xError cd, 0%nat) (seq 0 width)) as [xD q1].
    cbn [fst snd] in LX. destruct LX as (DXL & DXP & DXV & _).
    pose proof (load_ruler d height (yError cd) q1 ltac:(lia)) as LY.
    cbv zeta in LY.
    destruct (foldl (load_step d) (yError cd, q1) (seq 0 height)) as [yD q2].
    cbn [fst snd] in LY. destruct LY as (DYL & DYP & DYV & _).
    assert (xD = xE) as ->.
    { apply list_eq_total; [lia|]. intros k Hk.
      rewrite DXV, XV by lia. f_equal.
      rewrite <- (XG k) by (try apply BX; assumption || lia).
      apply get_error_ext. intros c Hc.
      rewrite Hd, Dfin by lia. apply YF. lia. }
    assert (yD = yE) as ->.
    { apply list_eq_total; [lia|]. intros k Hk.
      rewrite DYV, YV by lia. f_equal.
      rewrite <- (YG k) by (try apply BY; assumption || lia).
      replace q1 with p1 by lia.
      apply get_error_ext. intros c Hc.
      rewrite Hd, Dfin by lia. reflexivity. }
    set (cd1 := {| radius := radius cd; ppf := ppf cd; ppk := ppk cd;
                   xError := xE; yError := yE; pixels := pixels cd;
                   data := d; pos := q2;
                   size := pkt_size pkt' - Z.of_nat HEADER_LENGTH;
                   numPixels := numPixels cd |}).
    assert (Hs : in_step ce1 cd1).
    { unfold in_step. cbn [ce1 cd1 xError yError pixels pos].
      split; [reflexivity|]. split; [reflexivity|]. split; [assumption | lia]. }
    destruct (loops_sim (loop_fuel width height) width height pic out
                (maxPixels_of width height frame_number ce1) ce1 cd1 ce2 Hpic Hl Hs)
      as (cd2 & Hdl & Hpx2).
    { intros k _. apply Hd. }
    { cbn [cd1 size pkt' pkt_size]. lia. }
    cbn [ce1 radius] in Hdl. rewrite Hdl. cbn [mbind result_bind].
    exists cd2. split; [reflexivity | assumption]. }
  destruct Hdec as (cd2 & Hdec & Hpx2).
  exists pkt', ce2, cd2. split; [reflexivity|]. split; [assumption|].
  split; [assumption|].
  intros Hls Hlen i j c Hi Hj Hc. rewrite <- Hpx2.
  apply export_pixels_at; assumption.
Qed.

Lemma round_trip_witness :
  exists pkt' ce' cd',
    splash_encode 3 2 0 demo_pic (inr (fresh_packet 3 2)) demo_ctx
      = Ok (0, Some pkt', ce') /\
    splash_decode 3 2 (inr (empty_frame 24 12)) pkt' demo_ctx
      = Ok (pkt_size pkt',
            Some (export_pixels 3 2 (pixels cd') (empty_frame 24 12)), cd') /\
    pixels cd' = pixels ce'.
Proof.
  destruct (round_trip 3 2 0 demo_pic (fresh_packet 3 2) (empty_frame 24 12)
              demo_ctx demo_ctx) as (pkt' & ce' & cd' & He & Hd & Hp & _).
  - exact demo_ctx_ok.
  - lia.
  - lia.
  - cbn. lia.
  - unfold bytes_ok. cbn. repeat constructor; lia.
  - unfold INT_MAX. lia.
  - unfold INT_MAX. lia.
  - reflexivity.
  - reflexivity.
  - reflexivity.
  - exists pkt', ce', cd'. auto.
Defined.

(** ** A radius that does not fit the header (C1) *)

(** C1, on the code: with radius 257 the header carries the byte 1; the
    encoder paints both pixels of the row from its one sample, the
    decoder, with radius 1, only the first. *)
Theorem radius_truncated :
  let e := splash_encode 2 1 0 wide_pic (inr (fresh_packet 2 1)) wide_ctx in
  let d := splash_decode 2 1 (inr (empty_frame 8 8)) (encoded_packet e) wide_ctx in
  packet_bytes (encoded_packet e) !! HEADER_OFS_RADIUS = Some 1 /\
  pixels (final_context wide_ctx e) = [255; 255; 255; 0; 255; 255; 255; 0] /\
  pixels (final_context wide_ctx d) = [255; 255; 255; 0; 127; 127; 127; 0] /\
  decoded_frame d = [255; 255; 255; 255; 127; 127; 127; 255].
Proof. cbv zeta. repeat split; vm_compute; reflexivity. Qed.
(** ** One iteration, by its cross points *)

(** The effect of a call that did some work, read off the list of its
    cross points. *)
Lemma updateLines_summary width height pic r enc ctx ctx' :
  ctx_ok width height ctx -> (0 < width)%nat -> (0 < height)%nat ->
  r <= INT_MAX ->
  updateLines width height pic r enc ctx = Ok (ctx', true) ->
  let l := cross_points width height r ctx in
  xError ctx' = (fill_rulers width height r ctx).1.1 /\
  yError ctx' = (fill_rulers width height r ctx).1.2 /\
  scan_frame enc (length l) (scan_of ctx) (scan_of ctx') /\
  (forall k', (forall p c, p ∈ l -> c ∈ p.2 -> ~ in_pixel (pix width c) k') ->
              pixels ctx' !!! k' = pixels ctx !!! k').
Proof.
  intros Hok Hw Hh Hr He. cbv zeta.
  rewrite updateLines_cross_points in He.
  pose proof (cross_points_fills_ok width height r ctx Hok Hw Hh Hr) as Hf.
  unfold scan_cross_points in He.
  destruct (fill_rulers width height r ctx) as [[xE yE] maxError]. cbn [fst snd] in *.
  destruct (forM_cross_ok width height pic r enc xE yE maxError
              (cross_points width height r ctx) (scan_of ctx) Hf (ok_pxlen _ _ _ Hok))
    as (st & Hst & Hfr & Hpx).
  rewrite Hst in He. cbn [mbind result_bind] in He.
  destruct (select width height ctx); [discriminate | |];
    injection He as <-; cbn [commit xError yError pixels];
    (split; [reflexivity|]; split; [reflexivity|]; split; [|exact Hpx]);
    destruct Hfr as (F1 & F2 & F3 & F4 & F5 & F6);
    unfold scan_frame; cbn [scan_of commit s_pixels s_data s_p s_num pixels data pos numPixels];
    auto 10.
Qed.

Lemma length_cross_points width height r ctx :
  length (cross_points width height r ctx) = perpendicular_exact width height ctx.
Proof.
  unfold cross_points, perpendicular_exact.
  destruct (select width height ctx); [reflexivity | |]; apply length_fmap.
Qed.

(** The cursor, the sample count and the data buffer after a call. *)
Lemma updateLines_stream width height pic r enc ctx ctx' :
  ctx_ok width height ctx -> (0 < width)%nat -> (0 < height)%nat ->
  r <= INT_MAX ->
  updateLines width height pic r enc ctx = Ok (ctx', true) ->
  let n := perpendicular_exact width height ctx in
  pos ctx' = (pos ctx + 3 * n)%nat /\
  numPixels ctx' = numPixels ctx + (if enc then Z.of_nat n else 0) /\
  (forall k, (k < pos ctx)%nat \/ (pos ctx' <= k)%nat -> data ctx' k = data ctx k) /\
  (enc = false -> data ctx' = data ctx).
Proof.
  intros Hok Hw Hh Hr He. cbv zeta.
  destruct (updateLines_summary _ _ _ _ _ _ _ Hok Hw Hh Hr He) as (_ & _ & Hf & _).
  rewrite length_cross_points in Hf.
  destruct Hf as (_ & _ & P & N & D & E). cbn [scan_of s_p s_num s_data] in *.
  auto.
Qed.

(** X5. A call of the engine that did some work moves the cursor by
    three bytes for every exact line across the pivot, counts as many
    pixels when encoding and none when decoding, leaves the data buffer
    as it was before the old cursor and from the new one on, and does not
    write it at all when decoding. *)
Theorem engine_stream width height pic r enc ctx ctx' :
  ctx_ok width height ctx -> (0 < width)%nat -> (0 < height)%nat ->
  r <= INT_MAX ->
  updateLines width height pic r enc ctx = Ok (ctx', true) ->
  let n := perpendicular_exact width height ctx in
  pos ctx' = (pos ctx + 3 * n)%nat /\
  numPixels ctx' = numPixels ctx + (if enc then Z.of_nat n else 0) /\
  (forall k, (k < pos ctx)%nat \/ (pos ctx' <= k)%nat -> data ctx' k = data ctx k) /\
  (enc = false -> data ctx' = data ctx).
Proof. exact (updateLines_stream width height pic r enc ctx ctx'). Qed.

Lemma engine_stream_witness :
  pos demo_next = 3%nat /\ numPixels demo_next = 1 /\
  data demo_next 5%nat = data demo_ctx 5%nat.
Proof.
  assert (H1 : (0 < 3)%nat) by lia. assert (H2 : (0 < 2)%nat) by lia.
  assert (H3 : 2 <= INT_MAX) by (unfold INT_MAX; lia).
  destruct (engine_stream 3 2 demo_pic 2 true demo_ctx demo_next
              demo_ctx_ok H1 H2 H3 demo_step) as (P & N & D & _).
  split; [exact P|]. split; [exact N|]. apply D. right. rewrite P. vm_compute. lia.
Defined.

Lemma rebalance_local r c err len :
  ruler_ok err -> length err = len -> (c < len)%nat -> r <= INT_MAX ->
  err !!! c <> 0 ->
  ruler_step_at r len c err
    (rebalance r c (range_min err r c) (range_max err len r c) err).
Proof.
  intros Hok Hlen Hc Hr Hnz. split; [assumption|]. split.
  - pose proof (rebalance_entry r c err len c Hok Hlen Hc Hr) as H. cbv zeta in H.
    destruct H as (_ & H & _). apply H. reflexivity.
  - intros k Hk Hne.
    pose proof (rebalance_entry r c err len k Hok Hlen Hc Hr) as H. cbv zeta in H.
    destruct H as (Hb & _ & Hin & Hout & Hz).
    pose proof (range_spec err len r c Hc) as Hs. cbv zeta in Hs.
    destruct Hs as (_ & _ & Hd & Hn).
    destruct (decide (range_min err r c <= k <= range_max err len r c)%nat) as [Hi | Ho].
    + split.
      * split; [|exact Hz]. intros H0. exfalso. exact (Hin Hi Hne H0).
      * intros _. split; [assumption|]. specialize (Hd k Hi). lia.
    + rewrite (Hout Ho). split; [tauto|]. intros H. congruence.
Qed.

(** One call changes one ruler, near its pivot. *)
Lemma updateLines_ruler_step width height pic r enc ctx ctx' :
  ctx_ok width height ctx -> (0 < width)%nat -> (0 < height)%nat ->
  r <= INT_MAX ->
  updateLines width height pic r enc ctx = Ok (ctx', true) ->
  match select width height ctx with
  | Nothing => False
  | Column i =>
      yError ctx' = yError ctx /\
      ruler_step_at r width i (xError ctx) (xError ctx')
  | Row j =>
      xError ctx' = xError ctx /\
      ruler_step_at r height j (yError ctx) (yError ctx')
  end.
Proof.
  intros Hok Hw Hh Hr He.
  destruct (updateLines_summary _ _ _ _ _ _ _ Hok Hw Hh Hr He) as (Hx & Hy & _).
  pose proof (select_spec width height ctx Hok Hw Hh) as Hs.
  rewrite updateLines_select in He. unfold fill_rulers in Hx, Hy.
  destruct (select width height ctx) as [| i | j]; [discriminate | |];
    cbn [fst snd] in Hx, Hy; rewrite Hx, Hy; (split; [reflexivity|]).
  - destruct Hs as (_ & Hi & Hpos & _).
    apply rebalance_local; try assumption; try apply Hok. lia.
  - destruct Hs as (_ & Hj & Hpos & _).
    apply rebalance_local; try assumption; try apply Hok. lia.
Qed.

(** X6. A call that did some work leaves the ruler across the pivot
    as it was; in the pivot's ruler the pivot was inexact and is exact
    afterwards, no other line becomes exact or stops being exact, and
    every entry that changes lies in the range of the pivot, less than
    the radius away from it. *)
Theorem engine_rulers_local width height pic r enc ctx ctx' :
  ctx_ok width height ctx -> (0 < width)%nat -> (0 < height)%nat ->
  r <= INT_MAX ->
  updateLines width height pic r enc ctx = Ok (ctx', true) ->
  match select width height ctx with
  | Nothing => False
  | Column i =>
      yError ctx' = yError ctx /\
      ruler_step_at r width i (xError ctx) (xError ctx')
  | Row j =>
      xError ctx' = xError ctx /\
      ruler_step_at r height j (yError ctx) (yError ctx')
  end.
Proof. exact (updateLines_ruler_step width height pic r enc ctx ctx'). Qed.

Lemma engine_rulers_local_witness :
  yError demo_next = yError demo_ctx /\
  ruler_step_at 2 3 2 (xError demo_ctx) (xError demo_next).
Proof.
  assert (H1 : (0 < 3)%nat) by lia. assert (H2 : (0 < 2)%nat) by lia.
  assert (H3 : 2 <= INT_MAX) by (unfold INT_MAX; lia).
  pose proof (engine_rulers_local 3 2 demo_pic 2 true demo_ctx demo_next
                demo_ctx_ok H1 H2 H3 demo_step) as H.
  rewrite demo_select in H. exact H.
Defined.

Lemma fills_cover_dec width (l : list ((nat * nat) * list (nat * nat))) k :
  (exists p c, p ∈ l /\ c ∈ p.2 /\ in_pixel (pix width c) k) \/
  (forall p c, p ∈ l -> c ∈ p.2 -> ~ in_pixel (pix width c) k).
Proof.
  assert (Hcs : forall cs : list (nat * nat),
            (exists c, c ∈ cs /\ in_pixel (pix width c) k) \/
            (forall c, c ∈ cs -> ~ in_pixel (pix width c) k)).
  { induction cs as [|c cs IH].
    - right. intros c Hc. inversion Hc.
    - destruct (decide (pix width c <= k < pix width c + 3)%nat) as [Hin | Hout].
      + left. exists c. split; [left | exact Hin].
      + destruct IH as [(c' & Hc' & Hin) | Hno].
        * left. exists c'. split; [right; assumption | assumption].
        * right. intros c' Hc'. apply elem_of_cons in Hc' as [-> | Hc'];
            [exact Hout | apply Hno; assumption]. }
  induction l as [|p l IH].
  - right. intros p c Hp. inversion Hp.
  - destruct (Hcs p.2) as [(c & Hc & Hin) | Hno].
    + left. exists p, c. split; [left | split; assumption].
    + destruct IH as [(p' & c & Hp' & Hc & Hin) | Hno'].
      * left. exists p', c. split; [right; assumption | split; assumption].
      * right. intros p' c Hp' Hc. apply elem_of_cons in Hp' as [-> | Hp'];
          [apply Hno; assumption | apply (Hno' p'); assumption].
Qed.

Lemma cross_points_in_fill width height r ctx p cs c :
  (0 < width)%nat -> (0 < height)%nat ->
  (p, cs) ∈ cross_points width height r ctx -> c ∈ cs ->
  in_canvas width height c /\ in_fill width height r ctx c.
Proof.
  intros Hw Hh Hp Hc.
  destruct (cross_points_spec width height r ctx p cs Hw Hh Hp) as ([Hp1 Hp2] & Hcs & Hsel).
  rewrite list.Forall_forall in Hcs. split; [apply Hcs; assumption|].
  unfold in_fill. destruct (select width height ctx) as [| i | j]; [exact Hsel | |].
  - destruct Hsel as (_ & Hz & ->). apply elem_of_fill_coords_col in Hc as [Hc1 Hc2].
    split; [assumption|]. exists p.2. auto.
  - destruct Hsel as (_ & Hz & ->). apply elem_of_fill_coords_row in Hc as [Hc1 Hc2].
    split; [assumption|]. exists p.1. auto.
Qed.

(** A pixel of a fill is not on two exact lines. *)
Lemma in_fill_inexact width height r ctx c :
  ctx_ok width height ctx -> (0 < width)%nat -> (0 < height)%nat ->
  in_fill width height r ctx c ->
  ~ (xError ctx !!! c.1 = 0 /\ yError ctx !!! c.2 = 0).
Proof.
  intros Hok Hw Hh Hin [Hx Hy]. unfold in_fill in Hin.
  pose proof (select_spec width height ctx Hok Hw Hh) as Hs.
  destruct (select width height ctx) as [| i | j]; [exact Hin | |].
  - destruct Hs as (_ & Hi & Hpos & _), Hin as (Hr & _).
    pose proof (range_spec (xError ctx) width r i Hi) as Hrs. cbv zeta in Hrs.
    destruct Hrs as (_ & _ & _ & Hnz).
    destruct (decide (c.1 = i)) as [E | Hne]; [rewrite E in Hx; lia|].
    exact (Hnz c.1 Hr Hne Hx).
  - destruct Hs as (_ & Hj & Hpos & _), Hin as (Hr & _).
    pose proof (range_spec (yError ctx) height r j Hj) as Hrs. cbv zeta in Hrs.
    destruct Hrs as (_ & _ & _ & Hnz).
    destruct (decide (c.2 = j)) as [E | Hne]; [rewrite E in Hy; lia|].
    exact (Hnz c.2 Hr Hne Hy).
Qed.

(** A byte of the canvas that a call changes is a channel of a pixel of
    one of its fills. *)
Lemma updateLines_repaints width height pic r enc ctx ctx' k :
  ctx_ok width height ctx -> (0 < width)%nat -> (0 < height)%nat ->
  r <= INT_MAX ->
  updateLines width height pic r enc ctx = Ok (ctx', true) ->
  pixels ctx' !!! k <> pixels ctx !!! k ->
  exists c, in_canvas width height c /\ in_pixel (pix width c) k /\
            in_fill width height r ctx c.
Proof.
  intros Hok Hw Hh Hr He Hne.
  destruct (updateLines_summary _ _ _ _ _ _ _ Hok Hw Hh Hr He) as (_ & _ & _ & Hpx).
  destruct (fills_cover_dec width (cross_points width height r ctx) k)
    as [(p & c & Hp & Hc & Hin) | Hno].
  - exists c. destruct p as [p cs].
    destruct (cross_points_in_fill width height r ctx p cs c Hw Hh Hp Hc). auto.
  - exfalso. apply Hne, Hpx. exact Hno.
Qed.

(** A pixel on two exact lines is not repainted. *)
Lemma updateLines_exact_kept width height pic r enc ctx ctx' c k :
  ctx_ok width height ctx -> (0 < width)%nat -> (0 < height)%nat ->
  r <= INT_MAX ->
  updateLines width height pic r enc ctx = Ok (ctx', true) ->
  in_canvas width height c ->
  xError ctx !!! c.1 = 0 -> yError ctx !!! c.2 = 0 -> (k < 3)%nat ->
  pixels ctx' !!! (pix width c + k)%nat = pixels ctx !!! (pix width c + k)%nat.
Proof.
  intros Hok Hw Hh Hr He Hc Hx Hy Hk.
  destruct (decide (pixels ctx' !!! (pix width c + k)%nat
                    = pixels ctx !!! (pix width c + k)%nat)) as [E | Hne];
    [exact E | exfalso].
  destruct (updateLines_repaints _ _ _ _ _ _ _ _ Hok Hw Hh Hr He Hne)
    as (c' & Hc' & Hin & Hfill).
  assert (c' = c) as ->.
  { apply (pix_inj width c' c (proj1 Hc') (proj1 Hc) (pix width c + k)%nat);
      [assumption | unfold in_pixel; lia]. }
  exact (in_fill_inexact width height r ctx c Hok Hw Hh Hfill (conj Hx Hy)).
Qed.

(** X7. A call keeps the size of the canvas; a byte it changes is one
    of the three channels of a pixel that lies in the fill of one of its
    cross points; the fourth byte of a pixel is never written; and a
    pixel whose column and row are both exact is not repainted. *)
Theorem engine_canvas_local width height pic r enc ctx ctx' :
  ctx_ok width height ctx -> (0 < width)%nat -> (0 < height)%nat ->
  r <= INT_MAX ->
  updateLines width height pic r enc ctx = Ok (ctx', true) ->
  length (pixels ctx') = length (pixels ctx) /\
  (forall k, pixels ctx' !!! k <> pixels ctx !!! k ->
     exists c, in_canvas width height c /\ in_pixel (pix width c) k /\
               in_fill width height r ctx c) /\
  (forall c, in_canvas width height c ->
     pixels ctx' !!! (pix width c + 3)%nat = pixels ctx !!! (pix width c + 3)%nat) /\
  (forall c k, in_canvas width height c ->
     xError ctx !!! c.1 = 0 -> yError ctx !!! c.2 = 0 -> (k < 3)%nat ->
     pixels ctx' !!! (pix width c + k)%nat = pixels ctx !!! (pix width c + k)%nat).
Proof.
  intros Hok Hw Hh Hr He.
  destruct (updateLines_summary _ _ _ _ _ _ _ Hok Hw Hh Hr He) as (_ & _ & Hf & _).
  split; [apply Hf|]. split; [|split].
  - intros k. apply (updateLines_repaints _ _ _ _ _ _ _ _ Hok Hw Hh Hr He).
  - intros c Hc.
    destruct (decide (pixels ctx' !!! (pix width c + 3)%nat
                      = pixels ctx !!! (pix width c + 3)%nat)) as [E | Hne];
      [exact E | exfalso].
    destruct (updateLines_repaints _ _ _ _ _ _ _ _ Hok Hw Hh Hr He Hne)
      as (c' & _ & Hin & _).
    unfold in_pixel, pix in Hin. lia.
  - intros c k. apply (updateLines_exact_kept _ _ _ _ _ _ _ _ _ Hok Hw Hh Hr He).
Qed.

Lemma engine_canvas_local_witness :
  length (pixels demo_next) = length (pixels demo_ctx) /\
  pixels demo_next !!! (pix 3 (1, 0)%nat + 1)%nat
  = pixels demo_ctx !!! (pix 3 (1, 0)%nat + 1)%nat.
Proof.
  assert (H1 : (0 < 3)%nat) by lia. assert (H2 : (0 < 2)%nat) by lia.
  assert (H3 : 2 <= INT_MAX) by (unfold INT_MAX; lia).
  destruct (engine_canvas_local 3 2 demo_pic 2 true demo_ctx demo_next
              demo_ctx_ok H1 H2 H3 demo_step) as (L & _ & _ & E).
  split; [exact L|].
  apply (E (1, 0)%nat 1%nat); [split; cbn; lia | reflexivity | reflexivity | lia].
Defined.

(** X4. On a well-formed context, for every radius of the type [int],
    in both modes, a call of the engine returns: no [av_assert0] fails
    and the canvas is not accessed outside its allocation.  The context
    it leaves is well formed again, with the same radius, [ppf], [ppk]
    and size. *)
Theorem engine_wf width height pic r enc ctx :
  ctx_ok width height ctx -> (0 < width)%nat -> (0 < height)%nat ->
  r <= INT_MAX ->
  exists ctx' b,
    updateLines width height pic r enc ctx = Ok (ctx', b) /\
    ctx_ok width height ctx' /\ same_config ctx ctx'.
Proof.
  intros Hok Hw Hh Hr.
  destruct (updateLines_ends width height pic r enc ctx Hok Hw Hh Hr) as (ctx' & b & He).
  exists ctx', b. split; [exact He|].
  exact (updateLines_ok _ _ _ _ _ _ _ _ Hok Hw Hh Hr He).
Qed.

Lemma engine_wf_witness :
  exists ctx' b, updateLines 3 2 demo_pic 2 false demo_ctx = Ok (ctx', b) /\
                 ctx_ok 3 2 ctx'.
Proof.
  assert (H1 : (0 < 3)%nat) by lia. assert (H2 : (0 < 2)%nat) by lia.
  assert (H3 : 2 <= INT_MAX) by (unfold INT_MAX; lia).
  destruct (engine_wf 3 2 demo_pic 2 false demo_ctx demo_ctx_ok H1 H2 H3)
    as (ctx' & b & He & Hok & _).
  exists ctx', b. split; assumption.
Defined.

(** X3. One iteration, encoder and decoder side by side: when both
    hold the same rulers, canvas and cursor, and the data buffer of the
    decoder holds at the cursor the bytes the encoder writes there, the
    decoder returns the same flag and both are left with the same
    rulers, canvas and cursor. *)
Theorem engine_lockstep width height pic pic' r ce cd ce' b :
  bytes_ok (frame_data pic) ->
  updateLines width height pic r true ce = Ok (ce', b) ->
  in_step ce cd ->
  (forall k, (pos ce <= k < pos ce')%nat -> data cd k = data ce' k) ->
  exists cd',
    updateLines width height pic' r false cd = Ok (cd', b) /\
    in_step ce' cd' /\ data cd' = data cd /\ size cd' = size cd.
Proof. exact (updateLines_sim width height pic pic' r ce cd ce' b). Qed.

Lemma engine_lockstep_witness :
  exists cd', updateLines 3 2 (empty_frame 24 12) 2 false demo_dec = Ok (cd', true) /\
              pixels cd' = pixels demo_next /\ xError cd' = xError demo_next.
Proof.
  assert (Hb : bytes_ok (frame_data demo_pic)).
  { unfold bytes_ok. cbn. repeat constructor; lia. }
  assert (Hs : in_step demo_ctx demo_dec) by (repeat split).
  destruct (engine_lockstep 3 2 demo_pic (empty_frame 24 12) 2 demo_ctx demo_dec
              demo_next true Hb demo_step Hs) as (cd' & He & (Hx & _ & Hp & _) & _).
  { intros k _. reflexivity. }
  exists cd'. auto.
Defined.

Lemma cross_at_decode width pic r xE yE maxError p cs st st' :
  cross_at width pic r false xE yE maxError p cs st = Ok st' ->
  s_data st' = s_data st /\ s_num st' = s_num st.
Proof.
  unfold cross_at. pose proof (read_pixel_effect pic false p st) as Hr.
  cbv zeta in Hr. destruct (read_pixel false pic p.1 p.2 st) as [src st1].
  cbn [fst snd] in Hr. destruct Hr as (_ & _ & Rn & _ & Rd & _).
  destruct (forM _ cs (s_pixels st1)) as [px | | |]; cbn [mbind result_bind];
    try discriminate.
  intros [= <-]. cbn [with_pixels s_num s_data]. split; [auto | lia].
Qed.

Lemma forM_cross_decode width pic r xE yE maxError l : forall st st',
  forM (fun st p => cross_at width pic r false xE yE maxError p.1 p.2 st) l st
  = Ok st' ->
  s_data st' = s_data st /\ s_num st' = s_num st.
Proof.
  induction l as [|p l IH]; intros st st'; cbn [forM].
  - intros [= <-]. auto.
  - destruct (cross_at width pic r false xE yE maxError p.1 p.2 st) as [st1 | | |] eqn:Hc;
      cbn [mbind result_bind]; try discriminate.
    intros Hl. apply cross_at_decode in Hc as [D1 N1]. apply IH in Hl as [D N].
    split; congruence.
Qed.

(** X8. In decoding mode the outcome of a call does not depend on the
    picture it is passed, and the call changes neither the data buffer
    nor the count of pixels nor the size. *)
Theorem decode_mode_reads width height pic pic' r ctx :
  updateLines width height pic r false ctx
  = updateLines width height pic' r false ctx /\
  forall ctx' b, updateLines width height pic r false ctx = Ok (ctx', b) ->
    data ctx' = data ctx /\ numPixels ctx' = numPixels ctx /\
    size ctx' = size ctx.
Proof.
  split; [reflexivity|].
  intros ctx' b. rewrite updateLines_cross_points. unfold scan_cross_points.
  destruct (fill_rulers width height r ctx) as [[xE yE] maxError].
  destruct (select width height ctx).
  - intros [= <- <-]. auto.
  - destruct (forM _ _ _) as [st | | |] eqn:Hf; cbn [mbind result_bind]; try discriminate.
    intros [= <- <-]. apply forM_cross_decode in Hf as [D N].
    cbn [commit data numPixels size scan_of s_data s_num] in *. auto.
  - destruct (forM _ _ _) as [st | | |] eqn:Hf; cbn [mbind result_bind]; try discriminate.
    intros [= <- <-]. apply forM_cross_decode in Hf as [D N].
    cbn [commit data numPixels size scan_of s_data s_num] in *. auto.
Qed.

(** ** The blend *)

(** X10. For a weight between 0 and 256 the blend of a sample and an
    old channel value, both bytes, lies between the two; with the weight
    256 it is the sample and with the weight 0 the old value. *)
Theorem blend_between src old alpha :
  0 <= src < 256 -> 0 <= old < 256 -> 0 <= alpha <= 256 ->
  Z.min src old <= blend src old alpha <= Z.max src old /\
  blend src old 256 = src /\ blend src old 0 = old.
Proof.
  intros Hs Ho Ha.
  assert (Hb : forall a, 0 <= a <= 256 ->
            blend src old a = (src * a + old * (256 - a)) / 256).
  { intros a Ha'. unfold blend. rewrite s32_small by nia.
    rewrite Z.shiftr_div_pow2 by lia. reflexivity. }
  split; [|split].
  - rewrite (Hb alpha Ha). split.
    + apply Z.div_le_lower_bound; [lia|]. nia.
    + apply Z.lt_succ_r. apply Z.div_lt_upper_bound; [lia|]. nia.
  - rewrite Hb by lia. replace (src * 256 + old * (256 - 256)) with (src * 256) by lia.
    apply Z.div_mul. lia.
  - rewrite Hb by lia. replace (src * 0 + old * (256 - 0)) with (old * 256) by lia.
    apply Z.div_mul. lia.
Qed.

Lemma blend_between_witness :
  Z.min 200 100 <= blend 200 100 156 <= Z.max 200 100.
Proof.
  apply (blend_between 200 100 156); lia.
Defined.

(** ** The range of a splash, in full *)

Lemma expand_down_stop err n lo :
  let r := expand_down err n lo in
  r = 0%nat \/ err !!! (r - 1)%nat = 0 \/ (lo - r = n)%nat.
Proof.
  revert lo. induction n as [|n IH]; intros lo; cbv zeta; cbn [expand_down].
  - right. right. lia.
  - destruct (Nat.eqb_spec lo 0) as [-> | Hlo]; cbn [orb]; [left; reflexivity|].
    destruct (Z.eqb_spec (err !!! (lo - 1)%nat) 0) as [Hz | Hnz]; [right; left; exact Hz|].
    specialize (IH (lo - 1)%nat). cbv zeta in IH.
    pose proof (expand_down_spec err n (lo - 1)%nat) as Hs. cbv zeta in Hs.
    destruct IH as [H | [H | H]]; [left; exact H | right; left; exact H |].
    right. right. lia.
Qed.

Lemma expand_up_stop err len n hi :
  let r := expand_up err len n hi in
  (len <= r + 1)%nat \/ err !!! (r + 1)%nat = 0 \/ (r - hi = n)%nat.
Proof.
  revert hi. induction n as [|n IH]; intros hi; cbv zeta; cbn [expand_up].
  - right. right. lia.
  - destruct (Z.leb_spec (Z.of_nat len - 1) (Z.of_nat hi)) as [Hle | Hgt]; cbn [orb];
      [left; lia|].
    destruct (Z.eqb_spec (err !!! (hi + 1)%nat) 0) as [Hz | Hnz]; [right; left; exact Hz|].
    specialize (IH (hi + 1)%nat). cbv zeta in IH.
    pose proof (expand_up_spec err len n (hi + 1)%nat) as Hs. cbv zeta in Hs.
    destruct IH as [H | [H | H]]; [left; exact H | right; left; exact H |].
    right. right. lia.
Qed.

(** X9. The range of a splash around the line [c] stays in the ruler
    and contains [c]; no other line in it is exact; it reaches less than
    the radius from [c] on either side; and on either side it ends at the
    border of the picture, next to an exact line, or [radius - 1] lines
    from [c]. *)
Theorem splash_range err len radius c :
  (c < len)%nat ->
  let lo := range_min err radius c in
  let hi := range_max err len radius c in
  (lo <= c <= hi)%nat /\ (hi < len)%nat /\
  (forall k, (lo <= k <= hi)%nat -> k <> c -> err !!! k <> 0) /\
  Z.of_nat (c - lo) <= Z.max (radius - 1) 0 /\
  Z.of_nat (hi - c) <= Z.max (radius - 1) 0 /\
  (lo = 0%nat \/ err !!! (lo - 1)%nat = 0 \/ Z.of_nat (c - lo) = Z.max (radius - 1) 0) /\
  (hi = (len - 1)%nat \/ err !!! (hi + 1)%nat = 0 \/
   Z.of_nat (hi - c) = Z.max (radius - 1) 0).
Proof.
  intros Hc. cbv zeta.
  pose proof (range_spec err len radius c Hc) as Hs. cbv zeta in Hs.
  destruct Hs as (Hb & Hlen & Hd & Hnz).
  split; [exact Hb|]. split; [exact Hlen|]. split; [exact Hnz|].
  pose proof (Hd (range_min err radius c) ltac:(lia)) as Hlo.
  pose proof (Hd (range_max err len radius c) ltac:(lia)) as Hhi.
  split; [lia|]. split; [lia|].
  assert (Ht : Z.of_nat (turns radius) = Z.max (radius - 1) 0) by (unfold turns; lia).
  split.
  - pose proof (expand_down_stop err (turns radius) c) as H. cbv zeta in H.
    fold (range_min err radius c) in H. destruct H as [H | [H | H]]; auto.
    right. right. rewrite <- Ht. f_equal. exact H.
  - pose proof (expand_up_stop err len (turns radius) c) as H. cbv zeta in H.
    fold (range_max err len radius c) in H. destruct H as [H | [H | H]]; auto.
    + left. lia.
    + right. right. rewrite <- Ht. f_equal. exact H.
Qed.

Lemma splash_range_witness :
  (range_min demo_ruler 3 3 <= 3 <= range_max demo_ruler 7 3 3)%nat /\
  range_min demo_ruler 3 3 = 2%nat /\
  range_max demo_ruler 7 3 3 = 5%nat.
Proof.
  assert (H : (3 < 7)%nat) by lia.
  split; [exact (proj1 (splash_range demo_ruler 7 3 3 H))|].
  split; reflexivity.
Defined.

(** ** The rulers on the wire, for any error *)

(** X12. The three bytes the encoder writes for an error, read back
    the way the decoder reads them, give the error modulo [2 ^ 24]; they
    are bytes, nothing else of the buffer changes, and a clamped error,
    as the encoder emits it, is read back exactly. *)
Theorem error_bytes err d p :
  get_error (put_error err d p) p = err mod 2 ^ 24 /\
  (forall c, (c < 3)%nat -> 0 <= put_error err d p (p + c)%nat < 256) /\
  (forall k, (k < p)%nat \/ (p + 3 <= k)%nat -> put_error err d p k = d k) /\
  (0 <= err -> get_error (put_error (clamp_error err) d p) p = clamp_error err).
Proof.
  assert (Hg : forall e, get_error (put_error e d p) p = e mod 2 ^ 24).
  { intros e. unfold get_error, put_error.
    rewrite fn_lookup_insert_ne, fn_lookup_insert_ne, fn_lookup_insert by lia.
    rewrite fn_lookup_insert_ne, fn_lookup_insert by lia.
    rewrite fn_lookup_insert.
    unfold u8. change 256 with (2 ^ 8).
    apply Z.bits_inj'. intros n Hn.
    rewrite !Z.lor_spec, !Z.shiftl_spec by assumption.
    rewrite !Z.testbit_mod_pow2 by lia.
    destruct (Z.ltb_spec n 8), (Z.ltb_spec (n - 8) 8), (Z.ltb_spec (n - 16) 8),
      (Z.ltb_spec n 24); try lia; cbn [andb orb];
      repeat match goal with
      | |- context [Z.testbit (Z.shiftr e ?k) ?m] =>
          first [ rewrite (Z.shiftr_spec e k m) by lia
                | rewrite (Z.testbit_neg_r (Z.shiftr e k) m) by lia ]
      end;
      rewrite ?orb_false_r, ?orb_false_l;
      try reflexivity; f_equal; lia. }
  split; [apply Hg|]. split; [|split].
  - intros c Hc. unfold put_error.
    assert (c = 0 \/ c = 1 \/ c = 2)%nat as [-> | [-> | ->]] by lia.
    + rewrite Nat.add_0_r, !fn_lookup_insert_ne, fn_lookup_insert by lia. apply u8_range.
    + rewrite fn_lookup_insert_ne, fn_lookup_insert by lia. apply u8_range.
    + rewrite fn_lookup_insert. apply u8_range.
  - apply put_error_frame.
  - intros He. rewrite Hg. apply Z.mod_small. apply clamp_error_bounds. assumption.
Qed.

(** ** The rulers the encoder creates *)

Lemma FFABS_zero a b : FFABS (a - b) = 0 <-> a = b.
Proof. unfold FFABS. destruct (Z.geb_spec (a - b) 0); lia. Qed.

Lemma add_pixel_error_zero width pic px i j err :
  bytes_ok px -> bytes_ok (frame_data pic) ->
  0 <= err -> err + 765 <= INT_MAX ->
  (add_pixel_error width pic px i j err = 0 <->
   err = 0 /\ matches width pic px (i, j)).
Proof.
  intros Hpx Hpic H0 H1. unfold INT_MAX in H1. unfold add_pixel_error, matches, pix.
  cbn [fst snd].
  set (k := ((j * width + i) * 4)%nat).
  pose proof (bytes_ok_lookup px k Hpx). pose proof (bytes_ok_lookup px (k + 1) Hpx).
  pose proof (bytes_ok_lookup px (k + 2) Hpx).
  pose proof (pic_at_byte pic i j 0 Hpic). pose proof (pic_at_byte pic i j 1 Hpic).
  pose proof (pic_at_byte pic i j 2 Hpic).
  assert (Hab : forall a b, 0 <= a < 256 -> 0 <= b < 256 -> 0 <= FFABS (a - b) <= 255).
  { intros a b Ha Hb0. unfold FFABS. destruct (Z.geb_spec (a - b) 0); lia. }
  pose proof (Hab (px !!! k) (pic_at pic i j 0)).
  pose proof (Hab (px !!! (k + 1)%nat) (pic_at pic i j 1)).
  pose proof (Hab (px !!! (k + 2)%nat) (pic_at pic i j 2)).
  rewrite (s32_small (err + FFABS (px !!! k - pic_at pic i j 0))) by lia.
  rewrite (s32_small (err + _ + FFABS (px !!! (k + 1)%nat - pic_at pic i j 1))) by lia.
  rewrite s32_small by lia.
  pose proof (FFABS_zero (px !!! k) (pic_at pic i j 0)).
  pose proof (FFABS_zero (px !!! (k + 1)%nat) (pic_at pic i j 1)).
  pose proof (FFABS_zero (px !!! (k + 2)%nat) (pic_at pic i j 2)).
  split.
  - intros Hz. split; [lia|]. intros c Hc.
    assert (c = 0 \/ c = 1 \/ c = 2)%nat as [-> | [-> | ->]] by lia;
      rewrite ?Nat.add_0_r; tauto || lia.
  - intros [-> Hm].
    pose proof (Hm 0%nat ltac:(lia)) as M0. rewrite Nat.add_0_r in M0.
    pose proof (Hm 1%nat ltac:(lia)). pose proof (Hm 2%nat ltac:(lia)). lia.
Qed.

Lemma sum_error_zero (f : Z -> nat -> Z) (P : nat -> Prop) n :
  (forall err k, 0 <= err -> err + 765 <= INT_MAX -> err <= f err k <= err + 765) ->
  (forall err k, 0 <= err -> err + 765 <= INT_MAX -> (f err k = 0 <-> err = 0 /\ P k)) ->
  765 * Z.of_nat n <= INT_MAX ->
  (foldl f 0 (seq 0 n) = 0 <-> forall k, (k < n)%nat -> P k).
Proof.
  intros Hf Hz. induction n as [|n IH]; intros Hn.
  - cbn. split; [intros _ k Hk; lia | reflexivity].
  - rewrite seq_S, foldl_app. cbn [foldl Nat.add].
    pose proof (sum_error_bounds f n Hf ltac:(lia)) as Hb.
    rewrite (Hz _ n) by lia. rewrite (IH ltac:(lia)). split.
    + intros [Hall Hlast] k Hk. destruct (decide (k = n)) as [-> | Hne]; [assumption|].
      apply Hall. lia.
    + intros Hall. split; [|apply Hall; lia]. intros k Hk. apply Hall. lia.
Qed.

Lemma clamp_error_zero err : 0 <= err -> (clamp_error err = 0 <-> err = 0).
Proof. intros H. unfold clamp_error. destruct (Z.gtb_spec err 0xffffff); lia. Qed.

(** A column is exact from the start when it matches the picture. *)
Lemma column_error_zero width height pic px i :
  bytes_ok px -> bytes_ok (frame_data pic) -> 765 * Z.of_nat height <= INT_MAX ->
  (column_error width height pic px i = 0 <->
   forall j, (j < height)%nat -> matches width pic px (i, j)).
Proof.
  intros Hpx Hpic Hh. unfold column_error.
  pose proof (sum_error_bounds (fun err j => add_pixel_error width pic px i j err) height
                ltac:(intros; apply add_pixel_error_bounds; assumption) Hh) as Hb.
  rewrite clamp_error_zero by lia.
  apply (sum_error_zero (fun err j => add_pixel_error width pic px i j err)
           (fun j => matches width pic px (i, j))); try assumption.
  - intros. apply add_pixel_error_bounds; assumption.
  - intros. apply add_pixel_error_zero; assumption.
Qed.

(** So is a row. *)
Lemma row_error_zero width pic px j :
  bytes_ok px -> bytes_ok (frame_data pic) -> 765 * Z.of_nat width <= INT_MAX ->
  (row_error width pic px j = 0 <->
   forall i, (i < width)%nat -> matches width pic px (i, j)).
Proof.
  intros Hpx Hpic Hw. unfold row_error.
  pose proof (sum_error_bounds (fun err i => add_pixel_error width pic px i j err) width
                ltac:(intros; apply add_pixel_error_bounds; assumption) Hw) as Hb.
  rewrite clamp_error_zero by lia.
  apply (sum_error_zero (fun err i => add_pixel_error width pic px i j err)
           (fun i => matches width pic px (i, j))); try assumption.
  - intros. apply add_pixel_error_bounds; assumption.
  - intros. apply add_pixel_error_zero; assumption.
Qed.

(** X11. On a canvas and a picture of bytes, of dimensions whose sums
    stay within [int], the error the encoder computes for a column (a
    row) is zero exactly when the three channels of every pixel of the
    column (the row) are those of the picture; and every error is
    between 0 and [0xffffff]. *)
Theorem line_error_exact width height pic px :
  bytes_ok px -> bytes_ok (frame_data pic) ->
  765 * Z.of_nat width <= INT_MAX -> 765 * Z.of_nat height <= INT_MAX ->
  (forall i, column_error width height pic px i = 0 <->
             forall j, (j < height)%nat -> matches width pic px (i, j)) /\
  (forall j, row_error width pic px j = 0 <->
             forall i, (i < width)%nat -> matches width pic px (i, j)) /\
  (forall i, 0 <= column_error width height pic px i <= 0xffffff) /\
  (forall j, 0 <= row_error width pic px j <= 0xffffff).
Proof.
  intros Hpx Hpic Hw Hh.
  split; [intros i; apply column_error_zero; assumption|].
  split; [intros j; apply row_error_zero; assumption|]. split.
  - intros i. pose proof (column_error_bounds width height pic px i Hpx Hpic Hh). lia.
  - intros j. pose proof (row_error_bounds width pic px j Hpx Hpic Hw). lia.
Qed.

Lemma line_error_exact_witness :
  column_error 3 2 demo_pic (pixels demo_ctx) 1 = 0 <->
  forall j, (j < 2)%nat -> matches 3 demo_pic (pixels demo_ctx) (1%nat, j).
Proof.
  assert (H1 : bytes_ok (pixels demo_ctx)) by apply demo_ctx_ok.
  assert (H2 : bytes_ok (frame_data demo_pic)).
  { unfold bytes_ok. cbn. repeat constructor; lia. }
  assert (H3 : 765 * Z.of_nat 3 <= INT_MAX) by (unfold INT_MAX; lia).
  assert (H4 : 765 * Z.of_nat 2 <= INT_MAX) by (unfold INT_MAX; lia).
  destruct (line_error_exact 3 2 demo_pic (pixels demo_ctx) H1 H2 H3 H4) as (Hc & _).
  exact (Hc 1%nat).
Defined.

(** ** [splash_init], for any size *)

Lemma init_pixels_length width height raw :
  length (init_pixels width height raw) = length raw.
Proof.
  unfold init_pixels. generalize (width * height)%nat as n. intros n.
  induction n as [|n IH]; [reflexivity|].
  rewrite seq_S, foldl_app. cbn [foldl]. rewrite !length_insert. exact IH.
Qed.

Lemma init_pixels_gray width height raw k :
  (k < 3 * (width * height))%nat -> (k < length raw)%nat ->
  init_pixels width height raw !!! k = 127.
Proof.
  unfold init_pixels. generalize (width * height)%nat as n. intros n.
  induction n as [|n IH]; intros Hk Hlen; [lia|].
  rewrite seq_S, foldl_app. cbn [foldl Nat.add].
  pose proof (init_pixels_length n 1 raw) as L.
  unfold init_pixels in L. rewrite Nat.mul_1_r in L.
  destruct (decide (k = 3 * n + 2)%nat) as [-> | H2].
  { rewrite list_lookup_total_insert_eq; [reflexivity|]. rewrite !length_insert. lia. }
  rewrite list_lookup_total_insert_ne by lia.
  destruct (decide (k = 3 * n + 1)%nat) as [-> | H1].
  { rewrite list_lookup_total_insert_eq; [reflexivity|]. rewrite !length_insert. lia. }
  rewrite list_lookup_total_insert_ne by lia.
  destruct (decide (k = 3 * n)%nat) as [-> | H0].
  { rewrite list_lookup_total_insert_eq; [reflexivity|]. lia. }
  rewrite list_lookup_total_insert_ne by lia.
  apply IH; lia.
Qed.

(** X23. After [splash_init], for every size: the canvas has its
    [width * height * 4] bytes, the first [3 * width * height] of them
    are [0x7f] and the others are what the allocator returned.  So a
    pixel whose three channels lie in the first three quarters is mid
    gray, and with two pixels or more the blue channel of the last pixel
    is not initialised. *)
Theorem splash_init_canvas width height r f k rawx rawy raw :
  length raw = (width * height * 4)%nat ->
  let px := pixels (splash_init width height r f k rawx rawy raw) in
  length px = (width * height * 4)%nat /\
  (forall n, (n < 3 * (width * height))%nat -> px !!! n = 127) /\
  (forall n, (3 * (width * height) <= n)%nat -> px !!! n = raw !!! n) /\
  (forall c, in_canvas width height c ->
     (pix width c + 2 < 3 * (width * height))%nat ->
     px !!! pix width c = 127 /\ px !!! (pix width c + 1)%nat = 127 /\
     px !!! (pix width c + 2)%nat = 127) /\
  ((2 <= width * height)%nat ->
   px !!! (pix width (width - 1, height - 1) + 2)%nat
   = raw !!! (pix width (width - 1, height - 1) + 2)%nat).
Proof.
  intros Hlen. cbv zeta. cbn [splash_init pixels].
  assert (Hg : forall n, (n < 3 * (width * height))%nat ->
                         init_pixels width height raw !!! n = 127).
  { intros n Hn. apply init_pixels_gray; lia. }
  split; [rewrite init_pixels_length; exact Hlen|]. split; [exact Hg|].
  split; [intros n Hn; apply init_pixels_beyond; exact Hn|]. split.
  - intros c _ Hc. repeat split; apply Hg; lia.
  - intros Hwh. apply init_pixels_beyond. unfold pix. cbn [fst snd].
    assert (0 < width)%nat by (destruct width; lia).
    assert (0 < height)%nat by (destruct height; lia).
    replace ((height - 1) * width + (width - 1))%nat with (width * height - 1)%nat by nia.
    lia.
Qed.

Lemma splash_init_canvas_witness :
  pixels (splash_init 2 1 5 (F32.of_int 1) (F32.of_int 2) [0; 0] [0] (repeat 9 8))
  !!! 6%nat = 9.
Proof.
  assert (L : length (repeat 9 8) = (2 * 1 * 4)%nat) by reflexivity.
  destruct (splash_init_canvas 2 1 5 (F32.of_int 1) (F32.of_int 2) [0; 0] [0]
              (repeat 9 8) L) as (_ & _ & H & _).
  exact (H 6%nat ltac:(cbn; lia)).
Defined.

(** ** The frame the decoder hands out *)

Lemma copy_pixels_rest width height px ls l : forall out,
  (4 * width <= ls)%nat -> (height * ls <= length out)%nat ->
  Forall (in_canvas width height) l ->
  (forall i j, (i < width)%nat -> (j < height)%nat -> (i, j) ∈ l ->
     foldl (copy_pixel width ls px) out l !!! (j * ls + i * 4 + 3)%nat = 255) /\
  (forall k, (forall c t, c ∈ l -> (t < 4)%nat -> k <> (c.2 * ls + c.1 * 4 + t)%nat) ->
     foldl (copy_pixel width ls px) out l !!! k = out !!! k).
Proof.
  intros out Hls Hlen. induction l as [|x l IH] using rev_ind; intros Hin.
  - split; [intros i j _ _ H; inversion H | reflexivity].
  - apply Forall_app in Hin as [Hl Hx]. apply Forall_cons in Hx as [[Hxi Hxj] _].
    destruct (IH Hl) as [IHa IHr]. clear IH.
    destruct (copy_pixels_at width height px ls l out Hls Hlen Hl) as [L _].
    rewrite foldl_app. cbn [foldl]. destruct x as [i' j']. cbn [fst snd] in *.
    set (acc := foldl (copy_pixel width ls px) out l) in *.
    unfold copy_pixel. split.
    + intros i j Hi Hj Hel.
      destruct (decide ((i, j) = (i', j'))) as [[= <- <-] | Hne].
      * rewrite list_lookup_total_insert_eq; [reflexivity|].
        rewrite !length_insert, L. nia.
      * assert (Hd : forall c', (c' < 4)%nat ->
                  (j' * ls + i' * 4 + c' <> j * ls + i * 4 + 3)%nat).
        { intros c' Hc' He.
          destruct (frame_offset_inj ls width i' j' c' i j 3) as (-> & -> & _);
            try assumption; try lia. congruence. }
        pose proof (Hd 0%nat ltac:(lia)). pose proof (Hd 1%nat ltac:(lia)).
        pose proof (Hd 2%nat ltac:(lia)). pose proof (Hd 3%nat ltac:(lia)).
        rewrite !list_lookup_total_insert_ne by lia.
        apply IHa; try assumption.
        apply elem_of_app in Hel as [Hel | Hel]; [assumption|].
        apply list_elem_of_singleton in Hel. congruence.
    + intros k Hk.
      assert (Hx : forall t, (t < 4)%nat -> k <> (j' * ls + i' * 4 + t)%nat).
      { intros t Ht. apply (Hk (i', j') t); [|assumption].
        apply elem_of_app. right. left. }
      pose proof (Hx 0%nat ltac:(lia)). pose proof (Hx 1%nat ltac:(lia)).
      pose proof (Hx 2%nat ltac:(lia)). pose proof (Hx 3%nat ltac:(lia)).
      rewrite !list_lookup_total_insert_ne by lia.
      apply IHr. intros c t Hc Ht. apply Hk; [|assumption].
      apply elem_of_app. left. assumption.
Qed.

Lemma elem_of_frame_coords width height i j :
  (i, j) ∈ (j ← seq 0 height; i ← seq 0 width; [(i, j)])
  <-> (i < width)%nat /\ (j < height)%nat.
Proof.
  split.
  - intros Hab. apply list_elem_of_bind in Hab as (b' & Hab & Hb).
    apply list_elem_of_bind in Hab as (a' & Hab & Ha).
    apply list_elem_of_singleton in Hab. injection Hab as -> ->.
    apply elem_of_seq in Ha, Hb. lia.
  - intros [Hi Hj]. apply list_elem_of_bind. exists j. split; [|apply elem_of_seq; lia].
    apply list_elem_of_bind. exists i. split; [|apply elem_of_seq; lia].
    apply list_elem_of_singleton. reflexivity.
Qed.

(** X22. The frame the decoder fills, when its lines hold the width of
    the picture and its buffer the height: it keeps its line size and
    length, the three channels of every pixel are those of the canvas,
    the fourth byte of every pixel is 255, and every other byte of the
    buffer is left as it was. *)
Theorem export_frame width height px out :
  (4 * width <= linesize out)%nat ->
  (height * linesize out <= length (frame_data out))%nat ->
  let f := export_pixels width height px out in
  linesize f = linesize out /\
  length (frame_data f) = length (frame_data out) /\
  (forall i j, (i < width)%nat -> (j < height)%nat ->
     (forall c, (c < 3)%nat -> pic_at f i j c = px !!! (pix width (i, j) + c)%nat) /\
     pic_at f i j 3 = 255) /\
  (forall k,
     (forall i j t, (i < width)%nat -> (j < height)%nat -> (t < 4)%nat ->
                    k <> (j * linesize out + i * 4 + t)%nat) ->
     frame_data f !!! k = frame_data out !!! k).
Proof.
  intros Hls Hlen. cbv zeta.
  assert (Hin : Forall (in_canvas width height)
                  (j ← seq 0 height; i ← seq 0 width; [(i, j)])).
  { apply list.Forall_forall. intros [a b] Hab.
    apply elem_of_frame_coords in Hab. exact Hab. }
  destruct (copy_pixels_at width height px (linesize out) _ (frame_data out)
              Hls Hlen Hin) as [L _].
  destruct (copy_pixels_rest width height px (linesize out) _ (frame_data out)
              Hls Hlen Hin) as [Ha Hr].
  split; [reflexivity|]. split; [exact L|]. split.
  - intros i j Hi Hj. split.
    + intros c Hc. apply export_pixels_at; assumption.
    + unfold pic_at, export_pixels. cbn [frame_data linesize].
      apply Ha; try assumption. apply elem_of_frame_coords. auto.
  - intros k Hk. unfold export_pixels. cbn [frame_data]. apply Hr.
    intros [i j] t Hc Ht. apply elem_of_frame_coords in Hc as [Hi Hj]. cbn [fst snd].
    apply Hk; assumption.
Qed.

Lemma export_frame_witness :
  pic_at (export_pixels 3 2 (pixels demo_ctx) (empty_frame 32 16)) 1 0 3 = 255 /\
  frame_data (export_pixels 3 2 (pixels demo_ctx) (empty_frame 32 16)) !!! 13%nat = 0.
Proof.
  assert (H1 : (4 * 3 <= linesize (empty_frame 32 16))%nat) by (cbn; lia).
  assert (H2 : (2 * linesize (empty_frame 32 16)
                <= length (frame_data (empty_frame 32 16)))%nat) by (cbn; lia).
  destruct (export_frame 3 2 (pixels demo_ctx) (empty_frame 32 16) H1 H2)
    as (_ & _ & Hp & Hk).
  split.
  - apply (Hp 1%nat 0%nat); lia.
  - rewrite Hk; [reflexivity|]. intros i j t Hi Hj Ht. cbn [empty_frame linesize]. lia.
Defined.

(** ** Counting exact lines *)

Lemma exact_lines_S err n :
  exact_lines err (S n)
  = exact_lines err n ++ (if err !!! n =? 0 then [n] else []).
Proof.
  unfold exact_lines. rewrite seq_S, filter_app. f_equal. cbn [Nat.add].
  rewrite filter_cons, filter_nil.
  destruct (err !!! n =? 0);
    destruct (decide _) as [? | ?]; congruence.
Qed.

Lemma exact_lines_le err n : (length (exact_lines err n) <= n)%nat.
Proof.
  induction n as [|n IH]; [cbn; lia|].
  rewrite exact_lines_S, length_app. destruct (err !!! n =? 0); cbn [length]; lia.
Qed.

Lemma exact_lines_full err n :
  length (exact_lines err n) = n -> forall k, (k < n)%nat -> err !!! k = 0.
Proof.
  induction n as [|n IH]; intros Hl k Hk; [lia|].
  rewrite exact_lines_S, length_app in Hl.
  pose proof (exact_lines_le err n).
  destruct (Z.eqb_spec (err !!! n) 0) as [Hz | Hnz]; cbn [length] in Hl; [|lia].
  destruct (decide (k = n)) as [-> | Hne]; [exact Hz|].
  apply IH; lia.
Qed.

Lemma exact_lines_all err n :
  (forall k, (k < n)%nat -> err !!! k = 0) -> length (exact_lines err n) = n.
Proof.
  induction n as [|n IH]; intros H; [reflexivity|].
  rewrite exact_lines_S, length_app, IH by (intros; apply H; lia).
  rewrite (H n) by lia. cbn. lia.
Qed.

Lemma exact_lines_step err err' c n :
  err !!! c <> 0 -> err' !!! c = 0 ->
  (forall k, (k < n)%nat -> k <> c -> (err' !!! k = 0 <-> err !!! k = 0)) ->
  length (exact_lines err' n)
  = (length (exact_lines err n) + if (c <? n)%nat then 1 else 0)%nat.
Proof.
  intros Hc Hc'. induction n as [|n IH]; intros H; [reflexivity|].
  rewrite !exact_lines_S, !length_app, IH by (intros; apply H; lia).
  destruct (decide (n = c)) as [-> | Hne].
  - destruct (Z.eqb_spec (err' !!! c) 0); [|contradiction].
    destruct (Z.eqb_spec (err !!! c) 0); [contradiction|].
    destruct (Nat.ltb_spec c c), (Nat.ltb_spec c (S c)); cbn [length]; lia.
  - pose proof (H n ltac:(lia) Hne) as Hn.
    destruct (Z.eqb_spec (err' !!! n) 0), (Z.eqb_spec (err !!! n) 0); try tauto;
      destruct (Nat.ltb_spec c n), (Nat.ltb_spec c (S n)); cbn [length]; lia.
Qed.

Lemma ruler_step_exact r len c err err' :
  (c < len)%nat -> ruler_step_at r len c err err' ->
  length (exact_lines err' len) = S (length (exact_lines err len)).
Proof.
  intros Hc (H0 & H1 & H).
  rewrite (exact_lines_step err err' c len H0 H1) by (intros k Hk Hne; apply H; assumption).
  destruct (Nat.ltb_spec c len); lia.
Qed.

(** Every cross point of a call is one more pixel on two exact lines. *)
Lemma updateLines_pairs width height pic r enc ctx ctx' :
  ctx_ok width height ctx -> (0 < width)%nat -> (0 < height)%nat ->
  r <= INT_MAX ->
  updateLines width height pic r enc ctx = Ok (ctx', true) ->
  exact_pairs width height ctx'
  = (exact_pairs width height ctx + perpendicular_exact width height ctx)%nat.
Proof.
  intros Hok Hw Hh Hr He.
  pose proof (updateLines_ruler_step _ _ _ _ _ _ _ Hok Hw Hh Hr He) as Hs.
  pose proof (select_index width height ctx Hw Hh) as Hi.
  unfold exact_pairs, perpendicular_exact.
  destruct (select width height ctx) as [| i | j]; [contradiction | |];
    destruct Hs as [Hsame Hstep]; rewrite Hsame;
    rewrite (ruler_step_exact _ _ _ _ _ Hi Hstep); lia.
Qed.

Lemma exact_pairs_le width height ctx :
  (exact_pairs width height ctx <= width * height)%nat.
Proof.
  unfold exact_pairs.
  pose proof (exact_lines_le (xError ctx) width).
  pose proof (exact_lines_le (yError ctx) height). nia.
Qed.

Lemma exact_pairs_full width height ctx :
  (0 < width)%nat -> (0 < height)%nat ->
  exact_pairs width height ctx = (width * height)%nat ->
  all_exact width height ctx.
Proof.
  intros Hw Hh He. unfold exact_pairs in He.
  pose proof (exact_lines_le (xError ctx) width).
  pose proof (exact_lines_le (yError ctx) height).
  split; apply exact_lines_full; nia.
Qed.

(** ** The canvas on exact lines *)

(** After an encoding call the pixel of every cross point is the pixel
    of the picture. *)
Lemma updateLines_paints width height pic r ctx ctx' p cs :
  ctx_ok width height ctx -> (0 < width)%nat -> (0 < height)%nat ->
  0 < r <= INT_MAX -> bytes_ok (frame_data pic) ->
  updateLines width height pic r true ctx = Ok (ctx', true) ->
  (p, cs) ∈ cross_points width height r ctx ->
  matches width pic (pixels ctx') p.
Proof.
  intros Hok Hw Hh Hr Hb He Hin.
  apply list_elem_of_lookup in Hin as [n Hn].
  pose proof (cross_points_fills_ok width height r ctx Hok Hw Hh ltac:(lia)) as Hf.
  pose proof (cross_points_apart width height r ctx Hw Hh) as Hap. cbv zeta in Hap.
  destruct Hap as [Hcen Hapart].
  rewrite updateLines_cross_points in He. unfold scan_cross_points in *.
  destruct (fill_rulers width height r ctx) as [[xE yE] maxError].
  destruct (forM_cross_samples width height pic r true xE yE maxError
              (cross_points width height r ctx) (scan_of ctx) Hf
              (ok_pxlen _ _ _ Hok) ltac:(unfold INT_MAX in *; lia) Hb Hcen Hapart)
    as (st' & Hst & Hv).
  rewrite Hst in He. cbn [mbind result_bind] in He.
  destruct (select width height ctx); [discriminate | |];
    injection He as <-; cbn [commit pixels];
    intros c Hc; destruct (Hv n (p, cs) Hn c Hc) as [V1 V2];
    cbn [fst snd] in *; rewrite V1; apply V2; reflexivity.
Qed.

(** An encoding call keeps the picture on the pixels of two exact
    lines. *)
Lemma updateLines_canvas_exact width height pic r ctx ctx' :
  ctx_ok width height ctx -> (0 < width)%nat -> (0 < height)%nat ->
  0 < r <= INT_MAX -> bytes_ok (frame_data pic) ->
  updateLines width height pic r true ctx = Ok (ctx', true) ->
  canvas_exact width height pic ctx -> canvas_exact width height pic ctx'.
Proof.
  intros Hok Hw Hh Hr Hb He Hinv [i j] [Hi Hj] Hx' Hy'. cbn [fst snd] in *.
  assert (Hr' : r <= INT_MAX) by lia.
  assert (Hkept : xError ctx !!! i = 0 -> yError ctx !!! j = 0 ->
                  matches width pic (pixels ctx') (i, j)).
  { intros Hx Hy k Hk.
    rewrite (updateLines_exact_kept _ _ _ _ _ _ _ (i, j) k Hok Hw Hh Hr' He);
      try assumption; [|split; assumption].
    apply (Hinv (i, j)); try assumption. split; assumption. }
  pose proof (updateLines_ruler_step _ _ _ _ _ _ _ Hok Hw Hh Hr' He) as Hs.
  pose proof (updateLines_paints width height pic r ctx ctx') as Hp.
  unfold cross_points in Hp.
  destruct (select width height ctx) as [| pi | pj]; [contradiction | |].
  - destruct Hs as [Hy (_ & _ & Hstep)]. rewrite Hy in Hy'.
    destruct (decide (i = pi)) as [-> | Hne].
    + eapply (Hp (pi, j)); try eassumption.
      apply list_elem_of_fmap. exists j. split; [reflexivity|].
      apply elem_of_exact_lines. auto.
    + apply Hkept; [|assumption]. apply (Hstep i Hi Hne). assumption.
  - destruct Hs as [Hx (_ & _ & Hstep)]. rewrite Hx in Hx'.
    destruct (decide (j = pj)) as [-> | Hne].
    + eapply (Hp (i, pj)); try eassumption.
      apply list_elem_of_fmap. exists i. split; [reflexivity|].
      apply elem_of_exact_lines. auto.
    + apply Hkept; [assumption|]. apply (Hstep j Hj Hne). assumption.
Qed.

(** ** The loop of the encoder, accounted *)

Lemma updateLines_false width height pic r enc ctx ctx' :
  ctx_ok width height ctx -> (0 < width)%nat -> (0 < height)%nat ->
  updateLines width height pic r enc ctx = Ok (ctx', false) ->
  ctx' = ctx /\ all_exact width height ctx.
Proof.
  intros Hok Hw Hh He. rewrite updateLines_select in He.
  destruct (select width height ctx) eqn:Hsel.
  - injection He as <-. split; [reflexivity|].
    apply select_nothing_iff; assumption.
  - destruct (column_major _ _ _ _ _ _ _); discriminate.
  - destruct (row_major _ _ _ _ _ _ _); discriminate.
Qed.

Lemma encode_loop_account fuel width height pic maxPixels : forall c cfin,
  ctx_ok width height c -> (0 < width)%nat -> (0 < height)%nat ->
  0 < radius c <= INT_MAX -> bytes_ok (frame_data pic) ->
  encode_loop fuel width height pic maxPixels c = Ok cfin ->
  ctx_ok width height cfin /\ same_config c cfin /\
  (pos cfin + 3 * exact_pairs width height c
   = pos c + 3 * exact_pairs width height cfin)%nat /\
  numPixels cfin + Z.of_nat (exact_pairs width height c)
  = numPixels c + Z.of_nat (exact_pairs width height cfin) /\
  (all_exact width height cfin \/ maxPixels <= numPixels cfin) /\
  (canvas_exact width height pic c -> canvas_exact width height pic cfin).
Proof.
  induction fuel as [|fuel IH]; intros c cfin Hok Hw Hh Hr Hb; cbn [encode_loop];
    [discriminate|].
  destruct (updateLines width height pic (radius c) true c) as [[c' more] | | |] eqn:Hu;
    cbn [mbind result_bind]; try discriminate.
  assert (Hr' : radius c <= INT_MAX) by lia.
  destruct (updateLines_ok _ _ _ _ _ _ _ _ Hok Hw Hh Hr' Hu) as [Hok' Hcfg].
  destruct more.
  - pose proof (updateLines_stream _ _ _ _ _ _ _ Hok Hw Hh Hr' Hu) as Hst.
    cbv zeta in Hst. destruct Hst as (P & N & _).
    pose proof (updateLines_pairs _ _ _ _ _ _ _ Hok Hw Hh Hr' Hu) as Hp.
    pose proof (updateLines_canvas_exact _ _ _ _ _ _ Hok Hw Hh Hr Hb Hu) as Hc.
    assert (Hone : Ok c' = Ok cfin ->
      maxPixels <= numPixels c' ->
      ctx_ok width height cfin /\ same_config c cfin /\
      (pos cfin + 3 * exact_pairs width height c
       = pos c + 3 * exact_pairs width height cfin)%nat /\
      numPixels cfin + Z.of_nat (exact_pairs width height c)
      = numPixels c + Z.of_nat (exact_pairs width height cfin) /\
      (all_exact width height cfin \/ maxPixels <= numPixels cfin) /\
      (canvas_exact width height pic c -> canvas_exact width height pic cfin)).
    { intros [= <-] Hn. repeat split; try apply Hok'; try apply Hcfg; auto; lia. }
    destruct (Z.ltb_spec (numPixels c') maxPixels) as [Hlt | Hge]; [|auto].
    intros Hl.
    destruct Hcfg as (Hrad & Hf & Hk & Hsz).
    destruct (IH c' cfin Hok' Hw Hh ltac:(rewrite Hrad; exact Hr) Hb Hl)
      as (Hok2 & (Hrad2 & Hf2 & Hk2 & Hsz2) & P2 & N2 & E2 & C2).
    split; [assumption|]. split; [repeat split; congruence|].
    split; [lia|]. split; [lia|]. split; [assumption | auto].
  - intros [= <-]. destruct (updateLines_false _ _ _ _ _ _ _ Hok Hw Hh Hu) as [-> Ha].
    split; [assumption|]. split; [repeat split|]. split; [lia|]. split; [lia|].
    split; [left; assumption | auto].
Qed.

(** ** [splash_encode], as a whole *)

(** The run of [splash_encode]: [ce1] is the context when the rulers
    are created and emitted, [ce2] the one the loop ends on. *)
Lemma splash_encode_run width height frame_number pic pkt ce :
  ctx_ok width height ce -> (0 < width)%nat -> (0 < height)%nat ->
  radius ce <= INT_MAX -> bytes_ok (frame_data pic) ->
  765 * Z.of_nat width <= INT_MAX -> 765 * Z.of_nat height <= INT_MAX ->
  exists ce1 ce2,
    ctx_ok width height ce1 /\ radius ce1 = radius ce /\ pixels ce1 = pixels ce /\
    pos ce1 = (3 * (width + height))%nat /\ numPixels ce1 = 0 /\
    (forall k, (k < width)%nat ->
       xError ce1 !!! k = column_error width height pic (pixels ce) k /\
       get_error (data ce1) (3 * k) = column_error width height pic (pixels ce) k) /\
    (forall k, (k < height)%nat ->
       yError ce1 !!! k = row_error width pic (pixels ce) k /\
       get_error (data ce1) (3 * width + 3 * k) = row_error width pic (pixels ce) k) /\
    encode_loop (loop_fuel width height) width height pic
                (maxPixels_of width height frame_number ce) ce1 = Ok ce2 /\
    splash_encode width height frame_number pic (inr pkt) ce
    = Ok (0, Some (packet_of (radius ce) ce2), ce2).
Proof.
  intros Hok Hw Hh Hr Hpic Ow Oh.
  pose proof (column_error_bounds width height pic (pixels ce)) as BX.
  pose proof (row_error_bounds width pic (pixels ce)) as BY.
  pose proof (ok_px _ _ _ Hok) as Hbytes.
  unfold splash_encode.
  set (d0 := fun k => pkt_data pkt (HEADER_LENGTH + k)%nat).
  pose proof (emit_ruler (column_error width height pic (pixels ce)) width
                (xError ce) d0 0%nat ltac:(rewrite (ok_xlen _ _ _ Hok); lia)) as EX.
  cbv zeta in EX.
  destruct (foldl (emit_step (column_error width height pic (pixels ce)))
              (xError ce, d0, 0%nat) (seq 0 width)) as [[xE d1] p1].
  cbn [fst snd] in EX. destruct EX as (XL & XP & XV & XF & XG).
  pose proof (emit_ruler (row_error width pic (pixels ce)) height
                (yError ce) d1 p1 ltac:(rewrite (ok_ylen _ _ _ Hok); lia)) as EY.
  cbv zeta in EY.
  destruct (foldl (emit_step (row_error width pic (pixels ce)))
              (yError ce, d1, p1) (seq 0 height)) as [[yE d2] p2].
  cbn [fst snd] in EY. destruct EY as (YL & YP & YV & YF & YG).
  rewrite (ok_xlen _ _ _ Hok) in XL. rewrite (ok_ylen _ _ _ Hok) in YL.
  set (ce1 := {| radius := radius ce; ppf := ppf ce; ppk := ppk ce;
                 xError := xE; yError := yE; pixels := pixels ce;
                 data := d2; pos := p2;
                 size := pkt_size pkt - Z.of_nat HEADER_LENGTH;
                 numPixels := 0 |}).
  assert (Hok1 : ctx_ok width height ce1).
  { constructor; cbn [ce1 xError yError pixels]; try assumption.
    - apply (ok_pxlen _ _ _ Hok).
    - apply (emitted_ruler_ok _ width _ XL XV). intros k. apply BX; assumption.
    - apply (emitted_ruler_ok _ height _ YL YV). intros k. apply BY; assumption. }
  destruct (encode_loop_ends (loop_fuel width height) width height pic
              (maxPixels_of width height frame_number ce1) ce1 Hok1 Hw Hh)
    as (ce2 & Hl & _).
  { exact Hr. }
  { pose proof (todo_le width height ce1 Hok1). unfold loop_fuel. lia. }
  rewrite Hl. cbn [mbind result_bind].
  exists ce1, ce2. split; [exact Hok1|]. split; [reflexivity|].
  split; [reflexivity|]. split; [cbn [ce1 pos]; lia|]. split; [reflexivity|].
  split; [|split; [|split; [exact Hl | reflexivity]]].
  - intros k Hk. cbn [ce1 xError data]. split.
    + rewrite XV by assumption. apply u32_small.
      pose proof (BX k Hbytes Hpic Oh). lia.
    + rewrite <- (XG k Hk) by (apply BX; assumption).
      apply get_error_ext. intros c Hc. apply YF. lia.
  - intros k Hk. cbn [ce1 yError data]. split.
    + rewrite YV by assumption. apply u32_small.
      pose proof (BY k Hbytes Hpic Ow). lia.
    + rewrite <- (YG k Hk) by (apply BY; assumption). f_equal. lia.
Qed.

Lemma get_error_shift d d' p p' :
  (forall c, (c < 3)%nat -> d' (p' + c)%nat = d (p + c)%nat) ->
  get_error d' p' = get_error d p.
Proof.
  intros H. unfold get_error.
  pose proof (H 0%nat ltac:(lia)) as H0. rewrite !Nat.add_0_r in H0.
  rewrite H0, (H 1%nat), (H 2%nat) by lia. reflexivity.
Qed.

Lemma packet_of_data r ctx k :
  pkt_data (packet_of r ctx) (HEADER_LENGTH + k)%nat = data ctx k.
Proof.
  unfold packet_of. cbn [pkt_data]. unfold HEADER_LENGTH.
  destruct (Nat.ltb_spec (12 + k) 12); [lia|]. f_equal. lia.
Qed.

(** X13. [splash_encode] on a well-formed context, a picture of bytes
    and dimensions whose sums stay within [int]: it returns 0 and a
    packet whose first 12 bytes are the header (length 12, the magic,
    version 1, the low byte of the radius, 0), followed by the errors of
    the columns and of the rows as the encoder computed them from its
    canvas, three bytes each, and by three bytes a sample: the size of
    the packet is [12 + 3 * (width + height) + 3 * numPixels]. *)
Theorem encode_packet_layout width height frame_number pic pkt ce :
  ctx_ok width height ce -> (0 < width)%nat -> (0 < height)%nat ->
  0 < radius ce <= INT_MAX -> bytes_ok (frame_data pic) ->
  765 * Z.of_nat width <= INT_MAX -> 765 * Z.of_nat height <= INT_MAX ->
  exists ce',
    let P := packet_of (radius ce) ce' in
    splash_encode width height frame_number pic (inr pkt) ce = Ok (0, Some P, ce') /\
    ctx_ok width height ce' /\
    pkt_data P <$> seq 0 HEADER_LENGTH
    = [12; 0; 0; 115; 112; 108; 97; 115; 104; 1; u8 (radius ce); 0] /\
    (forall k, (k < width)%nat ->
       get_error (pkt_data P) (HEADER_LENGTH + 3 * k)
       = column_error width height pic (pixels ce) k) /\
    (forall k, (k < height)%nat ->
       get_error (pkt_data P) (HEADER_LENGTH + 3 * width + 3 * k)
       = row_error width pic (pixels ce) k) /\
    pkt_size P = 12 + 3 * Z.of_nat (width + height) + 3 * numPixels ce'.
Proof.
  intros Hok Hw Hh Hr Hpic Ow Oh.
  destruct (splash_encode_run width height frame_number pic pkt ce Hok Hw Hh
              ltac:(lia) Hpic Ow Oh)
    as (ce1 & ce2 & Hok1 & Hrad & Hpx & Hpos & Hnum & HX & HY & Hl & He).
  destruct (encode_loop_account _ _ _ _ _ _ _ Hok1 Hw Hh ltac:(rewrite Hrad; exact Hr)
              Hpic Hl) as (Hok2 & _ & P & N & _).
  pose proof (encode_loop_frame _ _ _ _ _ _ _ Hl) as (_ & Dfin & _).
  exists ce2. cbv zeta. split; [exact He|]. split; [exact Hok2|].
  split; [reflexivity|]. split; [|split].
  - intros k Hk. rewrite <- (proj2 (HX k Hk)). apply get_error_shift.
    intros c Hc. replace (HEADER_LENGTH + 3 * k + c)%nat
      with (HEADER_LENGTH + (3 * k + c))%nat by lia.
    rewrite packet_of_data. apply Dfin. lia.
  - intros k Hk. rewrite <- (proj2 (HY k Hk)). apply get_error_shift.
    intros c Hc. replace (HEADER_LENGTH + 3 * width + 3 * k + c)%nat
      with (HEADER_LENGTH + (3 * width + 3 * k + c))%nat by lia.
    rewrite packet_of_data. apply Dfin. lia.
  - unfold packet_of. cbn [pkt_size]. unfold HEADER_LENGTH. lia.
Qed.

Lemma encode_packet_layout_witness :
  exists ce',
    splash_encode 3 2 0 demo_pic (inr (fresh_packet 3 2)) demo_ctx
    = Ok (0, Some (packet_of 2 ce'), ce') /\
    pkt_size (packet_of 2 ce') = 12 + 3 * Z.of_nat (3 + 2) + 3 * numPixels ce'.
Proof.
  assert (Hb : bytes_ok (frame_data demo_pic)).
  { unfold bytes_ok. cbn. repeat constructor; lia. }
  assert (H1 : (0 < 3)%nat) by lia. assert (H2 : (0 < 2)%nat) by lia.
  assert (H3 : 0 < radius demo_ctx <= INT_MAX) by (cbn; unfold INT_MAX; lia).
  assert (H4 : 765 * Z.of_nat 3 <= INT_MAX) by (unfold INT_MAX; lia).
  assert (H5 : 765 * Z.of_nat 2 <= INT_MAX) by (unfold INT_MAX; lia).
  destruct (encode_packet_layout 3 2 0 demo_pic (fresh_packet 3 2) demo_ctx
              demo_ctx_ok H1 H2 H3 Hb H4 H5) as (ce' & He & _ & _ & _ & _ & Hs).
  exists ce'. split; [exact He | exact Hs].
Defined.

(** X14. A frame emits at most one sample for every pixel of the
    picture: the count of samples is at most the number of pixels on two
    exact lines, hence at most [width * height], and the packet is
    smaller than the worst-case buffer the encoder allocates for it. *)
Theorem encode_fits_buffer width height frame_number pic pkt ce :
  ctx_ok width height ce -> (0 < width)%nat -> (0 < height)%nat ->
  0 < radius ce <= INT_MAX -> bytes_ok (frame_data pic) ->
  765 * Z.of_nat width <= INT_MAX -> 765 * Z.of_nat height <= INT_MAX ->
  exists pkt' ce',
    splash_encode width height frame_number pic (inr pkt) ce
    = Ok (0, Some pkt', ce') /\
    0 <= numPixels ce' <= Z.of_nat (width * height) /\
    Z.of_nat (exact_pairs width height ce') <= Z.of_nat (width * height) /\
    numPixels ce' <= Z.of_nat (exact_pairs width height ce') /\
    pkt_size pkt'
    < Z.of_nat ((HEADER_LENGTH + width + height + width * height) * 3).
Proof.
  intros Hok Hw Hh Hr Hpic Ow Oh.
  destruct (splash_encode_run width height frame_number pic pkt ce Hok Hw Hh
              ltac:(lia) Hpic Ow Oh)
    as (ce1 & ce2 & Hok1 & Hrad & Hpx & Hpos & Hnum & HX & HY & Hl & He).
  destruct (encode_loop_account _ _ _ _ _ _ _ Hok1 Hw Hh ltac:(rewrite Hrad; exact Hr)
              Hpic Hl) as (Hok2 & _ & P & N & _).
  pose proof (exact_pairs_le width height ce2) as Hle.
  pose proof (encode_loop_frame _ _ _ _ _ _ _ Hl) as (Hmono & _).
  exists (packet_of (radius ce) ce2), ce2. split; [exact He|].
  split; [lia|]. split; [lia|]. split; [lia|].
  unfold packet_of. cbn [pkt_size]. unfold HEADER_LENGTH. lia.
Qed.

Lemma encode_fits_buffer_witness :
  exists pkt' ce',
    splash_encode 3 2 0 demo_pic (inr (fresh_packet 3 2)) demo_ctx
    = Ok (0, Some pkt', ce') /\
    pkt_size pkt' < pkt_size (fresh_packet 3 2).
Proof.
  assert (Hb : bytes_ok (frame_data demo_pic)).
  { unfold bytes_ok. cbn. repeat constructor; lia. }
  assert (H1 : (0 < 3)%nat) by lia. assert (H2 : (0 < 2)%nat) by lia.
  assert (H3 : 0 < radius demo_ctx <= INT_MAX) by (cbn; unfold INT_MAX; lia).
  assert (H4 : 765 * Z.of_nat 3 <= INT_MAX) by (unfold INT_MAX; lia).
  assert (H5 : 765 * Z.of_nat 2 <= INT_MAX) by (unfold INT_MAX; lia).
  destruct (encode_fits_buffer 3 2 0 demo_pic (fresh_packet 3 2) demo_ctx
              demo_ctx_ok H1 H2 H3 Hb H4 H5) as (pkt' & ce' & He & _ & _ & _ & Hs).
  exists pkt', ce'. split; [exact He | exact Hs].
Defined.

Lemma run_canvas_exact width height pic ce ce1 :
  bytes_ok (pixels ce) -> bytes_ok (frame_data pic) ->
  765 * Z.of_nat width <= INT_MAX -> 765 * Z.of_nat height <= INT_MAX ->
  pixels ce1 = pixels ce ->
  (forall k, (k < width)%nat ->
     xError ce1 !!! k = column_error width height pic (pixels ce) k) ->
  canvas_exact width height pic ce1.
Proof.
  intros Hpx Hpic Ow Oh Hsame HX [i j] [Hi Hj] Hx _. cbn [fst snd] in *.
  rewrite (HX i Hi) in Hx. rewrite Hsame.
  apply (proj1 (column_error_zero width height pic (pixels ce) i Hpx Hpic Oh) Hx j Hj).
Qed.

(** X17. After [splash_encode] every pixel of the canvas whose column
    and row are both exact holds the picture; and when the budget of the
    frame is at least [width * height] the encoder goes on until every
    line is exact, so that the whole canvas is the picture: the final
    comparison of the encoder finds no difference. *)
Theorem encode_lossless width height frame_number pic pkt ce :
  ctx_ok width height ce -> (0 < width)%nat -> (0 < height)%nat ->
  0 < radius ce <= INT_MAX -> bytes_ok (frame_data pic) ->
  765 * Z.of_nat width <= INT_MAX -> 765 * Z.of_nat height <= INT_MAX ->
  exists pkt' ce',
    splash_encode width height frame_number pic (inr pkt) ce
    = Ok (0, Some pkt', ce') /\
    (forall c, in_canvas width height c ->
       xError ce' !!! c.1 = 0 -> yError ce' !!! c.2 = 0 ->
       matches width pic (pixels ce') c) /\
    (Z.of_nat (width * height) <= maxPixels_of width height frame_number ce ->
     all_exact width height ce' /\
     forall c, in_canvas width height c -> matches width pic (pixels ce') c).
Proof.
  intros Hok Hw Hh Hr Hpic Ow Oh.
  destruct (splash_encode_run width height frame_number pic pkt ce Hok Hw Hh
              ltac:(lia) Hpic Ow Oh)
    as (ce1 & ce2 & Hok1 & Hrad & Hpx & Hpos & Hnum & HX & HY & Hl & He).
  destruct (encode_loop_account _ _ _ _ _ _ _ Hok1 Hw Hh ltac:(rewrite Hrad; exact Hr)
              Hpic Hl) as (Hok2 & _ & P & N & Hend & Hinv).
  assert (Hex : canvas_exact width height pic ce2).
  { apply Hinv. apply (run_canvas_exact width height pic ce ce1); try assumption.
    - apply Hok.
    - intros k Hk. apply HX. assumption. }
  exists (packet_of (radius ce) ce2), ce2. split; [exact He|]. split; [exact Hex|].
  intros Hmax.
  assert (Hall : all_exact width height ce2).
  { destruct Hend as [Ha | Hn]; [exact Ha|].
    pose proof (exact_pairs_le width height ce2) as Hle.
    pose proof (encode_loop_frame _ _ _ _ _ _ _ Hl) as (Hmono & _).
    apply exact_pairs_full; try assumption. lia. }
  split; [exact Hall|]. intros c Hc. destruct Hall as [Hx Hy].
  apply Hex; [assumption | apply Hx, Hc | apply Hy, Hc].
Qed.

Lemma encode_lossless_witness :
  exists pkt' ce',
    splash_encode 3 2 1 demo_pic (inr (fresh_packet 3 2)) demo_ctx
    = Ok (0, Some pkt', ce') /\
    all_exact 3 2 ce' /\
    forall c, in_canvas 3 2 c -> matches 3 demo_pic (pixels ce') c.
Proof.
  assert (Hb : bytes_ok (frame_data demo_pic)).
  { unfold bytes_ok. cbn. repeat constructor; lia. }
  assert (H1 : (0 < 3)%nat) by lia. assert (H2 : (0 < 2)%nat) by lia.
  assert (H3 : 0 < radius demo_ctx <= INT_MAX) by (cbn; unfold INT_MAX; lia).
  assert (H4 : 765 * Z.of_nat 3 <= INT_MAX) by (unfold INT_MAX; lia).
  assert (H5 : 765 * Z.of_nat 2 <= INT_MAX) by (unfold INT_MAX; lia).
  assert (H6 : Z.of_nat (3 * 2) <= maxPixels_of 3 2 1 demo_ctx)
    by (vm_compute; discriminate).
  destruct (encode_lossless 3 2 1 demo_pic (fresh_packet 3 2) demo_ctx
              demo_ctx_ok H1 H2 H3 Hb H4 H5) as (pkt' & ce' & He & _ & Hall).
  exists pkt', ce'. split; [exact He | exact (Hall H6)].
Defined.

(** X18. When the canvas holds the picture already, [splash_encode]
    finds every error zero: the engine returns at once, no sample is
    emitted, the canvas stays as it is and the packet is the header and
    the rulers, all zero, [12 + 3 * (width + height)] bytes. *)
Theorem encode_exact_picture width height frame_number pic pkt ce :
  ctx_ok width height ce -> (0 < width)%nat -> (0 < height)%nat ->
  radius ce <= INT_MAX -> bytes_ok (frame_data pic) ->
  765 * Z.of_nat width <= INT_MAX -> 765 * Z.of_nat height <= INT_MAX ->
  (forall c, in_canvas width height c -> matches width pic (pixels ce) c) ->
  exists ce',
    let P := packet_of (radius ce) ce' in
    splash_encode width height frame_number pic (inr pkt) ce = Ok (0, Some P, ce') /\
    pixels ce' = pixels ce /\ numPixels ce' = 0 /\ all_exact width height ce' /\
    pkt_size P = 12 + 3 * Z.of_nat (width + height) /\
    (forall k, (k < width + height)%nat ->
       get_error (pkt_data P) (HEADER_LENGTH + 3 * k) = 0).
Proof.
  intros Hok Hw Hh Hr Hpic Ow Oh Hm.
  destruct (splash_encode_run width height frame_number pic pkt ce Hok Hw Hh
              Hr Hpic Ow Oh)
    as (ce1 & ce2 & Hok1 & Hrad & Hpx & Hpos & Hnum & HX & HY & Hl & He).
  assert (HX0 : forall k, (k < width)%nat ->
                  column_error width height pic (pixels ce) k = 0).
  { intros k Hk. apply column_error_zero; try assumption; [apply Hok|].
    intros j Hj. apply Hm. split; assumption. }
  assert (HY0 : forall k, (k < height)%nat ->
                  row_error width pic (pixels ce) k = 0).
  { intros k Hk. apply row_error_zero; try assumption; [apply Hok|].
    intros i Hi. apply Hm. split; assumption. }
  assert (Hall : all_exact width height ce1).
  { split; intros k Hk.
    - rewrite (proj1 (HX k Hk)). auto.
    - rewrite (proj1 (HY k Hk)). auto. }
  assert (ce2 = ce1) as ->.
  { unfold loop_fuel in Hl. cbn [encode_loop] in Hl.
    pose proof (updateLines_spec width height pic (radius ce1) true ce1 Hok1 Hw Hh
                  ltac:(rewrite Hrad; exact Hr)) as Hu.
    rewrite (proj2 (select_nothing_iff width height ce1 Hok1 Hw Hh) Hall) in Hu.
    rewrite Hu in Hl. cbn [mbind result_bind] in Hl. congruence. }
  exists ce1. cbv zeta. split; [exact He|]. split; [exact Hpx|]. split; [exact Hnum|].
  split; [exact Hall|]. split.
  - unfold packet_of. cbn [pkt_size]. unfold HEADER_LENGTH. lia.
  - intros k Hk. destruct (decide (k < width)%nat) as [Hlt | Hge].
    + rewrite <- (HX0 k Hlt), <- (proj2 (HX k Hlt)). apply get_error_shift.
      intros c Hc. replace (HEADER_LENGTH + 3 * k + c)%nat
        with (HEADER_LENGTH + (3 * k + c))%nat by lia.
      apply packet_of_data.
    + rewrite <- (HY0 (k - width)%nat ltac:(lia)),
        <- (proj2 (HY (k - width)%nat ltac:(lia))). apply get_error_shift.
      intros c Hc. replace (HEADER_LENGTH + 3 * k + c)%nat
        with (HEADER_LENGTH + (3 * width + 3 * (k - width) + c))%nat by lia.
      apply packet_of_data.
Qed.

Lemma encode_exact_picture_witness :
  exists ce',
    splash_encode 1 1 0 gray_pixel (inr (fresh_packet 1 1)) pixel_ctx
    = Ok (0, Some (packet_of 1 ce'), ce') /\
    numPixels ce' = 0 /\ pkt_size (packet_of 1 ce') = 18.
Proof.
  assert (Hok : ctx_ok 1 1 pixel_ctx).
  { constructor; try reflexivity; cbn; unfold ruler_ok, bytes_ok;
      repeat constructor; lia. }
  assert (Hb : bytes_ok (frame_data gray_pixel)).
  { unfold bytes_ok. cbn. repeat constructor; lia. }
  assert (H1 : (0 < 1)%nat) by lia.
  assert (H3 : radius pixel_ctx <= INT_MAX) by (cbn; unfold INT_MAX; lia).
  assert (H4 : 765 * Z.of_nat 1 <= INT_MAX) by (unfold INT_MAX; lia).
  assert (Hm : forall c, in_canvas 1 1 c -> matches 1 gray_pixel (pixels pixel_ctx) c).
  { intros [i j] [Hi Hj] k Hk. cbn [fst snd] in *.
    assert (i = 0)%nat as -> by lia. assert (j = 0)%nat as -> by lia.
    assert (k = 0 \/ k = 1 \/ k = 2)%nat as [-> | [-> | ->]] by lia; reflexivity. }
  destruct (encode_exact_picture 1 1 0 gray_pixel (fresh_packet 1 1) pixel_ctx
              Hok H1 H1 H3 Hb H4 H4 Hm) as (ce' & He & _ & Hn & _ & Hs & _).
  exists ce'. split; [exact He|]. split; [exact Hn | exact Hs].
Defined.

(** ** The loops, bounded *)

Lemma encode_loop_fuel fuel width height pic maxPixels : forall fuel' c cfin,
  encode_loop fuel width height pic maxPixels c = Ok cfin ->
  (fuel <= fuel')%nat ->
  encode_loop fuel' width height pic maxPixels c = Ok cfin.
Proof.
  induction fuel as [|fuel IH]; intros fuel' c cfin; cbn [encode_loop]; [discriminate|].
  intros He Hle. destruct fuel' as [|fuel']; [lia|]. cbn [encode_loop].
  destruct (updateLines width height pic (radius c) true c) as [[c' more] | | |];
    cbn [mbind result_bind] in *; try discriminate.
  destruct more; [|assumption].
  destruct (numPixels c' <? maxPixels); [|assumption].
  apply IH; [assumption | lia].
Qed.

Lemma decode_loop_fuel fuel width height pic r : forall fuel' c cfin,
  decode_loop fuel width height pic r c = Ok cfin ->
  (fuel <= fuel')%nat ->
  decode_loop fuel' width height pic r c = Ok cfin.
Proof.
  induction fuel as [|fuel IH]; intros fuel' c cfin; cbn [decode_loop]; [discriminate|].
  intros He Hle. destruct fuel' as [|fuel']; [lia|]. cbn [decode_loop].
  destruct (updateLines width height pic r false c) as [[c' more] | | |];
    cbn [mbind result_bind] in *; try discriminate.
  destruct more; [|assumption].
  destruct (Z.of_nat (pos c') <? size c'); [|assumption].
  apply IH; [assumption | lia].
Qed.

Lemma iterations_todo width height c c' :
  (0 < width)%nat -> (0 < height)%nat ->
  rtc (iteration width height) c c' -> ctx_ok width height c ->
  ctx_ok width height c' /\ (todo c' <= todo c)%nat.
Proof.
  intros Hw Hh Hrtc. induction Hrtc as [c | c c1 c2 Hit Hrtc IH]; intros Hok.
  - split; [assumption | lia].
  - destruct Hit as (pic' & r' & enc & Hr' & He).
    destruct (updateLines_ok _ _ _ _ _ _ _ _ Hok Hw Hh Hr' He) as [Hok1 _].
    pose proof (iteration_todo _ _ _ _ _ _ _ Hok Hw Hh Hr' He) as Ht.
    destruct (IH Hok1) as [Hok2 Hle]. split; [assumption | lia].
Qed.

(** X19. The loops of the encoder and of the decoder end within one
    call of the engine for every line that is not exact, and one more:
    at most [width + height + 1] calls a frame.  More turns allowed
    change nothing, and the lines still inexact at the end are at most
    those at the start. *)
Theorem frame_loops_bounded width height pic r maxPixels ctx fuel :
  ctx_ok width height ctx -> (0 < width)%nat -> (0 < height)%nat ->
  radius ctx <= INT_MAX -> r <= INT_MAX -> (todo ctx < fuel)%nat ->
  (todo ctx <= width + height)%nat /\
  (exists c, encode_loop (S (todo ctx)) width height pic maxPixels ctx = Ok c /\
             encode_loop fuel width height pic maxPixels ctx = Ok c /\
             ctx_ok width height c /\ (todo c <= todo ctx)%nat) /\
  (exists c, decode_loop (S (todo ctx)) width height pic r ctx = Ok c /\
             decode_loop fuel width height pic r ctx = Ok c /\
             ctx_ok width height c /\ (todo c <= todo ctx)%nat).
Proof.
  intros Hok Hw Hh Hrad Hr Hfuel.
  assert (Hmono : forall c, rtc (iteration width height) ctx c ->
                            ctx_ok width height c /\ (todo c <= todo ctx)%nat).
  { intros c Hrtc. apply (iterations_todo width height ctx c Hw Hh Hrtc Hok). }
  split; [apply todo_le; assumption|]. split.
  - destruct (encode_loop_ends (S (todo ctx)) width height pic maxPixels ctx
                Hok Hw Hh Hrad ltac:(lia)) as (c & He & _ & Hrtc).
    exists c. split; [exact He|].
    split; [apply (encode_loop_fuel _ _ _ _ _ _ _ _ He); lia|]. apply Hmono, Hrtc.
  - destruct (decode_loop_ends (S (todo ctx)) width height pic r ctx
                Hok Hw Hh Hr ltac:(lia)) as (c & He & _ & Hrtc).
    exists c. split; [exact He|].
    split; [apply (decode_loop_fuel _ _ _ _ _ _ _ _ He); lia|]. apply Hmono, Hrtc.
Qed.

Lemma frame_loops_bounded_witness :
  exists c, encode_loop 3 3 2 demo_pic 3 demo_ctx = Ok c /\
            encode_loop (loop_fuel 3 2) 3 2 demo_pic 3 demo_ctx = Ok c.
Proof.
  assert (H1 : (0 < 3)%nat) by lia. assert (H2 : (0 < 2)%nat) by lia.
  assert (H3 : radius demo_ctx <= INT_MAX) by (cbn; unfold INT_MAX; lia).
  assert (H4 : 2 <= INT_MAX) by (unfold INT_MAX; lia).
  assert (H5 : (todo demo_ctx < loop_fuel 3 2)%nat) by (vm_compute; lia).
  destruct (frame_loops_bounded 3 2 demo_pic 2 3 demo_ctx (loop_fuel 3 2)
              demo_ctx_ok H1 H2 H3 H4 H5) as (_ & (c & E1 & E2 & _) & _).
  exists c. split; [exact E1 | exact E2].
Defined.

(** ** The loop of the decoder, accounted *)

Lemma decode_loop_account fuel width height pic r : forall c cfin,
  ctx_ok width height c -> (0 < width)%nat -> (0 < height)%nat ->
  r <= INT_MAX ->
  decode_loop fuel width height pic r c = Ok cfin ->
  ctx_ok width height cfin /\ same_config c cfin /\
  (pos c <= pos cfin)%nat /\
  (pos cfin + 3 * exact_pairs width height c
   = pos c + 3 * exact_pairs width height cfin)%nat /\
  numPixels cfin = numPixels c /\ data cfin = data c /\
  (all_exact width height cfin \/ size c <= Z.of_nat (pos cfin)).
Proof.
  induction fuel as [|fuel IH]; intros c cfin Hok Hw Hh Hr; cbn [decode_loop];
    [discriminate|].
  destruct (updateLines width height pic r false c) as [[c' more] | | |] eqn:Hu;
    cbn [mbind result_bind]; try discriminate.
  destruct (updateLines_ok _ _ _ _ _ _ _ _ Hok Hw Hh Hr Hu) as [Hok' Hcfg].
  destruct more.
  - pose proof (updateLines_stream _ _ _ _ _ _ _ Hok Hw Hh Hr Hu) as Hst.
    cbv zeta in Hst. destruct Hst as (P & N & _ & D). specialize (D eq_refl).
    pose proof (updateLines_pairs _ _ _ _ _ _ _ Hok Hw Hh Hr Hu) as Hp.
    destruct Hcfg as (Hrad & Hf & Hk & Hsz).
    destruct (Z.ltb_spec (Z.of_nat (pos c')) (size c')) as [Hlt | Hge].
    + intros Hl.
      destruct (IH c' cfin Hok' Hw Hh Hr Hl)
        as (Hok2 & (Hrad2 & Hf2 & Hk2 & Hsz2) & M2 & P2 & N2 & D2 & E2).
      split; [assumption|]. split; [repeat split; congruence|].
      split; [lia|]. split; [lia|]. split; [lia|]. split; [congruence|].
      destruct E2 as [E2 | E2]; [left; assumption | right; lia].
    + intros [= <-]. split; [assumption|]. split; [repeat split; assumption|].
      split; [lia|]. split; [lia|]. split; [lia|]. split; [assumption|]. right. lia.
  - intros [= <-]. destruct (updateLines_false _ _ _ _ _ _ _ Hok Hw Hh Hu) as [-> Ha].
    split; [assumption|]. split; [repeat split|]. split; [lia|]. split; [lia|].
    split; [reflexivity|]. split; [reflexivity|]. left. assumption.
Qed.

(** ** The budget of a frame *)

Lemma perpendicular_exact_le width height ctx :
  (perpendicular_exact width height ctx <= Nat.max width height)%nat.
Proof.
  unfold perpendicular_exact.
  pose proof (exact_lines_le (xError ctx) width).
  pose proof (exact_lines_le (yError ctx) height).
  destruct (select width height ctx); lia.
Qed.

Lemma encode_loop_budget fuel width height pic maxPixels : forall c cfin,
  ctx_ok width height c -> (0 < width)%nat -> (0 < height)%nat ->
  radius c <= INT_MAX ->
  encode_loop fuel width height pic maxPixels c = Ok cfin ->
  numPixels c <= numPixels cfin
  <= Z.max (numPixels c) (maxPixels - 1) + Z.of_nat (Nat.max width height).
Proof.
  induction fuel as [|fuel IH]; intros c cfin Hok Hw Hh Hr; cbn [encode_loop];
    [discriminate|].
  destruct (updateLines width height pic (radius c) true c) as [[c' more] | | |] eqn:Hu;
    cbn [mbind result_bind]; try discriminate.
  destruct (updateLines_ok _ _ _ _ _ _ _ _ Hok Hw Hh Hr Hu) as [Hok' (Hrad & _)].
  destruct more.
  - pose proof (updateLines_stream _ _ _ _ _ _ _ Hok Hw Hh Hr Hu) as Hst.
    cbv zeta in Hst. destruct Hst as (_ & N & _).
    pose proof (perpendicular_exact_le width height c) as Hn.
    destruct (Z.ltb_spec (numPixels c') maxPixels) as [Hlt | Hge].
    + intros Hl. pose proof (IH c' cfin Hok' Hw Hh ltac:(rewrite Hrad; exact Hr) Hl). lia.
    + intros [= <-]. lia.
  - intros [= <-]. destruct (updateLines_false _ _ _ _ _ _ _ Hok Hw Hh Hu) as [-> _]. lia.
Qed.

(** X15. The encoder stops a frame when it has emitted its budget of
    pixels or when every line is exact, whichever comes first; it
    overshoots the budget by less than the samples of one iteration, at
    most the larger of the width and the height. *)
Theorem encode_budget width height frame_number pic pkt ce :
  ctx_ok width height ce -> (0 < width)%nat -> (0 < height)%nat ->
  0 < radius ce <= INT_MAX -> bytes_ok (frame_data pic) ->
  765 * Z.of_nat width <= INT_MAX -> 765 * Z.of_nat height <= INT_MAX ->
  let budget := maxPixels_of width height frame_number ce in
  exists pkt' ce',
    splash_encode width height frame_number pic (inr pkt) ce
    = Ok (0, Some pkt', ce') /\
    numPixels ce' <= Z.max 0 (budget - 1) + Z.of_nat (Nat.max width height) /\
    (all_exact width height ce' \/ budget <= numPixels ce').
Proof.
  intros Hok Hw Hh Hr Hpic Ow Oh. cbv zeta.
  destruct (splash_encode_run width height frame_number pic pkt ce Hok Hw Hh
              ltac:(lia) Hpic Ow Oh)
    as (ce1 & ce2 & Hok1 & Hrad & Hpx & Hpos & Hnum & HX & HY & Hl & He).
  destruct (encode_loop_account _ _ _ _ _ _ _ Hok1 Hw Hh ltac:(rewrite Hrad; exact Hr)
              Hpic Hl) as (_ & _ & _ & _ & Hend & _).
  pose proof (encode_loop_budget _ _ _ _ _ _ _ Hok1 Hw Hh ltac:(rewrite Hrad; lia) Hl)
    as Hb. rewrite Hnum in Hb.
  exists (packet_of (radius ce) ce2), ce2. split; [exact He|]. split; [lia | exact Hend].
Qed.

Lemma encode_budget_witness :
  exists pkt' ce',
    splash_encode 3 2 0 demo_pic (inr (fresh_packet 3 2)) demo_ctx
    = Ok (0, Some pkt', ce') /\
    numPixels ce' <= 5.
Proof.
  assert (Hb : bytes_ok (frame_data demo_pic)).
  { unfold bytes_ok. cbn. repeat constructor; lia. }
  assert (H1 : (0 < 3)%nat) by lia. assert (H2 : (0 < 2)%nat) by lia.
  assert (H3 : 0 < radius demo_ctx <= INT_MAX) by (cbn; unfold INT_MAX; lia).
  assert (H4 : 765 * Z.of_nat 3 <= INT_MAX) by (unfold INT_MAX; lia).
  assert (H5 : 765 * Z.of_nat 2 <= INT_MAX) by (unfold INT_MAX; lia).
  assert (H6 : maxPixels_of 3 2 0 demo_ctx = 3) by (vm_compute; reflexivity).
  destruct (encode_budget 3 2 0 demo_pic (fresh_packet 3 2) demo_ctx
              demo_ctx_ok H1 H2 H3 Hb H4 H5) as (pkt' & ce' & He & Hn & _).
  exists pkt', ce'. split; [exact He|]. rewrite H6 in Hn. cbn in Hn. lia.
Defined.

(** X16. The budget of pixels of a frame, for whole values of [ppk]
    and [ppf] and a picture of less than [2 ^ 24] pixels: frame 0 uses
    [ppk], every other frame [ppf], and the budget is between 0 and the
    number of pixels divided by it, rounded up. *)
Theorem max_pixels_bound width height frame_number ctx cf ck :
  ppf ctx = F32.of_int cf -> ppk ctx = F32.of_int ck ->
  1 <= cf < 2 ^ 24 -> 1 <= ck < 2 ^ 24 ->
  Z.of_nat width * Z.of_nat height < 2 ^ 24 ->
  let c := if frame_number =? 0 then ck else cf in
  0 <= maxPixels_of width height frame_number ctx
  <= (Z.of_nat width * Z.of_nat height + c - 1) / c.
Proof.
  intros Hf Hk Hcf Hck Hwh. cbv zeta. unfold maxPixels_of. rewrite Hf, Hk.
  set (n := Z.of_nat width * Z.of_nat height) in *.
  assert (Hn : 0 <= n) by (unfold n; lia).
  rewrite s32_small by lia.
  assert (Hb : forall c, 1 <= c < 2 ^ 24 ->
            0 <= round_int (F64.of_float (F32.div (F32.of_int n) (F32.of_int c)))
            <= (n + c - 1) / c).
  { intros c Hc. set (B := (n + c - 1) / c).
    assert (HB : n <= B * c).
    { unfold B. pose proof (Z.mul_div_le (n + c - 1) c ltac:(lia)).
      pose proof (Z.mod_pos_bound (n + c - 1) c ltac:(lia)).
      pose proof (Z.div_mod (n + c - 1) c ltac:(lia)). lia. }
    assert (HB0 : 0 <= B <= n).
    { unfold B. split; [apply Z.div_pos; lia|].
      apply Z.lt_succ_r. apply Z.div_lt_upper_bound; [lia|]. nia. }
    assert (Hq : fle F32.prec F32.emax (F32.div (F32.of_int n) (F32.of_int c)) B).
    { apply SFdiv_fle with c; try apply F32_ok; try lia.
      - apply fle_mono with n; [|assumption]. apply F32_of_int_fle; lia.
      - apply F32_of_int_fis. lia.
      - change (2 ^ F32.prec) with 16777216. lia. }
    pose proof (F64_of_float_fle _ B Hq ltac:(lia)) as H64.
    destruct (c_round_fle _ _ _ _ H64) as (z & Hz & Hr).
    unfold round_int. rewrite Hz.
    assert (in_int z = true) as ->.
    { unfold in_int, INT_MIN, INT_MAX.
      apply andb_true_intro. split; apply Z.leb_le; lia. }
    lia. }
  destruct (frame_number =? 0); apply Hb; assumption.
Qed.

Lemma max_pixels_bound_witness :
  0 <= maxPixels_of 3 2 0 demo_ctx <= (Z.of_nat 3 * Z.of_nat 2 + 2 - 1) / 2.
Proof.
  apply (max_pixels_bound 3 2 0 demo_ctx 1 2); try reflexivity; lia.
Defined.

(** ** Frame after frame *)

(** The two loops side by side, with the cursor: the decoder ends where
    the packet ends. *)
Lemma loops_sim_pos fuel width height pic pic' maxPixels : forall ce cd cfin,
  bytes_ok (frame_data pic) ->
  encode_loop fuel width height pic maxPixels ce = Ok cfin ->
  in_step ce cd ->
  (forall k, (pos ce <= k < pos cfin)%nat -> data cd k = data cfin k) ->
  size cd = Z.of_nat (pos cfin) ->
  exists cdfin,
    decode_loop fuel width height pic' (radius ce) cd = Ok cdfin /\
    pixels cdfin = pixels cfin /\ pos cdfin = pos cfin.
Proof.
  induction fuel as [|fuel IH]; intros ce cd cfin Hb; cbn [encode_loop decode_loop];
    [discriminate|].
  destruct (updateLines width height pic (radius ce) true ce) as [[ce' more] | | |] eqn:Hu;
    cbn [mbind result_bind]; try discriminate.
  intros Hl Hs Hd Hsz.
  pose proof (updateLines_frame _ _ _ _ _ _ _ _ Hu) as (P & D & E & Hrad & _).
  assert (Hends : (pos ce' <= pos cfin)%nat /\
                  (forall k, (k < pos ce')%nat -> data cfin k = data ce' k) /\
                  (pos cfin = pos ce' -> pixels cfin = pixels ce')).
  { destruct more; [destruct (numPixels ce' <? maxPixels)|].
    - apply (encode_loop_frame _ _ _ _ _ _ _ Hl).
    - injection Hl as <-. auto.
    - injection Hl as <-. auto. }
  destruct Hends as (P' & D' & E').
  destruct (updateLines_sim width height pic pic' (radius ce) ce cd ce' more Hb Hu Hs)
    as (cd' & -> & Hs' & Xd & Xsz).
  { intros k Hk. rewrite Hd by lia. apply D'. lia. }
  cbn [mbind result_bind].
  pose proof Hs' as (_ & _ & Hpx' & Hp').
  destruct more.
  - destruct (numPixels ce' <? maxPixels) eqn:Hn.
    + destruct (Z.ltb_spec (Z.of_nat (pos cd')) (size cd')) as [Hlt | Hge].
      * rewrite <- Hrad. apply (IH ce' cd' cfin Hb Hl Hs').
        -- intros k Hk. rewrite Xd. apply Hd. lia.
        -- congruence.
      * exists cd'. split; [reflexivity|].
        assert (pos cfin = pos ce') by lia.
        split; [rewrite Hpx'; symmetry; apply E'; assumption | lia].
    + injection Hl as <-.
      destruct (Z.ltb_spec (Z.of_nat (pos cd')) (size cd')) as [Hlt | Hge]; [lia|].
      exists cd'. auto.
  - injection Hl as <-. exists cd'. auto.
Qed.

(** One frame through the encoder and the decoder, with what the next
    frame needs. *)
Lemma round_trip_step width height frame_number pic pkt out ce cd :
  ctx_ok width height ce -> (0 < width)%nat -> (0 < height)%nat ->
  0 < radius ce < 256 -> bytes_ok (frame_data pic) ->
  765 * Z.of_nat width <= INT_MAX -> 765 * Z.of_nat height <= INT_MAX ->
  pixels cd = pixels ce ->
  length (xError cd) = width -> length (yError cd) = height ->
  exists pkt' ce' cd',
    splash_encode width height frame_number pic (inr pkt) ce
      = Ok (0, Some pkt', ce') /\
    splash_decode width height (inr out) pkt' cd
      = Ok (pkt_size pkt', Some (export_pixels width height (pixels cd') out), cd') /\
    pixels cd' = pixels ce' /\ Z.of_nat (pos cd') = size cd' /\
    ctx_ok width height ce' /\ radius ce' = radius ce /\
    length (xError cd') = width /\ length (yError cd') = height.
Proof.
  intros Hok Hw Hh Hr Hpic Ow Oh Hpx Lx Ly.
  assert (Hr' : radius ce <= INT_MAX) by (unfold INT_MAX; lia).
  destruct (splash_encode_run width height frame_number pic pkt ce Hok Hw Hh
              Hr' Hpic Ow Oh)
    as (ce1 & ce2 & Hok1 & Hrad & Hpx1 & Hpos & Hnum & HX & HY & Hl & He).
  destruct (encode_loop_account _ _ _ _ _ _ _ Hok1 Hw Hh
              ltac:(rewrite Hrad; unfold INT_MAX; lia) Hpic Hl)
    as (Hok2 & (Hrad2 & _) & _).
  pose proof (encode_loop_frame _ _ _ _ _ _ _ Hl) as (_ & Dfin & _).
  set (pkt' := packet_of (radius ce) ce2) in *.
  assert (Hhdr : Z.lor (Z.lor (pkt_data pkt' 0%nat) (Z.shiftl (pkt_data pkt' 1%nat) 8))
                       (Z.shiftl (pkt_data pkt' 2%nat) 16) = 12) by reflexivity.
  assert (Hradb : pkt_data pkt' HEADER_OFS_RADIUS = radius ce).
  { change (pkt_data pkt' HEADER_OFS_RADIUS) with (u8 (radius ce)).
    apply u8_small. lia. }
  set (d := fun k => pkt_data pkt' (12 + k)%nat).
  assert (Hd : forall k, d k = data ce2 k).
  { intros k. unfold d, pkt'. apply (packet_of_data (radius ce) ce2 k). }
  exists pkt', ce2.
  cbv beta iota zeta delta [splash_decode]. rewrite Hhdr, Hradb.
  change (Z.to_nat 12) with 12%nat. fold d.
  pose proof (load_ruler d width (xError cd) 0%nat ltac:(lia)) as LX.
  cbv zeta in LX.
  destruct (foldl (load_step d) (xError cd, 0%nat) (seq 0 width)) as [xD q1].
  cbn [fst snd] in LX. destruct LX as (DXL & DXP & DXV & _).
  pose proof (load_ruler d height (yError cd) q1 ltac:(lia)) as LY.
  cbv zeta in LY.
  destruct (foldl (load_step d) (yError cd, q1) (seq 0 height)) as [yD q2].
  cbn [fst snd] in LY. destruct LY as (DYL & DYP & DYV & _).
  assert (xD = xError ce1) as ->.
  { apply list_eq_total; [rewrite (ok_xlen _ _ _ Hok1); lia|]. intros k Hk.
    rewrite DXV by lia.
    rewrite (get_error_shift (data ce1) d (3 * k) (0 + 3 * k)).
    - rewrite (proj2 (HX k ltac:(lia))), <- (proj1 (HX k ltac:(lia))).
      apply u32_small. pose proof (ruler_ok_lookup _ k (ok_x _ _ _ Hok1)). lia.
    - intros c Hc. rewrite Hd. apply Dfin. lia. }
  assert (yD = yError ce1) as ->.
  { apply list_eq_total; [rewrite (ok_ylen _ _ _ Hok1); lia|]. intros k Hk.
    rewrite DYV by lia.
    rewrite (get_error_shift (data ce1) d (3 * width + 3 * k) (q1 + 3 * k)).
    - rewrite (proj2 (HY k ltac:(lia))), <- (proj1 (HY k ltac:(lia))).
      apply u32_small. pose proof (ruler_ok_lookup _ k (ok_y _ _ _ Hok1)). lia.
    - intros c Hc. rewrite Hd.
      replace (q1 + 3 * k + c)%nat with (3 * width + 3 * k + c)%nat by lia.
      apply Dfin. lia. }
  set (cd1 := {| radius := radius cd; ppf := ppf cd; ppk := ppk cd;
                 xError := xError ce1; yError := yError ce1; pixels := pixels cd;
                 data := d; pos := q2;
                 size := pkt_size pkt' - Z.of_nat HEADER_LENGTH;
                 numPixels := numPixels cd |}).
  assert (Hs : in_step ce1 cd1).
  { unfold in_step. cbn [cd1 xError yError pixels pos].
    split; [reflexivity|]. split; [reflexivity|]. split; [congruence | lia]. }
  assert (Hokd : ctx_ok width height cd1).
  { constructor; cbn [cd1 xError yError pixels]; try apply Hok1.
    - rewrite Hpx. apply Hok.
    - rewrite Hpx. apply Hok. }
  destruct (loops_sim_pos (loop_fuel width height) width height pic out
              (maxPixels_of width height frame_number ce) ce1 cd1 ce2 Hpic Hl Hs)
    as (cd2 & Hdl & Hpx2 & Hpos2).
  { intros k _. apply Hd. }
  { cbn [cd1 size]. unfold pkt', packet_of. cbn [pkt_size]. lia. }
  rewrite Hrad in Hdl.
  destruct (decode_loop_account _ _ _ _ _ _ _ Hokd Hw Hh Hr' Hdl)
    as (Hokd2 & (_ & _ & _ & Hsz) & _).
  rewrite Hdl. cbn [mbind result_bind].
  exists cd2. split; [exact He|]. split; [reflexivity|]. split; [exact Hpx2|].
  split.
  { rewrite Hsz, Hpos2. cbn [cd1 size]. unfold pkt', packet_of. cbn [pkt_size]. lia. }
  split; [exact Hok2|]. split; [congruence|].
  split; [apply Hokd2 | apply Hokd2].
Qed.

(** X2. Two frames in a row, for a radius between 1 and 255: the
    decoder, started on the canvas of the encoder and fed the packets in
    order, ends each frame on the canvas of the encoder, with its cursor
    exactly at the end of the data of the packet (the scan is never
    incomplete); the contexts one frame leaves are fit for the next. *)
Theorem round_trip_frames width height frame_number pic1 pic2 pkt1 pkt2
    out1 out2 ce cd :
  ctx_ok width height ce -> (0 < width)%nat -> (0 < height)%nat ->
  0 < radius ce < 256 ->
  bytes_ok (frame_data pic1) -> bytes_ok (frame_data pic2) ->
  765 * Z.of_nat width <= INT_MAX -> 765 * Z.of_nat height <= INT_MAX ->
  pixels cd = pixels ce ->
  length (xError cd) = width -> length (yError cd) = height ->
  exists p1 ce1 cd1 p2 ce2 cd2,
    splash_encode width height frame_number pic1 (inr pkt1) ce
      = Ok (0, Some p1, ce1) /\
    splash_decode width height (inr out1) p1 cd
      = Ok (pkt_size p1, Some (export_pixels width height (pixels cd1) out1), cd1) /\
    pixels cd1 = pixels ce1 /\ Z.of_nat (pos cd1) = size cd1 /\
    splash_encode width height (frame_number + 1) pic2 (inr pkt2) ce1
      = Ok (0, Some p2, ce2) /\
    splash_decode width height (inr out2) p2 cd1
      = Ok (pkt_size p2, Some (export_pixels width height (pixels cd2) out2), cd2) /\
    pixels cd2 = pixels ce2 /\ Z.of_nat (pos cd2) = size cd2.
Proof.
  intros Hok Hw Hh Hr Hb1 Hb2 Ow Oh Hpx Lx Ly.
  destruct (round_trip_step width height frame_number pic1 pkt1 out1 ce cd
              Hok Hw Hh Hr Hb1 Ow Oh Hpx Lx Ly)
    as (p1 & ce1 & cd1 & E1 & D1 & X1 & S1 & Hok1 & Hr1 & Lx1 & Ly1).
  destruct (round_trip_step width height (frame_number + 1) pic2 pkt2 out2 ce1 cd1
              Hok1 Hw Hh ltac:(rewrite Hr1; exact Hr) Hb2 Ow Oh X1 Lx1 Ly1)
    as (p2 & ce2 & cd2 & E2 & D2 & X2 & S2 & _).
  exists p1, ce1, cd1, p2, ce2, cd2. auto 10.
Qed.

Lemma round_trip_frames_witness :
  exists p1 ce1 cd1 p2 ce2 cd2,
    splash_encode 3 2 0 demo_pic (inr (fresh_packet 3 2)) demo_ctx
      = Ok (0, Some p1, ce1) /\
    splash_decode 3 2 (inr (empty_frame 24 12)) p1 demo_ctx
      = Ok (pkt_size p1, Some (export_pixels 3 2 (pixels cd1) (empty_frame 24 12)), cd1) /\
    splash_encode 3 2 (0 + 1) demo_pic (inr (fresh_packet 3 2)) ce1
      = Ok (0, Some p2, ce2) /\
    splash_decode 3 2 (inr (empty_frame 24 12)) p2 cd1
      = Ok (pkt_size p2, Some (export_pixels 3 2 (pixels cd2) (empty_frame 24 12)), cd2) /\
    pixels cd2 = pixels ce2.
Proof.
  assert (Hb : bytes_ok (frame_data demo_pic)).
  { unfold bytes_ok. cbn. repeat constructor; lia. }
  assert (H1 : (0 < 3)%nat) by lia. assert (H2 : (0 < 2)%nat) by lia.
  assert (H3 : 0 < radius demo_ctx < 256) by (cbn; lia).
  assert (H4 : 765 * Z.of_nat 3 <= INT_MAX) by (unfold INT_MAX; lia).
  assert (H5 : 765 * Z.of_nat 2 <= INT_MAX) by (unfold INT_MAX; lia).
  destruct (round_trip_frames 3 2 0 demo_pic demo_pic (fresh_packet 3 2)
              (fresh_packet 3 2) (empty_frame 24 12) (empty_frame 24 12)
              demo_ctx demo_ctx demo_ctx_ok H1 H2 H3 Hb Hb H4 H5 eq_refl eq_refl eq_refl)
    as (p1 & ce1 & cd1 & p2 & ce2 & cd2 & E1 & D1 & _ & _ & E2 & D2 & X2 & _).
  exists p1, ce1, cd1, p2, ce2, cd2. auto 10.
Defined.

(** ** A packet without errors *)




(** ** The decoder and the memory it reads *)

Lemma get_error_bytes d p :
  (forall c, (c < 3)%nat -> 0 <= d (p + c)%nat < 256) ->
  0 <= get_error d p < 2 ^ 24.
Proof.
  intros Hd.
  set (d' := fun k => if (decide (p <= k < p + 3)%nat) then d k else 0).
  assert (Hb : forall k, 0 <= d' k < 256).
  { intros k. unfold d'. destruct (decide _) as [Hk | Hk]; [|lia].
    replace k with (p + (k - p))%nat by lia. apply Hd. lia. }
  rewrite (get_error_ext d' d p); [apply get_error_range; exact Hb|].
  intros c Hc. unfold d'. destruct (decide _) as [Hk | Hk]; [reflexivity | lia].
Qed.

(** Loading a ruler from bytes: entries of 24 bits. *)
Lemma load_ruler_ok_in d n ruler p :
  (forall k, (p <= k < p + 3 * n)%nat -> 0 <= d k < 256) -> length ruler = n ->
  ruler_ok (foldl (load_step d) (ruler, p) (seq 0 n)).1.
Proof.
  intros Hd Hlen. pose proof (load_ruler d n ruler p ltac:(lia)) as H.
  cbv zeta in H. destruct H as (L & _ & Lo & _).
  apply Forall_lookup_2. intros k v Hkv.
  assert (Hk : (k < n)%nat) by (apply lookup_lt_Some in Hkv; lia).
  apply list_lookup_total_correct in Hkv. rewrite Lo in Hkv by assumption. subst v.
  pose proof (get_error_bytes d (p + 3 * k)%nat) as Hg.
  rewrite u32_small; [apply Hg | pose proof (Hg ltac:(intros; apply Hd; lia)); lia].
  intros c Hc. apply Hd. lia.
Qed.

(** Loading a ruler reads its [3 * n] bytes only. *)
Lemma load_ruler_ext d d' n ruler p :
  (n <= length ruler)%nat ->
  (forall k, (p <= k < p + 3 * n)%nat -> d' k = d k) ->
  foldl (load_step d') (ruler, p) (seq 0 n)
  = foldl (load_step d) (ruler, p) (seq 0 n).
Proof.
  intros Hn He.
  pose proof (load_ruler d n ruler p Hn) as H. cbv zeta in H.
  pose proof (load_ruler d' n ruler p Hn) as H'. cbv zeta in H'.
  destruct (foldl (load_step d) (ruler, p) (seq 0 n)) as [r1 p1].
  destruct (foldl (load_step d') (ruler, p) (seq 0 n)) as [r2 p2].
  cbn [fst snd] in *. destruct H as (L & P & Lo & Hi), H' as (L' & P' & Lo' & Hi').
  f_equal; [|lia]. apply list_eq_total; [lia|]. intros k Hk.
  destruct (decide (k < n)%nat) as [Hlt | Hge].
  - rewrite Lo, Lo' by assumption. f_equal. apply get_error_ext.
    intros c Hc. apply He. lia.
  - rewrite Hi, Hi' by lia. reflexivity.
Qed.

(** One cross point read from two data buffers that hold the same
    sample. *)
Lemma cross_at_ext width pic r xE yE maxError p cs st st' st2 :
  cross_at width pic r false xE yE maxError p cs st = Ok st' ->
  s_pixels st2 = s_pixels st -> s_p st2 = s_p st ->
  (forall c, (c < 3)%nat -> s_data st2 (s_p st + c)%nat = s_data st (s_p st + c)%nat) ->
  exists st2',
    cross_at width pic r false xE yE maxError p cs st2 = Ok st2' /\
    s_pixels st2' = s_pixels st' /\ s_p st2' = s_p st' /\
    s_data st2' = s_data st2.
Proof.
  intros He Hpx Hp Hd. unfold cross_at, read_pixel in *.
  cbn [s_pixels s_data s_p s_num] in *.
  rewrite Hp, Hpx.
  pose proof (Hd 0%nat ltac:(lia)) as D0. rewrite Nat.add_0_r in D0.
  rewrite D0, (Hd 1%nat), (Hd 2%nat) by lia.
  destruct (forM _ cs (s_pixels st)) as [px | | |];
    cbn [mbind result_bind] in *; try discriminate.
  injection He as <-. eexists. split; [reflexivity|].
  cbn [with_pixels s_pixels s_p s_data]. auto.
Qed.

Lemma forM_cross_ext width pic r xE yE maxError l : forall st st' st2,
  forM (fun st p => cross_at width pic r false xE yE maxError p.1 p.2 st) l st
  = Ok st' ->
  s_pixels st2 = s_pixels st -> s_p st2 = s_p st ->
  (forall k, (s_p st <= k < s_p st')%nat -> s_data st2 k = s_data st k) ->
  exists st2',
    forM (fun st p => cross_at width pic r false xE yE maxError p.1 p.2 st) l st2
    = Ok st2' /\
    s_pixels st2' = s_pixels st' /\ s_p st2' = s_p st' /\
    s_data st2' = s_data st2.
Proof.
  induction l as [|p l IH]; intros st st' st2; cbn [forM].
  - intros [= <-] Hpx Hp _. exists st2. auto.
  - destruct (cross_at width pic r false xE yE maxError p.1 p.2 st)
      as [st1 | | |] eqn:Hc; cbn [mbind result_bind]; try discriminate.
    intros Hl Hpx Hp Hd.
    pose proof (cross_at_frame _ _ _ _ _ _ _ _ _ _ _ Hc) as [P1 _].
    pose proof (cross_at_decode _ _ _ _ _ _ _ _ _ _ Hc) as [D1 _].
    pose proof (forM_cross_frame _ _ _ _ _ _ _ _ _ _ Hl) as (P2 & _ & _).
    destruct (cross_at_ext _ _ _ _ _ _ _ _ _ _ st2 Hc Hpx Hp) as (s1 & -> & Xpx & Xp & Xd).
    { intros c Hc3. apply Hd. lia. }
    cbn [mbind result_bind].
    destruct (IH st1 st' s1 Hl Xpx Xp) as (s' & -> & Ypx & Yp & Yd).
    { intros k Hk. rewrite Xd, D1. apply Hd. lia. }
    exists s'. split; [reflexivity|]. split; [assumption|]. split; [assumption|].
    congruence.
Qed.

(** A decoding call changes neither the data buffer nor the size. *)
Lemma updateLines_decode_data width height pic r ctx ctx' b :
  updateLines width height pic r false ctx = Ok (ctx', b) ->
  data ctx' = data ctx /\ size ctx' = size ctx.
Proof.
  rewrite updateLines_cross_points. unfold scan_cross_points.
  destruct (fill_rulers width height r ctx) as [[xE yE] maxError].
  destruct (select width height ctx).
  - intros [= <- <-]. auto.
  - destruct (forM _ _ _) as [st | | |] eqn:Hf; cbn [mbind result_bind]; try discriminate.
    intros [= <- <-]. apply forM_cross_decode in Hf as [D N].
    cbn [commit data size scan_of s_data] in *. auto.
  - destruct (forM _ _ _) as [st | | |] eqn:Hf; cbn [mbind result_bind]; try discriminate.
    intros [= <- <-]. apply forM_cross_decode in Hf as [D N].
    cbn [commit data size scan_of s_data] in *. auto.
Qed.

(** A decoding call reads the data buffer between its old and its new
    cursor only. *)
Lemma updateLines_ext width height pic r c c2 c' b :
  updateLines width height pic r false c = Ok (c', b) ->
  in_step c c2 ->
  (forall k, (pos c <= k < pos c')%nat -> data c2 k = data c k) ->
  exists c2',
    updateLines width height pic r false c2 = Ok (c2', b) /\
    in_step c' c2' /\ data c2' = data c2 /\ size c2' = size c2.
Proof.
  intros He Hs Hd. rewrite updateLines_cross_points in *.
  unfold scan_cross_points in *.
  rewrite (select_in_step _ _ _ _ Hs), (fill_rulers_in_step _ _ _ _ _ Hs),
    (cross_points_in_step _ _ _ _ _ Hs).
  destruct (fill_rulers width height r c) as [[xE yE] maxError]. cbn [fst snd] in *.
  assert (forall st,
    forM (fun st p => cross_at width pic r false xE yE maxError p.1 p.2 st)
         (cross_points width height r c) (scan_of c) = Ok st ->
    (forall k, (pos c <= k < s_p st)%nat -> data c2 k = data c k) ->
    exists sd,
      forM (fun st p => cross_at width pic r false xE yE maxError p.1 p.2 st)
           (cross_points width height r c) (scan_of c2) = Ok sd /\
      s_pixels sd = s_pixels st /\ s_p sd = s_p st /\ s_data sd = data c2) as Hst.
  { intros st Hf Hk. destruct Hs as (_ & _ & Hpx & Hp).
    apply (forM_cross_ext width pic r xE yE maxError _ _ _ (scan_of c2) Hf);
      cbn [scan_of s_pixels s_p s_data]; auto. }
  destruct (select width height c).
  - injection He as <- <-. exists c2. auto.
  - destruct (forM _ _ (scan_of c)) as [st | | |]; cbn [mbind result_bind] in He;
      try discriminate.
    injection He as <- <-. cbn [commit pos data] in Hd.
    destruct (Hst st eq_refl Hd) as (sd & -> & Xpx & Xp & Xd).
    cbn [mbind result_bind]. eexists. split; [reflexivity|].
    unfold in_step. cbn [commit xError yError pixels pos data size]. auto.
  - destruct (forM _ _ (scan_of c)) as [st | | |]; cbn [mbind result_bind] in He;
      try discriminate.
    injection He as <- <-. cbn [commit pos data] in Hd.
    destruct (Hst st eq_refl Hd) as (sd & -> & Xpx & Xp & Xd).
    cbn [mbind result_bind]. eexists. split; [reflexivity|].
    unfold in_step. cbn [commit xError yError pixels pos data size]. auto.
Qed.

Lemma decode_loop_mono fuel width height pic r : forall c cfin,
  decode_loop fuel width height pic r c = Ok cfin -> (pos c <= pos cfin)%nat.
Proof.
  induction fuel as [|fuel IH]; intros c cfin; cbn [decode_loop]; [discriminate|].
  destruct (updateLines width height pic r false c) as [[c' more] | | |] eqn:Hu;
    cbn [mbind result_bind]; try discriminate.
  apply updateLines_frame in Hu as (P & _).
  destruct more; [|intros [= <-]; exact P].
  destruct (Z.of_nat (pos c') <? size c'); [|intros [= <-]; exact P].
  intros Hl. apply IH in Hl. lia.
Qed.

(** The loop of the decoder reads the data buffer between its first and
    its last cursor only. *)
Lemma decode_loop_ext fuel width height pic r : forall c c2 cfin,
  decode_loop fuel width height pic r c = Ok cfin ->
  in_step c c2 -> size c2 = size c ->
  (forall k, (pos c <= k < pos cfin)%nat -> data c2 k = data c k) ->
  exists c2fin,
    decode_loop fuel width height pic r c2 = Ok c2fin /\ in_step cfin c2fin.
Proof.
  induction fuel as [|fuel IH]; intros c c2 cfin; cbn [decode_loop]; [discriminate|].
  destruct (updateLines width height pic r false c) as [[c' more] | | |] eqn:Hu;
    cbn [mbind result_bind]; try discriminate.
  intros Hl Hs Hsz Hd.
  pose proof (updateLines_frame _ _ _ _ _ _ _ _ Hu) as (P & _).
  pose proof (updateLines_decode_data _ _ _ _ _ _ _ Hu) as [D Z].
  assert (Hmono : (pos c' <= pos cfin)%nat).
  { destruct more; [destruct (Z.of_nat (pos c') <? size c')|].
    - apply (decode_loop_mono _ _ _ _ _ _ _ Hl).
    - injection Hl as <-. lia.
    - injection Hl as <-. lia. }
  destruct (updateLines_ext width height pic r c c2 c' more Hu Hs)
    as (c2' & -> & Hs' & Xd & Xsz).
  { intros k Hk. apply Hd. lia. }
  cbn [mbind result_bind].
  pose proof Hs' as (_ & _ & _ & Hp').
  destruct more; [|injection Hl as <-; exists c2'; auto].
  rewrite Hp', Xsz, Hsz, <- Z.
  destruct (Z.of_nat (pos c') <? size c'); [|injection Hl as <-; exists c2'; auto].
  apply (IH c' c2' cfin Hl Hs'); [congruence|].
  intros k Hk. rewrite Xd, D. apply Hd. lia.
Qed.

(** The run of [splash_decode] on a packet whose rulers are bytes:
    [ctx1] is the context when the rulers are loaded, [ctx'] the one the
    loop ends on. *)
Lemma splash_decode_run width height pic avpkt ctx :
  (0 < width)%nat -> (0 < height)%nat ->
  length (xError ctx) = width -> length (yError ctx) = height ->
  length (pixels ctx) = (width * height * 4)%nat -> bytes_ok (pixels ctx) ->
  let hdr := declared_header avpkt in
  let d := fun k => pkt_data avpkt (hdr + k)%nat in
  (forall k, (k < 3 * (width + height))%nat -> 0 <= d k < 256) ->
  pkt_data avpkt HEADER_OFS_RADIUS <= INT_MAX ->
  exists ctx1 ctx',
    ctx_ok width height ctx1 /\
    xError ctx1 = (foldl (load_step d) (xError ctx, 0%nat) (seq 0 width)).1 /\
    yError ctx1
    = (foldl (load_step d) (yError ctx, (3 * width)%nat) (seq 0 height)).1 /\
    pixels ctx1 = pixels ctx /\ data ctx1 = d /\
    pos ctx1 = (3 * (width + height))%nat /\
    size ctx1 = pkt_size avpkt - Z.of_nat HEADER_LENGTH /\
    radius ctx1 = radius ctx /\ numPixels ctx1 = numPixels ctx /\
    decode_loop (loop_fuel width height) width height pic
                (pkt_data avpkt HEADER_OFS_RADIUS) ctx1 = Ok ctx' /\
    splash_decode width height (inr pic) avpkt ctx
    = Ok (pkt_size avpkt, Some (export_pixels width height (pixels ctx') pic), ctx').
Proof.
  intros Hw Hh Lx Ly Lp Bp hdr d Hb Hr. unfold splash_decode.
  fold (declared_header avpkt). fold hdr. fold d.
  pose proof (load_ruler_ok_in d width (xError ctx) 0%nat
                ltac:(intros; apply Hb; lia) Lx) as HXok.
  pose proof (load_ruler d width (xError ctx) 0%nat ltac:(lia)) as PX.
  cbv zeta in PX.
  destruct (foldl (load_step d) (xError ctx, 0%nat) (seq 0 width)) as [xE p1].
  cbn [fst snd] in HXok, PX. destruct PX as (XL & XP & _).
  assert (p1 = 3 * width)%nat as -> by lia.
  pose proof (load_ruler_ok_in d height (yError ctx) (3 * width)%nat
                ltac:(intros; apply Hb; lia) Ly) as HYok.
  pose proof (load_ruler d height (yError ctx) (3 * width)%nat ltac:(lia)) as PY.
  cbv zeta in PY.
  destruct (foldl (load_step d) (yError ctx, (3 * width)%nat) (seq 0 height)) as [yE p2].
  cbn [fst snd] in HYok, PY. destruct PY as (YL & YP & _).
  set (ctx1 := {| radius := radius ctx; ppf := ppf ctx; ppk := ppk ctx;
                  xError := xE; yError := yE; pixels := pixels ctx;
                  data := d; pos := p2;
                  size := pkt_size avpkt - Z.of_nat HEADER_LENGTH;
                  numPixels := numPixels ctx |}).
  assert (Hok1 : ctx_ok width height ctx1).
  { constructor; cbn [ctx1 xError yError pixels]; try assumption; lia. }
  destruct (decode_loop_ends (loop_fuel width height) width height pic
              (pkt_data avpkt HEADER_OFS_RADIUS) ctx1 Hok1 Hw Hh Hr)
    as (ctx' & Hl & _).
  { pose proof (todo_le width height ctx1 Hok1). unfold loop_fuel. lia. }
  exists ctx1, ctx'. rewrite Hl. cbn [mbind result_bind].
  split; [exact Hok1|]. do 4 (split; [reflexivity|]).
  split; [cbn [ctx1 pos]; lia|]. do 3 (split; [reflexivity|]).
  split; reflexivity.
Qed.

(** [splash_decode] on a packet that holds what the decoder can read:
    where it ends, and which bytes its outcome depends on. *)
Lemma splash_decode_inside width height pic a1 ctx :
  (0 < width)%nat -> (0 < height)%nat ->
  length (xError ctx) = width -> length (yError ctx) = height ->
  length (pixels ctx) = (width * height * 4)%nat -> bytes_ok (pixels ctx) ->
  holds_reads width height a1 -> packet_bytes_ok a1 ->
  let hdr := declared_header a1 in
  exists ctx',
    splash_decode width height (inr pic) a1 ctx
    = Ok (pkt_size a1, Some (export_pixels width height (pixels ctx') pic), ctx') /\
    ctx_ok width height ctx' /\
    (3 * (width + height) <= pos ctx'
     <= 3 * (width + height) + 3 * (width * height))%nat /\
    numPixels ctx' = numPixels ctx /\ radius ctx' = radius ctx /\
    size ctx' = pkt_size a1 - 12 /\
    (all_exact width height ctx' \/ pkt_size a1 - 12 <= Z.of_nat (pos ctx')) /\
    forall a2,
      pkt_size a2 = pkt_size a1 ->
      pkt_data a2 0%nat = pkt_data a1 0%nat ->
      pkt_data a2 1%nat = pkt_data a1 1%nat ->
      pkt_data a2 2%nat = pkt_data a1 2%nat ->
      pkt_data a2 HEADER_OFS_RADIUS = pkt_data a1 HEADER_OFS_RADIUS ->
      (forall k, (hdr <= k < hdr + 3 * (width + height) + 3 * (width * height))%nat ->
                 pkt_data a2 k = pkt_data a1 k) ->
      exists ctx2,
        splash_decode width height (inr pic) a2 ctx
        = Ok (pkt_size a2, Some (export_pixels width height (pixels ctx') pic), ctx2) /\
        in_step ctx' ctx2.
Proof.
  intros Hw Hh Lx Ly Lp Bp [Hhdr Hin] Hb. cbv zeta.
  set (hdr := declared_header a1) in *.
  assert (Hd1 : forall k, (k < 3 * (width + height))%nat ->
                          0 <= pkt_data a1 (hdr + k)%nat < 256).
  { intros k Hk. apply Hb. lia. }
  assert (Hr1 : pkt_data a1 HEADER_OFS_RADIUS <= INT_MAX).
  { pose proof (Hb HEADER_OFS_RADIUS ltac:(unfold HEADER_OFS_RADIUS, HEADER_LENGTH in *; lia)).
    unfold INT_MAX. lia. }
  destruct (splash_decode_run width height pic a1 ctx Hw Hh Lx Ly Lp Bp Hd1 Hr1)
    as (c1 & c' & Hok1 & X1 & Y1 & Px1 & D1 & P1 & S1 & R1 & N1 & Hl1 & He1).
  fold hdr in X1, Y1, D1.
  destruct (decode_loop_account _ _ _ _ _ _ _ Hok1 Hw Hh Hr1 Hl1)
    as (Hok' & (Hrad & _ & _ & Hsz) & Hmono & P & N & _ & Hend).
  pose proof (exact_pairs_le width height c') as Hle.
  exists c'. split; [exact He1|]. split; [exact Hok'|].
  split; [lia|]. split; [congruence|]. split; [congruence|].
  split; [rewrite Hsz, S1; unfold HEADER_LENGTH; lia|].
  split.
  { destruct Hend as [Ha | Hs]; [left; exact Ha|].
    right. rewrite S1 in Hs. unfold HEADER_LENGTH in Hs. lia. }
  intros a2 Hs2 E0 E1 E2 E10 Ereg.
  assert (Hh2 : declared_header a2 = hdr).
  { unfold hdr, declared_header. cbv zeta. rewrite E0, E1, E2. reflexivity. }
  assert (Hd2 : forall k, (k < 3 * (width + height))%nat ->
                          0 <= pkt_data a2 (declared_header a2 + k)%nat < 256).
  { intros k Hk. rewrite Hh2, Ereg by lia. apply Hd1. assumption. }
  destruct (splash_decode_run width height pic a2 ctx Hw Hh Lx Ly Lp Bp Hd2
              ltac:(rewrite E10; exact Hr1))
    as (c2 & c2' & Hok2 & X2 & Y2 & Px2 & D2 & P2 & S2 & R2 & N2 & Hl2 & He2).
  rewrite Hh2 in X2, Y2, D2.
  assert (Hs : in_step c1 c2).
  { unfold in_step. rewrite X1, X2, Y1, Y2, Px1, Px2, P1, P2.
    split; [|split; [|split; reflexivity]].
    - rewrite (load_ruler_ext (fun k => pkt_data a1 (hdr + k)%nat)
                 (fun k => pkt_data a2 (hdr + k)%nat)); [reflexivity | lia |].
      intros k Hk. apply Ereg. lia.
    - rewrite (load_ruler_ext (fun k => pkt_data a1 (hdr + k)%nat)
                 (fun k => pkt_data a2 (hdr + k)%nat)); [reflexivity | lia |].
      intros k Hk. apply Ereg. lia. }
  destruct (decode_loop_ext _ _ _ _ _ c1 c2 c' Hl1 Hs) as (c2fin & Hl2' & Hs').
  { rewrite S1, S2, Hs2. reflexivity. }
  { intros k Hk. rewrite D1, D2. apply Ereg. lia. }
  rewrite E10 in Hl2. rewrite Hl2 in Hl2'. injection Hl2' as ->.
  exists c2fin. split; [|exact Hs'].
  rewrite He2. destruct Hs' as (_ & _ & Hpx & _). rewrite Hpx. reflexivity.
Qed.

(** C2, amended.  [splash_decode] does not look at the magic or at the
    version.  For every packet of bytes that declares the header length
    12 and holds what the decoder can read (the rulers and a sample for
    every pixel), whatever its magic and its version: the call ends,
    returns the size of the packet, never an error code, and exports
    the canvas; its cursor stays inside the packet; and a packet that
    differs from it in the magic and the version only is decoded to the
    same frame, rulers and cursor. *)
Theorem decode_accepts width height pic avpkt ctx :
  (0 < width)%nat -> (0 < height)%nat ->
  length (xError ctx) = width -> length (yError ctx) = height ->
  length (pixels ctx) = (width * height * 4)%nat -> bytes_ok (pixels ctx) ->
  declared_header avpkt = HEADER_LENGTH ->
  holds_reads width height avpkt -> packet_bytes_ok avpkt ->
  exists ctx',
    splash_decode width height (inr pic) avpkt ctx =
    Ok (pkt_size avpkt, Some (export_pixels width height (pixels ctx') pic), ctx') /\
    ~ rejected (splash_decode width height (inr pic) avpkt ctx) /\
    ctx_ok width height ctx' /\
    Z.of_nat (HEADER_LENGTH + pos ctx') <= pkt_size avpkt /\
    forall avpkt2, same_but_magic avpkt avpkt2 ->
      exists ctx2,
        splash_decode width height (inr pic) avpkt2 ctx =
        Ok (pkt_size avpkt2,
            Some (export_pixels width height (pixels ctx') pic), ctx2) /\
        ~ rejected (splash_decode width height (inr pic) avpkt2 ctx) /\
        in_step ctx' ctx2.
Proof.
  intros Hw Hh Lx Ly Lp Bp Hhdr Hin Hb.
  destruct (splash_decode_inside width height pic avpkt ctx Hw Hh Lx Ly Lp Bp Hin Hb)
    as (ctx' & He & Hok & Hpos & _ & _ & _ & _ & Hext).
  rewrite Hhdr in Hext. destruct Hin as [H12 Hin]. rewrite Hhdr in Hin.
  exists ctx'. split; [exact He|]. split; [|split; [exact Hok|split; [lia|]]].
  - intros (ret & c & E & _). rewrite He in E. discriminate E.
  - intros avpkt2 [Hs2 Hsame].
    unfold HEADER_LENGTH, HEADER_OFS_RADIUS in *.
    destruct (Hext avpkt2 Hs2) as (ctx2 & He2 & Hs); try (apply Hsame; lia).
    { intros k Hk. apply Hsame; lia. }
    exists ctx2. split; [exact He2|]. split; [|exact Hs].
    intros (ret & c & E & _). rewrite He2 in E. discriminate E.
Qed.

Lemma bad_packet_inside :
  declared_header bad_packet = HEADER_LENGTH /\
  holds_reads 1 1 bad_packet /\ packet_bytes_ok bad_packet.
Proof.
  split; [reflexivity|]. split.
  - split; vm_compute; discriminate.
  - intros k Hk. cbn [bad_packet pkt_data pkt_size] in *.
    do 21 (destruct k as [|k]; [cbn; lia|]). lia.
Defined.

Lemma decode_accepts_witness :
  malformed 1 1 bad_packet /\
  exists ctx',
    splash_decode 1 1 (inr (empty_frame 4 4)) bad_packet pixel_ctx =
    Ok (pkt_size bad_packet,
        Some (export_pixels 1 1 (pixels ctx') (empty_frame 4 4)), ctx') /\
    Z.of_nat (HEADER_LENGTH + pos ctx') <= pkt_size bad_packet.
Proof.
  assert (H1 : (0 < 1)%nat) by lia.
  assert (Hm : malformed 1 1 bad_packet) by (left; vm_compute; discriminate).
  assert (Hp : bytes_ok (pixels pixel_ctx)).
  { cbn. unfold bytes_ok. repeat constructor; lia. }
  destruct bad_packet_inside as (Hh & Hin & Hb).
  split; [exact Hm|].
  destruct (decode_accepts 1 1 (empty_frame 4 4) bad_packet pixel_ctx
              H1 H1 eq_refl eq_refl eq_refl Hp Hh Hin Hb) as (ctx' & He & _ & _ & Hc & _).
  exists ctx'. split; [exact He | exact Hc].
Defined.

(** X20. What [splash_decode] consumes.  For a packet of bytes that
    holds the header and, from the header length it declares, the rulers
    and three bytes for every pixel: the call ends on a well-formed
    context whose cursor is past the rulers and at most three bytes a
    pixel further, so inside the packet; it counts no pixels and keeps
    the radius of the context; it takes the size of the data from the
    size of the packet; it stops only when every line is exact or the
    cursor has reached that size; and the outcome does not depend on
    the memory that follows the packet. *)
Theorem decode_consumes width height pic avpkt ctx :
  (0 < width)%nat -> (0 < height)%nat ->
  length (xError ctx) = width -> length (yError ctx) = height ->
  length (pixels ctx) = (width * height * 4)%nat -> bytes_ok (pixels ctx) ->
  holds_reads width height avpkt -> packet_bytes_ok avpkt ->
  exists ctx',
    splash_decode width height (inr pic) avpkt ctx
    = Ok (pkt_size avpkt, Some (export_pixels width height (pixels ctx') pic), ctx') /\
    ctx_ok width height ctx' /\
    (3 * (width + height) <= pos ctx'
     <= 3 * (width + height) + 3 * (width * height))%nat /\
    Z.of_nat (declared_header avpkt + pos ctx') <= pkt_size avpkt /\
    numPixels ctx' = numPixels ctx /\ radius ctx' = radius ctx /\
    size ctx' = pkt_size avpkt - 12 /\
    (all_exact width height ctx' \/ pkt_size avpkt - 12 <= Z.of_nat (pos ctx')) /\
    forall avpkt2, same_packet avpkt avpkt2 ->
      exists ctx2,
        splash_decode width height (inr pic) avpkt2 ctx
        = Ok (pkt_size avpkt2,
              Some (export_pixels width height (pixels ctx') pic), ctx2) /\
        in_step ctx' ctx2.
Proof.
  intros Hw Hh Lx Ly Lp Bp Hin Hb.
  destruct (splash_decode_inside width height pic avpkt ctx Hw Hh Lx Ly Lp Bp Hin Hb)
    as (ctx' & He & Hok & Hpos & Hn & Hr & Hsz & Hend & Hext).
  destruct Hin as [H12 Hin].
  exists ctx'. split; [exact He|]. split; [exact Hok|]. split; [exact Hpos|].
  split; [lia|]. split; [exact Hn|]. split; [exact Hr|]. split; [exact Hsz|].
  split; [exact Hend|].
  intros avpkt2 [Hs2 Hsame].
  unfold HEADER_LENGTH, HEADER_OFS_RADIUS in *.
  apply (Hext avpkt2 Hs2); try (apply Hsame; lia).
  intros k Hk. apply Hsame. lia.
Qed.

Lemma decode_consumes_witness :
  exists ctx',
    splash_decode 1 1 (inr (empty_frame 4 4)) bad_packet pixel_ctx
    = Ok (pkt_size bad_packet,
          Some (export_pixels 1 1 (pixels ctx') (empty_frame 4 4)), ctx') /\
    Z.of_nat (declared_header bad_packet + pos ctx') <= pkt_size bad_packet.
Proof.
  assert (H1 : (0 < 1)%nat) by lia.
  assert (Hp : bytes_ok (pixels pixel_ctx)).
  { unfold bytes_ok. cbn. repeat constructor; lia. }
  destruct bad_packet_inside as (_ & Hin & Hb).
  destruct (decode_consumes 1 1 (empty_frame 4 4) bad_packet pixel_ctx
              H1 H1 eq_refl eq_refl eq_refl Hp Hin Hb)
    as (ctx' & He & _ & _ & Hc & _).
  exists ctx'. split; [exact He | exact Hc].
Defined.
